(** * FiddoJS: the validation engine of [fiddo.js], embedded in Rocq

    The development follows the layout of the JavaScript source:
    [Utils], [Messages], [ValidationError], [Validator],
    [StandardValidator], [RemoteValidator], [Constraint], [Field] and
    [GroupField].  The DOM, jQuery and the network are outside the
    program; they enter the model as an explicit environment (the value
    read from an element, what a selector matches, what the server
    answers).

    Promises are modelled by the way they settle.  The engine runs on one
    thread and every asynchronous step of an evaluation is chained, so
    the observable content of an evaluation is the settlement of the
    promise it returns, the state it leaves in the field objects and the
    trace of the calls it made.  Evaluations that the concurrent
    strategy starts together are run to their settlement one after the
    other, in the order they are started: the trace shows one of the
    possible interleavings.  An evaluation of a field is taken to settle
    before the next evaluation of that field starts. *)

From Stdlib Require Import List String Ascii ZArith Bool Lia Arith.
From Stdlib Require Import Sorting.Permutation Sorting.Sorted DecimalString.
Import ListNotations.
Local Open Scope string_scope.
Local Open Scope list_scope.

Set Warnings "-register-all".

(* ================================================================== *)
(** ** JavaScript values *)
(* ================================================================== *)

(** Arrays and objects carry the identity of the heap object that holds
    them: [===] on two arrays compares identities, not contents.
    Strings are sequences of code units below 256; numbers are not
    needed as field values (a DOM attribute or input value is a string
    or an array of strings). *)
Inductive jsval : Type :=
| VUndefined
| VNull
| VBool (b : bool)
| VStr (s : string)
| VArr (ref : nat) (elems : list jsval)
| VObj (ref : nat) (props : list (string * jsval)).

(** ToBoolean *)
Definition truthy (v : jsval) : bool :=
  match v with
  | VUndefined | VNull => false
  | VBool b => b
  | VStr s => negb (s =? "")
  | VArr _ _ | VObj _ _ => true
  end.

(** [a || b] *)
Definition js_or (a b : jsval) : jsval := if truthy a then a else b.

(** [typeof v === 'object'] (true of [null]) *)
Definition typeof_object (v : jsval) : bool :=
  match v with
  | VNull | VArr _ _ | VObj _ _ => true
  | _ => false
  end.

Definition isArray (v : jsval) : bool :=
  match v with VArr _ _ => true | _ => false end.

(** [a === b] *)
Definition strict_eq (a b : jsval) : bool :=
  match a, b with
  | VUndefined, VUndefined => true
  | VNull, VNull => true
  | VBool x, VBool y => Bool.eqb x y
  | VStr x, VStr y => (x =? y)
  | VArr r1 _, VArr r2 _ => Nat.eqb r1 r2
  | VObj r1 _, VObj r2 _ => Nat.eqb r1 r2
  | _, _ => false
  end.

(** Structural ("deep") equality: same shape and same contents, whatever
    the identities of the arrays and objects involved. *)
Fixpoint deep_eq (a b : jsval) {struct a} : bool :=
  match a, b with
  | VUndefined, VUndefined => true
  | VNull, VNull => true
  | VBool x, VBool y => Bool.eqb x y
  | VStr x, VStr y => (x =? y)
  | VArr _ l1, VArr _ l2 =>
      (fix go (l1 l2 : list jsval) {struct l1} : bool :=
         match l1, l2 with
         | [], [] => true
         | x :: l1', y :: l2' => deep_eq x y && go l1' l2'
         | _, _ => false
         end) l1 l2
  | VObj _ p1, VObj _ p2 =>
      (fix go (p1 p2 : list (string * jsval)) {struct p1} : bool :=
         match p1, p2 with
         | [], [] => true
         | (k1, x) :: p1', (k2, y) :: p2' =>
             (k1 =? k2) && deep_eq x y && go p1' p2'
         | _, _ => false
         end) p1 p2
  | _, _ => false
  end.

(** [Array.prototype.join(',')] over already converted elements. *)
Fixpoint join_comma (l : list string) : string :=
  match l with
  | [] => ""
  | [x] => x
  | x :: rest => x ++ "," ++ join_comma rest
  end.

(** ToString.  Inside [Array.prototype.toString] the elements
    [undefined] and [null] print as the empty string. *)
Fixpoint toString (v : jsval) : string :=
  match v with
  | VUndefined => "undefined"
  | VNull => "null"
  | VBool true => "true"
  | VBool false => "false"
  | VStr s => s
  | VArr _ l =>
      join_comma
        ((fix go (l : list jsval) : list string :=
            match l with
            | [] => []
            | VUndefined :: l' => "" :: go l'
            | VNull :: l' => "" :: go l'
            | x :: l' => toString x :: go l'
            end) l)
  | VObj _ _ => "[object Object]"
  end.

(** Property read [o.k] / [o?.k] on a value: own properties of an
    object, [undefined] otherwise. *)
Fixpoint lookup_prop (k : string) (props : list (string * jsval)) : jsval :=
  match props with
  | [] => VUndefined
  | (k', v) :: rest => if k' =? k then v else lookup_prop k rest
  end.

Definition get_prop (v : jsval) (k : string) : jsval :=
  match v with
  | VObj _ props => lookup_prop k props
  | _ => VUndefined
  end.

(** Assignment [o[k] = v] on an ordered property list: an existing key
    keeps its place, a new key goes last. *)
Fixpoint set_prop {A : Type} (k : string) (v : A) (props : list (string * A))
  : list (string * A) :=
  match props with
  | [] => [(k, v)]
  | (k', v') :: rest =>
      if k' =? k then (k, v) :: rest else (k', v') :: set_prop k v rest
  end.

(* ================================================================== *)
(** ** Strings *)
(* ================================================================== *)

(** WhiteSpace and LineTerminator code units below 256:
    TAB, LF, VT, FF, CR, SP and NBSP. *)
Definition is_whitespace (c : ascii) : bool :=
  let n := nat_of_ascii c in
  (Nat.eqb n 9 || Nat.eqb n 10 || Nat.eqb n 11 || Nat.eqb n 12
   || Nat.eqb n 13 || Nat.eqb n 32 || Nat.eqb n 160)%bool.

Fixpoint trim_start (s : string) : string :=
  match s with
  | EmptyString => EmptyString
  | String c rest => if is_whitespace c then trim_start rest else s
  end.

(** Drops trailing whitespace: a character is kept when it is not
    whitespace or something is kept after it. *)
Fixpoint trim_end (s : string) : string :=
  match s with
  | EmptyString => EmptyString
  | String c rest =>
      match trim_end rest with
      | EmptyString => if is_whitespace c then EmptyString else String c EmptyString
      | kept => String c kept
      end
  end.

(** [String.prototype.trim] *)
Definition trim (s : string) : string := trim_end (trim_start s).

Fixpoint all_whitespace (s : string) : bool :=
  match s with
  | EmptyString => true
  | String c rest => is_whitespace c && all_whitespace rest
  end.

(** Expansion of the [$] patterns of a replacement string
    (GetSubstitution) for a pattern without capture groups: [$$] is a
    dollar, [$&] the matched text, [$`] the text before the match and
    [$'] the text after it; any other [$] is kept as it is. *)
Fixpoint get_substitution (matched before after : string) (repl : string)
  : string :=
  match repl with
  | EmptyString => EmptyString
  | String c rest =>
      if Ascii.eqb c "$"%char then
        match rest with
        | String d rest' =>
            if Ascii.eqb d "$"%char then
              String "$"%char (get_substitution matched before after rest')
            else if Ascii.eqb d "&"%char then
              matched ++ get_substitution matched before after rest'
            else if Ascii.eqb d "`"%char then
              before ++ get_substitution matched before after rest'
            else if Ascii.eqb d "'"%char then
              after ++ get_substitution matched before after rest'
            else String c (get_substitution matched before after rest)
        | EmptyString => String c EmptyString
        end
      else String c (get_substitution matched before after rest)
  end.

(** Position of the first match of [/%s/i]: the text before it, the
    matched text ([%s] or [%S]) and the text after it. *)
Fixpoint find_pct_s (s : string) : option (string * string * string) :=
  match s with
  | EmptyString => None
  | String c rest =>
      match rest with
      | String d rest' =>
          if Ascii.eqb c "%"%char
             && (Ascii.eqb d "s"%char || Ascii.eqb d "S"%char) then
            Some (EmptyString, String c (String d EmptyString), rest')
          else
            match find_pct_s rest with
            | Some (before, m, after) => Some (String c before, m, after)
            | None => None
            end
      | EmptyString => None
      end
  end.

(** [s.replace(/%s/i, repl)]: only the first match is replaced. *)
Definition replace_pct_s (s repl : string) : string :=
  match find_pct_s s with
  | None => s
  | Some (before, m, after) =>
      before ++ get_substitution m before after repl ++ after
  end.

Definition is_word_char (c : ascii) : bool :=
  let n := nat_of_ascii c in
  ((48 <=? n) && (n <=? 57) || (65 <=? n) && (n <=? 90)
   || (97 <=? n) && (n <=? 122) || Nat.eqb n 95)%nat%bool.

Definition is_letter (c : ascii) : bool :=
  let n := nat_of_ascii c in
  ((65 <=? n) && (n <=? 90) || (97 <=? n) && (n <=? 122))%nat%bool.

Definition is_word_or_dash (c : ascii) : bool :=
  is_word_char c || Ascii.eqb c "-"%char.

Fixpoint string_forall (p : ascii -> bool) (s : string) : bool :=
  match s with
  | EmptyString => true
  | String c rest => p c && string_forall p rest
  end.

(** [[^\]]+\]] anchored at the end: one or more characters other than
    the closing bracket, then the closing bracket, then nothing. *)
Fixpoint bracket_body (s : string) : bool :=
  match s with
  | EmptyString => false
  | String c rest =>
      if Ascii.eqb c "]"%char then false
      else
        match rest with
        | String d EmptyString => Ascii.eqb d "]"%char
        | _ => bracket_body rest
        end
  end.

(** The regular expression of [Utils.isSelector], anchored at both
    ends, with three alternatives: a hash or a dot followed by one or
    more word characters or dashes; an opening bracket, one or more
    characters that are not a closing bracket, and a closing bracket; a
    letter followed by any number of word characters or dashes. *)
Definition selector_regex (s : string) : bool :=
  match s with
  | EmptyString => false
  | String c rest =>
      ((Ascii.eqb c "#"%char || Ascii.eqb c "."%char)
       && negb (rest =? "") && string_forall is_word_or_dash rest)
      || (Ascii.eqb c "["%char && bracket_body rest)
      || (is_letter c && string_forall is_word_or_dash rest)
  end.

Definition lower_char (c : ascii) : ascii :=
  let n := nat_of_ascii c in
  if ((65 <=? n) && (n <=? 90))%nat then ascii_of_nat (n + 32) else c.

Fixpoint lower (s : string) : string :=
  match s with
  | EmptyString => EmptyString
  | String c rest => String (lower_char c) (lower rest)
  end.

(* ================================================================== *)
(** ** Settlements, exceptions and the trace *)
(* ================================================================== *)

(** What a promise is rejected with, or what a [throw] carries.
    [ValidationError] is the subclass of [Error] of the source; its
    [errorMessage] is the message it was built from.  A field rejects
    with itself ([Promise.reject(this)]); [Utils.all] and
    [Utils.runSequential] reject with the array of the reasons they
    collected. *)
Inductive reason : Type :=
| ValidationError (assert : string) (errorMessage : jsval)
| JsError (message : string)
| RawReason (v : jsval)
| FieldReason (id : string)
| ErrorList (errors : list reason).

(** [r instanceof Error] *)
Definition instanceof_Error (r : reason) : bool :=
  match r with
  | ValidationError _ _ | JsError _ => true
  | _ => false
  end.

(** How a promise settles. *)
Inductive promise (A : Type) : Type :=
| Resolved (a : A)
| Rejected (r : reason).
Arguments Resolved {A} a.
Arguments Rejected {A} r.

(** How a synchronous call completes. *)
Inductive completion (A : Type) : Type :=
| Normal (a : A)
| Throw (e : reason).
Arguments Normal {A} a.
Arguments Throw {A} e.

Definition is_resolved {A : Type} (p : promise A) : bool :=
  match p with Resolved _ => true | Rejected _ => false end.

(** The trace of what an evaluation did, in order. *)
Inductive event : Type :=
| EvInvoke (validator : string) (args : list jsval)
    (* [fn.apply(field, args)] in [Validator.validate] *)
| EvAjax (url : jsval) (method : string) (data : list (string * jsval))
    (* [$.ajax({url, method, data})] *)
| EvConsoleError (what : string)
| EvWarn (what : string)
| EvUtilsError (message : string)
| EvTrigger (field : string) (name : string)
| EvHandleUI (field : string) (isValid : bool).

Definition is_invoke (e : event) : bool :=
  match e with EvInvoke _ _ => true | _ => false end.

Definition is_warn (e : event) : bool :=
  match e with EvWarn _ => true | _ => false end.

(** The part of the heap and of the outside world an evaluation writes
    to: the next free object identity and the trace. *)
Record world : Type := {
  w_next : nat;
  w_log : list event
}.

(** A small state monad; the engine threads the world (and, in [Field],
    the mutable fields of the object) through every call. *)
Definition ST (S A : Type) : Type := S -> A * S.

Definition ret {S A : Type} (a : A) : ST S A := fun s => (a, s).

Definition bind {S A B : Type} (m : ST S A) (k : A -> ST S B) : ST S B :=
  fun s => let (a, s') := m s in k a s'.

Declare Scope st_scope.
Delimit Scope st_scope with st.
Notation "x <- m ;; k" := (bind m (fun x => k))
  (at level 61, m at next level, right associativity) : st_scope.
Notation "m ;;; k" := (bind m (fun _ => k))
  (at level 61, right associativity) : st_scope.
Local Open Scope st_scope.

Definition emit (e : event) : ST world unit :=
  fun w => (tt, {| w_next := w_next w; w_log := w_log w ++ [e] |}).

(** Allocation of a new array or object. *)
Definition fresh : ST world nat :=
  fun w => (w_next w, {| w_next := S (w_next w); w_log := w_log w |}).

(* ================================================================== *)
(** ** Utils *)
(* ================================================================== *)

Module Utils.

(** [Promise.allSettled(promises).then(...)]: the promises were started
    by the caller; this only waits and sorts the outcomes. *)
Definition all {A : Type} (promises : list (promise A)) : promise (list A) :=
  let errors :=
    flat_map (fun r => match r with Rejected e => [e] | Resolved _ => [] end)
             promises in
  match errors with
  | _ :: _ => Rejected (ErrorList errors)
  | [] =>
      Resolved
        (flat_map (fun r => match r with Resolved v => [v] | Rejected _ => [] end)
                  promises)
  end.

(** [next()] of [runSequential]: [items] is what is left from index
    [i]; [results] and [errors] are the two accumulators. *)
Fixpoint runSequential_next {S A : Type}
    (items : list (ST S (completion (promise A))))
    (results : list A) (errors : list reason) : ST S (promise (list A)) :=
  match items with
  | [] =>
      match errors with
      | _ :: _ => ret (Rejected (ErrorList errors))
      | [] => ret (Resolved results)
      end
  | thunk :: rest =>
      p <- thunk ;;
      match p with
      | Throw e => ret (Rejected (ErrorList (errors ++ [e])))
      | Normal (Resolved v) => runSequential_next rest (results ++ [v]) errors
      | Normal (Rejected e) => ret (Rejected (ErrorList (errors ++ [e])))
      end
  end.

Definition runSequential {S A : Type}
    (items : list (ST S (completion (promise A)))) : ST S (promise (list A)) :=
  runSequential_next items [] [].

(** [v.slice()] and [{...v}] make a new object with the same contents. *)
Definition cloneValue (v : jsval) : ST world jsval :=
  match v with
  | VArr _ elems => r <- fresh ;; ret (VArr r elems)
  | VObj _ props => r <- fresh ;; ret (VObj r props)
  | _ => ret v
  end.

(** [a.every((v, i) => v === b[i])]; [b[i]] is [undefined] past the end
    of [b] *)
Fixpoint every_strict_eq (a b : list jsval) : bool :=
  match a, b with
  | [], _ => true
  | x :: a', y :: b' => strict_eq x y && every_strict_eq a' b'
  | x :: a', [] => strict_eq x VUndefined && every_strict_eq a' []
  end.

Definition arraysEqual (a b : jsval) : bool :=
  match a, b with
  | VArr _ la, VArr _ lb =>
      Nat.eqb (List.length la) (List.length lb) && every_strict_eq la lb
  | _, _ => false
  end.

Definition areEquals (a b : jsval) : bool :=
  if isArray a && isArray b then arraysEqual a b else strict_eq a b.

(** [formatMessage(string, parameters)]; [for (i in parameters)] visits
    the indices of an array and the keys of an object, and nothing for
    [null]. *)
Fixpoint formatMessage (str : jsval) (parameters : jsval) {struct parameters}
  : jsval :=
  if negb (truthy str) then VUndefined
  else
    match parameters with
    | VArr _ l =>
        (fix each (l : list jsval) (str : jsval) {struct l} : jsval :=
           match l with
           | [] => str
           | p :: l' => each l' (formatMessage str p)
           end) l str
    | VObj _ props =>
        (fix each (props : list (string * jsval)) (str : jsval) {struct props}
           : jsval :=
           match props with
           | [] => str
           | (_, p) :: props' => each props' (formatMessage str p)
           end) props str
    | VNull => str
    | _ =>
        match str with
        | VStr s => VStr (replace_pct_s s (toString parameters))
        | _ => VStr ""
        end
    end.

Definition isSelector (v : jsval) : bool :=
  match v with
  | VStr s => negb (s =? "") && selector_regex s
  | _ => false
  end.

(** [Utils.size] answers a boolean for an array and a number
    otherwise. *)
Inductive size_result : Type :=
| SizeBool (b : bool)
| SizeNum (n : nat).

Definition size (value : jsval) : size_result :=
  match value with
  | VArr _ l => SizeBool (negb (Nat.eqb (List.length l) 0))
  | VObj _ props => SizeNum (List.length props)
  | VStr s => SizeNum (String.length s)
  | _ => SizeNum 0
  end.

Definition size_truthy (r : size_result) : bool :=
  match r with
  | SizeBool b => b
  | SizeNum n => negb (Nat.eqb n 0)
  end.

(** [!this.size(value?.toString().trim())]: the optional chain yields
    [undefined] for [null] and [undefined]. *)
Definition empty (value : jsval) : bool :=
  match value with
  | VUndefined | VNull => negb (size_truthy (size VUndefined))
  | _ => negb (size_truthy (size (VStr (trim (toString value)))))
  end.

End Utils.

(* ================================================================== *)
(** ** The host: DOM, global scope, network, JavaScript library *)
(* ================================================================== *)

(** What [$element.val()] returns before jQuery builds the JavaScript
    value: nothing, a string, or the selected options of a
    [select multiple]. *)
Inductive domvalue : Type :=
| DomNone
| DomString (s : string)
| DomList (l : list string).

(** What a condition selector resolves to, as [evaluateConditionValue]
    reads it. *)
Inductive target : Type :=
| TargetCheckbox (checked : bool)
| TargetSelect (val : domvalue)
| TargetOther (val : domvalue).

(** How the call of a predicate completes: a plain result, an
    exception, or a thenable with the way it settles.  A predicate is a
    function of its arguments: it has no effect of its own. *)
Inductive fn_outcome : Type :=
| FnReturns (v : jsval)
| FnThrows (e : reason)
| FnThenable (p : promise jsval).

(** Answer of [$.ajax]: [done(data, textStatus, jqXHR)] with the status
    code of [jqXHR], or [fail(jqXHR, textStatus, errorThrown)]. *)
Inductive ajax_outcome : Type :=
| AjaxDone (data : jsval) (textStatus : string) (status : Z)
| AjaxFail (textStatus : jsval) (errorThrown : jsval).

Record host : Type := {
  dom_val : string -> domvalue;            (* value of the element of a field *)
  dom_checked : string -> bool;            (* [element.checked] *)
  dom_value_attr : string -> string;       (* [element.value] *)
  dom_visible : string -> bool;            (* [Utils.isElementVisible] *)
  dom_query : string -> option target;     (* [$(selector)], [None]: no match *)
  window_function : string -> option (completion bool);
      (* [window[name]] when it is a function: truthiness of its result *)
  eval_expression : string -> completion bool;
      (* [Function('return (' + src + ')')()] *)
  ajax : jsval -> string -> list (string * jsval) -> ajax_outcome;
  library_predicate : string -> list jsval -> fn_outcome
      (* the built-in predicates that rest on RegExp, parseFloat,
         parseInt and Date *)
}.

(** [$element.val()]: jQuery builds a new array at every call on a
    [select multiple]. *)
Definition jq_val (d : domvalue) : ST world jsval :=
  match d with
  | DomNone => ret VUndefined
  | DomString s => ret (VStr s)
  | DomList l => r <- fresh ;; ret (VArr r (map VStr l))
  end.

(* ================================================================== *)
(** ** Messages *)
(* ================================================================== *)

Definition MessagesDefaults_type : list (string * jsval) :=
  [ ("email", VStr "This value should be a valid email address.");
    ("url", VStr "This value should be a valid url.");
    ("number", VStr "This value should be a valid number.");
    ("integer", VStr "This value should be a valid integer.");
    ("digits", VStr "This value should be digits.");
    ("alphanum", VStr "This value should be alphanumeric.");
    ("color", VStr "Please select a valid color.");
    ("date", VStr "Please enter a valid date.");
    ("datetime", VStr "Please enter a valid date and time.");
    ("datetime-local", VStr "Please enter a valid local date and time.");
    ("file", VStr "Please upload a valid file.");
    ("image", VStr "Please upload a valid image.");
    ("month", VStr "Please enter a valid month.");
    ("password", VStr "Please enter a valid password.");
    ("range", VStr "Please select a valid range.");
    ("tel", VStr "Please enter a valid telephone number.");
    ("time", VStr "Please enter a valid time.");
    ("week", VStr "Please enter a valid week.") ].

Definition MessagesDefaults : list (string * jsval) :=
  [ ("defaultMessage", VStr "This value seems to be invalid.");
    ("type", VObj 0 MessagesDefaults_type);
    ("notblank", VStr "This value should not be blank.");
    ("required", VStr "This value is required.");
    ("minrequired", VStr "At least %s input(s) are required.");
    ("pattern", VStr "This value seems to be invalid.");
    ("min", VStr "This value should be greater than or equal to %s.");
    ("max", VStr "This value should be lower than or equal to %s.");
    ("range", VStr "This value should be between %s and %s.");
    ("minlength",
      VStr "This value is too short. It should have %s characters or more.");
    ("maxlength",
      VStr "This value is too long. It should have %s characters or fewer.");
    ("length",
      VStr "This value length is invalid. It should be between %s and %s characters long.");
    ("mincheck", VStr "You must select at least %s choices.");
    ("maxcheck", VStr "You must select %s choices or fewer.");
    ("check", VStr "You must select between %s and %s choices.");
    ("equalto", VStr "This value should be the same.");
    ("notequalto", VStr "This value should be different.");
    ("gt", VStr "This value should be greater than %s.");
    ("gte", VStr "This value should be greater than or equal to %s.");
    ("lt", VStr "This value should be less than %s.");
    ("lte", VStr "This value should be less than or equal to %s.");
    ("euvatin", VStr "It's not a valid VAT Identification Number.");
    ("money", VStr "Please enter a valid amount greater than zero");
    ("date", VStr "The entered date is invalid (expected format: %s)");
    ("datemin", VStr "The date cannot be earlier than %s");
    ("datemax", VStr "The date cannot be later than %s");
    ("datepast", VStr "The date cannot be in the future");
    ("datefuture", VStr "The date cannot be in the past") ].

(** [getErrorMessage(key, requirements, objectKey)] over the message
    table [Messages] (the defaults extended by the configuration). *)
Definition getErrorMessage (Messages : list (string * jsval))
    (key : string) (requirements : jsval) (objectKey : jsval) : jsval :=
  let entry := lookup_prop key Messages in
  let errorMessage :=
    js_or (if typeof_object entry
           then match objectKey with
                | VStr k => get_prop entry k
                | _ => get_prop entry (toString objectKey)
                end
           else entry)
          (lookup_prop "defaultMessage" Messages) in
  if truthy requirements
  then Utils.formatMessage errorMessage requirements
  else errorMessage.

(* ================================================================== *)
(** ** Validator, StandardValidator, RemoteValidator *)
(* ================================================================== *)

(** The fields a [RemoteValidator] adds. *)
Record Remote : Type := {
  url : jsval;
  method : string;
  dataKey : string;
  isValidFn : jsval -> string -> Z -> completion bool
}.

(** [this.validateFn]: absent, a predicate given as a function, one of
    the library predicates of the built-in table, or the bound
    [RemoteValidator.prototype.validateFn]. *)
Inductive validate_fn : Type :=
| FnMissing
| FnPredicate (f : list jsval -> fn_outcome)
| FnLibrary (name : string)
| FnRemote (r : Remote).

Record Validator : Type := {
  name : string;
  validateFn : validate_fn;
  message : jsval;
  group : bool;
  priority : Z
}.

(** The object handed to [addValidator]; an absent key is [None] (or
    [undefined], or [false] for the flags). *)
Record ValidatorSpec : Type := {
  spec_validateFn : option (list jsval -> fn_outcome);
  spec_message : jsval;
  spec_group : bool;
  spec_priority : option Z;
  spec_remote : bool;
  spec_url : jsval;
  spec_method : option string;
  spec_dataKey : option string;
  spec_isValidFn : option (jsval -> string -> Z -> completion bool)
}.

(** [new Validator({ name, validateFn, message, group, priority = 0 })] *)
Definition new_Validator (Messages : list (string * jsval)) (nm : string)
    (fn : option (list jsval -> fn_outcome)) (msg : jsval) (grp : bool)
    (prio : option Z) : Validator :=
  {| name := nm;
     validateFn := match fn with Some f => FnPredicate f | None => FnMissing end;
     message := js_or (js_or msg (lookup_prop nm Messages))
                      (VStr "Validation failed");
     group := grp;
     priority := match prio with Some p => p | None => 0%Z end |}.

(** [defaultIsValidFn]: [xhr?.status >= 200 && xhr?.status < 300] *)
Definition defaultIsValidFn (data : jsval) (textStatus : string) (status : Z)
  : completion bool :=
  Normal ((200 <=? status)%Z && (status <? 300)%Z).

(** [new RemoteValidator({name, message, group, url, method = 'POST',
    dataKey = 'value', isValidFn = null, priority = 10})] *)
Definition new_RemoteValidator (Messages : list (string * jsval))
    (nm : string) (spec : ValidatorSpec) : Validator :=
  let base :=
    new_Validator Messages nm None (spec_message spec) (spec_group spec)
      (Some (match spec_priority spec with Some p => p | None => 10%Z end)) in
  {| name := name base;
     validateFn :=
       FnRemote
         {| url := spec_url spec;
            method := match spec_method spec with
                      | Some m => m
                      | None => "POST"
                      end;
            dataKey := match spec_dataKey spec with
                       | Some k => k
                       | None => "value"
                       end;
            isValidFn := match spec_isValidFn spec with
                         | Some f => f
                         | None => defaultIsValidFn
                         end |};
     message := message base;
     group := group base;
     priority := priority base |}.




(** The keys of [typeTesters]. *)
Definition typeTesters : list string :=
  [ "number"; "email"; "date"; "tel"; "url"; "selector"; "regexp";
    "integer"; "digits"; "alphanum"; "range" ].

(** The table [standardValidators]: the priority of each built-in rule
    and its predicate.  [required] is [(value) => !Utils.empty(value)];
    the other predicates are the host's library predicates. *)
Definition required_validate (args : list jsval) : fn_outcome :=
  FnReturns (VBool (negb (Utils.empty (nth 0 args VUndefined)))).

Definition standardValidators : list (string * (Z * validate_fn)) :=
  [ ("required", (100%Z, FnPredicate required_validate));
    ("minrequired", (50%Z, FnLibrary "minrequired"));
    ("pattern", (70%Z, FnLibrary "pattern"));
    ("min", (60%Z, FnLibrary "min"));
    ("max", (60%Z, FnLibrary "max"));
    ("range", (61%Z, FnLibrary "range"));
    ("minlength", (50%Z, FnLibrary "minlength"));
    ("maxlength", (50%Z, FnLibrary "maxlength"));
    ("length", (51%Z, FnLibrary "length"));
    ("equalto", (40%Z, FnLibrary "equalto"));
    ("notequalto", (40%Z, FnLibrary "notequalto"));
    ("gt", (40%Z, FnLibrary "gt"));
    ("gte", (40%Z, FnLibrary "gte"));
    ("lt", (40%Z, FnLibrary "lt"));
    ("lte", (40%Z, FnLibrary "lte"));
    ("mincheck", (30%Z, FnLibrary "mincheck"));
    ("maxcheck", (30%Z, FnLibrary "maxcheck"));
    ("check", (31%Z, FnLibrary "check"));
    ("date", (60%Z, FnLibrary "date"));
    ("type", (70%Z, FnLibrary "type")) ].

Fixpoint assoc {A : Type} (k : string) (l : list (string * A)) : option A :=
  match l with
  | [] => None
  | (k', v) :: rest => if k' =? k then Some v else assoc k rest
  end.

(** [new StandardValidator(name, requirements)] for a [name] of the
    table.  The constructor also checks the shape of the requirement
    against [requirementType] and throws when it does not fit; a field
    whose construction throws is never evaluated, and the check is left
    out. *)
Definition new_StandardValidator (Messages : list (string * jsval))
    (nm : string) (requirements : jsval) : option Validator :=
  match assoc nm standardValidators with
  | Some (prio, fn) =>
      Some {| name := nm;
              validateFn := fn;
              message :=
                js_or (js_or (getErrorMessage Messages nm VUndefined requirements)
                             (lookup_prop nm Messages))
                      (VStr "Validation failed");
              group := false;
              priority := prio |}
  | None => None
  end.

(* ================================================================== *)
(** ** Constraint *)
(* ================================================================== *)

Record Constraint : Type := {
  c_name : string;
  c_requirements : jsval;
  c_validator : option Validator;
  c_priority : Z
}.

Module ConstraintM.

Definition isStandardConstraint (nm : string) (requirement : jsval) : bool :=
  match assoc nm standardValidators with
  | None => false
  | Some _ =>
      if nm =? "type" then
        match requirement with
        | VStr t => existsb (String.eqb t) typeTesters
        | _ => false
        end
      else true
  end.

Definition isValidConstraint (customValidators : list (string * Validator))
    (nm : string) (requirement : jsval) : bool :=
  match assoc nm customValidators with
  | Some _ => true
  | None => isStandardConstraint nm requirement
  end.

(** [_buildValidator] *)
Definition _buildValidator (Messages : list (string * jsval))
    (customValidators : list (string * Validator))
    (nm : string) (requirements : jsval) : ST world (option Validator) :=
  match assoc nm customValidators with
  | Some v => ret (Some v)
  | None =>
      if isStandardConstraint nm requirements
      then ret (new_StandardValidator Messages nm requirements)
      else emit (EvWarn "no validator found") ;;; ret None
  end.

(** [new Constraint(field, name, requirements)];
    [this.priority = this.validator?.priority ?? 0] *)
Definition new_Constraint (Messages : list (string * jsval))
    (customValidators : list (string * Validator))
    (nm : string) (requirements : jsval) : ST world Constraint :=
  v <- _buildValidator Messages customValidators nm requirements ;;
  ret {| c_name := nm;
         c_requirements := requirements;
         c_validator := v;
         c_priority := match v with Some v => priority v | None => 0%Z end |}.

End ConstraintM.

(* ================================================================== *)
(** ** Validator.validate and RemoteValidator.validateFn *)
(* ================================================================== *)

(** What [_reject] reads of a rejection reason used as a message
    source: its [message] property and whether it is a string; an
    [Error] is an object with a [message]. *)
Definition reason_view (r : reason) : jsval :=
  match r with
  | RawReason v => v
  | JsError m => VObj 0 [("message", VStr m)]
  | ValidationError _ m =>
      VObj 0 [("message", match m with
                          | VUndefined => VStr ""
                          | _ => VStr (toString m)
                          end)]
  | FieldReason _ => VObj 0 []
  | ErrorList _ => VArr 0 []
  end.

(** [_reject(reason, requirements)] *)
Definition _reject (v : Validator) (reason requirements : jsval)
  : promise jsval :=
  let msg :=
    Utils.formatMessage
      (js_or (js_or (get_prop reason "message") reason) (message v))
      requirements in
  Rejected (ValidationError (name v) msg).

(** [String(i)] for an array index. *)
Definition index_key (i : nat) : string :=
  NilZero.string_of_uint (Nat.to_uint i).

(** The properties a spread [{...v}] copies: the own properties of an
    object, the elements of an array under their indices, the
    characters of a string under theirs, and nothing for any other
    value. *)
Definition own_props (v : jsval) : list (string * jsval) :=
  match v with
  | VObj _ props => props
  | VArr _ elems => combine (map index_key (seq 0 (List.length elems))) elems
  | VStr s =>
      combine (map index_key (seq 0 (String.length s)))
              (map (fun c => VStr (String c EmptyString)) (list_ascii_of_string s))
  | _ => []
  end.

(** [{ [this.dataKey]: values, ...extra }]: the key [dataKey] is
    written first and the properties of [extra] after it, a property of
    the same name taking the place of an earlier one.  The list keeps
    the order of writing. *)
Definition remote_data (r : Remote) (values extra : jsval)
  : list (string * jsval) :=
  fold_left (fun acc kv => set_prop (fst kv) (snd kv) acc) (own_props extra)
            [(dataKey r, values)].

(** [this.url || (typeof requirements === 'string' && requirements)
             || (requirements && requirements.url)] *)
Definition resolvedUrl (r : Remote) (requirements : jsval) : jsval :=
  js_or (js_or (url r)
               (match requirements with
                | VStr _ => requirements
                | _ => VBool false
                end))
        (if truthy requirements then get_prop requirements "url"
         else requirements).

(** [(requirements && requirements.extra) || {}] *)
Definition extra (requirements : jsval) : jsval :=
  js_or (if truthy requirements then get_prop requirements "extra"
         else requirements)
        (VObj 0 []).

(** [RemoteValidator.prototype.validateFn(values, requirements)] *)
Definition Remote_validateFn (h : host) (v : Validator) (r : Remote)
    (values requirements : jsval) : ST world fn_outcome :=
  if negb (truthy (resolvedUrl r requirements)) then
    emit (EvConsoleError "RemoteValidator: no URL resolved from spec or requirement") ;;;
    ret (FnThenable (Resolved (VBool false)))
  else
    let data := remote_data r values (extra requirements) in
    emit (EvAjax (resolvedUrl r requirements) (method r) data) ;;;
    match ajax h (resolvedUrl r requirements) (method r) data with
    | AjaxDone data textStatus status =>
        match isValidFn r data textStatus status with
        | Throw e =>
            emit (EvConsoleError "RemoteValidator isValidFn threw an error") ;;;
            ret (FnThenable (Rejected e))
        | Normal true =>
            o <- fresh ;;
            ret (FnThenable
                   (Resolved
                      (VObj o [("successMessage", get_prop data "successMessage")])))
        | Normal false =>
            ret (FnThenable
                   (Rejected
                      (RawReason (js_or (get_prop data "errorMessage") (message v)))))
        end
    | AjaxFail textStatus errorThrown =>
        ret (FnThenable
               (Rejected
                  (RawReason
                     (js_or (js_or errorThrown textStatus)
                            (VStr "Remote validation failed")))))
    end.

(** [fn.apply(field, args)] *)
Definition apply_validateFn (h : host) (v : Validator) (f : validate_fn)
    (args : list jsval) : ST world fn_outcome :=
  match f with
  | FnMissing => ret (FnReturns VUndefined)
  | FnPredicate p => ret (p args)
  | FnLibrary nm => ret (library_predicate h nm args)
  | FnRemote r =>
      Remote_validateFn h v r (nth 0 args VUndefined) (nth 1 args VUndefined)
  end.

(** [Array.isArray(requirements) ? [value, ...requirements]
                                  : [value, requirements]] *)
Definition call_args (value requirements : jsval) : list jsval :=
  match requirements with
  | VArr _ reqs => value :: reqs
  | _ => [value; requirements]
  end.

(** [Validator.validate(value, requirements, field)];
    [customErrorMessage] is [field.customErrorMessage]. *)
Definition Validator_validate (h : host) (v : Validator)
    (value requirements customErrorMessage : jsval)
  : ST world (completion (promise jsval)) :=
  match validateFn v with
  | FnMissing => ret (Throw (JsError "Validator: no validate function defined"))
  | fn =>
      let args := call_args value requirements in
      emit (EvInvoke (name v) args) ;;;
      fnResult <- apply_validateFn h v fn args ;;
      match fnResult with
      | FnThrows err =>
          emit (EvConsoleError "Error in validator") ;;;
          ret (Throw err)
      | FnThenable (Resolved x) => ret (Normal (Resolved x))
      | FnThenable (Rejected reason) =>
          ret (Normal (_reject v (reason_view reason) requirements))
      | FnReturns x =>
          if truthy x then ret (Normal (Resolved VUndefined))
          else
            ret (Normal (_reject v (js_or customErrorMessage (message v))
                           requirements))
      end
  end.

(** [Constraint.validateConstraint(value)] *)
Definition validateConstraint (h : host) (customErrorMessage : jsval)
    (c : Constraint) (value : jsval) : ST world (completion (promise jsval)) :=
  match c_validator c with
  | None => ret (Throw (JsError "Validator not found"))
  | Some v => Validator_validate h v value (c_requirements c) customErrorMessage
  end.

(* ================================================================== *)
(** ** Field *)
(* ================================================================== *)

(** A conditional declaration ([validateIf], [notValidateIf]): a string
    (selector, name of a global function, or expression), a function
    reference with the truthiness of what it returns, or any other
    value. *)
Inductive condition : Type :=
| CondString (s : string)
| CondFunction (result : completion bool)
| CondOther.

(** The options the engine reads. *)
Record Options : Type := {
  stopAtFirstError : bool
}.

(** What a field is built from: it does not change between two
    evaluations. *)
Record Field : Type := {
  __id__ : string;
  element_type : string;                    (* [this.element.type] *)
  validateIf : option condition;            (* [this.domOptions.validateIf] *)
  notValidateIf : option condition;
  successMessage : jsval;                   (* [this.domOptions.successMessage] *)
  customErrorMessage : jsval;
  constraints : list (string * Constraint)  (* in insertion order *)
}.

(** The mutable fields of a [Field] object. *)
Record fstate : Type := {
  _lastValidatedValue : jsval;
  _lastValidationState : option bool;       (* [null], [true], [false] *)
  _failedOnce : bool;
  _isValid : bool;
  validationResult : option reason;         (* unset or [null], or an array *)
  validationSuccessMessage : jsval
}.

(** State of a freshly constructed field: the constructor leaves
    [validationResult] and [validationSuccessMessage] unset. *)
Definition fstate_init : fstate :=
  {| _lastValidatedValue := VNull;
     _lastValidationState := None;
     _failedOnce := false;
     _isValid := false;
     validationResult := None;
     validationSuccessMessage := VUndefined |}.

(** State after [reset()]: [_failedOnce = false], then
    [_neutralizeUI()]. *)
Definition fstate_reset : fstate :=
  {| _lastValidatedValue := VNull;
     _lastValidationState := None;
     _failedOnce := false;
     _isValid := false;
     validationResult := Some (ErrorList []);
     validationSuccessMessage := VNull |}.

(** The state an evaluation works on: the object itself, the objects of
    its children when it is a group, and the world. *)
Record vstate : Type := {
  self : fstate;
  kids : list fstate;
  wld : world
}.

Definition liftW {A : Type} (m : ST world A) : ST vstate A :=
  fun s => let (a, w) := m (wld s) in
           (a, {| self := self s; kids := kids s; wld := w |}).

Definition get_self : ST vstate fstate := fun s => (self s, s).

Definition modify_self (f : fstate -> fstate) : ST vstate unit :=
  fun s => (tt, {| self := f (self s); kids := kids s; wld := wld s |}).

Definition set_lastValidatedValue (v : jsval) (s : fstate) : fstate :=
  {| _lastValidatedValue := v;
     _lastValidationState := _lastValidationState s;
     _failedOnce := _failedOnce s;
     _isValid := _isValid s;
     validationResult := validationResult s;
     validationSuccessMessage := validationSuccessMessage s |}.

Definition set_lastValidationState (b : option bool) (s : fstate) : fstate :=
  {| _lastValidatedValue := _lastValidatedValue s;
     _lastValidationState := b;
     _failedOnce := _failedOnce s;
     _isValid := _isValid s;
     validationResult := validationResult s;
     validationSuccessMessage := validationSuccessMessage s |}.

Definition set_validationResult (r : option reason) (s : fstate) : fstate :=
  {| _lastValidatedValue := _lastValidatedValue s;
     _lastValidationState := _lastValidationState s;
     _failedOnce := _failedOnce s;
     _isValid := _isValid s;
     validationResult := r;
     validationSuccessMessage := validationSuccessMessage s |}.

Definition set_validationSuccessMessage (m : jsval) (s : fstate) : fstate :=
  {| _lastValidatedValue := _lastValidatedValue s;
     _lastValidationState := _lastValidationState s;
     _failedOnce := _failedOnce s;
     _isValid := _isValid s;
     validationResult := validationResult s;
     validationSuccessMessage := m |}.

Definition set_ui (valid failed : bool) (s : fstate) : fstate :=
  {| _lastValidatedValue := _lastValidatedValue s;
     _lastValidationState := _lastValidationState s;
     _failedOnce := failed;
     _isValid := valid;
     validationResult := validationResult s;
     validationSuccessMessage := validationSuccessMessage s |}.

(** [Array.prototype.sort] is stable: with the comparator
    [(a, b) => (b.priority ?? 0) - (a.priority ?? 0)] an element goes
    before the first one whose priority is not greater than its own. *)
Fixpoint insert_by_priority (c : Constraint) (l : list Constraint)
  : list Constraint :=
  match l with
  | [] => [c]
  | x :: rest =>
      if (c_priority c <? c_priority x)%Z
      then x :: insert_by_priority c rest
      else c :: l
  end.

Definition sort_by_priority (l : list Constraint) : list Constraint :=
  fold_right insert_by_priority [] l.

(** Truthiness of a value read from the DOM. *)
Definition dom_truthy (d : domvalue) : bool :=
  match d with
  | DomNone => false
  | DomString s => negb (s =? "")
  | DomList _ => true
  end.

(** What [_buildValidationsFor] hands to [_finalizeValidationResult]:
    thunks, or promises that were started. *)
Inductive validations : Type :=
| Thunks (ts : list (ST world (completion (promise jsval))))
| Promises (ps : list (promise jsval)).

(** [sorted.map(c => c.validateConstraint(value))]: the calls are made
    in order and an exception leaves the loop. *)
Fixpoint start_all {S A : Type} (items : list (ST S (completion A)))
  : ST S (completion (list A)) :=
  match items with
  | [] => ret (Normal [])
  | it :: rest =>
      r <- it ;;
      match r with
      | Throw e => ret (Throw e)
      | Normal p =>
          ps <- start_all rest ;;
          match ps with
          | Throw e => ret (Throw e)
          | Normal l => ret (Normal (p :: l))
          end
      end
  end.

Module FieldM.

Section WithHost.

Variable h : host.
Variable options : Options.

(** [evaluateConditionValue(condition)] of [shouldValidate]; [None] is
    [undefined]. *)
Definition evaluateConditionValue (condition : option condition)
  : ST world bool :=
  let failed :=
    emit (EvWarn "Error evaluating validate-if condition") ;;; ret false in
  match condition with
  | None => ret true
  | Some (CondString s) =>
      if Utils.isSelector (VStr s) then
        match dom_query h s with
        | None => failed
        | Some (TargetCheckbox checked) => ret checked
        | Some (TargetSelect (DomList l)) =>
            ret (negb (Nat.eqb (List.length l) 0))
        | Some (TargetSelect val) => ret (dom_truthy val)
        | Some (TargetOther val) => ret (dom_truthy val)
        end
      else
        match window_function h s with
        | Some (Normal b) => ret b
        | Some (Throw _) => failed
        | None =>
            match eval_expression h s with
            | Normal b => ret b
            | Throw _ => failed
            end
        end
  | Some (CondFunction (Normal b)) => ret b
  | Some (CondFunction (Throw _)) => failed
  | Some CondOther => ret true
  end.

(** [shouldValidate()] *)
Definition shouldValidate (f : Field) : ST world bool :=
  should <- match validateIf f with
            | Some c => evaluateConditionValue (Some c)
            | None => ret true
            end ;;
  shouldNot <- match notValidateIf f with
               | Some c => evaluateConditionValue (Some c)
               | None => ret false
               end ;;
  ret (should && negb shouldNot).

(** [_isRequired()] *)
Definition _isRequired (f : Field) : bool :=
  match assoc "required" (constraints f) with
  | Some c => negb (strict_eq (VBool false) (c_requirements c))
  | None => false
  end.

(** [_buildValidationsFor(value)] *)
Definition _buildValidationsFor (f : Field) (value : jsval)
  : ST world (completion validations) :=
  let sorted := sort_by_priority (map snd (constraints f)) in
  let thunks :=
    map (fun c => validateConstraint h (customErrorMessage f) c value) sorted in
  if stopAtFirstError options then ret (Normal (Thunks thunks))
  else
    started <- start_all thunks ;;
    match started with
    | Throw e => ret (Throw e)
    | Normal ps => ret (Normal (Promises ps))
    end.

(** [_handleUI(isValid)]: the state it writes; rendering is the
    presentation layer's. *)
Definition _handleUI (f : Field) (isValid : bool) : ST vstate unit :=
  st <- get_self ;;
  let hasErrorMessages :=
    negb isValid &&
    match validationResult st with
    | Some (ErrorList (_ :: _)) => true
    | _ => false
    end in
  modify_self (set_ui isValid (_failedOnce st || hasErrorMessages)) ;;;
  liftW (emit (EvHandleUI (__id__ f) isValid)).

Definition _trigger (f : Field) (eventName : string) : ST vstate unit :=
  liftW (emit (EvTrigger (__id__ f) eventName)).

(** [_getSuccessValidationMessage(value, onSuccessMessages)] *)
Definition _getSuccessValidationMessage (f : Field) (value : jsval)
    (onSuccessMessages : list jsval) : jsval :=
  let found :=
    match find truthy
            (map (fun v => match v with
                           | VStr _ => v
                           | _ => get_prop v "successMessage"
                           end) onSuccessMessages) with
    | Some m => m
    | None => VUndefined
    end in
  Utils.formatMessage (js_or (js_or (successMessage f) found) VNull) value.

(** [run(promises)] of [_finalizeValidationResult]:
    [stopAtFirstError ? Utils.runSequential : Utils.all].  A promise
    handed to [runSequential] is wrapped into a thunk that returns it;
    a thunk handed to [Utils.all] is a plain value, which settles as
    itself and has no [successMessage]. *)
Definition run_validations (v : validations)
  : ST world (promise (list jsval)) :=
  if stopAtFirstError options then
    match v with
    | Thunks ts => Utils.runSequential ts
    | Promises ps => Utils.runSequential (map (fun p => ret (Normal p)) ps)
    end
  else
    match v with
    | Promises ps => ret (Utils.all ps)
    | Thunks ts => ret (Resolved (map (fun _ => VUndefined) ts))
    end.

(** The callbacks chained on [run(promises)] in
    [_finalizeValidationResult]: [.then] on success, [.catch] on
    failure, [.finally] in both cases. *)
Definition on_settled (f : Field) (value : jsval)
    (settled : promise (list jsval)) : ST vstate (promise jsval) :=
  out <-
    match settled with
    | Resolved onSuccessMessages =>
        modify_self (set_validationSuccessMessage
                       (_getSuccessValidationMessage f value onSuccessMessages)) ;;;
        modify_self (set_validationResult None) ;;;
        _handleUI f true ;;;
        _trigger f "success" ;;;
        modify_self (set_lastValidationState (Some true)) ;;;
        ret (Resolved value)
    | Rejected onErrorMessages =>
        if instanceof_Error onErrorMessages then
          liftW (emit (EvUtilsError (toString (get_prop (reason_view onErrorMessages)
                                                        "message")))) ;;;
          ret (Resolved VUndefined)
        else
          modify_self (set_validationSuccessMessage VNull) ;;;
          modify_self (set_validationResult (Some onErrorMessages)) ;;;
          _handleUI f false ;;;
          _trigger f "error" ;;;
          modify_self (set_lastValidationState (Some false)) ;;;
          ret (Rejected (FieldReason (__id__ f)))
    end ;;
  _trigger f "validated" ;;;
  ret out.

(** [_finalizeValidationResult(value, promises)] *)
Definition _finalizeValidationResult (f : Field) (value : jsval)
    (promises : validations) : ST vstate (promise jsval) :=
  settled <- liftW (run_validations promises) ;;
  on_settled f value settled.

(** [/^(checkbox|radio)$/i.test(this.element.type)] *)
Definition is_checkbox_or_radio (ty : string) : bool :=
  (lower ty =? "checkbox") || (lower ty =? "radio").

(** [resolveAsValid(triggerValidateEvent)] of [whenValidate] *)
Definition resolveAsValid (f : Field) (value : jsval)
    (triggerValidateEvent : bool) : ST vstate (promise jsval) :=
  st <- get_self ;;
  (match _lastValidationState st with
   | Some false => _handleUI f true
   | _ => ret tt
   end) ;;;
  (if triggerValidateEvent then _trigger f "success" else ret tt) ;;;
  modify_self (set_lastValidationState (Some true)) ;;;
  ret (Resolved value).

(** [whenValidate()], shared by [Field] and [GroupField]: [getValue]
    and [_preValidate] are the two methods a [GroupField] overrides. *)
Definition whenValidate (f : Field) (getValue : ST world jsval)
    (_preValidate : ST vstate (promise unit)) : ST vstate (promise jsval) :=
  value <- liftW getValue ;;
  st <- get_self ;;
  if Utils.areEquals value (_lastValidatedValue st)
     && match _lastValidationState st with Some _ => true | None => false end
  then
    match _lastValidationState st with
    | Some true => ret (Resolved value)
    | _ => ret (Rejected (FieldReason (__id__ f)))
    end
  else
    modify_self (set_validationResult (Some (ErrorList []))) ;;;
    cloned <- liftW (Utils.cloneValue value) ;;
    modify_self (set_lastValidatedValue cloned) ;;;
    if is_checkbox_or_radio (element_type f) then resolveAsValid f value false
    else
      should <- liftW (shouldValidate f) ;;
      if negb should then resolveAsValid f value false
      else if negb (Utils.size_truthy (Utils.SizeNum (List.length (constraints f))))
      then resolveAsValid f value false
      else if negb (dom_visible h (__id__ f)) then resolveAsValid f value false
      else if Utils.empty value && negb (_isRequired f)
      then resolveAsValid f value false
      else
        pre <- _preValidate ;;
        match pre with
        | Rejected r => ret (Rejected r)
        | Resolved _ =>
            built <- liftW (_buildValidationsFor f value) ;;
            match built with
            | Throw e => ret (Rejected e)
            | Normal validations => _finalizeValidationResult f value validations
            end
        end.

(** [Field.prototype.getValue] and [Field.prototype._preValidate] *)
Definition getValue (f : Field) : ST world jsval := jq_val (dom_val h (__id__ f)).

Definition _preValidate : ST vstate (promise unit) := ret (Resolved tt).

(** [whenValidate()] on a plain [Field] *)
Definition Field_whenValidate (f : Field) : ST vstate (promise jsval) :=
  whenValidate f (getValue f) _preValidate.

(** [reset()] *)
Definition reset : ST vstate unit := modify_self (fun _ => fstate_reset).

End WithHost.

End FieldM.

(* ================================================================== *)
(** ** GroupField *)
(* ================================================================== *)

(** [class GroupField extends Field]: the inherited part, the child
    fields (plain [Field]s built with the group's options) and
    [multipleType] ([Some "checkbox"], [Some "radio"], or unset). *)
Record GroupField : Type := {
  base : Field;
  fields : list Field;
  multipleType : option string
}.

Fixpoint list_update {A : Type} (i : nat) (x : A) (l : list A) : list A :=
  match l, i with
  | [], _ => []
  | _ :: rest, O => x :: rest
  | y :: rest, S j => y :: list_update j x rest
  end.

(** Runs a method of the [i]-th child on that child's object. *)
Definition on_child {A : Type} (i : nat) (m : ST vstate A) : ST vstate A :=
  fun s =>
    let (a, s') := m {| self := nth i (kids s) fstate_init;
                        kids := [];
                        wld := wld s |} in
    (a, {| self := self s;
           kids := list_update i (self s') (kids s);
           wld := wld s' |}).

Fixpoint filterM {S A : Type} (p : A -> ST S bool) (l : list A)
  : ST S (list A) :=
  match l with
  | [] => ret []
  | x :: rest =>
      keep <- p x ;;
      kept <- filterM p rest ;;
      ret (if keep then x :: kept else kept)
  end.

Fixpoint mapM {S A B : Type} (f : A -> ST S B) (l : list A) : ST S (list B) :=
  match l with
  | [] => ret []
  | x :: rest =>
      y <- f x ;;
      ys <- mapM f rest ;;
      ret (y :: ys)
  end.

Module GroupFieldM.

Section WithHost.

Variable h : host.
Variable options : Options.

(** [getValue()]: [switch (this.multipleType)] *)
Definition getValue (g : GroupField) : ST world jsval :=
  let plain :=
    values <- mapM (fun f => FieldM.getValue h f) (fields g) ;;
    r <- fresh ;;
    ret (VArr r values) in
  match multipleType g with
  | Some ty =>
      if ty =? "checkbox" then
        r <- fresh ;;
        ret (VArr r
               (map (fun f => VStr (dom_value_attr h (__id__ f)))
                    (filter (fun f => dom_checked h (__id__ f)) (fields g))))
      else if ty =? "radio" then
        match find (fun f => dom_checked h (__id__ f)) (fields g) with
        | Some checkedField => ret (VStr (dom_value_attr h (__id__ checkedField)))
        | None => ret (VStr "")
        end
      else plain
  | None => plain
  end.

(** The children with their positions in [this.fields]. *)
Definition indexed (g : GroupField) : list (nat * Field) :=
  combine (seq 0 (List.length (fields g))) (fields g).

Definition child_state (s : vstate) (i : nat) : fstate :=
  nth i (kids s) fstate_init.

(** [f.whenValidate()] on the [i]-th child *)
Definition child_whenValidate (c : nat * Field)
  : ST vstate (completion (promise jsval)) :=
  p <- on_child (fst c) (FieldM.Field_whenValidate h options (snd c)) ;;
  ret (Normal p).

(** The filter of step 2: never validated, or value changed since. *)
Definition needsValidation (c : nat * Field) : ST vstate bool :=
  fun s =>
    let st := child_state s (fst c) in
    match _lastValidationState st with
    | None => (true, s)
    | Some _ =>
        (v <- liftW (FieldM.getValue h (snd c)) ;;
         ret (negb (Utils.areEquals v (_lastValidatedValue st)))) s
    end.

(** [_preValidate()] *)
Definition _preValidate (g : GroupField) : ST vstate (promise unit) :=
  fun s =>
    match fields g with
    | [] => (Resolved tt, s)
    | _ :: _ =>
        let hasKnownInvalid :=
          existsb (fun c => match _lastValidationState (child_state s (fst c)) with
                            | Some false => true
                            | _ => false
                            end) (indexed g) in
        if hasKnownInvalid then (Rejected (FieldReason (__id__ (base g))), s)
        else
          (needValidations <- filterM needsValidation (indexed g) ;;
           match needValidations with
           | [] =>
               fun s' =>
                 let allValid :=
                   forallb (fun c =>
                              match _lastValidationState (child_state s' (fst c)) with
                              | Some true => true
                              | _ => false
                              end) (indexed g) in
                 (if allValid then Resolved tt
                  else Rejected (FieldReason (__id__ (base g))), s')
           | _ :: _ =>
               settled <-
                 (if stopAtFirstError options then
                    Utils.runSequential (map child_whenValidate needValidations)
                  else
                    started <- start_all (map child_whenValidate needValidations) ;;
                    match started with
                    | Throw e => ret (Rejected e)
                    | Normal ps => ret (Utils.all ps)
                    end) ;;
               match settled with
               | Resolved _ => ret (Resolved tt)
               | Rejected errs =>
                   if instanceof_Error errs then ret (Rejected errs)
                   else ret (Rejected (FieldReason (__id__ (base g))))
               end
           end) s
    end.

(** [whenValidate()] on a [GroupField]: the inherited method with the
    two overrides. *)
Definition GroupField_whenValidate (g : GroupField) : ST vstate (promise jsval) :=
  FieldM.whenValidate h options (base g) (getValue g) (_preValidate g).

End WithHost.

End GroupFieldM.

(* ================================================================== *)
(** ** Observations on a run *)
(* ================================================================== *)

Definition world_init : world := {| w_next := 1; w_log := [] |}.

(** State of a field object that was just built, with its children. *)
Definition vstate_init (n_children : nat) : vstate :=
  {| self := fstate_init; kids := repeat fstate_init n_children; wld := world_init |}.

(** The predicate calls of a trace. *)
Definition invocations (l : list event) : list event := filter is_invoke l.

Definition warnings (l : list event) : list event := filter is_warn l.

(* ================================================================== *)
(** ** Concrete hosts, validators and fields used in worked runs *)
(* ================================================================== *)

Module Sample.

(** A page whose inputs are empty and visible, where no selector
    matches, and a server that answers 200. *)
Definition host_empty : host :=
  {| dom_val := fun _ => DomString "";
     dom_checked := fun _ => false;
     dom_value_attr := fun _ => "";
     dom_visible := fun _ => true;
     dom_query := fun _ => None;
     window_function := fun _ => None;
     eval_expression := fun _ => Normal true;
     ajax := fun _ _ _ => AjaxDone VNull "success" 200%Z;
     library_predicate := fun _ _ => FnReturns (VBool false) |}.

(** The same page with the string [s] typed in every input. *)
Definition host_typed (s : string) : host :=
  {| dom_val := fun _ => DomString s;
     dom_checked := dom_checked host_empty;
     dom_value_attr := dom_value_attr host_empty;
     dom_visible := dom_visible host_empty;
     dom_query := dom_query host_empty;
     window_function := window_function host_empty;
     eval_expression := eval_expression host_empty;
     ajax := ajax host_empty;
     library_predicate := library_predicate host_empty |}.

Definition sequential : Options := {| stopAtFirstError := true |}.
Definition concurrent : Options := {| stopAtFirstError := false |}.

(** A constraint on a built-in rule, as [new Constraint] builds it with
    the default messages and an empty registry. *)
Definition standard (nm : string) (requirements : jsval) : Constraint :=
  fst (ConstraintM.new_Constraint MessagesDefaults [] nm requirements world_init).

(** A constraint on a validator of the registry. *)
Definition custom (v : Validator) (requirements : jsval) : Constraint :=
  fst (ConstraintM.new_Constraint MessagesDefaults [(name v, v)] (name v)
         requirements world_init).

(** [addValidator('emailAvailable', { url: '/api/users/email/available' })] *)
Definition remote_spec : ValidatorSpec :=
  {| spec_validateFn := None;
     spec_message := VUndefined;
     spec_group := false;
     spec_priority := None;
     spec_remote := false;
     spec_url := VStr "/api/users/email/available";
     spec_method := None;
     spec_dataKey := None;
     spec_isValidFn := None |}.

Definition emailAvailable : Validator :=
  new_RemoteValidator MessagesDefaults "emailAvailable" remote_spec.

(** A text input with the given rules and no conditional declaration. *)
Definition text_input (id : string) (cs : list (string * Constraint)) : Field :=
  {| __id__ := id;
     element_type := "text";
     validateIf := None;
     notValidateIf := None;
     successMessage := VUndefined;
     customErrorMessage := VUndefined;
     constraints := cs |}.

End Sample.

(* ================================================================== *)
(** ** Notions used in the statements *)
(* ================================================================== *)


(** The message template [_reject] settles on for a failing synchronous
    predicate: the field's [customErrorMessage] when there is one, the
    validator's [message] otherwise. *)
Definition resolved_template (customErrorMessage : jsval) (v : Validator) : jsval :=
  let reason := js_or customErrorMessage (message v) in
  js_or (js_or (get_prop reason "message") reason) (message v).

(** The requests of a trace: URL, method and payload of each
    [$.ajax] call. *)
Definition ajax_requests (l : list event)
  : list (jsval * string * list (string * jsval)) :=
  flat_map (fun e => match e with
                     | EvAjax u m d => [(u, m, d)]
                     | _ => []
                     end) l.

(** The events a computation added to the trace. *)
Definition added (w w' : world) : list event :=
  skipn (List.length (w_log w)) (w_log w').

(** C6 as the specification states it: a remote validator whose spec
    gives no method issues its requests with [GET]. *)
Definition default_method_is_GET : Prop :=
  forall (h : host) (Messages : list (string * jsval)) (nm : string)
         (spec : ValidatorSpec) (value requirements cem : jsval) (w : world),
    spec_method spec = None ->
    Forall (fun x => snd (fst x) = "GET")
      (ajax_requests
         (added w (snd (Validator_validate h
                          (new_RemoteValidator Messages nm spec)
                          value requirements cem w)))).

(** The object [{ [key]: value, ...extraProps }] read as a map. *)
Definition is_payload (key : string) (value : jsval)
    (extraProps data : list (string * jsval)) : Prop :=
  forall k, assoc k data
            = match assoc k extraProps with
              | Some e => Some e
              | None => if key =? k then Some value else None
              end.

(** The payload key the specification describes: the rule's own name
    for a [dataKey] of ["*"], the [dataKey] otherwise, ["value"] when
    none is declared. *)
Definition specified_key (nm : string) (spec : ValidatorSpec) : string :=
  match spec_dataKey spec with
  | Some k => if k =? "*" then nm else k
  | None => "value"
  end.

(** The payload key the constructor of [RemoteValidator] settles on. *)
Definition declared_key (spec : ValidatorSpec) : string :=
  match spec_dataKey spec with
  | Some k => k
  | None => "value"
  end.

(** C7 as the specification states it. *)
Definition star_dataKey_means_rule_name : Prop :=
  forall (h : host) (Messages : list (string * jsval)) (nm : string)
         (spec : ValidatorSpec) (value requirements cem : jsval) (w : world),
    let extraProps :=
      own_props (extra (nth 1 (call_args value requirements) VUndefined)) in
    NoDup (map fst extraProps) ->
    Forall (fun x => is_payload (specified_key nm spec) value extraProps (snd x))
      (ajax_requests
         (added w (snd (Validator_validate h
                          (new_RemoteValidator Messages nm spec)
                          value requirements cem w)))).

(** [addValidator('uniquePhone', { url: '/api/phone', dataKey: '*' })] *)
Definition uniquePhone_spec : ValidatorSpec :=
  {| spec_validateFn := None;
     spec_message := VUndefined;
     spec_group := false;
     spec_priority := None;
     spec_remote := false;
     spec_url := VStr "/api/phone";
     spec_method := None;
     spec_dataKey := Some "*";
     spec_isValidFn := None |}.

(** [addValidator('coupon', { remote: true, dataKey: 'code' })], with
    the URL and a client identifier in the requirement:
    [{ url: '/coupon', extra: { clientId: '123' } }]. *)
Definition coupon_spec : ValidatorSpec :=
  {| spec_validateFn := None;
     spec_message := VUndefined;
     spec_group := false;
     spec_priority := None;
     spec_remote := true;
     spec_url := VUndefined;
     spec_method := None;
     spec_dataKey := Some "code";
     spec_isValidFn := None |}.

Definition coupon_requirement : jsval :=
  VObj 7 [("url", VStr "/coupon"); ("extra", VObj 8 [("clientId", VStr "123")])].

(** The same with an array for [extra]: [{ url: '/coupon', extra:
    ['one'] }]. *)
Definition coupon_requirement_array : jsval :=
  VObj 7 [("url", VStr "/coupon"); ("extra", VArr 8 [VStr "one"])].

(** Whether evaluating a condition goes wrong: its selector matches no
    element, or the function or expression it names throws. *)
Definition condition_fails (h : host) (c : option condition) : bool :=
  match c with
  | Some (CondString s) =>
      if Utils.isSelector (VStr s) then
        match dom_query h s with None => true | Some _ => false end
      else
        match window_function h s with
        | Some (Throw _) => true
        | Some (Normal _) => false
        | None =>
            match eval_expression h s with
            | Throw _ => true
            | Normal _ => false
            end
        end
  | Some (CondFunction (Throw _)) => true
  | _ => false
  end.

(** What [evaluateConditionValue] answers for a condition. *)
Definition condition_value (h : host) (c : option condition) : bool :=
  fst (FieldM.evaluateConditionValue h c world_init).

(** The test at the head of [whenValidate]: the value is the one last
    evaluated and the state is settled. *)
Definition answered_from_cache (value : jsval) (st : fstate) : bool :=
  Utils.areEquals value (_lastValidatedValue st)
  && match _lastValidationState st with Some _ => true | None => false end.

(** The last sentence of C8 as the specification states it: a field
    whose include condition fails settles valid. *)
Definition failing_include_settles_valid : Prop :=
  forall (h : host) (o : Options) (f : Field) (s : vstate),
    condition_fails h (validateIf f) = true ->
    is_resolved (fst (FieldM.Field_whenValidate h o f s)) = true.

(** A company name that is validated only when the box [#isCompany] is
    ticked, and must have three characters. *)
Definition company_name : Field :=
  {| __id__ := "company";
     element_type := "text";
     validateIf := Some (CondString "#isCompany");
     notValidateIf := None;
     successMessage := VUndefined;
     customErrorMessage := VUndefined;
     constraints := [("minlength", Sample.standard "minlength" (VStr "3"))] |}.

(** The page with ["ab"] typed and the box present and ticked. *)
Definition host_box_ticked : host :=
  {| dom_val := fun _ => DomString "ab";
     dom_checked := fun _ => false;
     dom_value_attr := fun _ => "";
     dom_visible := fun _ => true;
     dom_query := fun sel => if sel =? "#isCompany"
                             then Some (TargetCheckbox true) else None;
     window_function := fun _ => None;
     eval_expression := fun _ => Normal true;
     ajax := fun _ _ _ => AjaxDone VNull "success" 200%Z;
     library_predicate := fun _ _ => FnReturns (VBool false) |}.

(** The same page after the box was removed from the document. *)
Definition host_box_removed : host := Sample.host_typed "ab".

(** What [shouldValidate] answers, and the warnings it logs. *)
Definition should_value (h : host) (f : Field) : bool :=
  match validateIf f with
  | Some c => condition_value h (Some c)
  | None => true
  end
  && negb match notValidateIf f with
          | Some c => condition_value h (Some c)
          | None => false
          end.

Definition should_warnings (h : host) (f : Field) : list event :=
  (if condition_fails h (validateIf f)
   then [EvWarn "Error evaluating validate-if condition"] else [])
  ++ (if condition_fails h (notValidateIf f)
      then [EvWarn "Error evaluating validate-if condition"] else []).

(** The tests of [whenValidate] that settle a field as valid without
    looking at its rules: a checkbox or radio input, a conditional gate
    that is closed, no rule at all, an element that is not visible, an
    empty value that is not required. *)
Definition skipped (h : host) (f : Field) (value : jsval) : bool :=
  FieldM.is_checkbox_or_radio (element_type f)
  || negb (should_value h f)
  || Nat.eqb (List.length (constraints f)) 0
  || negb (dom_visible h (__id__ f))
  || (Utils.empty value && negb (FieldM._isRequired f)).

(** The last branch of [whenValidate]: the pre-validation hook, then
    the rules. *)
Definition run_rules (h : host) (o : Options) (f : Field)
    (pre : ST vstate (promise unit)) (value : jsval) : ST vstate (promise jsval) :=
  (p <- pre ;;
   match p with
   | Rejected r => ret (Rejected r)
   | Resolved _ =>
       built <- liftW (FieldM._buildValidationsFor h o f value) ;;
       match built with
       | Throw e => ret (Rejected e)
       | Normal validations => FieldM._finalizeValidationResult o f value validations
       end
   end)%st.

(** The field once [whenValidate] has left the cache behind: the error
    list is emptied and the value is remembered; [warned] tells whether
    [shouldValidate] has run. *)
Definition prepared (h : host) (f : Field) (value : jsval) (s : vstate)
    (w1 : world) (warned : bool) : vstate :=
  {| self := set_lastValidatedValue (fst (Utils.cloneValue value w1))
               (set_validationResult (Some (ErrorList [])) (self s));
     kids := kids s;
     wld := {| w_next := w_next (snd (Utils.cloneValue value w1));
               w_log := w_log w1
                        ++ (if warned then should_warnings h f else []) |} |}.


(** [addValidator('anyTag', { group: true, validateFn: values =>
    values.some(v => v.length > 0) })], on values that hold a selection. *)
Definition anyTag : Validator :=
  new_Validator MessagesDefaults "anyTag"
    (Some (fun _ => FnReturns (VBool true))) VUndefined true None.

(** A group made of one [select multiple], with the rule [anyTag]. *)
Definition tags_group : GroupField :=
  {| base := {| __id__ := "tags";
                element_type := "";
                validateIf := None;
                notValidateIf := None;
                successMessage := VUndefined;
                customErrorMessage := VUndefined;
                constraints := [("anyTag", Sample.custom anyTag (VStr ""))] |};
     fields := [Sample.text_input "tag-list" []];
     multipleType := None |}.

(** The page with the option ["a"] selected. *)
Definition host_tag_selected : host :=
  {| dom_val := fun _ => DomList ["a"];
     dom_checked := fun _ => false;
     dom_value_attr := fun _ => "";
     dom_visible := fun _ => true;
     dom_query := fun _ => None;
     window_function := fun _ => None;
     eval_expression := fun _ => Normal true;
     ajax := fun _ _ _ => AjaxDone VNull "success" 200%Z;
     library_predicate := fun _ _ => FnReturns (VBool true) |}.




(** The order in which the rules of a field are evaluated. *)
Definition evaluation_order (f : Field) : list Constraint :=
  sort_by_priority (map snd (constraints f)).

Definition by_priority_desc (a b : Constraint) : Prop :=
  (c_priority b <= c_priority a)%Z.

Definition with_priority (p : Z) (l : list Constraint) : list Constraint :=
  filter (fun c => (c_priority c =? p)%Z) l.

(** The two ordering sentences of C4 as the specification states them:
    the [required] rule of priority 100 is evaluated first, and a remote
    rule left at its default priority is evaluated last. *)
Definition required_runs_first : Prop :=
  forall (f : Field) (c : Constraint),
    In c (map snd (constraints f)) ->
    c_name c = "required" -> c_priority c = 100%Z ->
    hd_error (evaluation_order f) = Some c.

Definition default_remote_runs_last : Prop :=
  forall (f : Field) (nm : string) (spec : ValidatorSpec) (req : jsval),
    spec_priority spec = None ->
    In (Sample.custom (new_RemoteValidator MessagesDefaults nm spec) req)
       (map snd (constraints f)) ->
    c_name (last (evaluation_order f) (Sample.standard "required" VUndefined)) = nm.

(** [addValidator('vip', { validateFn, priority: 200 })] and
    [addValidator('lowercase', { validateFn })] *)
Definition vip : Validator :=
  new_Validator MessagesDefaults "vip"
    (Some (fun _ => FnReturns (VBool true))) VUndefined false (Some 200%Z).

Definition lowercase : Validator :=
  new_Validator MessagesDefaults "lowercase"
    (Some (fun _ => FnReturns (VBool true))) VUndefined false None.

(** An input that is required and carries the rule [vip]. *)
Definition vip_input : Field :=
  Sample.text_input "member"
    [("required", Sample.standard "required" (VStr ""));
     ("vip", Sample.custom vip (VStr ""))].

(** An input checked on the server and by the rule [lowercase]. *)
Definition email_input : Field :=
  Sample.text_input "email"
    [("lowercase", Sample.custom lowercase (VStr ""));
     ("emailAvailable", Sample.custom Sample.emailAvailable (VStr ""))].

(** An input that is required and must have three characters, the
    length rule being declared first. *)
Definition name_input : Field :=
  Sample.text_input "name"
    [("minlength", Sample.standard "minlength" (VStr "3"));
     ("required", Sample.standard "required" (VStr ""))].

(** [addValidator('checksum', { validateFn() { throw new Error('boom') } })] *)
Definition checksum : Validator :=
  new_Validator MessagesDefaults "checksum"
    (Some (fun _ => FnThrows (JsError "boom"))) VUndefined false None.

Definition iban_input : Field :=
  Sample.text_input "iban" [("checksum", Sample.custom checksum (VStr ""))].

(** The page with the server down: every request fails with
    [404 Not Found]. *)
Definition host_server_down : host :=
  {| dom_val := fun _ => DomString "a@b.com";
     dom_checked := fun _ => false;
     dom_value_attr := fun _ => "";
     dom_visible := fun _ => true;
     dom_query := fun _ => None;
     window_function := fun _ => None;
     eval_expression := fun _ => Normal true;
     ajax := fun _ _ _ => AjaxFail (VStr "error") (VStr "Not Found");
     library_predicate := fun _ _ => FnReturns (VBool true) |}.

(** Some child of the group has a cached state that is invalid. *)
Definition has_invalid_child (g : GroupField) (s : vstate) : bool :=
  existsb (fun c => match _lastValidationState
                            (GroupFieldM.child_state s (fst c)) with
                    | Some false => true
                    | _ => false
                    end) (GroupFieldM.indexed g).

(** C2 as the specification states it: a group with a known-invalid
    child settles invalid. *)
Definition invalid_child_blocks_group : Prop :=
  forall (h : host) (o : Options) (g : GroupField) (s : vstate),
    fields g <> [] ->
    has_invalid_child g s = true ->
    is_resolved (fst (GroupFieldM.GroupField_whenValidate h o g s)) = false.

(** A group around one required input, asking for at least one filled
    input. *)
Definition phone_input : Field :=
  Sample.text_input "phone" [("required", Sample.standard "required" (VStr ""))].

Definition contact_group : GroupField :=
  {| base := {| __id__ := "contact";
                element_type := "";
                validateIf := None;
                notValidateIf := None;
                successMessage := VUndefined;
                customErrorMessage := VUndefined;
                constraints := [("minrequired",
                                 Sample.standard "minrequired" (VStr "1"))] |};
     fields := [phone_input];
     multipleType := None |}.

(** The group after its child was evaluated, empty, on its own (as the
    child's input event does). *)
Definition contact_after_child_failed : vstate :=
  snd (on_child 0 (FieldM.Field_whenValidate Sample.host_empty Sample.sequential
                     phone_input)
         (vstate_init 1)).

(** A group of two inputs where the first is required; the page has
    ["x"] typed in the second only. *)
Definition name_pair : GroupField :=
  {| base := {| __id__ := "names";
                element_type := "";
                validateIf := None;
                notValidateIf := None;
                successMessage := VUndefined;
                customErrorMessage := VUndefined;
                constraints := [("minrequired",
                                 Sample.standard "minrequired" (VStr "1"))] |};
     fields := [Sample.text_input "first"
                  [("required", Sample.standard "required" (VStr ""))];
                Sample.text_input "last" []];
     multipleType := None |}.

Definition host_last_typed : host :=
  {| dom_val := fun id => if id =? "last" then DomString "x" else DomString "";
     dom_checked := fun _ => false;
     dom_value_attr := fun _ => "";
     dom_visible := fun _ => true;
     dom_query := fun _ => None;
     window_function := fun _ => None;
     eval_expression := fun _ => Normal true;
     ajax := fun _ _ _ => AjaxDone VNull "success" 200%Z;
     library_predicate := fun _ _ => FnReturns (VBool true) |}.

Definition names_after_first_failed : vstate :=
  snd (on_child 0 (FieldM.Field_whenValidate host_last_typed Sample.sequential
                     (Sample.text_input "first"
                        [("required", Sample.standard "required" (VStr ""))]))
         (vstate_init 2)).

(** The states a plain field goes through when no two evaluations
    overlap: built, then evaluated on any page and with either strategy,
    each evaluation settling before the next step, or reset, any number
    of times.  The states left by evaluations that overlap are those of
    [PendingM]. *)
Inductive reachable (f : Field) : vstate -> Prop :=
| reach_built (w : world) :
    reachable f {| self := fstate_init; kids := []; wld := w |}
| reach_evaluated (h : host) (o : Options) (s : vstate) :
    reachable f s -> reachable f (snd (FieldM.Field_whenValidate h o f s))
| reach_reset (s : vstate) :
    reachable f s -> reachable f (snd (FieldM.reset s)).


(** A nickname of at least three characters, not required, and the
    field after ["ab"] was found too short. *)
Definition nickname : Field :=
  Sample.text_input "nick" [("minlength", Sample.standard "minlength" (VStr "3"))].

Definition nickname_after_failure : vstate :=
  snd (FieldM.Field_whenValidate (Sample.host_typed "ab") Sample.sequential
         nickname (vstate_init 0)).

(** A started evaluation that went through: no exception and a
    resolved promise. *)
Definition passed {A : Type} (c : completion (promise A)) : bool :=
  match c with
  | Normal (Resolved _) => true
  | _ => false
  end.

(** Two runs from the same state give the same verdict and, when the
    verdict is valid, the same result and the same state. *)
Definition same_verdict {S A : Type} (r1 r2 : promise A * S) : Prop :=
  is_resolved (fst r1) = is_resolved (fst r2)
  /\ (is_resolved (fst r1) = true -> r1 = r2).

Definition same_pass {S A : Type} (t1 t2 : ST S (completion (promise A))) : Prop :=
  forall s, passed (fst (t1 s)) = passed (fst (t2 s))
            /\ (passed (fst (t1 s)) = true -> t1 s = t2 s).

(** The values of the promises that resolved. *)
Definition resolved_values {A : Type} (ps : list (promise A)) : list A :=
  flat_map (fun r => match r with Resolved v => [v] | Rejected _ => [] end) ps.

(** The concurrent strategy over started evaluations: start them all,
    then [Utils.all]; an exception while starting rejects. *)
Definition run_concurrent {S A : Type} (items : list (ST S (completion (promise A))))
  : ST S (promise (list A)) :=
  (started <- start_all items ;;
   match started with
   | Throw e => ret (Rejected e)
   | Normal ps => ret (Utils.all ps)
   end)%st.

(** The exception a predicate throws when it is called synchronously. *)
Definition sync_predicate_throws (h : host) (v : Validator) (args : list jsval)
  : option reason :=
  match validateFn v with
  | FnPredicate p =>
      match p args with FnThrows e => Some e | _ => None end
  | FnLibrary nm =>
      match library_predicate h nm args with FnThrows e => Some e | _ => None end
  | _ => None
  end.

(** The reason of the [fail] callback of a remote validator:
    [errorThrown || textStatus || 'Remote validation failed']. *)
Definition failure_text (textStatus errorThrown : jsval) : jsval :=
  js_or (js_or errorThrown textStatus) (VStr "Remote validation failed").

(** The message [_reject] builds from a rejection reason. *)
Definition rejection_message (v : Validator) (reason requirements : jsval) : jsval :=
  Utils.formatMessage
    (js_or (js_or (get_prop reason "message") reason) (message v)) requirements.

(** One sentence of C5 as the specification states it: the failure of
    a remote call that is not a validation failure is never turned into
    a [ValidationError]. *)
Definition transport_failure_is_not_ValidationError : Prop :=
  forall (h : host) (v : Validator) (r : Remote) (value requirements cem : jsval)
         (w : world) (textStatus errorThrown : jsval),
    validateFn v = FnRemote r ->
    (forall u m d, ajax h u m d = AjaxFail textStatus errorThrown) ->
    forall a m,
      fst (Validator_validate h v value requirements cem w)
      <> Normal (Rejected (ValidationError a m)).

(* ================================================================== *)
(** ** Form *)
(* ================================================================== *)

(** An entry of [form.fields]: a plain [Field], or a [GroupField] with
    its children. *)
Inductive entity : Type :=
| PlainField (f : Field)
| Group (g : GroupField).

(** A field object of a form: what it was built from and its mutable
    part (its own state and the states of its children). *)
Record member : Type := {
  m_entity : entity;
  m_self : fstate;
  m_kids : list fstate
}.

Definition entity_id (e : entity) : string :=
  match e with
  | PlainField f => __id__ f
  | Group g => __id__ (base g)
  end.

Module FormM.

Record Form : Type := {
  element : string;
  fields : list member
}.

Section WithHost.

Variable h : host.
Variable options : Options.

(** [field.whenValidate()] on an entry of [this.fields]: the method of
    [Field] or the one of [GroupField], run on that object. *)
Definition member_whenValidate (m : member) : ST world (promise jsval * member) :=
  fun w =>
    let (p, s') :=
      match m_entity m with
      | PlainField f => FieldM.Field_whenValidate h options f
      | Group g => GroupFieldM.GroupField_whenValidate h options g
      end {| self := m_self m; kids := m_kids m; wld := w |} in
    ((p, {| m_entity := m_entity m; m_self := self s'; m_kids := kids s' |}),
     wld s').

(** [this.$element.trigger(`form:${event}`)] *)
Definition _trigger (form : Form) (event : string) : ST world unit :=
  emit (EvTrigger (element form) ("form:" ++ event)).

(** [whenValidate()]: the settlement of the promise and the form with
    the field objects as the evaluations left them. *)
Definition whenValidate (form : Form) : ST world (promise (list jsval) * Form) :=
  _trigger form "validate" ;;;
  settled <- mapM member_whenValidate (fields form) ;;
  let form' := {| element := element form; fields := map snd settled |} in
  match Utils.all (map fst settled) with
  | Resolved values =>
      _trigger form "validated" ;;;
      ret (Resolved values, form')
  | Rejected failedFields =>
      _trigger form "error" ;;;
      ret (Rejected failedFields, form')
  end.

(** [validate()]: [whenValidate().then(_ => true).catch(_ => false)] *)
Definition validate (form : Form) : ST world (promise bool * Form) :=
  r <- whenValidate form ;;
  match fst r with
  | Resolved _ => ret (Resolved true, snd r)
  | Rejected _ => ret (Resolved false, snd r)
  end.

End WithHost.

End FormM.

(** The fields of a form that are in the invalid state. *)
Definition invalid_members (ms : list member) : list member :=
  filter (fun m => match _lastValidationState (m_self m) with
                   | Some false => true
                   | _ => false
                   end) ms.

Definition is_plain (m : member) : bool :=
  match m_entity m with PlainField _ => true | Group _ => false end.

(** A form with two inputs: a required name and an optional nickname of
    three characters or more. *)
Definition signup_form : FormM.Form :=
  {| FormM.element := "signup";
     FormM.fields :=
       [ {| m_entity := PlainField name_input; m_self := fstate_init; m_kids := [] |};
         {| m_entity := PlainField nickname; m_self := fstate_init; m_kids := [] |} ] |}.

(** The predicate call a rule makes on a value: none when the rule has
    no validator, or a validator without a function. *)
Definition invocation (value : jsval) (c : Constraint) : list event :=
  match c_validator c with
  | Some v =>
      match validateFn v with
      | FnMissing => []
      | _ => [EvInvoke (name v) (call_args value (c_requirements c))]
      end
  | None => []
  end.

(** What makes an evaluation fail: the exception it throws or the
    reason its promise is rejected with. *)
Definition failure_of {A : Type} (c : completion (promise A)) : option reason :=
  match c with
  | Throw e => Some e
  | Normal (Rejected e) => Some e
  | Normal (Resolved _) => None
  end.

Definition throws {A : Type} (c : completion A) : bool :=
  match c with Throw _ => true | Normal _ => false end.

(** The outcome of a rule of a field on a value: the failure of
    [validateConstraint], if any, and whether it is an exception. *)
Definition rule_failure (h : host) (customErrorMessage value : jsval)
    (c : Constraint) : option reason :=
  failure_of (fst (validateConstraint h customErrorMessage c value world_init)).

Definition rule_passes (h : host) (customErrorMessage value : jsval)
    (c : Constraint) : bool :=
  match rule_failure h customErrorMessage value c with
  | None => true
  | Some _ => false
  end.

Definition rule_throws (h : host) (customErrorMessage value : jsval)
    (c : Constraint) : bool :=
  throws (fst (validateConstraint h customErrorMessage c value world_init)).

(** The elements of a list up to and including the first one that does
    not satisfy [p]. *)
Fixpoint through_first_failure {A : Type} (p : A -> bool) (l : list A) : list A :=
  match l with
  | [] => []
  | x :: rest => if p x then x :: through_first_failure p rest else [x]
  end.

(** The failures of a list of rules, in order. *)
Definition failures (h : host) (customErrorMessage value : jsval)
    (l : list Constraint) : list reason :=
  flat_map (fun c => match rule_failure h customErrorMessage value c with
                     | Some e => [e]
                     | None => []
                     end) l.

(* ================================================================== *)
(** ** Utils: serialized values *)
(* ================================================================== *)

(** LineTerminator code units below 256: LF and CR.  The dot of a
    regular expression matches every character but these. *)
Definition is_line_terminator (c : ascii) : bool :=
  let n := nat_of_ascii c in (Nat.eqb n 10 || Nat.eqb n 13)%bool.

(** [s.includes(c)] for a one-character string *)
Fixpoint includes (c : ascii) (s : string) : bool :=
  match s with
  | EmptyString => false
  | String d rest => Ascii.eqb d c || includes c rest
  end.

(** [s.split(sep)] for a one-character separator: the pieces between
    the separators, of which there is always one at least. *)
Fixpoint split (sep : ascii) (s : string) : list string :=
  match s with
  | EmptyString => [EmptyString]
  | String c rest =>
      if Ascii.eqb c sep then EmptyString :: split sep rest
      else
        match split sep rest with
        | piece :: pieces => String c piece :: pieces
        | [] => [String c EmptyString]
        end
  end.

(** The text before a closing bracket that ends the string. *)
Fixpoint before_closing_bracket (s : string) : option string :=
  match s with
  | EmptyString => None
  | String c EmptyString => if Ascii.eqb c "]"%char then Some EmptyString else None
  | String c rest =>
      match before_closing_bracket rest with
      | Some middle => Some (String c middle)
      | None => None
      end
  end.

(** The capture of the regular expression of [Utils.deserialize]: an
    opening bracket at the start, whitespace, the captured text,
    whitespace, a closing bracket at the end.  The first run of
    whitespace is greedy and the capture is lazy, so that the capture is
    the text between the brackets without the whitespace around it; the
    capture is matched by dots, so that there is no match when it would
    hold a line terminator. *)
Definition array_match (value : string) : option string :=
  match value with
  | String c rest =>
      if Ascii.eqb c "["%char then
        match before_closing_bracket rest with
        | Some middle =>
            if string_forall (fun c => negb (is_line_terminator c)) (trim middle)
            then Some (trim middle)
            else None
        | None => None
        end
      else None
  | EmptyString => None
  end.

(** [inner.split(',').map(item => item.trim()).filter(Boolean)] *)
Definition items_of (inner : string) : list string :=
  filter (fun item => negb (item =? "")) (map trim (split ","%char inner)).

(** [Utils.serialize(value)] *)
Definition serialize (value : jsval) : jsval :=
  match value with
  | VArr _ _ => VStr ("[" ++ toString value ++ "]")
  | _ => value
  end.

(** [Utils.deserialize(value)] on what its callers pass: a string (an
    attribute value, a [requirementType], a [dual]) or [undefined]
    ([None]). *)
Definition deserialize (value : option string) : ST world jsval :=
  match value with
  | None => ret (VStr "")
  | Some v =>
      let value := trim v in
      if value =? "" then ret (VStr "")
      else if includes "["%char value then
        match array_match value with
        | Some inner => r <- fresh ;; ret (VArr r (map VStr (items_of inner)))
        | None => ret (VStr value)
        end
      else ret (VStr value)
  end.

(** [Utils.isStringOrArray(val)] *)
Definition isStringOrArray (val : jsval) : bool :=
  match val with
  | VStr _ | VArr _ _ => true
  | _ => false
  end.

(** [Utils.toArray(value)]: the elements of [[].concat(value || [])] *)
Definition toArray (value : jsval) : list jsval :=
  if truthy value then
    match value with
    | VArr _ elems => elems
    | _ => [value]
    end
  else [].

(** An item that [Utils.serialize] and [Utils.deserialize] carry over
    unchanged: not empty, without whitespace at either end, without a
    comma and without a line terminator. *)
Definition plain_item (s : string) : bool :=
  negb (s =? "") && (trim s =? s)
  && string_forall (fun c => negb (Ascii.eqb c ","%char)
                             && negb (is_line_terminator c)) s.

(** A text input with [required="false"], as [new Constraint] builds
    its rule from the attribute. *)
Definition optional_looking_input : Field :=
  Sample.text_input "middle-name"
    [("required",
      Sample.standard "required" (fst (deserialize (Some "false") world_init)))].

(** A page that defines the global function [shouldValidateField],
    which answers [true], and has no element named after it. *)
Definition host_shouldValidateField : host :=
  {| dom_val := fun _ => DomString "x";
     dom_checked := fun _ => false;
     dom_value_attr := fun _ => "";
     dom_visible := fun _ => true;
     dom_query := fun _ => None;
     window_function := fun nm => if nm =? "shouldValidateField"
                                  then Some (Normal true) else None;
     eval_expression := fun _ => Normal true;
     ajax := fun _ _ _ => AjaxDone VNull "success" 200%Z;
     library_predicate := fun _ _ => FnReturns (VBool true) |}.

(** A page whose server answers every request with the given data and
    the status 422. *)
Definition host_server_answers (data : jsval) : host :=
  {| dom_val := fun _ => DomString "a@b.com";
     dom_checked := fun _ => false;
     dom_value_attr := fun _ => "";
     dom_visible := fun _ => true;
     dom_query := fun _ => None;
     window_function := fun _ => None;
     eval_expression := fun _ => Normal true;
     ajax := fun _ _ _ => AjaxDone data "success" 200%Z;
     library_predicate := fun _ _ => FnReturns (VBool true) |}.

(** [addValidator('unique', { url: '/unique', message: 'Taken.',
    isValidFn: data => data.ok })], where the server answers with an
    object whose [ok] is false. *)
Definition unique_spec : ValidatorSpec :=
  {| spec_validateFn := None;
     spec_message := VStr "Taken.";
     spec_group := false;
     spec_priority := None;
     spec_remote := false;
     spec_url := VStr "/unique";
     spec_method := None;
     spec_dataKey := None;
     spec_isValidFn := Some (fun data _ _ => Normal (truthy (get_prop data "ok"))) |}.

(* ================================================================== *)
(** ** Construction of the rules of a field *)
(* ================================================================== *)

(** The [requirementType] of the entries of [standardValidators] that
    declare one, and the [dual] of those that merge two attributes. *)
Definition requirementType : list (string * string) :=
  [ ("minrequired", "integer");
    ("pattern", "regexp");
    ("min", "number");
    ("max", "number");
    ("range", "[number,number]");
    ("minlength", "integer");
    ("maxlength", "integer");
    ("length", "[integer,integer]");
    ("equalto", "number|selector");
    ("notequalto", "number|selector");
    ("gt", "number|selector");
    ("gte", "number|selector");
    ("lt", "number|selector");
    ("lte", "number|selector");
    ("mincheck", "integer");
    ("maxcheck", "integer");
    ("check", "[integer,integer]") ].

Definition dual : list (string * string) :=
  [ ("range", "[min,max]");
    ("length", "[minlength,maxlength]");
    ("check", "[mincheck,maxcheck]") ].

(** The table [dualValidators], built when the script is loaded: each
    of the two attributes of a [dual] is mapped to the other one
    ([dualAttr]) and to the rule that merges them ([dualName]). *)
Definition dualValidators : list (string * (string * string)) :=
  fold_left
    (fun duals entry =>
       let dualName := fst entry in
       match assoc dualName dual with
       | Some text =>
           match fst (deserialize (Some text) {| w_next := 0; w_log := [] |}) with
           | VArr _ (VStr first :: VStr second :: _) =>
               set_prop second (first, dualName)
                 (set_prop first (second, dualName) duals)
           | _ => duals
           end
       | None => duals
       end)
    standardValidators [].

Definition is_digit (c : ascii) : bool :=
  let n := nat_of_ascii c in ((48 <=? n) && (n <=? 57))%nat.

(** The testers [integer], [digits] and [alphanum] of [typeTesters]:
    an optional minus sign and one digit or more; one digit or more; one
    word character or more. *)
Definition integer_regex (s : string) : bool :=
  match s with
  | String c rest =>
      if Ascii.eqb c "-"%char
      then negb (rest =? "") && string_forall is_digit rest
      else string_forall is_digit s
  | EmptyString => false
  end.

Definition digits_regex (s : string) : bool :=
  negb (s =? "") && string_forall is_digit s.

Definition alphanum_regex (s : string) : bool :=
  negb (s =? "") && string_forall is_word_char s.

(** A double quote, for the text of error messages. *)
Definition dquote : string := String (ascii_of_nat 34) EmptyString.

Definition quoted (s : string) : string := dquote ++ s ++ dquote.

(** What a new field reads and writes while its rules are bound: its
    [constraints], its [domOptions], the set [usedKeys] of
    [_bindConstraints], and the registry [customValidators], whose
    validators are shared by all the fields. *)
Record binding : Type := {
  b_constraints : list (string * Constraint);
  b_domOptions : list (string * jsval);
  b_usedKeys : list string;
  b_customValidators : list (string * Validator)
}.

Definition set_message (m : jsval) (v : Validator) : Validator :=
  {| name := name v;
     validateFn := validateFn v;
     message := m;
     group := group v;
     priority := priority v |}.

Module Build.

Section WithMessages.

Variable Messages : list (string * jsval).

(** The testers of [typeTesters] that rest on [RegExp] compilation, on
    [Date] and on the patterns for e-mail addresses, URLs and telephone
    numbers: [email], [date], [tel], [url] and [regexp]. *)
Variable library_tester : string -> jsval -> completion bool.

(** [typeTesters[type].test(r)]; a regular expression tests the text of
    [r]. *)
Definition tester_test (type : string) (r : jsval) : completion bool :=
  if (type =? "number") || (type =? "range") then Normal true
  else if type =? "integer" then Normal (integer_regex (toString r))
  else if type =? "digits" then Normal (digits_regex (toString r))
  else if type =? "alphanum" then Normal (alphanum_regex (toString r))
  else if type =? "selector" then Normal (selector_regex (toString r))
  else if existsb (String.eqb type) ["email"; "date"; "tel"; "url"; "regexp"]
  then library_tester type r
  else Throw (JsError ("[Fiddo] Unknown requirement type " ++ quoted type
                       ++ " in validator.")).

(** [typeGroup.some(type => tester.test(r))] *)
Fixpoint some_tester (typeGroup : list string) (r : jsval) : completion bool :=
  match typeGroup with
  | [] => Normal false
  | type :: rest =>
      match tester_test type r with
      | Throw e => Throw e
      | Normal true => Normal true
      | Normal false => some_tester rest r
      end
  end.

(** [reqs.every((r, i) => ...)] with [types[i].split('|').map(t =>
    t.trim())] *)
Fixpoint every_requirement (reqs types : list jsval) : completion bool :=
  match reqs, types with
  | [], _ => Normal true
  | r :: reqs', VStr t :: types' =>
      match some_tester (map trim (split "|"%char t)) r with
      | Throw e => Throw e
      | Normal false => Normal false
      | Normal true => every_requirement reqs' types'
      end
  | _ :: _, _ => Throw (JsError "TypeError: types[i].split is not a function")
  end.

(** [_validateRequirementType(requirements, requirementType)] *)
Definition _validateRequirementType (requirements requirementType : jsval)
  : completion bool :=
  if negb (truthy requirementType) then Normal true
  else
    let reqs := toArray requirements in
    let types := toArray requirementType in
    if negb (Nat.eqb (List.length reqs) (List.length types)) then Normal false
    else every_requirement reqs types.

(** [new StandardValidator(name, requirements)] with the check of the
    requirement against [requirementType]. *)
Definition StandardValidator (nm : string) (requirements : jsval)
  : ST world (completion Validator) :=
  match new_StandardValidator Messages nm requirements with
  | None =>
      ret (Throw (JsError ("[Fiddo] StandardValidator " ++ quoted nm
                           ++ ": Undefined validateFn")))
  | Some v =>
      type <- deserialize (assoc nm requirementType) ;;
      if isStringOrArray type then
        match _validateRequirementType requirements type with
        | Throw e => ret (Throw e)
        | Normal false =>
            ret (Throw (JsError
                          ("[Fiddo] StandardValidator " ++ quoted nm
                           ++ ": Expected requirement of type "
                           ++ quoted (toString (serialize type))
                           ++ ", got " ++ quoted (toString (serialize requirements)))))
        | Normal true => ret (Normal v)
        end
      else ret (Normal v)
  end.

(** [new Constraint(field, name, requirements)] *)
Definition Constraint_ (customValidators : list (string * Validator))
    (nm : string) (requirements : jsval) : ST world (completion Constraint) :=
  match assoc nm customValidators with
  | Some v =>
      ret (Normal {| c_name := nm;
                     c_requirements := requirements;
                     c_validator := Some v;
                     c_priority := priority v |})
  | None =>
      if ConstraintM.isStandardConstraint nm requirements then
        built <- StandardValidator nm requirements ;;
        match built with
        | Throw e => ret (Throw e)
        | Normal v =>
            ret (Normal {| c_name := nm;
                           c_requirements := requirements;
                           c_validator := Some v;
                           c_priority := priority v |})
        end
      else
        emit (EvWarn "no validator found") ;;;
        ret (Normal {| c_name := nm;
                       c_requirements := requirements;
                       c_validator := None;
                       c_priority := 0%Z |})
  end.

(** The message an override [customConstraintMessage] stands for: the
    entry of [Messages] it names after an [@], or itself. *)
Definition override_message (customConstraintMessage : string) : jsval :=
  match customConstraintMessage with
  | String c msgKey =>
      if Ascii.eqb c "@"%char
      then js_or (lookup_prop msgKey Messages) (VStr customConstraintMessage)
      else VStr customConstraintMessage
  | EmptyString => VStr customConstraintMessage
  end.

(** [addConstraint(name, requirements)].  The validator of a rule of the
    registry is the object of the registry: writing its message writes
    it for every field. *)
Definition addConstraint (b : binding) (nm : string) (requirements : jsval)
  : ST world (completion binding) :=
  built <- Constraint_ (b_customValidators b) nm requirements ;;
  match built with
  | Throw e => ret (Throw e)
  | Normal constraint =>
      let customConstraintMessage := lookup_prop (nm ++ "Message") (b_domOptions b) in
      let store (c : Constraint) (registry : list (string * Validator)) :=
        ret (Normal {| b_constraints := set_prop nm c (b_constraints b);
                       b_domOptions := b_domOptions b;
                       b_usedKeys := b_usedKeys b;
                       b_customValidators := registry |}) in
      match customConstraintMessage with
      | VStr text =>
          if text =? "" then store constraint (b_customValidators b)
          else
            match c_validator constraint with
            | None =>
                ret (Throw (JsError "TypeError: cannot set properties of undefined"))
            | Some v =>
                let v' := set_message (override_message text) v in
                store {| c_name := c_name constraint;
                         c_requirements := c_requirements constraint;
                         c_validator := Some v';
                         c_priority := c_priority constraint |}
                      (match assoc nm (b_customValidators b) with
                       | Some _ => set_prop nm v' (b_customValidators b)
                       | None => b_customValidators b
                       end)
            end
      | VArr _ (_ :: _) =>
          ret (Throw (JsError "TypeError: customConstraintMessage.startsWith is not a function"))
      | _ => store constraint (b_customValidators b)
      end
  end.

(** [isDualConstraint(name, attributes)] of [_bindConstraints] *)
Definition isDualConstraint (usedKeys : list string) (nm : string)
    (attributes : list (string * jsval)) : option (string * string) :=
  match assoc nm dualValidators with
  | Some (dualAttr, dualName) =>
      if existsb (String.eqb dualAttr) (map fst attributes)
         && negb (existsb (String.eqb dualAttr) usedKeys)
      then Some (dualAttr, dualName)
      else None
  | None => None
  end.

(** The body of the loop of [_bindConstraints] for one entry of
    [Object.entries(attributes)]. *)
Definition bind_entry (attributes : list (string * jsval)) (b : binding)
    (entry : string * jsval) : ST world (completion binding) :=
  let (nm, requirements) := entry in
  if existsb (String.eqb nm) (b_usedKeys b) then ret (Normal b)
  else if ConstraintM.isValidConstraint (b_customValidators b) nm requirements then
    match isDualConstraint (b_usedKeys b) nm attributes with
    | Some (dualAttr, dualName) =>
        let dualValues (key : jsval) : jsval :=
          match key with
          | VStr k =>
              if k =? dualAttr then lookup_prop dualAttr attributes
              else if k =? nm then requirements
              else VUndefined
          | _ => VUndefined
          end in
        orderedKeys <- deserialize (assoc dualName dual) ;;
        match orderedKeys with
        | VArr _ keys =>
            r <- fresh ;;
            let dualRequirements := VArr r (map dualValues keys) in
            if ConstraintM.isValidConstraint (b_customValidators b) dualName
                 dualRequirements
            then
              added <- addConstraint b dualName dualRequirements ;;
              match added with
              | Throw e => ret (Throw e)
              | Normal b' =>
                  ret (Normal {| b_constraints := b_constraints b';
                                 b_domOptions := b_domOptions b';
                                 b_usedKeys := dualAttr :: b_usedKeys b';
                                 b_customValidators := b_customValidators b' |})
              end
            else ret (Normal b)
        | _ => ret (Throw (JsError "TypeError: orderedKeys.map is not a function"))
        end
    | None => addConstraint b nm requirements
    end
  else
    ret (Normal {| b_constraints := b_constraints b;
                   b_domOptions := set_prop nm requirements (b_domOptions b);
                   b_usedKeys := b_usedKeys b;
                   b_customValidators := b_customValidators b |}).

Fixpoint bind_entries (attributes entries : list (string * jsval)) (b : binding)
  : ST world (completion binding) :=
  match entries with
  | [] => ret (Normal b)
  | entry :: rest =>
      bound <- bind_entry attributes b entry ;;
      match bound with
      | Throw e => ret (Throw e)
      | Normal b' => bind_entries attributes rest b'
      end
  end.

(** [_bindConstraints()] on the entries of the object [_getAttr()]
    returns, in the order of [Object.entries]; the names of the
    attributes are taken not to be the names of members every object
    inherits ([constructor], [toString], ...). *)
Definition _bindConstraints (attributes : list (string * jsval))
    (customValidators : list (string * Validator)) : ST world (completion binding) :=
  bind_entries attributes attributes
    {| b_constraints := [];
       b_domOptions := [];
       b_usedKeys := [];
       b_customValidators := customValidators |}.

End WithMessages.

End Build.




(** What the flags of a field object keep telling together: a field
    that shows as valid is in the valid state, and a field in the invalid
    state shows as invalid and has failed once (so that it listens to
    the events of [triggerAfterFailure]). *)
Definition flags_consistent (s : vstate) : Prop :=
  (_isValid (self s) = true -> _lastValidationState (self s) = Some true)
  /\ (_lastValidationState (self s) = Some false ->
      _failedOnce (self s) = true /\ _isValid (self s) = false).

(** The inputs whose [type] makes a group a set of choices. *)
Definition is_choice (t : string) : bool := FieldM.is_checkbox_or_radio (lower t).


(** A character that takes no part in a placeholder or in a
    replacement pattern. *)
Definition is_inert (c : ascii) : bool :=
  negb (Ascii.eqb c "%"%char) && negb (Ascii.eqb c "$"%char).

(** A template: pieces of text, each followed by the placeholder
    [%s], and a last piece; and the same text with the placeholders
    filled, in order. *)
Fixpoint template (pieces : list string) (last : string) : string :=
  match pieces with
  | [] => last
  | p :: rest => p ++ "%s" ++ template rest last
  end.

Fixpoint filled (pieces fills : list string) (last : string) : string :=
  match pieces, fills with
  | p :: rest, r :: fills' => p ++ r ++ filled rest fills' last
  | _, _ => template pieces last
  end.

(* ================================================================== *)
(** ** A child tells its group *)
(* ================================================================== *)

(** [_neutralizeUI()]: the state it writes ([_failedOnce] is left as it
    is). *)
Definition _neutralizeUI (s : fstate) : fstate :=
  {| _lastValidatedValue := VNull;
     _lastValidationState := None;
     _failedOnce := _failedOnce s;
     _isValid := false;
     validationResult := Some (ErrorList []);
     validationSuccessMessage := VNull |}.

Module GroupNotifyM.

Section WithHost.

Variable h : host.
Variable options : Options.

(** The callback [queueValidateFromChild(child, event)] hands to
    [Utils.debounceCall], as it runs once the delay has passed:
    [this._lastValidationState == false] holds of [false] only, and the
    rejection of [whenValidate()] is swallowed. *)
Definition queueValidateFromChild (g : GroupField) : ST vstate unit :=
  st <- get_self ;;
  let revalidate :=
    GroupFieldM.GroupField_whenValidate h options g ;;; ret tt in
  match _lastValidationState st with
  | Some false =>
      fun s =>
        let hasInvalidChild :=
          existsb (fun c => match _lastValidationState
                                    (GroupFieldM.child_state s (fst c)) with
                            | Some false => true
                            | _ => false
                            end) (GroupFieldM.indexed g) in
        if hasInvalidChild then modify_self _neutralizeUI s else revalidate s
  | _ => revalidate
  end.

End WithHost.

End GroupNotifyM.

(** A field that [whenValidate] settles as valid before it looks at
    the page: a checkbox or a radio button on its own, or a field
    without rules. *)
Definition never_validated (f : Field) : bool :=
  FieldM.is_checkbox_or_radio (element_type f)
  || Nat.eqb (List.length (constraints f)) 0.

(** A checkbox that must be ticked, outside any group, on a page where
    it is not. *)
Definition terms_checkbox : Field :=
  {| __id__ := "terms";
     element_type := "checkbox";
     validateIf := None;
     notValidateIf := None;
     successMessage := VUndefined;
     customErrorMessage := VUndefined;
     constraints := [("required", Sample.standard "required" (VStr ""))] |}.

(** [addValidator('free', { validateFn: async () => false })]: a
    predicate that answers with a promise resolved with [false]. *)
Definition free : Validator :=
  new_Validator MessagesDefaults "free"
    (Some (fun _ => FnThenable (Resolved (VBool false)))) VUndefined false None.

(** Every child of the group is in the valid state. *)
Definition all_children_valid (g : GroupField) (s : vstate) : bool :=
  forallb (fun c => match _lastValidationState
                            (GroupFieldM.child_state s (fst c)) with
                    | Some true => true
                    | _ => false
                    end) (GroupFieldM.indexed g).

(** The page of [name_pair] with ["x"] typed in both inputs. *)
Definition host_both_typed : host :=
  {| dom_val := fun _ => DomString "x";
     dom_checked := fun _ => false;
     dom_value_attr := fun _ => "";
     dom_visible := fun _ => true;
     dom_query := fun _ => None;
     window_function := fun _ => None;
     eval_expression := fun _ => Normal true;
     ajax := fun _ _ _ => AjaxDone VNull "success" 200%Z;
     library_predicate := fun _ _ => FnReturns (VBool true) |}.

(* ================================================================== *)
(** ** Merging objects: [Utils._extends] and [addMessages] *)
(* ================================================================== *)

Module ExtendM.

Section Loops.

(** The recursive call [this._extends(target[key], true, val)]. *)
Variable rec : jsval -> jsval -> ST world (option jsval).
Variable deep : bool.

(** The body of [for (const key in source)] on the properties [tp] of
    the target.  A nested target keeps its place in [tp]: it is changed
    in place. *)
Definition extend_key (key : string) (val : jsval)
    (tp : list (string * jsval)) : ST world (option (list (string * jsval))) :=
  if deep && truthy val && typeof_object val && negb (isArray val) then
    let cur := lookup_prop key tp in
    inner <- (if negb (truthy cur) || negb (typeof_object cur)
              then r <- fresh ;; ret (VObj r [])
              else ret cur) ;;
    merged <- rec inner val ;;
    match merged with
    | Some inner' => ret (Some (set_prop key inner' tp))
    | None => ret None
    end
  else ret (Some (set_prop key val tp)).

(** The loop over the keys of a source object, in the order of its
    property list. *)
Fixpoint extend_props (sp tp : list (string * jsval))
  : ST world (option (list (string * jsval))) :=
  match sp with
  | [] => ret (Some tp)
  | (key, val) :: rest =>
      r <- extend_key key val tp ;;
      match r with
      | Some tp' => extend_props rest tp'
      | None => ret None
      end
  end.

(** The same loop over a source array, whose keys are its indices. *)
Fixpoint extend_elems (i : nat) (elems : list jsval) (tp : list (string * jsval))
  : ST world (option (list (string * jsval))) :=
  match elems with
  | [] => ret (Some tp)
  | val :: rest =>
      r <- extend_key (index_key i) val tp ;;
      match r with
      | Some tp' => extend_elems (S i) rest tp'
      | None => ret None
      end
  end.

End Loops.

(** One source merged into the target.  The result is the target
    object after the loop, under its own identity.  [None] stands for a
    merge that writes the keys of a source into an array: [jsval] has
    no value for an array that carries named properties. *)
Fixpoint extend_into (deep : bool) (target source : jsval) {struct source}
  : ST world (option jsval) :=
  match target with
  | VObj r tp =>
      match source with
      | VObj _ sp =>
          tp' <- extend_props (extend_into true) deep sp tp ;;
          ret (option_map (VObj r) tp')
      | VArr _ elems =>
          tp' <- extend_elems (extend_into true) deep 0 elems tp ;;
          ret (option_map (VObj r) tp')
      | _ => ret (Some target)
      end
  | VArr _ _ =>
      match source with
      | VObj _ (_ :: _) | VArr _ (_ :: _) => ret None
      | _ => ret (Some target)
      end
  | _ => ret (Some target)
  end.

Fixpoint extend_all (deep : bool) (target : jsval) (sources : list jsval)
  : ST world (option jsval) :=
  match sources with
  | [] => ret (Some target)
  | source :: rest =>
      r <- extend_into deep target source ;;
      match r with
      | Some target' => extend_all deep target' rest
      | None => ret None
      end
  end.

(** [arg === true] *)
Definition is_true (arg : jsval) : bool :=
  match arg with VBool true => true | _ => false end.

(** [typeof arg === 'object' && arg !== null] *)
Definition is_source (arg : jsval) : bool :=
  match arg with VArr _ _ | VObj _ _ => true | _ => false end.

(** [_extends(...args)]: the flag [deep] is read off all the arguments
    before any key is copied; the first object is the target, which is
    changed and returned, and [{}] when there is none. *)
Definition _extends (args : list jsval) : ST world (option jsval) :=
  let deep := existsb is_true args in
  match filter is_source args with
  | [] => r <- fresh ;; ret (Some (VObj r []))
  | target :: sources => extend_all deep target sources
  end.

End ExtendM.

(** [const Messages = Utils._extends(true, MessagesDefaults,
    globalConfig.Messages)]: the table of messages once the script is
    loaded; [MessagesDefaults] itself is the object that is changed. *)
Definition Messages_at_load (defaults config : jsval) : ST world (option jsval) :=
  ExtendM._extends [VBool true; defaults; config].


(** The properties of a table. *)
Definition table_of (v : option jsval) : list (string * jsval) :=
  match v with
  | Some (VObj _ props) => props
  | _ => []
  end.

Definition is_text (v : jsval) : bool :=
  match v with VStr _ => true | _ => false end.

(** A table of messages: texts, and groups of texts such as [type]. *)
Definition is_message_table (props : list (string * jsval)) : bool :=
  forallb (fun kv => match snd kv with
                     | VStr _ => true
                     | VObj _ group => forallb (fun kv' => is_text (snd kv')) group
                     | _ => false
                     end) props.

(** An override of the message of the type [email] alone. *)
Definition email_override : jsval :=
  VObj 2 [("type", VObj 1 [("email", VStr "Not an email address.")])].

(** [target[key] = val] for every property of [sp], in order. *)
Definition assign_all (sp tp : list (string * jsval)) : list (string * jsval) :=
  fold_left (fun a kv => set_prop (fst kv) (snd kv) a) sp tp.

Definition is_group (group : list (string * jsval)) : bool :=
  forallb (fun kv => is_text (snd kv)) group.

(** What a table of messages holds under a key. *)
Definition is_entry (v : jsval) : bool :=
  match v with
  | VStr _ => true
  | VObj _ group => is_group group
  | _ => false
  end.

(** The properties a nested target starts from. *)
Definition group_of (v : jsval) : list (string * jsval) :=
  match v with VObj _ p => p | _ => [] end.

(* ================================================================== *)
(** ** Resetting a form *)
(* ================================================================== *)

(** [field.reset()] on an entry of [this.fields]: the method of
    [Field], which a [GroupField] inherits.  The children of a group
    are objects of their own, and the method does not visit them. *)
Definition member_reset (m : member) : ST world member :=
  fun w =>
    let s' := snd (FieldM.reset {| self := m_self m; kids := m_kids m; wld := w |}) in
    ({| m_entity := m_entity m; m_self := self s'; m_kids := kids s' |}, wld s').

(** [Form.reset()]: [this.fields.forEach(field => field.reset())] *)
Definition Form_reset (form : FormM.Form) : ST world FormM.Form :=
  ms <- mapM member_reset (FormM.fields form) ;;
  ret {| FormM.element := FormM.element form; FormM.fields := ms |}.

(** A form around the group [name_pair], after the required first name
    was found empty. *)
Definition names_form : FormM.Form :=
  {| FormM.element := "names-form";
     FormM.fields :=
       [ {| m_entity := Group name_pair;
            m_self := self names_after_first_failed;
            m_kids := kids names_after_first_failed |} ] |}.

(* ================================================================== *)
(** ** An event on a child of a group *)
(* ================================================================== *)

(** [s.split(/\s+/)]: the pieces between the runs of whitespace, as the
    first piece and the others. *)
Fixpoint split_ws_from (s : string) : string * list string :=
  match s with
  | EmptyString => (EmptyString, [])
  | String c rest =>
      let (piece, pieces) := split_ws_from rest in
      if is_whitespace c then
        match rest with
        | EmptyString => (EmptyString, [EmptyString])
        | String c' _ =>
            if is_whitespace c' then (EmptyString, pieces)
            else (EmptyString, piece :: pieces)
        end
      else (String c piece, pieces)
  end.

Definition split_ws (s : string) : list string :=
  let (piece, pieces) := split_ws_from s in piece :: pieces.

(** [Utils.eventTypeMatches(event, allowedTypes)], as a condition: the
    event is given by its type, [None] when there is no event. *)
Definition eventTypeMatches (event : option string) (allowedTypes : string) : bool :=
  match event with
  | Some type =>
      negb (type =? "") && existsb (String.eqb type) (split_ws (trim allowedTypes))
  | None => false
  end.

(** [prevState !== this._lastValidationState] *)
Definition state_changed (prevState now : option bool) : bool :=
  match prevState, now with
  | Some a, Some b => negb (Bool.eqb a b)
  | None, None => false
  | _, _ => true
  end.

Module ChildEventM.

Section WithHost.

Variable h : host.
Variable options : Options.

(** [notifyParentIfNeeded()] of [_silentValidate], on a child of the
    group [g], for which [_hasParentGroup()] holds.  The group runs its
    callback once its own delay has passed. *)
Definition notifyParentIfNeeded (g : GroupField) (c : nat * Field)
    (event : option string) (prevState : option bool) : ST vstate unit :=
  fun s =>
    let stateChanged :=
      state_changed prevState
        (_lastValidationState (GroupFieldM.child_state s (fst c))) in
    let discreteEvt := eventTypeMatches event "change blur" in
    if stateChanged || discreteEvt
    then GroupNotifyM.queueValidateFromChild h options g s
    else (tt, s).

(** [_silentValidate(event)] on the child [c] of the group [g]: what
    [_validateIfNeeded] runs once the delay of the child has passed.
    An exception is thrown again and nobody handles it. *)
Definition _silentValidate (g : GroupField) (c : nat * Field)
    (event : option string) : ST vstate (completion unit) :=
  fun s =>
    let prevState := _lastValidationState (GroupFieldM.child_state s (fst c)) in
    let (p, s1) := on_child (fst c) (FieldM.Field_whenValidate h options (snd c)) s in
    match p with
    | Resolved _ =>
        (notifyParentIfNeeded g c event prevState ;;; ret (Normal tt)) s1
    | Rejected (FieldReason _) =>
        (notifyParentIfNeeded g c event prevState ;;; ret (Normal tt)) s1
    | Rejected reason =>
        if instanceof_Error reason then (Throw reason, s1) else (Normal tt, s1)
    end.

End WithHost.

End ChildEventM.

(** The evaluation of a child reaches its group: it settled as valid or
    as invalid, and its cached state changed or the event is one of
    [change] and [blur]. *)
Definition group_is_told (event : option string) (prevState : option bool)
    (p : promise jsval) (now : option bool) : bool :=
  match p with
  | Resolved _ | Rejected (FieldReason _) =>
      state_changed prevState now
      || match event with
         | Some type => (type =? "change") || (type =? "blur")
         | None => false
         end
  | Rejected _ => false
  end.

(* ================================================================== *)
(** ** The attributes of an element: [Utils.camelize] and [_getAttr] *)
(* ================================================================== *)

(** [toLowerCase()] on code units below 256: the capitals of ASCII and
    of Latin-1 (all of [À]..[Þ] but the sign [×]). *)
Definition toLowerCase_char (c : ascii) : ascii :=
  let n := nat_of_ascii c in
  if ((65 <=? n) && (n <=? 90) || (192 <=? n) && (n <=? 222) && negb (n =? 215))%nat
  then ascii_of_nat (n + 32) else c.

Fixpoint toLowerCase (s : string) : string :=
  match s with
  | EmptyString => EmptyString
  | String c rest => String (toLowerCase_char c) (toLowerCase rest)
  end.

(** [chr.toUpperCase()] for one code unit below 256: the capital of
    [ß] is [SS]; the capitals of [µ] and [ÿ] lie above 255, outside the
    strings of this model, and these two letters are left as they
    are. *)
Definition toUpperCase_char (c : ascii) : string :=
  let n := nat_of_ascii c in
  if ((97 <=? n) && (n <=? 122) || (224 <=? n) && (n <=? 254) && negb (n =? 247))%nat
  then String (ascii_of_nat (n - 32)) EmptyString
  else if (n =? 223)%nat then "SS"
  else String c EmptyString.

(** [str.replace(/-+(.)?/g, (match, chr) => chr ? chr.toUpperCase() :
    '')]: [dashes] tells that the scan is inside a run of dashes. *)
Fixpoint camelize_from (dashes : bool) (s : string) : string :=
  match s with
  | EmptyString => EmptyString
  | String c rest =>
      if Ascii.eqb c "-" then camelize_from true rest
      else if dashes && negb (is_line_terminator c)
      then toUpperCase_char c ++ camelize_from false rest
      else String c (camelize_from false rest)
  end.

Definition camelize (str : string) : string := camelize_from false str.

(** [s.slice(n)] for [0 <= n] *)
Fixpoint slice (n : nat) (s : string) : string :=
  match n, s with
  | O, _ => s
  | S n', EmptyString => EmptyString
  | S n', String _ rest => slice n' rest
  end.

(** An entry of [element.attributes]. *)
Record attribute : Type := {
  attr_name : string;
  attr_value : string;
  attr_specified : bool
}.

Module AttrM.

Section WithNamespace.

(** [this.options.namespace] *)
Variable namespace : string.

(** The body of the loop of [_getAttr] on the object [attr]. *)
Definition getAttr_step (attr : list (string * jsval)) (attribute : attribute)
  : ST world (list (string * jsval)) :=
  let attrName := toLowerCase (attr_name attribute) in
  let attrValue := trim (attr_value attribute) in
  if attr_specified attribute then
    if String.prefix namespace (attr_name attribute) then
      v <- deserialize (Some (attr_value attribute)) ;;
      ret (set_prop (camelize (slice (String.length namespace) (attr_name attribute)))
                    v attr)
    else if String.prefix "data-" attrName then
      v <- deserialize (Some (attr_value attribute)) ;;
      ret (set_prop (camelize (slice 5 (attr_name attribute))) v attr)
    else if ConstraintM.isStandardConstraint attrName (VStr attrValue) then
      ret (set_prop attrName (VStr attrValue) attr)
    else ret attr
  else ret attr.

Fixpoint getAttr_loop (attributes : list attribute) (attr : list (string * jsval))
  : ST world (list (string * jsval)) :=
  match attributes with
  | [] => ret attr
  | attribute :: rest =>
      attr' <- getAttr_step attr attribute ;;
      getAttr_loop rest attr'
  end.

(** [_getAttr()]: [for (let i = attributes.length; i--;)] visits the
    attributes from the last to the first. *)
Definition _getAttr (attributes : list attribute) : ST world (list (string * jsval)) :=
  getAttr_loop (rev attributes) [].

(** The key of an attribute of the namespace. *)
Definition key_of (attribute : attribute) : string :=
  camelize (slice (String.length namespace) (attr_name attribute)).

(** An attribute of the namespace that is set on the element. *)
Definition in_namespace (attribute : attribute) : bool :=
  attr_specified attribute && String.prefix namespace (attr_name attribute).

End WithNamespace.

End AttrM.

(** [_bindConstraints()] on an element: [const attributes =
    this._getAttr()], then the loop over its entries. *)
Definition bind_element (Messages : list (string * jsval))
    (lib : string -> jsval -> completion bool) (namespace : string)
    (attributes : list attribute) (customValidators : list (string * Validator))
  : ST world (completion binding) :=
  attr <- AttrM._getAttr namespace attributes ;;
  Build._bindConstraints Messages lib attr customValidators.

(** [<input data-fiddo-required-message="Tell us your name."
    data-fiddo-required>] *)
Definition message_first : list attribute :=
  [ {| attr_name := "data-fiddo-required-message";
       attr_value := "Tell us your name."; attr_specified := true |};
    {| attr_name := "data-fiddo-required";
       attr_value := ""; attr_specified := true |} ].

(** What [_getAttr] stores for an attribute of the namespace. *)
Definition entry_of (namespace : string) (a : attribute) (e : string * jsval) : Prop :=
  fst e = AttrM.key_of namespace a
  /\ exists w', snd e = fst (deserialize (Some (attr_value a)) w').

(* ================================================================== *)
(** ** Submitting a form *)
(* ================================================================== *)

Module SubmitM.

Section WithHost.

Variable h : host.
Variable options : Options.

(** [_submit(originalEvent, submitSource)]: the event [submit] is
    triggered again on the form, flagged [valid_submit]. *)
Definition _submit (form : FormM.Form) : ST world unit :=
  emit (EvTrigger (FormM.element form) "submit").

(** The child of a group [focus] chooses: the first one that is not
    marked valid, or else the first one. *)
Definition focus_child (g : GroupField) (children : list fstate) : option string :=
  match find (fun c => negb (_isValid (nth (fst c) children fstate_init)))
             (GroupFieldM.indexed g) with
  | Some c => Some (__id__ (snd c))
  | None => option_map __id__ (hd_error (fields g))
  end.

(** The element an entry of the form is focused at. *)
Definition focus_target (m : member) : option string :=
  match m_entity m with
  | Group g =>
      match fields g with
      | _ :: _ => focus_child g (m_kids m)
      | [] => Some (entity_id (m_entity m))
      end
  | PlainField _ => Some (entity_id (m_entity m))
  end.

(** [focus(failedFields)]: the element whose [focus()] is called, given
    by the field it belongs to.  A reason that is not a field has no
    [element], and reading [targetEl.tagName] throws. *)
Definition focus (form : FormM.Form) (failedFields : reason)
  : completion (option string) :=
  match failedFields with
  | ErrorList (firstInvalid :: _) =>
      match firstInvalid with
      | FieldReason id =>
          match find (fun m => entity_id (m_entity m) =? id) (FormM.fields form) with
          | Some m => Normal (focus_target m)
          | None => Normal (Some id)
          end
      | _ =>
          Throw (JsError "TypeError: Cannot read properties of undefined (reading 'tagName')")
      end
  | _ => Normal None
  end.

(** The handler [_bindSubmit] installs, on an event whose flag
    [valid_submit] is given.  [_trigger] returns what jQuery's [trigger]
    returns, the collection it was called on, which is never [false]:
    [_submit] always follows [form:submit]. *)
Definition submit_handler (form : FormM.Form) (valid_submit : bool)
  : ST world (completion (option string) * FormM.Form) :=
  if valid_submit then ret (Normal None, form)
  else
    r <- FormM.whenValidate h options form ;;
    match fst r with
    | Resolved _ =>
        FormM._trigger (snd r) "success" ;;;
        FormM._trigger (snd r) "submit" ;;;
        _submit (snd r) ;;;
        ret (Normal None, snd r)
    | Rejected failedFields =>
        FormM._trigger (snd r) "error" ;;;
        ret (focus (snd r) failedFields, snd r)
    end.

End WithHost.

End SubmitM.

(** The last event of a trace. *)
Definition ends_with (l : list event) (e : event) : Prop :=
  exists l', l = l' ++ [e].

(* ================================================================== *)
(** ** Identifiers of elements: [parseInputName] and [getElementId] *)
(* ================================================================== *)

Fixpoint join_with (sep : string) (l : list string) : string :=
  match l with
  | [] => ""
  | [x] => x
  | x :: rest => x ++ sep ++ join_with sep rest
  end.

Module IdM.

(** [\[(.*?)\]] matches at an opening bracket when a closing bracket
    follows it before the end of the line; [s] is the text after the
    opening bracket. *)
Fixpoint closes (s : string) : bool :=
  match s with
  | EmptyString => false
  | String c rest =>
      if Ascii.eqb c "]" then true
      else if is_line_terminator c then false
      else closes rest
  end.

(** The match of [[^\[\]]+] that ends here, if it is not empty. *)
Definition flush (run : string) : list string :=
  if run =? "" then [] else [run].

(** The loop [while ((match = regex.exec(name)) !== null)] over
    [/([^\[\]]+)|\[(.*?)\]/g]: the texts [match[2] !== undefined ?
    match[2] : match[1]] of the successive matches.  [run] is the part
    of the current match read so far, [inside] tells that this match
    is a bracketed one. *)
Fixpoint exec_all (inside : bool) (run : string) (s : string) : list string :=
  match s with
  | EmptyString => if inside then [] else flush run
  | String c rest =>
      if inside then
        if Ascii.eqb c "]" then run :: exec_all false "" rest
        else exec_all true (run ++ String c "") rest
      else if Ascii.eqb c "[" then
        flush run ++ exec_all (closes rest) "" rest
      else if Ascii.eqb c "]" then
        flush run ++ exec_all false "" rest
      else exec_all false (run ++ String c "") rest
  end.

(** [Utils.parseInputName(name)]; [None] is a name that is not a
    string. *)
Definition parseInputName (name : option string) : string :=
  match name with
  | None => ""
  | Some name =>
      if name =? "" then ""
      else if negb (includes "["%char name) then trim name
      else
        let parts :=
          filter (fun part => negb (part =? "")) (map trim (exec_all false "" name)) in
        join_with "_" (match parts with
                       | _ :: (_ :: _) as others => others
                       | _ => parts
                       end)
  end.

(** What [getElementId] reads of an element. *)
Record element : Type := {
  el_id : string;
  el_name : option string;
  el_tagName : string
}.

(** [Utils.generateID(name)] on the counters [globalIds]. *)
Definition generateID (name : string) : ST (list (string * nat)) string :=
  fun globalIds =>
    let n := match assoc name globalIds with
             | Some n => n
             | None => 0
             end + 1 in
    (index_key n, set_prop name n globalIds).

(** [Utils.getElementId(element)] *)
Definition getElementId (e : element) : ST (list (string * nat)) string :=
  let tag := toLowerCase (el_tagName e) in
  if negb (el_id e =? "") then ret (el_id e)
  else
    let parsed := parseInputName (el_name e) in
    if negb (parsed =? "") then ret parsed
    else
      generated <- generateID tag ;;
      ret (tag ++ generated)%string.

End IdM.

(** [[k1][k2]...] *)
Fixpoint bracketed (keys : list string) : string :=
  match keys with
  | [] => ""
  | k :: rest => "[" ++ k ++ "]" ++ bracketed rest
  end.

Definition is_bracket (c : ascii) : bool :=
  Ascii.eqb c "[" || Ascii.eqb c "]".

(** The root of a name: no bracket, not blank. *)
Definition is_root (s : string) : bool :=
  string_forall (fun c => negb (is_bracket c)) s && negb (trim s =? "").

(** A key of a name: no bracket, no line break, not blank. *)
Definition is_key (s : string) : bool :=
  string_forall (fun c => negb (is_bracket c) && negb (is_line_terminator c)) s
  && negb (trim s =? "").

(* ------------------------------------------------------------------ *)
(** ** Evaluations that overlap *)

(** [whenValidate()] returns before its rules have answered: the
    callbacks of [_finalizeValidationResult] are chained on
    [run(promises)] and run when it settles, and until then the field
    can be evaluated again.  An evaluation is cut here at that point:
    it has settled already (cache, skip, failed hook, exception), or it
    waits for the answers of its rules. *)
Inductive evaluation : Type :=
| Settled (p : promise jsval)
| Waiting (value : jsval) (answers : promise (list jsval)).

Module PendingM.

Section WithHost.

Variable h : host.
Variable options : Options.

(** [whenValidate()] up to [run(promises)]: the rules are called and
    the requests are sent. *)
Definition whenValidate_start (f : Field) (getValue : ST world jsval)
    (_preValidate : ST vstate (promise unit)) : ST vstate evaluation :=
  value <- liftW getValue ;;
  st <- get_self ;;
  if Utils.areEquals value (_lastValidatedValue st)
     && match _lastValidationState st with Some _ => true | None => false end
  then
    match _lastValidationState st with
    | Some true => ret (Settled (Resolved value))
    | _ => ret (Settled (Rejected (FieldReason (__id__ f))))
    end
  else
    modify_self (set_validationResult (Some (ErrorList []))) ;;;
    cloned <- liftW (Utils.cloneValue value) ;;
    modify_self (set_lastValidatedValue cloned) ;;;
    let resolveAsValid :=
      p <- FieldM.resolveAsValid f value false ;; ret (Settled p) in
    if FieldM.is_checkbox_or_radio (element_type f) then resolveAsValid
    else
      should <- liftW (FieldM.shouldValidate h f) ;;
      if negb should then resolveAsValid
      else if negb (Utils.size_truthy (Utils.SizeNum (List.length (constraints f))))
      then resolveAsValid
      else if negb (dom_visible h (__id__ f)) then resolveAsValid
      else if Utils.empty value && negb (FieldM._isRequired f)
      then resolveAsValid
      else
        pre <- _preValidate ;;
        match pre with
        | Rejected r => ret (Settled (Rejected r))
        | Resolved _ =>
            built <- liftW (FieldM._buildValidationsFor h options f value) ;;
            match built with
            | Throw e => ret (Settled (Rejected e))
            | Normal validations =>
                answers <- liftW (FieldM.run_validations options validations) ;;
                ret (Waiting value answers)
            end
        end.

(** The rest of the evaluation, once the rules have answered. *)
Definition whenValidate_finish (f : Field) (e : evaluation)
  : ST vstate (promise jsval) :=
  match e with
  | Settled p => ret p
  | Waiting value answers => FieldM.on_settled f value answers
  end.

Definition Field_whenValidate_start (f : Field) : ST vstate evaluation :=
  whenValidate_start f (FieldM.getValue h f) FieldM._preValidate.

End WithHost.

End PendingM.

(** A user name checked on the server, not required. *)
Definition username : Field :=
  Sample.text_input "username"
    [("emailAvailable", Sample.custom Sample.emailAvailable (VStr ""))].

(** The user name is evaluated while the page shows ["a@b.com"] and the
    request is sent. *)
Definition username_requested : evaluation * vstate :=
  PendingM.Field_whenValidate_start host_server_down Sample.sequential username
    (vstate_init 0).

(** Before the server answers, the input is blanked and evaluated
    again. *)
Definition username_blanked : promise jsval * vstate :=
  FieldM.Field_whenValidate (Sample.host_typed "  ") Sample.sequential username
    (snd username_requested).

(** Then the answer of the first request arrives. *)
Definition username_answered : promise jsval * vstate :=
  PendingM.whenValidate_finish username (fst username_requested)
    (snd username_blanked).

(* ================================================================== *)
(** * Properties *)
(* ================================================================== *)

Ltac unfold_st :=
  unfold bind, ret, liftW, get_self, modify_self, emit, fresh in *.

(** ** Message formatting and the failure of a synchronous predicate *)

Lemma resolved_template_default (v : Validator) (m : string) :
  message v = VStr m -> resolved_template VUndefined v = VStr m.
Proof.
  intros Hm. unfold resolved_template, js_or. rewrite Hm. simpl.
  destruct (m =? "") eqn:E; simpl; rewrite ?E; reflexivity.
Qed.

Lemma formatMessage_scalar (tmpl r : string) :
  tmpl <> "" ->
  Utils.formatMessage (VStr tmpl) (VStr r) = VStr (replace_pct_s tmpl r).
Proof.
  intros Hne. simpl.
  destruct (tmpl =? "") eqn:E; [apply String.eqb_eq in E; contradiction|reflexivity].
Qed.

(** A replacement without [$] is inserted as it is. *)
Lemma get_substitution_plain (m b a r : string) :
  string_forall (fun c => negb (Ascii.eqb c "$"%char)) r = true ->
  get_substitution m b a r = r.
Proof.
  induction r as [|c r IH]; simpl; intros H; [reflexivity|].
  apply andb_true_iff in H as [Hc Hr].
  destruct (Ascii.eqb c "$"%char); [discriminate|].
  now rewrite IH.
Qed.

Lemma find_pct_s_unfold (c d : ascii) (rest : string) :
  find_pct_s (String c (String d rest))
  = if Ascii.eqb c "%"%char && (Ascii.eqb d "s"%char || Ascii.eqb d "S"%char)
    then Some (EmptyString, String c (String d EmptyString), rest)
    else match find_pct_s (String d rest) with
         | Some (before, m, after) => Some (String c before, m, after)
         | None => None
         end.
Proof. reflexivity. Qed.

(** The match that is replaced is the first one. *)
Lemma find_pct_s_first (before after : string) :
  find_pct_s before = None ->
  (forall b', before <> (b' ++ "%")%string) ->
  find_pct_s (before ++ "%s" ++ after)%string = Some (before, "%s", after).
Proof.
  induction before as [|c before IH]; intros Hnone Hend.
  - reflexivity.
  - destruct before as [|d before'].
    + simpl. destruct (Ascii.eqb c "%"%char) eqn:Ec.
      * apply Ascii.eqb_eq in Ec. subst c. exfalso. now apply (Hend "").
      * simpl. reflexivity.
    + rewrite find_pct_s_unfold in Hnone.
      change ((String c (String d before') ++ "%s" ++ after)%string)
        with (String c (String d (before' ++ "%s" ++ after)%string)).
      rewrite find_pct_s_unfold.
      destruct (Ascii.eqb c "%"%char && (Ascii.eqb d "s"%char || Ascii.eqb d "S"%char));
        [discriminate|].
      destruct (find_pct_s (String d before')) as [[[? ?] ?]|] eqn:F; [discriminate|].
      change (String d (before' ++ "%s" ++ after)%string)
        with (String d before' ++ "%s" ++ after)%string.
      rewrite IH; [reflexivity|reflexivity|].
      intros b' Hb. apply (Hend (String c b')). simpl. now rewrite Hb.
Qed.

Lemma replace_pct_s_first (before after r : string) :
  find_pct_s before = None ->
  (forall b', before <> (b' ++ "%")%string) ->
  string_forall (fun c => negb (Ascii.eqb c "$"%char)) r = true ->
  replace_pct_s (before ++ "%s" ++ after) r = (before ++ r ++ after)%string.
Proof.
  intros H1 H2 H3. unfold replace_pct_s.
  rewrite find_pct_s_first by assumption.
  now rewrite get_substitution_plain.
Qed.


(** ** The request of a remote validator *)

(** The trace of one [validate] call on a remote validator: the call of
    the bound [validateFn], then either the complaint about the missing
    URL or exactly one request. *)
Lemma Remote_validate_trace (h : host) (v : Validator) (r : Remote)
    (value requirements customErrorMessage : jsval) (w : world) :
  validateFn v = FnRemote r ->
  let args := call_args value requirements in
  let req := nth 1 args VUndefined in
  exists delta,
    w_log (snd (Validator_validate h v value requirements customErrorMessage w))
    = w_log w ++ delta
    /\ ajax_requests delta
       = if truthy (resolvedUrl r req)
         then [(resolvedUrl r req, method r,
                remote_data r (nth 0 args VUndefined) (extra req))]
         else [].
Proof.
  intros Hfn args req. unfold Validator_validate. rewrite Hfn.
  unfold apply_validateFn, Remote_validateFn. fold args. fold req.
  destruct (truthy (resolvedUrl r req)) eqn:Eu; simpl negb; cbv iota.
  - set (data := remote_data r (nth 0 args VUndefined) (extra req)).
    unfold_st. cbn [fst snd w_log w_next].
    destruct (ajax h (resolvedUrl r req) (method r) data)
      as [d ts st|ts et] eqn:Ea.
    + destruct (isValidFn r d ts st) as [[|]|e] eqn:Ev;
        cbn [fst snd w_log w_next]; rewrite <- ?app_assoc;
        eexists; (split; [reflexivity|]); simpl; reflexivity.
    + cbn [fst snd w_log w_next]; rewrite <- ?app_assoc;
        eexists; (split; [reflexivity|]); simpl; reflexivity.
  - unfold_st. cbn [fst snd w_log w_next]. rewrite <- ?app_assoc.
    eexists; (split; [reflexivity|]); simpl; reflexivity.
Qed.

Lemma added_app (w w' : world) (delta : list event) :
  w_log w' = w_log w ++ delta -> added w w' = delta.
Proof.
  intros H. unfold added. rewrite H.
  rewrite skipn_app, skipn_all, Nat.sub_diag. reflexivity.
Qed.

Lemma assoc_set_prop {A : Type} (k k' : string) (v : A) (l : list (string * A)) :
  assoc k (set_prop k' v l) = if k' =? k then Some v else assoc k l.
Proof.
  induction l as [|[k0 v0] l IH]; simpl.
  - destruct (k' =? k); reflexivity.
  - destruct (k0 =? k') eqn:E0.
    + apply String.eqb_eq in E0. rewrite E0. simpl.
      destruct (k' =? k); reflexivity.
    + simpl. destruct (k0 =? k) eqn:E1.
      * apply String.eqb_eq in E1. rewrite <- E1.
        rewrite String.eqb_sym, E0. reflexivity.
      * exact IH.
Qed.

Lemma assoc_not_in {A : Type} (k : string) (l : list (string * A)) :
  ~ In k (map fst l) -> assoc k l = None.
Proof.
  induction l as [|[k0 v0] l IH]; simpl; intros H; [reflexivity|].
  destruct (k0 =? k) eqn:E.
  - apply String.eqb_eq in E. exfalso. apply H. now left.
  - apply IH. intros Hin. apply H. now right.
Qed.

(** Spreading [props] over an object: a key of [props] wins. *)
Lemma assoc_spread {A : Type} (k : string) (props acc : list (string * A)) :
  NoDup (map fst props) ->
  assoc k (fold_left (fun a kv => set_prop (fst kv) (snd kv) a) props acc)
  = match assoc k props with
    | Some e => Some e
    | None => assoc k acc
    end.
Proof.
  revert acc. induction props as [|[k1 v1] props IH]; intros acc Hnd; simpl.
  - reflexivity.
  - inversion Hnd as [|? ? Hnotin Hnd']; subst.
    rewrite IH by assumption. rewrite assoc_set_prop.
    destruct (k1 =? k) eqn:E.
    + apply String.eqb_eq in E. subst k1.
      now rewrite (assoc_not_in k props Hnotin).
    + reflexivity.
Qed.

Lemma resolvedUrl_of_url (r : Remote) (requirements : jsval) :
  truthy (url r) = true -> resolvedUrl r requirements = url r.
Proof.
  intros H. unfold resolvedUrl, js_or.
  rewrite H. cbv iota. rewrite H. reflexivity.
Qed.

(** C6, counterexample: the validator registered with only a [url]
    sends its request with [POST]. *)
Lemma default_method_is_not_GET : ~ default_method_is_GET.
Proof.
  intros H.
  specialize (H Sample.host_empty MessagesDefaults "emailAvailable"
                Sample.remote_spec (VStr "a@b.com") (VStr "") VUndefined
                world_init eq_refl).
  vm_compute in H. inversion H as [|? ? Hm _]. discriminate Hm.
Qed.

(** C6, as the code has it: every request of a remote validator uses
    the method of its spec, and [POST] when the spec gives none; when
    the spec carries a URL exactly one request is issued per
    evaluation. *)
Theorem remote_request_method :
  forall (h : host) (Messages : list (string * jsval)) (nm : string)
         (spec : ValidatorSpec) (value requirements cem : jsval) (w : world),
    let expected := match spec_method spec with
                    | Some m => m
                    | None => "POST"
                    end in
    let requests :=
      ajax_requests
        (added w (snd (Validator_validate h
                         (new_RemoteValidator Messages nm spec)
                         value requirements cem w))) in
    Forall (fun x => snd (fst x) = expected) requests
    /\ (if truthy (spec_url spec)
        then List.length requests = 1 else True).
Proof.
  intros h Messages nm spec value requirements cem w expected requests.
  destruct (Remote_validate_trace h (new_RemoteValidator Messages nm spec)
              {| url := spec_url spec;
                 method := expected;
                 dataKey := match spec_dataKey spec with
                            | Some k => k | None => "value" end;
                 isValidFn := match spec_isValidFn spec with
                              | Some f => f | None => defaultIsValidFn end |}
              value requirements cem w eq_refl) as [delta [Hlog Hreq]].
  subst requests. rewrite (added_app _ _ _ Hlog), Hreq.
  split.
  - destruct (truthy _); constructor; [reflexivity|constructor].
  - destruct (truthy (spec_url spec)) eqn:Eu; [|exact I].
    rewrite resolvedUrl_of_url by exact Eu. cbn [url]. rewrite Eu. reflexivity.
Qed.

(** C7, counterexample: with a [dataKey] of ["*"] the payload is keyed
    by the star itself, and has no entry under the rule's name. *)
Lemma star_dataKey_is_sent_literally : ~ star_dataKey_means_rule_name.
Proof.
  intros H.
  specialize (H Sample.host_empty MessagesDefaults "uniquePhone"
                uniquePhone_spec (VStr "123") (VStr "") VUndefined world_init).
  assert (Hnd : NoDup (map fst (own_props (extra (nth 1 (call_args (VStr "123") (VStr "")) VUndefined))))).
  { vm_compute. constructor. }
  specialize (H Hnd). vm_compute in H.
  inversion H as [|? ? Hp _]. specialize (Hp "uniquePhone").
  vm_compute in Hp. discriminate Hp.
Qed.

(** C7, as the code has it: the payload of every request of a remote
    validator is [{ [dataKey]: value, ...extra }], where [dataKey] is
    the key declared in the spec, used as it is written, and ["value"]
    when the spec declares none; [extra] comes from the requirement and
    its keys win over [dataKey].  What [extra] brings is what a spread
    copies: the properties of an object, the elements of an array and
    the characters of a string under their indices. *)
Theorem remote_request_payload :
  forall (h : host) (Messages : list (string * jsval)) (nm : string)
         (spec : ValidatorSpec) (value requirements cem : jsval) (w : world),
    let extraProps :=
      own_props (extra (nth 1 (call_args value requirements) VUndefined)) in
    NoDup (map fst extraProps) ->
    Forall (fun x => is_payload (declared_key spec) value extraProps (snd x))
      (ajax_requests
         (added w (snd (Validator_validate h
                          (new_RemoteValidator Messages nm spec)
                          value requirements cem w)))).
Proof.
  intros h Messages nm spec value requirements cem w extraProps Hnd.
  destruct (Remote_validate_trace h (new_RemoteValidator Messages nm spec)
              {| url := spec_url spec;
                 method := match spec_method spec with
                           | Some m => m | None => "POST" end;
                 dataKey := declared_key spec;
                 isValidFn := match spec_isValidFn spec with
                              | Some f => f | None => defaultIsValidFn end |}
              value requirements cem w eq_refl) as [delta [Hlog Hreq]].
  rewrite (added_app _ _ _ Hlog), Hreq.
  destruct (truthy _); constructor; [|constructor].
  cbn [snd]. intros k. unfold remote_data. cbn [dataKey].
  assert (Hv : nth 0 (call_args value requirements) VUndefined = value)
    by (destruct requirements; reflexivity).
  rewrite Hv. fold extraProps in Hnd |- *.
  rewrite assoc_spread by assumption.
  destruct (assoc k extraProps); [reflexivity|].
  cbn [assoc]. destruct (declared_key spec =? k); reflexivity.
Qed.

Lemma remote_request_payload_witness :
  Forall (fun x => is_payload "code" (VStr "SPRING")
                     [("clientId", VStr "123")] (snd x))
    (ajax_requests
       (added world_init
          (snd (Validator_validate Sample.host_empty
                  (new_RemoteValidator MessagesDefaults "coupon" coupon_spec)
                  (VStr "SPRING") coupon_requirement VUndefined world_init))))
  /\ Forall (fun x => is_payload "code" (VStr "SPRING")
                        [("0", VStr "one")] (snd x))
       (ajax_requests
          (added world_init
             (snd (Validator_validate Sample.host_empty
                     (new_RemoteValidator MessagesDefaults "coupon" coupon_spec)
                     (VStr "SPRING") coupon_requirement_array VUndefined
                     world_init)))).
Proof.
  split.
  - refine (remote_request_payload Sample.host_empty MessagesDefaults "coupon"
              coupon_spec (VStr "SPRING") coupon_requirement VUndefined
              world_init _).
    simpl. constructor; [intros []|constructor].
  - refine (remote_request_payload Sample.host_empty MessagesDefaults "coupon"
              coupon_spec (VStr "SPRING") coupon_requirement_array VUndefined
              world_init _).
    simpl. constructor; [intros []|constructor].
Defined.

(** ** The conditional gate *)

Lemma evaluateConditionValue_spec (h : host) (c : option condition) (w : world) :
  FieldM.evaluateConditionValue h c w
  = (condition_value h c,
     {| w_next := w_next w;
        w_log := w_log w ++
                 (if condition_fails h c
                  then [EvWarn "Error evaluating validate-if condition"]
                  else []) |})
  /\ (condition_fails h c = true -> condition_value h c = false).
Proof.
  unfold condition_value, condition_fails, FieldM.evaluateConditionValue.
  destruct w as [n l].
  destruct c as [[s|[b|e]|]|]; unfold_st; cbn [w_next w_log fst snd];
    rewrite ?app_nil_r; try (split; [reflexivity|discriminate || reflexivity]).
  destruct (Utils.isSelector (VStr s)).
  - destruct (dom_query h s) as [[ck|[|x|x]|v]|]; cbn [w_next w_log fst snd];
      rewrite ?app_nil_r; split; try reflexivity; discriminate.
  - destruct (window_function h s) as [[b|e]|]; cbn [w_next w_log fst snd];
      rewrite ?app_nil_r; try (split; [reflexivity|discriminate || reflexivity]).
    destruct (eval_expression h s) as [b|e]; cbn [w_next w_log fst snd];
      rewrite ?app_nil_r; split; try reflexivity; discriminate.
Qed.

Lemma shouldValidate_spec (h : host) (f : Field) (w : world) :
  FieldM.shouldValidate h f w
  = (should_value h f,
     {| w_next := w_next w; w_log := w_log w ++ should_warnings h f |}).
Proof.
  unfold FieldM.shouldValidate, should_value, should_warnings, bind, ret.
  destruct w as [n l].
  destruct (validateIf f) as [c1|]; destruct (notValidateIf f) as [c2|];
    repeat match goal with
           | |- context [FieldM.evaluateConditionValue h ?c ?w] =>
               rewrite (proj1 (evaluateConditionValue_spec h c w))
           end;
    cbn [w_next w_log condition_fails]; rewrite ?app_nil_r, <- ?app_assoc;
    reflexivity.
Qed.

Lemma condition_fails_closes_gate (h : host) (f : Field) :
  condition_fails h (validateIf f) = true -> should_value h f = false.
Proof.
  intros H. unfold should_value.
  destruct (validateIf f) as [c|]; [|discriminate].
  now rewrite (proj2 (evaluateConditionValue_spec h (Some c) world_init) H).
Qed.

Lemma invocations_should_warnings (h : host) (f : Field) :
  invocations (should_warnings h f) = [].
Proof.
  unfold should_warnings.
  destruct (condition_fails h (validateIf f)), (condition_fails h (notValidateIf f));
    reflexivity.
Qed.

(** [resolveAsValid(false)]: the promise resolves with the value, the
    state becomes valid, nothing else of the cache changes and no
    predicate is called. *)
Lemma resolveAsValid_spec (f : Field) (value : jsval) (s : vstate) :
  let r := FieldM.resolveAsValid f value false s in
  fst r = Resolved value
  /\ _lastValidationState (self (snd r)) = Some true
  /\ _lastValidatedValue (self (snd r)) = _lastValidatedValue (self s)
  /\ kids (snd r) = kids s
  /\ exists delta, w_log (wld (snd r)) = w_log (wld s) ++ delta
                   /\ invocations delta = [] /\ warnings delta = [].
Proof.
  unfold FieldM.resolveAsValid, FieldM._handleUI. unfold_st.
  destruct s as [st ks [n l]]. cbn [self kids wld fst snd].
  destruct (_lastValidationState st) as [[|]|]; cbn; repeat split;
    try (exists []; rewrite app_nil_r; repeat split; reflexivity).
  eexists; repeat split; reflexivity.
Qed.

Lemma cloneValue_log (v : jsval) (w : world) :
  w_log (snd (Utils.cloneValue v w)) = w_log w.
Proof. destruct v; reflexivity. Qed.


Lemma world_eta (w : world) : {| w_next := w_next w; w_log := w_log w |} = w.
Proof. destruct w; reflexivity. Qed.

(** A cache hit: the cached verdict is returned, no state is written
    and nothing is called after the value was read. *)
Lemma whenValidate_cached (h : host) (o : Options) (f : Field)
    (getValue : ST world jsval) (pre : ST vstate (promise unit))
    (s : vstate) (value : jsval) (w1 : world) :
  getValue (wld s) = (value, w1) ->
  answered_from_cache value (self s) = true ->
  FieldM.whenValidate h o f getValue pre s
  = (match _lastValidationState (self s) with
     | Some true => Resolved value
     | _ => Rejected (FieldReason (__id__ f))
     end,
     {| self := self s; kids := kids s; wld := w1 |}).
Proof.
  intros Hget Hc. unfold answered_from_cache in Hc.
  unfold FieldM.whenValidate, bind at 1, liftW at 1. rewrite Hget.
  unfold bind at 1, get_self at 1. cbn [self kids wld].
  rewrite Hc. destruct (_lastValidationState (self s)) as [[|]|]; reflexivity.
Qed.

(** A cache miss on a field that one of the early tests settles. *)
Lemma whenValidate_skipped (h : host) (o : Options) (f : Field)
    (getValue : ST world jsval) (pre : ST vstate (promise unit))
    (s : vstate) (value : jsval) (w1 : world) :
  getValue (wld s) = (value, w1) ->
  answered_from_cache value (self s) = false ->
  skipped h f value = true ->
  FieldM.whenValidate h o f getValue pre s
  = FieldM.resolveAsValid f value false
      (prepared h f value s w1
         (negb (FieldM.is_checkbox_or_radio (element_type f)))).
Proof.
  intros Hget Hc Hskip. unfold answered_from_cache in Hc.
  unfold FieldM.whenValidate, bind at 1, liftW at 1. rewrite Hget.
  unfold bind at 1, get_self at 1. cbn [self kids wld].
  rewrite Hc.
  unfold bind at 1, modify_self at 1. cbn [self kids wld].
  unfold bind at 1, liftW at 1. cbn [self kids wld].
  unfold prepared.
  pose proof (cloneValue_log value w1) as Hl2.
  destruct (Utils.cloneValue value w1) as [cloned w2] eqn:Ecl.
  cbn [fst snd] in *.
  unfold bind at 1, modify_self at 1. cbn [self kids wld fst].
  unfold skipped in Hskip.
  destruct (FieldM.is_checkbox_or_radio (element_type f)) eqn:Eck.
  - cbn [negb]. rewrite app_nil_r, <- Hl2, world_eta. reflexivity.
  - cbn [orb negb] in Hskip |- *.
    unfold bind at 1, liftW at 1. cbn [self kids wld].
    rewrite shouldValidate_spec. rewrite Hl2.
    destruct (should_value h f) eqn:Esv; cbn [negb orb] in Hskip |- *;
      [|reflexivity].
    cbn [Utils.size_truthy].
    destruct (Nat.eqb (List.length (constraints f)) 0) eqn:Ecs;
      cbn [negb orb] in Hskip |- *; [reflexivity|].
    destruct (dom_visible h (__id__ f)) eqn:Evis; cbn [negb orb] in Hskip |- *;
      [|reflexivity].
    rewrite Hskip. reflexivity.
Qed.

(** A cache miss on a field that no early test settles. *)
Lemma whenValidate_run (h : host) (o : Options) (f : Field)
    (getValue : ST world jsval) (pre : ST vstate (promise unit))
    (s : vstate) (value : jsval) (w1 : world) :
  getValue (wld s) = (value, w1) ->
  answered_from_cache value (self s) = false ->
  skipped h f value = false ->
  FieldM.whenValidate h o f getValue pre s
  = run_rules h o f pre value (prepared h f value s w1 true).
Proof.
  intros Hget Hc Hskip. unfold answered_from_cache in Hc.
  unfold FieldM.whenValidate, bind at 1, liftW at 1. rewrite Hget.
  unfold bind at 1, get_self at 1. cbn [self kids wld].
  rewrite Hc.
  unfold bind at 1, modify_self at 1. cbn [self kids wld].
  unfold bind at 1, liftW at 1. cbn [self kids wld].
  unfold prepared.
  pose proof (cloneValue_log value w1) as Hl2.
  destruct (Utils.cloneValue value w1) as [cloned w2] eqn:Ecl.
  cbn [fst snd] in *.
  unfold bind at 1, modify_self at 1. cbn [self kids wld fst].
  unfold skipped in Hskip.
  apply orb_false_iff in Hskip as [Hskip Hempty].
  apply orb_false_iff in Hskip as [Hskip Hvis].
  apply orb_false_iff in Hskip as [Hskip Hcs].
  apply orb_false_iff in Hskip as [Hck Hsv].
  rewrite Hck.
  unfold bind at 1, liftW at 1. cbn [self kids wld].
  rewrite shouldValidate_spec, Hl2. cbn [fst snd].
  rewrite Hsv. cbn [Utils.size_truthy]. rewrite Hcs. cbn [negb].
  rewrite Hvis, Hempty. reflexivity.
Qed.

Lemma jq_val_log (d : domvalue) (w : world) : w_log (snd (jq_val d w)) = w_log w.
Proof. destruct d; reflexivity. Qed.

Lemma Field_getValue_log (h : host) (f : Field) (w : world) :
  w_log (snd (FieldM.getValue h f w)) = w_log w.
Proof. apply jq_val_log. Qed.

Lemma mapM_getValue_log (h : host) (fs : list Field) (w : world) :
  w_log (snd (mapM (fun f => FieldM.getValue h f) fs w)) = w_log w.
Proof.
  revert w. induction fs as [|f fs IH]; intros w; [reflexivity|].
  cbn [mapM]. unfold bind at 1.
  pose proof (Field_getValue_log h f w) as H1.
  destruct (FieldM.getValue h f w) as [v w1]. cbn [snd] in H1.
  unfold bind at 1. specialize (IH w1).
  destruct (mapM (fun f0 => FieldM.getValue h f0) fs w1) as [vs w2].
  unfold ret. cbn [snd] in *. congruence.
Qed.

Lemma GroupField_getValue_log (h : host) (g : GroupField) (w : world) :
  w_log (snd (GroupFieldM.getValue h g w)) = w_log w.
Proof.
  unfold GroupFieldM.getValue.
  assert (Hdefault :
    w_log (snd ((values <- mapM (fun f => FieldM.getValue h f) (fields g) ;;
                 r <- fresh ;; ret (VArr r values)) w)) = w_log w).
  { unfold bind at 1. pose proof (mapM_getValue_log h (fields g) w) as H.
    destruct (mapM (fun f => FieldM.getValue h f) (fields g) w) as [vs w1].
    exact H. }
  cbv zeta.
  destruct (multipleType g) as [ty|]; [|exact Hdefault].
  destruct (ty =? "checkbox")%string; [reflexivity|].
  destruct (ty =? "radio")%string; [|exact Hdefault].
  destruct (find _ _); reflexivity.
Qed.

Lemma warnings_should_warnings (h : host) (f : Field) :
  condition_fails h (validateIf f) = true ->
  forall rest, warnings (should_warnings h f ++ rest) <> [].
Proof.
  intros H rest. unfold should_warnings. rewrite H. discriminate.
Qed.

(** On a cache miss, a field that is not a checkbox or radio input and
    whose include condition fails settles valid; no predicate runs and
    a warning is logged. *)
Lemma failing_include_skips (h : host) (o : Options) (f : Field)
    (getValue : ST world jsval) (pre : ST vstate (promise unit)) (s : vstate) :
  (forall w, w_log (snd (getValue w)) = w_log w) ->
  answered_from_cache (fst (getValue (wld s))) (self s) = false ->
  FieldM.is_checkbox_or_radio (element_type f) = false ->
  condition_fails h (validateIf f) = true ->
  fst (FieldM.whenValidate h o f getValue pre s) = Resolved (fst (getValue (wld s)))
  /\ _lastValidationState (self (snd (FieldM.whenValidate h o f getValue pre s)))
     = Some true
  /\ invocations (added (wld s) (wld (snd (FieldM.whenValidate h o f getValue pre s))))
     = []
  /\ warnings (added (wld s) (wld (snd (FieldM.whenValidate h o f getValue pre s))))
     <> [].
Proof.
  intros Hquiet Hmiss Hck Hfail.
  pose proof (Hquiet (wld s)) as Hlog.
  destruct (getValue (wld s)) as [value w1] eqn:Hget. cbn [fst snd] in *.
  assert (Hskip : skipped h f value = true).
  { unfold skipped. rewrite Hck, (condition_fails_closes_gate h f Hfail). reflexivity. }
  rewrite (whenValidate_skipped h o f getValue pre s value w1 Hget Hmiss Hskip).
  rewrite Hck. cbn [negb].
  pose proof (resolveAsValid_spec f value (prepared h f value s w1 true))
    as (H1 & H2 & _ & _ & d & H5 & H6 & _).
  cbv zeta in *. split; [exact H1|]. split; [exact H2|].
  assert (Hadd : added (wld s)
                   (wld (snd (FieldM.resolveAsValid f value false
                                (prepared h f value s w1 true))))
                 = should_warnings h f ++ d).
  { apply added_app. rewrite H5. cbn [prepared wld w_log].
    rewrite Hlog, <- app_assoc. reflexivity. }
  rewrite Hadd. split.
  - unfold invocations in *. rewrite filter_app, H6.
    fold (invocations (should_warnings h f)).
    now rewrite invocations_should_warnings.
  - now apply warnings_should_warnings.
Qed.

(** What a cache hit returns, and that it leaves everything else as it
    was. *)
Lemma cache_hit (h : host) (o : Options) (f : Field)
    (getValue : ST world jsval) (pre : ST vstate (promise unit)) (s : vstate) :
  (forall w, w_log (snd (getValue w)) = w_log w) ->
  answered_from_cache (fst (getValue (wld s))) (self s) = true ->
  let r := FieldM.whenValidate h o f getValue pre s in
  fst r = match _lastValidationState (self s) with
          | Some true => Resolved (fst (getValue (wld s)))
          | _ => Rejected (FieldReason (__id__ f))
          end
  /\ self (snd r) = self s
  /\ kids (snd r) = kids s
  /\ added (wld s) (wld (snd r)) = [].
Proof.
  intros Hquiet Hhit. cbv zeta.
  pose proof (Hquiet (wld s)) as Hlog.
  destruct (getValue (wld s)) as [value w1] eqn:Hget. cbn [fst snd] in *.
  rewrite (whenValidate_cached h o f getValue pre s value w1 Hget Hhit).
  cbn [fst snd self kids wld]. repeat split.
  apply added_app. now rewrite app_nil_r.
Qed.

(** C8, counterexample: the company name was found too short while the
    box was ticked; once the box is gone from the page the include
    condition matches nothing, and the next evaluation of the unchanged
    value still rejects, straight from the cache. *)
Lemma failing_include_may_settle_invalid : ~ failing_include_settles_valid.
Proof.
  intros H.
  specialize (H host_box_removed Sample.sequential company_name
                (snd (FieldM.Field_whenValidate host_box_ticked Sample.sequential
                        company_name (vstate_init 0)))
                eq_refl).
  vm_compute in H. discriminate H.
Qed.

(** C8, as the code has it.  [shouldValidate] answers that the field is
    to be validated exactly when the include condition is absent or
    truthy and the exclude condition is absent or falsy.  A condition
    whose selector matches nothing, or whose function or expression
    throws, counts as false and a warning is logged; nothing is thrown.
    On an evaluation that is not answered from the cache, of a field
    that is not a checkbox or radio input, a failing include condition
    makes the field (plain or group) settle valid without any predicate
    being called, and the warning is in the trace.  An evaluation that
    is answered from the cache returns the cached verdict instead: it
    evaluates no condition, logs nothing and writes nothing. *)
Theorem conditional_gate :
  forall (h : host) (o : Options),
    (forall (f : Field) (w : world),
        fst (FieldM.shouldValidate h f w) = true
        <-> ((validateIf f = None \/ condition_value h (validateIf f) = true)
             /\ (notValidateIf f = None
                 \/ condition_value h (notValidateIf f) = false)))
    /\ (forall (c : option condition) (w : world),
           condition_fails h c = true ->
           FieldM.evaluateConditionValue h c w
           = (false,
              {| w_next := w_next w;
                 w_log := w_log w
                          ++ [EvWarn "Error evaluating validate-if condition"] |}))
    /\ (forall (f : Field) (s : vstate),
           answered_from_cache (fst (FieldM.getValue h f (wld s))) (self s) = false ->
           FieldM.is_checkbox_or_radio (element_type f) = false ->
           condition_fails h (validateIf f) = true ->
           let r := FieldM.Field_whenValidate h o f s in
           fst r = Resolved (fst (FieldM.getValue h f (wld s)))
           /\ _lastValidationState (self (snd r)) = Some true
           /\ invocations (added (wld s) (wld (snd r))) = []
           /\ warnings (added (wld s) (wld (snd r))) <> [])
    /\ (forall (g : GroupField) (s : vstate),
           answered_from_cache (fst (GroupFieldM.getValue h g (wld s))) (self s)
           = false ->
           FieldM.is_checkbox_or_radio (element_type (base g)) = false ->
           condition_fails h (validateIf (base g)) = true ->
           let r := GroupFieldM.GroupField_whenValidate h o g s in
           fst r = Resolved (fst (GroupFieldM.getValue h g (wld s)))
           /\ _lastValidationState (self (snd r)) = Some true
           /\ invocations (added (wld s) (wld (snd r))) = []
           /\ warnings (added (wld s) (wld (snd r))) <> [])
    /\ (forall (f : Field) (s : vstate),
           answered_from_cache (fst (FieldM.getValue h f (wld s))) (self s) = true ->
           let r := FieldM.Field_whenValidate h o f s in
           fst r = match _lastValidationState (self s) with
                   | Some true => Resolved (fst (FieldM.getValue h f (wld s)))
                   | _ => Rejected (FieldReason (__id__ f))
                   end
           /\ self (snd r) = self s
           /\ kids (snd r) = kids s
           /\ added (wld s) (wld (snd r)) = [])
    /\ (forall (g : GroupField) (s : vstate),
           answered_from_cache (fst (GroupFieldM.getValue h g (wld s))) (self s)
           = true ->
           let r := GroupFieldM.GroupField_whenValidate h o g s in
           fst r = match _lastValidationState (self s) with
                   | Some true => Resolved (fst (GroupFieldM.getValue h g (wld s)))
                   | _ => Rejected (FieldReason (__id__ (base g)))
                   end
           /\ self (snd r) = self s
           /\ kids (snd r) = kids s
           /\ added (wld s) (wld (snd r)) = []).
Proof.
  intros h o. split; [|split; [|split; [|split; [|split]]]].
  - intros f w. rewrite shouldValidate_spec. cbn [fst]. unfold should_value.
    destruct (validateIf f) as [c1|]; destruct (notValidateIf f) as [c2|];
      cbn [condition_value]; split; intros H.
    + apply andb_true_iff in H as [H1 H2]. apply negb_true_iff in H2.
      split; right; assumption.
    + destruct H as [[H1|H1] [H2|H2]]; try discriminate.
      rewrite H1, H2. reflexivity.
    + rewrite andb_true_r in H. split; [now right|now left].
    + destruct H as [[H1|H1] _]; [discriminate|]. now rewrite H1.
    + apply negb_true_iff in H. split; [now left|now right].
    + destruct H as [_ [H2|H2]]; [discriminate|]. now rewrite H2.
    + split; now left.
    + reflexivity.
  - intros c w Hfail.
    destruct (evaluateConditionValue_spec h c w) as [Heq Hval].
    rewrite Heq, Hfail, (Hval Hfail). reflexivity.
  - intros f s Hmiss Hck Hfail.
    exact (failing_include_skips h o f (FieldM.getValue h f) (FieldM._preValidate)
             s (Field_getValue_log h f) Hmiss Hck Hfail).
  - intros g s Hmiss Hck Hfail.
    exact (failing_include_skips h o (base g) (GroupFieldM.getValue h g)
             (GroupFieldM._preValidate h o g) s (GroupField_getValue_log h g)
             Hmiss Hck Hfail).
  - intros f s Hhit.
    exact (cache_hit h o f (FieldM.getValue h f) FieldM._preValidate s
             (Field_getValue_log h f) Hhit).
  - intros g s Hhit.
    exact (cache_hit h o (base g) (GroupFieldM.getValue h g)
             (GroupFieldM._preValidate h o g) s (GroupField_getValue_log h g) Hhit).
Qed.

(** Scenario F of the specification: the first evaluation of the
    company name on a page where [#isCompany] matches nothing. *)
Lemma conditional_gate_witness :
  fst (FieldM.Field_whenValidate host_box_removed Sample.sequential company_name
         (vstate_init 0)) = Resolved (VStr "ab")
  /\ invocations
       (added world_init
          (wld (snd (FieldM.Field_whenValidate host_box_removed Sample.sequential
                       company_name (vstate_init 0))))) = [].
Proof.
  destruct (conditional_gate host_box_removed Sample.sequential)
    as (_ & _ & Hfield & _).
  destruct (Hfield company_name (vstate_init 0) eq_refl eq_refl eq_refl)
    as (H1 & _ & H3 & _).
  split; [exact H1|exact H3].
Defined.

(** ** The cache *)

(** The first evaluation of the group of tags settles valid and
    remembers a copy of the array it read; the next read of the
    unchanged selection yields new arrays with the same contents. *)
Example tags_group_first_run :
  let s1 := snd (GroupFieldM.GroupField_whenValidate host_tag_selected
                   Sample.sequential tags_group (vstate_init 1)) in
  _lastValidationState (self s1) = Some true
  /\ _lastValidatedValue (self s1) = VArr 3 [VArr 1 [VStr "a"]]
  /\ fst (GroupFieldM.getValue host_tag_selected tags_group (wld s1))
     = VArr 7 [VArr 6 [VStr "a"]].
Proof. vm_compute. repeat split. Qed.


(** C3, at the failing input: the group of tags, around a [select
    multiple] whose option ["a"] is selected, evaluated a second time on
    the same page.  The first evaluation settled valid; the value read
    the second time is deep-equal to the remembered one, yet
    [Utils.areEquals] answers [false], because [Utils.arraysEqual]
    (documented as a deep comparison) compares the inner arrays with
    [===]: the cache is missed and the rule of the group is called
    again. *)
Theorem unchanged_nested_value_is_evaluated_again :
  let s1 := snd (GroupFieldM.GroupField_whenValidate host_tag_selected
                   Sample.sequential tags_group (vstate_init 1)) in
  let value := fst (GroupFieldM.getValue host_tag_selected tags_group (wld s1)) in
  _lastValidationState (self s1) = Some true
  /\ deep_eq value (_lastValidatedValue (self s1)) = true
  /\ Utils.areEquals value (_lastValidatedValue (self s1)) = false
  /\ invocations
       (added (wld s1)
          (wld (snd (GroupFieldM.GroupField_whenValidate host_tag_selected
                       Sample.sequential tags_group s1))))
     = [EvInvoke "anyTag" [VArr 7 [VArr 6 [VStr "a"]]; VStr ""]].
Proof. vm_compute. repeat split. Qed.







(** ** The order of evaluation *)

Lemma insert_by_priority_perm (c : Constraint) (l : list Constraint) :
  Permutation (c :: l) (insert_by_priority c l).
Proof.
  induction l as [|x l IH]; cbn [insert_by_priority]; [reflexivity|].
  destruct (c_priority c <? c_priority x)%Z; [|reflexivity].
  rewrite perm_swap. now constructor.
Qed.

Lemma sort_by_priority_perm (l : list Constraint) :
  Permutation l (sort_by_priority l).
Proof.
  induction l as [|x l IH]; cbn; [constructor|].
  rewrite <- insert_by_priority_perm. now constructor.
Qed.

Lemma insert_by_priority_sorted (c : Constraint) (l : list Constraint) :
  StronglySorted by_priority_desc l ->
  StronglySorted by_priority_desc (insert_by_priority c l).
Proof.
  induction l as [|x l IH]; intros Hs; cbn [insert_by_priority].
  - constructor; constructor.
  - inversion Hs as [|? ? Hl Hx]; subst.
    destruct (c_priority c <? c_priority x)%Z eqn:E.
    + apply Z.ltb_lt in E. constructor; [now apply IH|].
      rewrite <- (insert_by_priority_perm c l).
      constructor; [unfold by_priority_desc; lia|exact Hx].
    + apply Z.ltb_ge in E. constructor; [exact Hs|].
      constructor; [exact E|].
      eapply Forall_impl; [|exact Hx].
      unfold by_priority_desc. intros; lia.
Qed.

Lemma sort_by_priority_sorted (l : list Constraint) :
  StronglySorted by_priority_desc (sort_by_priority l).
Proof.
  induction l as [|x l IH]; cbn; [constructor|].
  now apply insert_by_priority_sorted.
Qed.

Lemma insert_by_priority_stable (p : Z) (c : Constraint) (l : list Constraint) :
  with_priority p (insert_by_priority c l) = with_priority p (c :: l).
Proof.
  unfold with_priority.
  induction l as [|x l IH]; cbn [insert_by_priority]; [reflexivity|].
  destruct (c_priority c <? c_priority x)%Z eqn:E; [|reflexivity].
  apply Z.ltb_lt in E. cbn [filter] in *. rewrite IH.
  destruct (c_priority c =? p)%Z eqn:Ec; [|reflexivity].
  apply Z.eqb_eq in Ec.
  destruct (c_priority x =? p)%Z eqn:Ex; [|reflexivity].
  apply Z.eqb_eq in Ex. lia.
Qed.

(** Rules of equal priority keep the order of their declaration. *)
Lemma sort_by_priority_stable (p : Z) (l : list Constraint) :
  with_priority p (sort_by_priority l) = with_priority p l.
Proof.
  induction l as [|x l IH]; cbn [sort_by_priority fold_right]; [reflexivity|].
  rewrite insert_by_priority_stable. unfold with_priority in *. cbn [filter].
  fold (sort_by_priority l). now rewrite IH.
Qed.

Lemma sorted_head_is_maximum (c : Constraint) (l : list Constraint) :
  StronglySorted by_priority_desc l ->
  In c l ->
  (forall d, In d l -> d = c \/ (c_priority d < c_priority c)%Z) ->
  hd_error l = Some c.
Proof.
  intros Hs Hin Hmax. destruct l as [|x l]; [contradiction|].
  cbn. destruct (Hmax x (or_introl eq_refl)) as [->|Hlt]; [reflexivity|].
  exfalso. inversion Hs as [|? ? _ Hx]; subst.
  destruct Hin as [->|Hin]; [lia|].
  rewrite Forall_forall in Hx. specialize (Hx c Hin).
  unfold by_priority_desc in Hx. lia.
Qed.

Lemma sorted_last_is_minimum (c dflt : Constraint) (l : list Constraint) :
  StronglySorted by_priority_desc l ->
  In c l ->
  (forall d, In d l -> d = c \/ (c_priority c < c_priority d)%Z) ->
  last l dflt = c.
Proof.
  induction l as [|x l IH]; intros Hs Hin Hmin; [contradiction|].
  inversion Hs as [|? ? Hl Hx]; subst.
  destruct l as [|y l].
  - destruct Hin as [->|[]]. reflexivity.
  - change (last (x :: y :: l) dflt) with (last (y :: l) dflt).
    apply IH; [exact Hl| |intros d Hd; apply Hmin; now right].
    destruct Hin as [->|Hin]; [|exact Hin].
    destruct (Hmin y (or_intror (or_introl eq_refl))) as [->|Hlt]; [now left|].
    exfalso. rewrite Forall_forall in Hx.
    specialize (Hx y (or_introl eq_refl)). unfold by_priority_desc in Hx. lia.
Qed.

(** C4, counterexample: a rule registered with priority 200 is
    evaluated before [required], and a remote rule left at its default
    priority 10 is evaluated before a custom rule left at its default
    priority 0. *)
Lemma priority_order_exceptions :
  ~ required_runs_first /\ ~ default_remote_runs_last.
Proof.
  split; intros H.
  - specialize (H vip_input (Sample.standard "required" (VStr ""))
                  (or_introl eq_refl) eq_refl eq_refl).
    vm_compute in H. discriminate H.
  - specialize (H email_input "emailAvailable" Sample.remote_spec (VStr "")
                  eq_refl (or_intror (or_introl eq_refl))).
    vm_compute in H. discriminate H.
Qed.

Lemma standard_priorities (nm : string) (p : Z) (fn : validate_fn) :
  In (nm, (p, fn)) standardValidators ->
  (nm = "required" /\ p = 100%Z) \/ (30 <= p <= 70)%Z.
Proof.
  unfold standardValidators. cbn [In]. intros H.
  repeat (destruct H as [H|H];
          [injection H as <- <- <-; first [left; split; reflexivity | right; lia]|]).
  contradiction.
Qed.

Lemma assoc_In {A : Type} (k : string) (v : A) (l : list (string * A)) :
  assoc k l = Some v -> In (k, v) l.
Proof.
  induction l as [|[k0 v0] l IH]; cbn; [discriminate|].
  destruct (k0 =? k) eqn:E.
  - apply String.eqb_eq in E. intros [= ->]. left. now rewrite E.
  - intros H. right. now apply IH.
Qed.

(** C4, as the code has it.  The rules of a field are evaluated in the
    order [sort_by_priority] gives to its constraint list: a permutation
    of the list, in descending priority, rules of equal priority in the
    order of their declaration; both strategies are handed that order.
    A rule whose priority is strictly the greatest is evaluated first
    and one whose priority is strictly the least is evaluated last.  The
    built-in [required] has priority 100 and every other built-in rule a
    priority between 30 and 70, so [required] comes before every other
    built-in rule; a remote validator defaults to priority 10, below
    every built-in rule, and a plain custom validator to priority 0. *)
Theorem evaluation_order_spec :
  forall (f : Field),
    let rules := map snd (constraints f) in
    let order := evaluation_order f in
    Permutation rules order
    /\ StronglySorted by_priority_desc order
    /\ (forall p, with_priority p order = with_priority p rules)
    /\ (forall (h : host) (value : jsval) (w : world),
           exists ts,
             fst (FieldM._buildValidationsFor h Sample.sequential f value w)
             = Normal (Thunks ts)
             /\ ts = map (fun c => validateConstraint h (customErrorMessage f) c value)
                         order)
    /\ (forall c,
           In c rules ->
           (forall d, In d rules -> d = c \/ (c_priority d < c_priority c)%Z) ->
           hd_error order = Some c)
    /\ (forall c dflt,
           In c rules ->
           (forall d, In d rules -> d = c \/ (c_priority c < c_priority d)%Z) ->
           last order dflt = c)
    /\ (forall Messages nm req v,
           new_StandardValidator Messages nm req = Some v ->
           (nm = "required" /\ priority v = 100%Z)
           \/ (30 <= priority v <= 70)%Z)
    /\ (forall Messages nm spec,
           spec_priority spec = None ->
           priority (new_RemoteValidator Messages nm spec) = 10%Z)
    /\ (forall Messages nm fn msg grp,
           priority (new_Validator Messages nm fn msg grp None) = 0%Z).
Proof.
  intros f rules order.
  pose proof (sort_by_priority_perm rules) as Hperm.
  pose proof (sort_by_priority_sorted rules) as Hsorted.
  fold (evaluation_order f) in Hperm, Hsorted. fold order in Hperm, Hsorted.
  split; [exact Hperm|]. split; [exact Hsorted|].
  split; [intros p; apply sort_by_priority_stable|].
  split; [intros h value w; eexists; split; reflexivity|].
  split; [|split; [|split; [|split]]].
  - intros c Hin Hmax. apply sorted_head_is_maximum; [exact Hsorted| |].
    + now apply (Permutation_in _ Hperm).
    + intros d Hd. apply Hmax. now apply (Permutation_in _ (Permutation_sym Hperm)).
  - intros c dflt Hin Hmin. apply sorted_last_is_minimum; [exact Hsorted| |].
    + now apply (Permutation_in _ Hperm).
    + intros d Hd. apply Hmin. now apply (Permutation_in _ (Permutation_sym Hperm)).
  - intros Messages nm req v Hv. unfold new_StandardValidator in Hv.
    destruct (assoc nm standardValidators) as [[p fn]|] eqn:Ea; [|discriminate].
    injection Hv as <-. cbn [priority].
    exact (standard_priorities nm p fn (assoc_In _ _ _ Ea)).
  - intros Messages nm spec Hp. cbn. now rewrite Hp.
  - reflexivity.
Qed.

(** The name input: [required], declared after [minlength], is
    evaluated first. *)
Lemma evaluation_order_spec_witness :
  hd_error (evaluation_order name_input)
  = Some (Sample.standard "required" (VStr "")).
Proof.
  destruct (evaluation_order_spec name_input)
    as (_ & _ & _ & _ & Hfirst & _).
  apply Hfirst.
  - right. left. reflexivity.
  - intros d [<-|[<-|[]]].
    + right. vm_compute. reflexivity.
    + left. reflexivity.
Defined.

(** ** Exceptions *)

(** A predicate that throws, under the two strategies.  Under the
    sequential strategy [Utils.runSequential] catches the exception that
    [Validator.validate] threw again and rejects with the array that
    holds it; [_finalizeValidationResult] tests that array with
    [instanceof Error], takes it for a list of failed rules, and the
    field rejects with itself as after any failed rule.  Under the
    concurrent strategy the exception leaves [_buildValidationsFor] and
    the evaluation rejects with it.  The last run is a request that
    fails with the server down. *)
Example exception_is_reported_as_invalid_input :
  fst (FieldM.Field_whenValidate (Sample.host_typed "x") Sample.sequential
         iban_input (vstate_init 0))
  = Rejected (FieldReason "iban")
  /\ validationResult
       (self (snd (FieldM.Field_whenValidate (Sample.host_typed "x")
                     Sample.sequential iban_input (vstate_init 0))))
     = Some (ErrorList [JsError "boom"])
  /\ _lastValidationState
       (self (snd (FieldM.Field_whenValidate (Sample.host_typed "x")
                     Sample.sequential iban_input (vstate_init 0))))
     = Some false
  /\ fst (FieldM.Field_whenValidate (Sample.host_typed "x") Sample.concurrent
            iban_input (vstate_init 0))
     = Rejected (JsError "boom")
  /\ fst (validateConstraint host_server_down VUndefined
            (Sample.custom Sample.emailAvailable (VStr "")) (VStr "a@b.com")
            world_init)
     = Normal (Rejected (ValidationError "emailAvailable" (VStr "Not Found"))).
Proof. vm_compute. repeat split. Qed.

(** C5, counterexample: with the server down, the failure of the
    request of [emailAvailable] comes back from [Validator.validate] as
    a [ValidationError] that carries the status text. *)
Lemma transport_failure_becomes_ValidationError :
  ~ transport_failure_is_not_ValidationError.
Proof.
  intros H.
  apply (H host_server_down Sample.emailAvailable
           {| url := VStr "/api/users/email/available";
              method := "POST";
              dataKey := "value";
              isValidFn := defaultIsValidFn |}
           (VStr "a@b.com") (VStr "") VUndefined world_init
           (VStr "error") (VStr "Not Found") eq_refl (fun _ _ _ => eq_refl)
           "emailAvailable" (VStr "Not Found")).
  vm_compute. reflexivity.
Qed.

(** C5, as the code has it by design.  An exception thrown by a
    predicate is logged by [Validator.validate] and thrown again as it
    is: it is not turned into a [ValidationError].  The failure of a
    remote call (a failed request, or an [isValidFn] that throws)
    rejects the promise of the remote validator, and
    [Validator.validate] turns every such rejection into a
    [ValidationError] named after the rule, whose message is built from
    the failure text. *)
Theorem exceptions_and_remote_failures :
  forall (h : host) (v : Validator) (value requirements cem : jsval) (w : world),
    let args := call_args value requirements in
    (forall e,
        sync_predicate_throws h v args = Some e ->
        Validator_validate h v value requirements cem w
        = (Throw e,
           {| w_next := w_next w;
              w_log := w_log w ++ [EvInvoke (name v) args;
                                   EvConsoleError "Error in validator"] |}))
    /\ (forall r textStatus errorThrown,
           validateFn v = FnRemote r ->
           truthy (resolvedUrl r (nth 1 args VUndefined)) = true ->
           ajax h (resolvedUrl r (nth 1 args VUndefined)) (method r)
             (remote_data r (nth 0 args VUndefined) (extra (nth 1 args VUndefined)))
           = AjaxFail textStatus errorThrown ->
           fst (Validator_validate h v value requirements cem w)
           = Normal (Rejected
                       (ValidationError (name v)
                          (rejection_message v (failure_text textStatus errorThrown)
                             requirements))))
    /\ (forall r data textStatus status e,
           validateFn v = FnRemote r ->
           truthy (resolvedUrl r (nth 1 args VUndefined)) = true ->
           ajax h (resolvedUrl r (nth 1 args VUndefined)) (method r)
             (remote_data r (nth 0 args VUndefined) (extra (nth 1 args VUndefined)))
           = AjaxDone data textStatus status ->
           isValidFn r data textStatus status = Throw e ->
           fst (Validator_validate h v value requirements cem w)
           = Normal (Rejected
                       (ValidationError (name v)
                          (rejection_message v (reason_view e) requirements)))).
Proof.
  intros h v value requirements cem w args. split; [|split].
  - intros e He. unfold sync_predicate_throws in He.
    unfold Validator_validate, apply_validateFn. fold args.
    destruct (validateFn v) as [|p|nm|r]; try discriminate.
    + unfold_st. cbn [fst snd w_next w_log].
      destruct (p args) as [| e'|]; try discriminate.
      injection He as ->. cbn [w_next w_log]. now rewrite <- app_assoc.
    + unfold_st. cbn [fst snd w_next w_log].
      destruct (library_predicate h nm args) as [| e'|]; try discriminate.
      injection He as ->. cbn [w_next w_log]. now rewrite <- app_assoc.
  - intros r ts et Hfn Hurl Hajax.
    unfold Validator_validate, apply_validateFn, Remote_validateFn. rewrite Hfn.
    fold args. rewrite Hurl. unfold_st. cbn [negb fst snd].
    rewrite Hajax. reflexivity.
  - intros r data ts st e Hfn Hurl Hajax Hvalid.
    unfold Validator_validate, apply_validateFn, Remote_validateFn. rewrite Hfn.
    fold args. rewrite Hurl. unfold_st. cbn [negb fst snd].
    rewrite Hajax, Hvalid. reflexivity.
Qed.

(** The address check with the server down. *)
Lemma exceptions_and_remote_failures_witness :
  fst (Validator_validate host_server_down Sample.emailAvailable
         (VStr "a@b.com") (VStr "") VUndefined world_init)
  = Normal (Rejected (ValidationError "emailAvailable" (VStr "Not Found"))).
Proof.
  destruct (exceptions_and_remote_failures host_server_down Sample.emailAvailable
              (VStr "a@b.com") (VStr "") VUndefined world_init)
    as (_ & Hfail & _).
  exact (Hfail {| url := VStr "/api/users/email/available";
                  method := "POST";
                  dataKey := "value";
                  isValidFn := defaultIsValidFn |}
               (VStr "error") (VStr "Not Found") eq_refl eq_refl eq_refl).
Defined.

(** ** The gate of a group *)

Example contact_child_is_invalid :
  has_invalid_child contact_group contact_after_child_failed = true.
Proof. vm_compute. reflexivity. Qed.

(** C2, counterexample: the only child of the group is required, empty
    and known to be invalid; the value of the group, an array holding
    one empty string, is empty for [Utils.empty], the group is not
    required, and [whenValidate] settles it valid before the
    pre-validation hook is reached. *)
Lemma invalid_child_may_not_block_group : ~ invalid_child_blocks_group.
Proof.
  intros H.
  specialize (H Sample.host_empty Sample.sequential contact_group
                contact_after_child_failed).
  assert (Hne : fields contact_group <> []) by discriminate.
  specialize (H Hne contact_child_is_invalid).
  vm_compute in H. discriminate H.
Qed.

(** With a known-invalid child, the hook rejects with the group and
    does nothing else. *)
Lemma preValidate_known_invalid (h : host) (o : Options) (g : GroupField)
    (s : vstate) :
  fields g <> [] ->
  has_invalid_child g s = true ->
  GroupFieldM._preValidate h o g s = (Rejected (FieldReason (__id__ (base g))), s).
Proof.
  intros Hne Hinv. unfold GroupFieldM._preValidate.
  destruct (fields g) as [|c cs] eqn:Ef; [contradiction|].
  unfold has_invalid_child in Hinv. rewrite Hinv. reflexivity.
Qed.

Lemma has_invalid_child_kids (g : GroupField) (s s' : vstate) :
  kids s' = kids s -> has_invalid_child g s' = has_invalid_child g s.
Proof.
  intros Hk. unfold has_invalid_child, GroupFieldM.child_state. now rewrite Hk.
Qed.

(** C2, as the code has it.  When a child of a group has a cached state
    that is invalid, an evaluation of the group calls no predicate at
    all and leaves the children as they are.  If the evaluation reaches
    the pre-validation hook (it is not answered from the cache and none
    of the early tests of [whenValidate] settles it) the group rejects
    with itself and its cached state is left as it was.  Otherwise it
    settles as the cache says, or valid by an early test. *)
Theorem group_gate :
  forall (h : host) (o : Options) (g : GroupField) (s : vstate),
    fields g <> [] ->
    has_invalid_child g s = true ->
    let value := fst (GroupFieldM.getValue h g (wld s)) in
    let r := GroupFieldM.GroupField_whenValidate h o g s in
    invocations (added (wld s) (wld (snd r))) = []
    /\ kids (snd r) = kids s
    /\ (answered_from_cache value (self s) = false ->
        skipped h (base g) value = false ->
        fst r = Rejected (FieldReason (__id__ (base g)))
        /\ _lastValidationState (self (snd r)) = _lastValidationState (self s))
    /\ (answered_from_cache value (self s) = false ->
        skipped h (base g) value = true ->
        fst r = Resolved value)
    /\ (answered_from_cache value (self s) = true ->
        fst r = match _lastValidationState (self s) with
                | Some true => Resolved value
                | _ => Rejected (FieldReason (__id__ (base g)))
                end).
Proof.
  intros h o g s Hne Hinv value r. subst value r.
  unfold GroupFieldM.GroupField_whenValidate.
  pose proof (GroupField_getValue_log h g (wld s)) as Hlog.
  destruct (GroupFieldM.getValue h g (wld s)) as [value w1] eqn:Hget.
  cbn [fst snd] in *.
  destruct (answered_from_cache value (self s)) eqn:Hc.
  - rewrite (whenValidate_cached h o (base g) _ _ s value w1 Hget Hc).
    cbn [fst snd wld kids].
    rewrite (added_app (wld s) w1 [] ltac:(now rewrite app_nil_r)).
    repeat split; try discriminate.
  - destruct (skipped h (base g) value) eqn:Hs.
    + rewrite (whenValidate_skipped h o (base g) _ _ s value w1 Hget Hc Hs).
      match goal with |- context [FieldM.resolveAsValid ?f ?v false ?s0] =>
        pose proof (resolveAsValid_spec f v s0) as (H1 & _ & _ & H4 & d & H5 & H6 & _)
      end.
      cbv zeta in *. cbn [prepared kids wld w_log] in H4, H5.
      split; [|split; [exact H4|]].
      * erewrite added_app; [|rewrite H5, Hlog, <- app_assoc; reflexivity].
        unfold invocations in *. rewrite filter_app, H6, app_nil_r.
        destruct (negb _); [apply invocations_should_warnings|reflexivity].
      * repeat split; try discriminate. intros _ _. exact H1.
    + rewrite (whenValidate_run h o (base g) _ _ s value w1 Hget Hc Hs).
      assert (Hrun :
        run_rules h o (base g) (GroupFieldM._preValidate h o g) value
          (prepared h (base g) value s w1 true)
        = (Rejected (FieldReason (__id__ (base g))),
           prepared h (base g) value s w1 true)).
      { unfold run_rules, bind.
        rewrite preValidate_known_invalid;
          [reflexivity|exact Hne|rewrite <- Hinv; now apply has_invalid_child_kids]. }
      rewrite Hrun. cbn [fst snd prepared kids wld w_log self].
      split; [|split; [reflexivity|]].
      * erewrite added_app; [|rewrite Hlog; reflexivity].
        apply invocations_should_warnings.
      * repeat split; try discriminate.
Qed.

(** The pair of names after the required first name was found empty:
    the group, whose value is not empty, reaches the hook and rejects. *)
Lemma group_gate_witness :
  fst (GroupFieldM.GroupField_whenValidate host_last_typed Sample.sequential
         name_pair names_after_first_failed)
  = Rejected (FieldReason "names")
  /\ invocations
       (added (wld names_after_first_failed)
          (wld (snd (GroupFieldM.GroupField_whenValidate host_last_typed
                       Sample.sequential name_pair names_after_first_failed))))
     = [].
Proof.
  assert (Hne : fields name_pair <> []) by discriminate.
  assert (Hinv : has_invalid_child name_pair names_after_first_failed = true)
    by (vm_compute; reflexivity).
  destruct (group_gate host_last_typed Sample.sequential name_pair
              names_after_first_failed Hne Hinv) as (H1 & _ & H3 & _).
  split; [|exact H1].
  apply H3; vm_compute; reflexivity.
Defined.

(** ** Whitespace *)




Lemma liftW_self {A : Type} (m : ST world A) (s : vstate) :
  self (snd (liftW m s)) = self s /\ kids (snd (liftW m s)) = kids s.
Proof. unfold liftW. destruct (m (wld s)); split; reflexivity. Qed.

(** The rules of a plain field never touch the remembered value. *)
Lemma run_rules_lastValidatedValue (h : host) (o : Options) (f : Field)
    (value : jsval) (s : vstate) :
  _lastValidatedValue (self (snd (run_rules h o f FieldM._preValidate value s)))
  = _lastValidatedValue (self s).
Proof.
  unfold run_rules, FieldM._preValidate, bind at 1, ret at 1.
  unfold bind at 1.
  pose proof (liftW_self (FieldM._buildValidationsFor h o f value) s) as [Hs _].
  destruct (liftW (FieldM._buildValidationsFor h o f value) s) as [[v|e] s1];
    cbn [snd] in Hs; [|cbn; now rewrite Hs].
  unfold FieldM._finalizeValidationResult, bind at 1.
  pose proof (liftW_self (FieldM.run_validations o v) s1) as [Hs1 _].
  destruct (liftW (FieldM.run_validations o v) s1) as [[vs|r] s2];
    cbn [snd] in Hs1; unfold FieldM.on_settled.
  - unfold FieldM._handleUI, FieldM._trigger. unfold_st. cbn.
    destruct (wld s2). cbn. now rewrite Hs1, Hs.
  - destruct (instanceof_Error r).
    + unfold FieldM._trigger. unfold_st. cbn. destruct (wld s2). cbn.
      now rewrite Hs1, Hs.
    + unfold FieldM._handleUI, FieldM._trigger. unfold_st. cbn.
      destruct (wld s2). cbn. now rewrite Hs1, Hs.
Qed.







(** ** The two strategies *)

Lemma all_cons_resolved {A : Type} (v : A) (ps : list (promise A)) :
  Utils.all (Resolved v :: ps)
  = match Utils.all ps with
    | Resolved vs => Resolved (v :: vs)
    | Rejected r => Rejected r
    end.
Proof.
  unfold Utils.all. cbn [flat_map app].
  destruct (flat_map _ ps); reflexivity.
Qed.

Lemma all_resolved_values {A : Type} (ps : list (promise A)) :
  is_resolved (Utils.all ps) = true -> Utils.all ps = Resolved (resolved_values ps).
Proof.
  unfold Utils.all, resolved_values. destruct (flat_map _ ps); [reflexivity|discriminate].
Qed.

Lemma all_rejects_with_list {A : Type} (ps : list (promise A)) (r : reason) :
  Utils.all ps = Rejected r -> instanceof_Error r = false.
Proof.
  unfold Utils.all. destruct (flat_map _ ps); [discriminate|].
  intros [= <-]. reflexivity.
Qed.

Lemma runSequential_rejects_with_list {S A : Type}
    (items : list (ST S (completion (promise A))))
    (results : list A) (errors : list reason) (s : S) (r : reason) :
  fst (Utils.runSequential_next items results errors s) = Rejected r ->
  instanceof_Error r = false.
Proof.
  revert results errors s. induction items as [|t items IH]; intros results errors s.
  - cbn. destruct errors; cbn; [discriminate|]. intros [= <-]. reflexivity.
  - cbn [Utils.runSequential_next]. unfold bind.
    destruct (t s) as [[[v|e]|e] s']; cbn.
    + apply IH.
    + intros [= <-]. reflexivity.
    + intros [= <-]. reflexivity.
Qed.

(** The heart of the equivalence: run over evaluations that pass alike,
    the sequential strategy resolves exactly when the concurrent one
    does, and then both resolve with the same values in the same
    state. *)
Lemma strategies_agree {S A : Type}
    (ts1 ts2 : list (ST S (completion (promise A)))) :
  Forall2 same_pass ts1 ts2 ->
  forall (results : list A) (s : S),
    match fst (start_all ts2 s) with
    | Throw _ =>
        is_resolved (fst (Utils.runSequential_next ts1 results [] s)) = false
    | Normal ps =>
        is_resolved (fst (Utils.runSequential_next ts1 results [] s))
        = is_resolved (Utils.all ps)
        /\ (is_resolved (Utils.all ps) = true ->
            Utils.runSequential_next ts1 results [] s
            = (Resolved (results ++ resolved_values ps), snd (start_all ts2 s)))
    end.
Proof.
  induction 1 as [|t1 t2 ts1 ts2 Ht _ IH]; intros results s.
  - cbn. split; [reflexivity|]. intros _. now rewrite app_nil_r.
  - cbn [Utils.runSequential_next start_all]. unfold bind, ret.
    destruct (Ht s) as [Hp Heq].
    destruct (t1 s) as [c1 s1] eqn:E1. destruct (t2 s) as [c2 s2] eqn:E2.
    cbn [fst] in Hp, Heq.
    destruct c1 as [[v|e1]|e1]; cbn [passed] in Hp, Heq.
    + specialize (Heq eq_refl). injection Heq as <- <-.
      specialize (IH (results ++ [v]) s1).
      destruct (start_all ts2 s1) as [[ps|e] s3]; cbn [fst snd] in *.
      * rewrite all_cons_resolved. destruct IH as [IH1 IH2]. split.
        -- rewrite IH1. destruct (Utils.all ps); reflexivity.
        -- intros Hres.
           assert (Hps : is_resolved (Utils.all ps) = true)
             by (destruct (Utils.all ps); [reflexivity|discriminate]).
           rewrite (IH2 Hps), <- app_assoc. reflexivity.
      * exact IH.
    + destruct c2 as [[v2|e2]|e2]; cbn [passed] in Hp; try discriminate.
      * destruct (start_all ts2 s2) as [[ps|e] s3]; cbn.
        -- split; [reflexivity|discriminate].
        -- reflexivity.
      * reflexivity.
    + destruct c2 as [[v2|e2]|e2]; cbn [passed] in Hp; try discriminate.
      * destruct (start_all ts2 s2) as [[ps|e] s3]; cbn.
        -- split; [reflexivity|discriminate].
        -- reflexivity.
      * reflexivity.
Qed.

Lemma same_pass_refl {S A : Type} (t : ST S (completion (promise A))) :
  same_pass t t.
Proof. intros s. split; reflexivity. Qed.

Lemma Forall2_same_pass_refl {S A : Type} (ts : list (ST S (completion (promise A)))) :
  Forall2 same_pass ts ts.
Proof. induction ts; constructor; [apply same_pass_refl|assumption]. Qed.

Lemma same_verdict_refl {S A : Type} (r : promise A * S) : same_verdict r r.
Proof. split; reflexivity. Qed.

Lemma vstate_eta (s : vstate) :
  {| self := self s; kids := kids s; wld := wld s |} = s.
Proof. destruct s; reflexivity. Qed.

Lemma on_settled_rejected (f : Field) (value : jsval) (r : reason) (s : vstate) :
  instanceof_Error r = false ->
  fst (FieldM.on_settled f value (Rejected r) s) = Rejected (FieldReason (__id__ f)).
Proof.
  intros H. unfold FieldM.on_settled. rewrite H.
  unfold FieldM._handleUI, FieldM._trigger. unfold_st. cbn.
  destruct (wld s). reflexivity.
Qed.

(** The constraint evaluations of a field on a value, in evaluation
    order. *)
Lemma run_rules_sequential (h : host) (f : Field) (value : jsval) (s : vstate) :
  run_rules h Sample.sequential f (ret (Resolved tt)) value s
  = FieldM.on_settled f value
      (fst (Utils.runSequential
              (map (fun c => validateConstraint h (customErrorMessage f) c value)
                   (evaluation_order f)) (wld s)))
      {| self := self s; kids := kids s;
         wld := snd (Utils.runSequential
                       (map (fun c => validateConstraint h (customErrorMessage f) c value)
                            (evaluation_order f)) (wld s)) |}.
Proof.
  unfold run_rules, FieldM._buildValidationsFor, FieldM._finalizeValidationResult,
    FieldM.run_validations, evaluation_order, bind, ret, liftW.
  cbn [stopAtFirstError Sample.sequential wld self kids fst snd].
  destruct (Utils.runSequential _ (wld s)); reflexivity.
Qed.

Lemma run_rules_concurrent (h : host) (f : Field) (value : jsval) (s : vstate) :
  run_rules h Sample.concurrent f (ret (Resolved tt)) value s
  = match start_all
            (map (fun c => validateConstraint h (customErrorMessage f) c value)
                 (evaluation_order f)) (wld s) with
    | (Normal ps, w) =>
        FieldM.on_settled f value (Utils.all ps)
          {| self := self s; kids := kids s; wld := w |}
    | (Throw e, w) => (Rejected e, {| self := self s; kids := kids s; wld := w |})
    end.
Proof.
  unfold run_rules, FieldM._buildValidationsFor, FieldM._finalizeValidationResult,
    FieldM.run_validations, evaluation_order, bind, ret, liftW.
  cbn [stopAtFirstError Sample.concurrent wld self kids fst snd].
  destruct (start_all _ (wld s)) as [[ps|e] w]; reflexivity.
Qed.

(** The rules of a field, run from the same state under the two
    strategies. *)
Lemma own_rules_agree (h : host) (f : Field) (value : jsval) (s : vstate) :
  same_verdict
    (run_rules h Sample.sequential f (ret (Resolved tt)) value s)
    (run_rules h Sample.concurrent f (ret (Resolved tt)) value s).
Proof.
  rewrite run_rules_sequential, run_rules_concurrent.
  set (ts := map (fun c => validateConstraint h (customErrorMessage f) c value)
                 (evaluation_order f)).
  unfold Utils.runSequential.
  pose proof (strategies_agree ts ts (Forall2_same_pass_refl ts) [] (wld s)) as Hag.
  pose proof (runSequential_rejects_with_list ts [] [] (wld s)) as Hlist.
  destruct (start_all ts (wld s)) as [[ps|e] w2] eqn:Est; cbn [fst snd] in Hag.
  - destruct Hag as [Hv Heq].
    destruct (Utils.all ps) as [vs|r] eqn:Eall.
    + cbn [is_resolved] in Hv, Heq. rewrite (Heq eq_refl). cbn [fst snd app].
      pose proof (all_resolved_values ps) as Hvals.
      rewrite Eall in Hvals. specialize (Hvals eq_refl). injection Hvals as ->.
      apply same_verdict_refl.
    + cbn [is_resolved] in Hv.
      destruct (Utils.runSequential_next ts [] [] (wld s)) as [[vs|r1] w1] eqn:Eseq;
        cbn [fst snd is_resolved] in Hv, Hlist |- *; [discriminate|].
      split; [|rewrite on_settled_rejected by (now apply Hlist); discriminate].
      rewrite !on_settled_rejected;
        [reflexivity|exact (all_rejects_with_list ps r Eall)|now apply Hlist].
  - destruct (Utils.runSequential_next ts [] [] (wld s)) as [[vs|r1] w1] eqn:Eseq;
      cbn [fst snd is_resolved] in Hag, Hlist |- *; [discriminate|].
    split; [|rewrite on_settled_rejected by (now apply Hlist); discriminate].
    rewrite on_settled_rejected by (now apply Hlist). reflexivity.
Qed.

Lemma run_rules_after_hook (h : host) (o : Options) (f : Field)
    (pre : ST vstate (promise unit)) (value : jsval) (s : vstate) :
  run_rules h o f pre value s
  = match pre s with
    | (Resolved _, s1) => run_rules h o f (ret (Resolved tt)) value s1
    | (Rejected r, s1) => (Rejected r, s1)
    end.
Proof.
  unfold run_rules, bind at 1 3, ret at 3.
  destruct (pre s) as [[u|r] s1]; reflexivity.
Qed.

(** [whenValidate] under the two strategies, over hooks that agree. *)
Lemma whenValidate_agree (h : host) (f : Field) (getValue : ST world jsval)
    (pre1 pre2 : ST vstate (promise unit)) :
  (forall s, same_verdict (pre1 s) (pre2 s)) ->
  forall s,
    same_verdict (FieldM.whenValidate h Sample.sequential f getValue pre1 s)
                 (FieldM.whenValidate h Sample.concurrent f getValue pre2 s).
Proof.
  intros Hpre s.
  destruct (getValue (wld s)) as [value w1] eqn:Hget.
  destruct (answered_from_cache value (self s)) eqn:Hc.
  - rewrite !(whenValidate_cached h _ f getValue _ s value w1 Hget Hc).
    apply same_verdict_refl.
  - destruct (skipped h f value) eqn:Hs.
    + rewrite !(whenValidate_skipped h _ f getValue _ s value w1 Hget Hc Hs).
      apply same_verdict_refl.
    + rewrite !(whenValidate_run h _ f getValue _ s value w1 Hget Hc Hs).
      rewrite !run_rules_after_hook.
      destruct (Hpre (prepared h f value s w1 true)) as [Hv Heq].
      destruct (pre1 (prepared h f value s w1 true)) as [[u1|r1] s1];
        destruct (pre2 (prepared h f value s w1 true)) as [[u2|r2] s2];
        cbn [fst is_resolved] in Hv, Heq; try discriminate.
      * specialize (Heq eq_refl). injection Heq as <- <-. apply own_rules_agree.
      * split; [reflexivity|discriminate].
Qed.

(** C1 on a plain field. *)
Lemma Field_strategies_agree (h : host) (f : Field) (s : vstate) :
  same_verdict (FieldM.Field_whenValidate h Sample.sequential f s)
               (FieldM.Field_whenValidate h Sample.concurrent f s).
Proof.
  apply whenValidate_agree. intros s0. apply same_verdict_refl.
Qed.

Lemma child_whenValidate_same_pass (h : host) (c : nat * Field) :
  same_pass (GroupFieldM.child_whenValidate h Sample.sequential c)
            (GroupFieldM.child_whenValidate h Sample.concurrent c).
Proof.
  intros s. unfold GroupFieldM.child_whenValidate, on_child, bind, ret.
  destruct (Field_strategies_agree h (snd c)
              {| self := nth (fst c) (kids s) fstate_init; kids := []; wld := wld s |})
    as [Hv Heq].
  destruct (FieldM.Field_whenValidate h Sample.sequential (snd c) _) as [p1 s1].
  destruct (FieldM.Field_whenValidate h Sample.concurrent (snd c) _) as [p2 s2].
  cbn [fst snd passed] in *.
  destruct p1 as [v1|r1]; destruct p2 as [v2|r2]; cbn [is_resolved] in Hv, Heq;
    try discriminate.
  - specialize (Heq eq_refl). injection Heq as <- <-. split; reflexivity.
  - split; [reflexivity|discriminate].
Qed.

(** The pre-validation hook of a group under the two strategies. *)
Lemma preValidate_agree (h : host) (g : GroupField) (s : vstate) :
  same_verdict (GroupFieldM._preValidate h Sample.sequential g s)
               (GroupFieldM._preValidate h Sample.concurrent g s).
Proof.
  unfold GroupFieldM._preValidate.
  destruct (fields g) as [|c0 cs] eqn:Ef; [apply same_verdict_refl|].
  destruct (existsb _ (GroupFieldM.indexed g)); [apply same_verdict_refl|].
  unfold bind, ret.
  destruct (filterM (GroupFieldM.needsValidation h) (GroupFieldM.indexed g) s)
    as [need s1].
  destruct need as [|n need]; [apply same_verdict_refl|].
  cbn [stopAtFirstError Sample.sequential Sample.concurrent].
  set (ts1 := map (GroupFieldM.child_whenValidate h Sample.sequential) (n :: need)).
  set (ts2 := map (GroupFieldM.child_whenValidate h Sample.concurrent) (n :: need)).
  assert (Hts : Forall2 same_pass ts1 ts2).
  { subst ts1 ts2. induction (n :: need) as [|x l IH]; constructor;
      [apply child_whenValidate_same_pass|exact IH]. }
  pose proof (strategies_agree ts1 ts2 Hts [] s1) as Hag.
  pose proof (runSequential_rejects_with_list ts1 [] [] s1) as Hlist.
  unfold Utils.runSequential.
  destruct (start_all ts2 s1) as [[ps|e] s2]; cbn [fst snd] in Hag.
  - destruct Hag as [Hv Heq].
    destruct (Utils.all ps) as [vs|r] eqn:Eall.
    + cbn [is_resolved] in Heq. rewrite (Heq eq_refl). apply same_verdict_refl.
    + cbn [is_resolved] in Hv.
      destruct (Utils.runSequential_next ts1 [] [] s1) as [[vs|r1] s3];
        cbn [fst is_resolved] in Hv, Hlist; [discriminate|].
      rewrite (Hlist r1 eq_refl), (all_rejects_with_list ps r Eall).
      split; [reflexivity|discriminate].
  - destruct (Utils.runSequential_next ts1 [] [] s1) as [[vs|r1] s3];
      cbn [fst is_resolved] in Hag, Hlist; [discriminate|].
    rewrite (Hlist r1 eq_refl).
    destruct (instanceof_Error e); split; try reflexivity; discriminate.
Qed.

(** C1.  From the same state and on the same page, the evaluation of an
    entity, plain field or group, under the sequential short-circuit
    strategy ([Utils.runSequential] over thunks) resolves exactly when
    its evaluation under the concurrent exhaustive strategy
    ([Utils.all] over started promises) resolves, and then both resolve
    with the same value.  The two can differ only when the verdict is
    invalid, in the evaluations that were started and in the reasons
    collected.  The predicates of the model are functions of their
    arguments: they have no effect of their own. *)
Theorem strategy_equivalence :
  forall (h : host),
    (forall (f : Field) (s : vstate),
        is_resolved (fst (FieldM.Field_whenValidate h Sample.sequential f s))
        = is_resolved (fst (FieldM.Field_whenValidate h Sample.concurrent f s))
        /\ (is_resolved (fst (FieldM.Field_whenValidate h Sample.sequential f s))
            = true ->
            fst (FieldM.Field_whenValidate h Sample.sequential f s)
            = fst (FieldM.Field_whenValidate h Sample.concurrent f s)))
    /\ (forall (g : GroupField) (s : vstate),
           is_resolved
             (fst (GroupFieldM.GroupField_whenValidate h Sample.sequential g s))
           = is_resolved
               (fst (GroupFieldM.GroupField_whenValidate h Sample.concurrent g s))
           /\ (is_resolved
                 (fst (GroupFieldM.GroupField_whenValidate h Sample.sequential g s))
               = true ->
               fst (GroupFieldM.GroupField_whenValidate h Sample.sequential g s)
               = fst (GroupFieldM.GroupField_whenValidate h Sample.concurrent g s))).
Proof.
  intros h. split.
  - intros f s. destruct (Field_strategies_agree h f s) as [Hv Heq].
    split; [exact Hv|]. intros Hr. now rewrite (Heq Hr).
  - intros g s. unfold GroupFieldM.GroupField_whenValidate.
    destruct (whenValidate_agree h (base g) (GroupFieldM.getValue h g)
                (GroupFieldM._preValidate h Sample.sequential g)
                (GroupFieldM._preValidate h Sample.concurrent g)
                (fun s0 => preValidate_agree h g s0) s) as [Hv Heq].
    split; [exact Hv|]. intros Hr. now rewrite (Heq Hr).
Qed.

(* ================================================================== *)
(** ** A field under the default strategy *)
(* ================================================================== *)

Lemma strict_eq_refl (v : jsval) : strict_eq v v = true.
Proof.
  destruct v as [| |b|s|r l|r p]; cbn; auto using Nat.eqb_refl, String.eqb_refl.
  destruct b; reflexivity.
Qed.

Lemma every_strict_eq_refl (l : list jsval) : Utils.every_strict_eq l l = true.
Proof.
  induction l as [|x l IH]; [reflexivity|].
  cbn. rewrite strict_eq_refl, IH. reflexivity.
Qed.

(** A value read from an element equals its clone, and the comparison
    does not depend on the identity the array was given. *)
Lemma jq_val_areEquals_clone (d : domvalue) (w w' w1 : world) :
  Utils.areEquals (fst (jq_val d w'))
    (fst (Utils.cloneValue (fst (jq_val d w)) w1)) = true.
Proof.
  destruct d as [|s|l]; cbn.
  - reflexivity.
  - unfold Utils.areEquals. cbn. apply String.eqb_refl.
  - unfold Utils.areEquals. cbn. rewrite Nat.eqb_refl, every_strict_eq_refl.
    reflexivity.
Qed.

Lemma jq_val_areEquals_indep (d : domvalue) (w w' : world) (b : jsval) :
  Utils.areEquals (fst (jq_val d w)) b = Utils.areEquals (fst (jq_val d w')) b.
Proof. destruct d; destruct b; reflexivity. Qed.

Lemma on_settled_resolved (f : Field) (value : jsval) (l : list jsval) (s : vstate) :
  fst (FieldM.on_settled f value (Resolved l) s) = Resolved value
  /\ _lastValidationState (self (snd (FieldM.on_settled f value (Resolved l) s)))
     = Some true.
Proof.
  unfold FieldM.on_settled, FieldM._handleUI, FieldM._trigger. unfold_st.
  destruct s as [st ks [n lg]]. cbn. split; reflexivity.
Qed.

Lemma on_settled_rejected_state (f : Field) (value : jsval) (r : reason) (s : vstate) :
  instanceof_Error r = false ->
  _lastValidationState (self (snd (FieldM.on_settled f value (Rejected r) s)))
  = Some false.
Proof.
  intros H. unfold FieldM.on_settled. rewrite H.
  unfold FieldM._handleUI, FieldM._trigger. unfold_st.
  destruct s as [st ks [n lg]]. reflexivity.
Qed.

(** Under the default strategy the promise of a plain field and the
    state it caches agree, and the field rejects with itself. *)
Lemma Field_sequential_outcome (h : host) (f : Field) (s : vstate) :
  let r := FieldM.Field_whenValidate h Sample.sequential f s in
  (exists v, fst r = Resolved v
             /\ _lastValidationState (self (snd r)) = Some true)
  \/ (fst r = Rejected (FieldReason (__id__ f))
      /\ _lastValidationState (self (snd r)) = Some false).
Proof.
  cbn zeta. unfold FieldM.Field_whenValidate.
  destruct (FieldM.getValue h f (wld s)) as [value w1] eqn:Hget.
  destruct (answered_from_cache value (self s)) eqn:Hc.
  - rewrite (whenValidate_cached _ _ _ _ _ _ _ _ Hget Hc). cbn [fst snd self].
    unfold answered_from_cache in Hc. apply andb_true_iff in Hc as [_ Hst].
    destruct (_lastValidationState (self s)) as [[|]|]; [left|right|discriminate].
    + exists value. split; reflexivity.
    + split; reflexivity.
  - destruct (skipped h f value) eqn:Hsk.
    + rewrite (whenValidate_skipped _ _ _ _ _ _ _ _ Hget Hc Hsk).
      left. exists value.
      destruct (resolveAsValid_spec f value
                  (prepared h f value s w1
                     (negb (FieldM.is_checkbox_or_radio (element_type f)))))
        as (H1 & H2 & _).
      split; assumption.
    + rewrite (whenValidate_run _ _ _ _ _ _ _ _ Hget Hc Hsk).
      change FieldM._preValidate with (@ret vstate _ (Resolved tt)).
      rewrite run_rules_sequential.
      destruct (Utils.runSequential _ _) as [[vs|r] w2] eqn:Hrun; cbn [fst snd].
      * left. exists value. apply on_settled_resolved.
      * assert (Herr : instanceof_Error r = false).
        { unfold Utils.runSequential in Hrun.
          eapply runSequential_rejects_with_list. rewrite Hrun. reflexivity. }
        right. split.
        -- apply on_settled_rejected; assumption.
        -- apply on_settled_rejected_state; assumption.
Qed.

Lemma on_settled_lastValidatedValue (f : Field) (value : jsval)
    (p : promise (list jsval)) (s : vstate) :
  _lastValidatedValue (self (snd (FieldM.on_settled f value p s)))
  = _lastValidatedValue (self s).
Proof.
  unfold FieldM.on_settled, FieldM._handleUI, FieldM._trigger. unfold_st.
  destruct s as [st ks [n lg]].
  destruct p as [l|r]; [reflexivity|].
  destruct (instanceof_Error r); reflexivity.
Qed.

(** After an evaluation under the default strategy the cache of a plain
    field answers for the value the page still shows. *)
Lemma Field_sequential_caches (h : host) (f : Field) (s : vstate) (w' : world) :
  answered_from_cache (fst (FieldM.getValue h f w'))
    (self (snd (FieldM.Field_whenValidate h Sample.sequential f s))) = true.
Proof.
  unfold answered_from_cache. apply andb_true_iff. split.
  2:{ destruct (Field_sequential_outcome h f s) as [(v & _ & H)|[_ H]];
        cbn zeta in H; rewrite H; reflexivity. }
  unfold FieldM.Field_whenValidate.
  destruct (FieldM.getValue h f (wld s)) as [value w1] eqn:Hget.
  assert (Hv : value = fst (jq_val (dom_val h (__id__ f)) (wld s))).
  { unfold FieldM.getValue in Hget. rewrite Hget. reflexivity. }
  unfold FieldM.getValue at 1.
  destruct (answered_from_cache value (self s)) eqn:Hc.
  - rewrite (whenValidate_cached _ _ _ _ _ _ _ _ Hget Hc). cbn [fst snd self].
    unfold answered_from_cache in Hc. apply andb_true_iff in Hc as [Heq _].
    rewrite (jq_val_areEquals_indep _ w' (wld s)), <- Hv. exact Heq.
  - destruct (skipped h f value) eqn:Hsk.
    + rewrite (whenValidate_skipped _ _ _ _ _ _ _ _ Hget Hc Hsk).
      destruct (resolveAsValid_spec f value
                  (prepared h f value s w1
                     (negb (FieldM.is_checkbox_or_radio (element_type f)))))
        as (_ & _ & H3 & _).
      rewrite H3. cbn [prepared self _lastValidatedValue set_lastValidatedValue].
      rewrite Hv. apply jq_val_areEquals_clone.
    + rewrite (whenValidate_run _ _ _ _ _ _ _ _ Hget Hc Hsk).
      rewrite run_rules_lastValidatedValue.
      cbn [prepared self _lastValidatedValue set_lastValidatedValue].
      rewrite Hv. apply jq_val_areEquals_clone.
Qed.

(** X1.  Idempotence.  Under the default strategy
    ([stopAtFirstError: true]), evaluating a plain field a second time
    while the page still shows the same value gives the verdict of the
    first evaluation, from the cache: nothing is called or logged and the
    state of the field is left as it was. *)
Theorem evaluating_twice_is_idempotent :
  forall (h : host) (f : Field) (s : vstate),
    let r1 := FieldM.Field_whenValidate h Sample.sequential f s in
    let r2 := FieldM.Field_whenValidate h Sample.sequential f (snd r1) in
    is_resolved (fst r2) = is_resolved (fst r1)
    /\ self (snd r2) = self (snd r1)
    /\ added (wld (snd r1)) (wld (snd r2)) = [].
Proof.
  intros h f s r1 r2.
  pose proof (Field_sequential_caches h f s (wld (snd r1))) as Hc.
  fold r1 in Hc.
  destruct (cache_hit h Sample.sequential f (FieldM.getValue h f) FieldM._preValidate
              (snd r1) (Field_getValue_log h f) Hc) as (H1 & H2 & _ & H4).
  fold (FieldM.Field_whenValidate h Sample.sequential f (snd r1)) in H1, H2, H4.
  fold r2 in H1, H2, H4.
  split; [|split; assumption].
  rewrite H1.
  destruct (Field_sequential_outcome h f s) as [(v & Hr & Hs)|[Hr Hs]];
    fold r1 in Hr, Hs; rewrite Hr, Hs; reflexivity.
Qed.

(* ================================================================== *)
(** ** Form *)
(* ================================================================== *)

Lemma all_cons_rejected {A : Type} (e : reason) (ps : list (promise A)) :
  Utils.all (Rejected e :: ps)
  = Rejected (ErrorList (e :: match Utils.all ps with
                              | Rejected (ErrorList es) => es
                              | _ => []
                              end)).
Proof.
  unfold Utils.all. cbn [flat_map app].
  destruct (flat_map _ ps); reflexivity.
Qed.

(** The evaluations of the fields of a form under the default
    strategy: each plain field ends in the state of its verdict, and
    the rejected ones reject with themselves. *)
Lemma members_sequential (h : host) (ms : list member) (w : world) :
  forallb is_plain ms = true ->
  let r := fst (mapM (FormM.member_whenValidate h Sample.sequential) ms w) in
  match Utils.all (map fst r) with
  | Resolved _ => invalid_members (map snd r) = []
  | Rejected x =>
      x = ErrorList (map (fun m => FieldReason (entity_id (m_entity m)))
                         (invalid_members (map snd r)))
      /\ invalid_members (map snd r) <> []
  end
  /\ Forall (fun m => _lastValidationState (m_self m) <> None) (map snd r)
  /\ map m_entity (map snd r) = map m_entity ms.
Proof.
  revert w. induction ms as [|m ms IH]; intros w Hp; cbn zeta.
  - cbn. repeat split. constructor.
  - cbn [forallb] in Hp. apply andb_true_iff in Hp as [Hm Hp].
    destruct (FormM.member_whenValidate h Sample.sequential m w) as [[p m'] w1] eqn:Em.
    specialize (IH w1 Hp). cbn zeta in IH.
    destruct (mapM (FormM.member_whenValidate h Sample.sequential) ms w1)
      as [rs w2] eqn:Ers.
    assert (E : mapM (FormM.member_whenValidate h Sample.sequential) (m :: ms) w
                = ((p, m') :: rs, w2)).
    { cbn [mapM]. unfold bind, ret. rewrite Em, Ers. reflexivity. }
    rewrite E.
    cbn [fst snd map] in IH |- *.
    destruct IH as (IH1 & IH2 & IH3).
    unfold FormM.member_whenValidate in Em.
    unfold is_plain in Hm.
    destruct (m_entity m) as [f|g] eqn:Ee; [|discriminate].
    pose proof (Field_sequential_outcome h f
                  {| self := m_self m; kids := m_kids m; wld := w |}) as Hout.
    cbn zeta in Hout.
    destruct (FieldM.Field_whenValidate h Sample.sequential f _) as [p0 s'] eqn:Ef.
    injection Em as <- <- <-. cbn [fst snd] in Hout.
    split; [|split].
    + destruct Hout as [(v & -> & Hs)|[-> Hs]].
      * rewrite all_cons_resolved.
        unfold invalid_members. cbn [filter m_self]. rewrite Hs.
        fold (invalid_members (map snd rs)).
        destruct (Utils.all (map fst rs)); assumption.
      * rewrite all_cons_rejected.
        unfold invalid_members. cbn [filter m_self]. rewrite Hs.
        fold (invalid_members (map snd rs)). cbn [map m_entity entity_id].
        split; [|discriminate].
        destruct (Utils.all (map fst rs)) as [vs|x].
        -- rewrite IH1. reflexivity.
        -- destruct IH1 as [-> _]. reflexivity.
    + constructor; [|assumption]. cbn [m_self].
      destruct Hout as [(v & _ & Hs)|[_ Hs]]; rewrite Hs; discriminate.
    + cbn [m_entity map]. rewrite IH3. try rewrite Ee. reflexivity.
Qed.

Lemma Form_whenValidate_fst (h : host) (o : Options) (form : FormM.Form)
    (w : world) :
  fst (FormM.whenValidate h o form w)
  = (Utils.all
       (map fst (fst (mapM (FormM.member_whenValidate h o) (FormM.fields form)
                        (snd (FormM._trigger form "validate" w))))),
     {| FormM.element := FormM.element form;
        FormM.fields :=
          map snd (fst (mapM (FormM.member_whenValidate h o) (FormM.fields form)
                          (snd (FormM._trigger form "validate" w)))) |}).
Proof.
  unfold FormM.whenValidate. unfold bind at 1.
  destruct (FormM._trigger form "validate" w) as [[] w0]. cbn [snd].
  unfold bind at 1.
  destruct (mapM _ (FormM.fields form) w0) as [rs w1]. cbn [fst].
  destruct (Utils.all (map fst rs)); reflexivity.
Qed.

Lemma Form_validate_fst (h : host) (o : Options) (form : FormM.Form) (w : world) :
  fst (fst (FormM.validate h o form w))
  = Resolved (is_resolved (fst (fst (FormM.whenValidate h o form w)))).
Proof.
  unfold FormM.validate, bind.
  destruct (FormM.whenValidate h o form w) as [[[vs|x] form'] w'];
    reflexivity.
Qed.

(** X2.  Under the default strategy, validating a form of plain fields
    evaluates every field and leaves each of them valid or invalid; the
    promise resolves exactly when no field is left invalid, and otherwise
    rejects with the list of the fields left invalid, in the order of the
    form.  [validate()] answers [true] or [false] accordingly and never
    rejects. *)
Theorem Form_whenValidate_reports_invalid_fields :
  forall (h : host) (form : FormM.Form) (w : world),
    forallb is_plain (FormM.fields form) = true ->
    let r := fst (FormM.whenValidate h Sample.sequential form w) in
    let after := FormM.fields (snd r) in
    map m_entity after = map m_entity (FormM.fields form)
    /\ Forall (fun m => _lastValidationState (m_self m) <> None) after
    /\ (is_resolved (fst r) = true <-> invalid_members after = [])
    /\ (is_resolved (fst r) = false ->
        fst r = Rejected
                  (ErrorList (map (fun m => FieldReason (entity_id (m_entity m)))
                                  (invalid_members after))))
    /\ fst (fst (FormM.validate h Sample.sequential form w))
       = Resolved (is_resolved (fst r)).
Proof.
  intros h form w Hp. cbn zeta.
  rewrite Form_validate_fst, Form_whenValidate_fst. cbn [fst snd FormM.fields].
  pose proof (members_sequential h (FormM.fields form)
                (snd (FormM._trigger form "validate" w)) Hp) as H.
  cbn zeta in H. destruct H as (H1 & H2 & H3).
  split; [assumption|]. split; [assumption|].
  destruct (Utils.all _) as [vs|x]; cbn [is_resolved].
  - split; [split; [intros _; exact H1|reflexivity]|].
    split; [discriminate|reflexivity].
  - destruct H1 as [-> Hne].
    split; [split; [discriminate|intros Hnil; contradiction]|].
    split; reflexivity.
Qed.

Lemma Form_whenValidate_reports_invalid_fields_witness :
  fst (fst (FormM.whenValidate Sample.host_empty Sample.sequential signup_form
              world_init))
  = Rejected (ErrorList [FieldReason "name"]).
Proof.
  destruct (Form_whenValidate_reports_invalid_fields Sample.host_empty signup_form
              world_init eq_refl) as (_ & _ & _ & H & _).
  exact (H eq_refl).
Defined.

(* ================================================================== *)
(** ** The calls of an evaluation *)
(* ================================================================== *)

Lemma invocations_app (a b : list event) :
  invocations (a ++ b) = invocations a ++ invocations b.
Proof. apply filter_app. Qed.

(** A rule calls its predicate once, and its outcome does not depend on
    the object identities that are free when it runs. *)
Lemma validateConstraint_trace (h : host) (cem value : jsval) (c : Constraint)
    (w : world) :
  exists delta,
    w_log (snd (validateConstraint h cem c value w)) = w_log w ++ delta
    /\ invocations delta = invocation value c
    /\ failure_of (fst (validateConstraint h cem c value w))
       = rule_failure h cem value c
    /\ throws (fst (validateConstraint h cem c value w))
       = rule_throws h cem value c.
Proof.
  unfold rule_failure, rule_throws, invocation, validateConstraint.
  destruct (c_validator c) as [v|].
  2:{ exists []. rewrite app_nil_r. repeat split. }
  unfold Validator_validate, apply_validateFn.
  destruct (validateFn v) as [|p|nm|r].
  - exists []. rewrite app_nil_r. repeat split.
  - unfold_st. cbn [fst snd w_log w_next].
    destruct (p (call_args value (c_requirements c))) as [x|e|[x|e]];
      try destruct (truthy x);
      cbn [fst snd w_log w_next]; eexists;
      (split; [rewrite <- ?app_assoc; reflexivity|]); repeat split.
  - unfold_st. cbn [fst snd w_log w_next].
    destruct (library_predicate h nm (call_args value (c_requirements c)))
      as [x|e|[x|e]];
      try destruct (truthy x);
      cbn [fst snd w_log w_next]; eexists;
      (split; [rewrite <- ?app_assoc; reflexivity|]); repeat split.
  - unfold Remote_validateFn. unfold_st. cbn [fst snd w_log w_next].
    destruct (truthy (resolvedUrl r _)); cbn [negb fst snd w_log w_next].
    + destruct (ajax h _ _ _) as [data ts st|ts et]; cbn [fst snd w_log w_next].
      * destruct (isValidFn r data ts st) as [[|]|e];
          cbn [fst snd w_log w_next]; eexists;
          (split; [rewrite <- ?app_assoc; reflexivity|]); repeat split.
      * eexists; (split; [rewrite <- ?app_assoc; reflexivity|]); repeat split.
    + eexists; (split; [rewrite <- ?app_assoc; reflexivity|]); repeat split.
Qed.
Lemma rule_passes_of_failure (h : host) (cem value : jsval) (c : Constraint) :
  rule_passes h cem value c
  = match rule_failure h cem value c with None => true | Some _ => false end.
Proof. reflexivity. Qed.

(** [Utils.runSequential] over the rules of a field: the rules are
    called in order up to the first that fails, whose failure is the
    only one reported. *)
Lemma runSequential_rules (h : host) (cem value : jsval) (cs : list Constraint) :
  forall (results : list jsval) (w : world),
    let r := Utils.runSequential_next
               (map (fun c => validateConstraint h cem c value) cs) results [] w in
    exists delta,
      w_log (snd r) = w_log w ++ delta
      /\ invocations delta
         = flat_map (invocation value)
             (through_first_failure (rule_passes h cem value) cs)
      /\ match fst r with
         | Resolved _ => failures h cem value cs = []
         | Rejected x =>
             exists e, x = ErrorList [e]
                       /\ hd_error (failures h cem value cs) = Some e
         end.
Proof.
  induction cs as [|c cs IH]; intros results w; cbn zeta.
  - exists []. rewrite app_nil_r. repeat split.
  - cbn [map Utils.runSequential_next]. unfold bind.
    destruct (validateConstraint_trace h cem value c w)
      as (d1 & Hlog & Hinv & Hfail & _).
    destruct (validateConstraint h cem c value w) as [[[v|e]|e] w1];
      cbn [fst snd failure_of] in Hlog, Hfail |- *.
    + destruct (IH (results ++ [v]) w1) as (d2 & Hlog2 & Hinv2 & Hres).
      cbn zeta in Hlog2, Hinv2, Hres.
      exists (d1 ++ d2). split; [|split].
      * rewrite Hlog2, Hlog, app_assoc. reflexivity.
      * rewrite invocations_app, Hinv, Hinv2.
        cbn [through_first_failure]. rewrite rule_passes_of_failure, <- Hfail.
        reflexivity.
      * unfold failures in Hres |- *. cbn [flat_map]. rewrite <- Hfail.
        exact Hres.
    + exists d1. split; [exact Hlog|]. split.
      * cbn [through_first_failure]. rewrite rule_passes_of_failure, <- Hfail.
        cbn [flat_map]. rewrite app_nil_r. exact Hinv.
      * exists e. unfold ret. cbn [fst]. split; [reflexivity|].
        unfold failures. cbn [flat_map]. rewrite <- Hfail. reflexivity.
    + exists d1. split; [exact Hlog|]. split.
      * cbn [through_first_failure]. rewrite rule_passes_of_failure, <- Hfail.
        cbn [flat_map]. rewrite app_nil_r. exact Hinv.
      * exists e. unfold ret. cbn [fst]. split; [reflexivity|].
        unfold failures. cbn [flat_map]. rewrite <- Hfail. reflexivity.
Qed.

(** Starting every rule, as the exhaustive strategy does: when no rule
    throws, every rule is called and the rejections are the failures,
    in order. *)
Lemma start_all_rules (h : host) (cem value : jsval) (cs : list Constraint) :
  existsb (rule_throws h cem value) cs = false ->
  forall (w : world),
    let r := start_all (map (fun c => validateConstraint h cem c value) cs) w in
    exists ps delta,
      fst r = Normal ps
      /\ w_log (snd r) = w_log w ++ delta
      /\ invocations delta = flat_map (invocation value) cs
      /\ flat_map (fun p => match p with Rejected e => [e] | Resolved _ => [] end) ps
         = failures h cem value cs.
Proof.
  induction cs as [|c cs IH]; intros Hth w; cbn zeta.
  - exists [], []. rewrite app_nil_r. repeat split.
  - cbn [existsb] in Hth. apply orb_false_iff in Hth as [Hc Hth].
    cbn [map start_all]. unfold bind.
    destruct (validateConstraint_trace h cem value c w)
      as (d1 & Hlog & Hinv & Hfail & Hthrows).
    rewrite Hc in Hthrows.
    destruct (validateConstraint h cem c value w) as [[p|e] w1];
      cbn [fst snd throws] in Hlog, Hfail, Hthrows |- *; [|discriminate].
    destruct (IH Hth w1) as (ps & d2 & Hps & Hlog2 & Hinv2 & Hrej).
    cbn zeta in Hps, Hlog2, Hinv2, Hrej.
    destruct (start_all _ w1) as [r2 w2]. cbn [fst snd] in Hps, Hlog2 |- *.
    subst r2. unfold ret. cbn [fst snd].
    exists (p :: ps), (d1 ++ d2). split; [reflexivity|]. split; [|split].
    + rewrite Hlog2, Hlog, app_assoc. reflexivity.
    + rewrite invocations_app, Hinv, Hinv2. reflexivity.
    + unfold failures in Hrej |- *. cbn [flat_map]. rewrite Hrej, <- Hfail.
      destruct p; reflexivity.
Qed.

Lemma on_settled_log (f : Field) (value : jsval) (p : promise (list jsval))
    (s : vstate) :
  exists delta,
    w_log (wld (snd (FieldM.on_settled f value p s))) = w_log (wld s) ++ delta
    /\ invocations delta = [].
Proof.
  unfold FieldM.on_settled, FieldM._handleUI, FieldM._trigger. unfold_st.
  destruct s as [st ks [n lg]].
  destruct p as [l|r]; [|destruct (instanceof_Error r)];
    cbn [fst snd wld w_log w_next self kids];
    eexists; (split; [rewrite <- ?app_assoc; reflexivity|]); reflexivity.
Qed.

Lemma on_settled_validationResult (f : Field) (value : jsval)
    (p : promise (list jsval)) (s : vstate) :
  validationResult (self (snd (FieldM.on_settled f value p s)))
  = match p with
    | Resolved _ => None
    | Rejected r => if instanceof_Error r then validationResult (self s) else Some r
    end.
Proof.
  unfold FieldM.on_settled, FieldM._handleUI, FieldM._trigger. unfold_st.
  destruct s as [st ks [n lg]].
  destruct p as [l|r]; [|destruct (instanceof_Error r)]; reflexivity.
Qed.

Lemma on_settled_verdict (f : Field) (value : jsval)
    (p : promise (list jsval)) (s : vstate) :
  (forall r, p = Rejected r -> instanceof_Error r = false) ->
  is_resolved (fst (FieldM.on_settled f value p s)) = is_resolved p.
Proof.
  intros H. destruct p as [l|r].
  - destruct (on_settled_resolved f value l s) as [-> _]. reflexivity.
  - rewrite on_settled_rejected by (apply H; reflexivity). reflexivity.
Qed.

Lemma failures_nil_iff (h : host) (cem value : jsval) (cs : list Constraint) :
  failures h cem value cs = [] <-> forallb (rule_passes h cem value) cs = true.
Proof.
  induction cs as [|c cs IH]; [split; reflexivity|].
  unfold failures in *. cbn [flat_map forallb]. rewrite rule_passes_of_failure.
  destruct (rule_failure h cem value c); cbn [app andb].
  - split; discriminate.
  - exact IH.
Qed.

(** The log of a field once the cache is left behind and the early
    tests are passed. *)
Lemma prepared_log (h : host) (f : Field) (value : jsval) (s : vstate) (w1 : world)
    (b : bool) :
  w_log w1 = w_log (wld s) ->
  exists delta,
    w_log (wld (prepared h f value s w1 b)) = w_log (wld s) ++ delta
    /\ invocations delta = [].
Proof.
  intros H. unfold prepared. cbn [wld w_log]. rewrite H.
  eexists. split; [reflexivity|].
  destruct b; [apply invocations_should_warnings|reflexivity].
Qed.
(** The verdict of a plain field under the default strategy, when its
    evaluation reaches the rules: valid exactly when every rule passes. *)
Lemma sequential_verdict (h : host) (f : Field) (s : vstate) :
  answered_from_cache (fst (FieldM.getValue h f (wld s))) (self s) = false ->
  skipped h f (fst (FieldM.getValue h f (wld s))) = false ->
  is_resolved (fst (FieldM.Field_whenValidate h Sample.sequential f s))
  = forallb (rule_passes h (customErrorMessage f) (fst (FieldM.getValue h f (wld s))))
            (evaluation_order f).
Proof.
  unfold FieldM.Field_whenValidate.
  destruct (FieldM.getValue h f (wld s)) as [value w1] eqn:Hget.
  cbn [fst]. intros Hc Hsk.
  rewrite (whenValidate_run _ _ _ _ _ _ _ _ Hget Hc Hsk).
  change FieldM._preValidate with (@ret vstate _ (Resolved tt)).
  rewrite run_rules_sequential.
  destruct (runSequential_rules h (customErrorMessage f) value (evaluation_order f)
              [] (wld (prepared h f value s w1 true)))
    as (_ & _ & _ & Hres).
  cbn zeta in Hres.
  fold (Utils.runSequential
          (map (fun c => validateConstraint h (customErrorMessage f) c value)
               (evaluation_order f))) in Hres.
  set (run := Utils.runSequential _ _) in *.
  rewrite on_settled_verdict.
  - destruct (fst run) as [vs|x].
    + symmetry. apply failures_nil_iff. exact Hres.
    + destruct Hres as (e & _ & He). cbn [is_resolved]. symmetry.
      apply not_true_is_false. intros Hall.
      apply failures_nil_iff in Hall. rewrite Hall in He. discriminate.
  - intros r Hr. rewrite Hr in Hres. destruct Hres as (e & -> & _). reflexivity.
Qed.

(** X3.  Short circuit.  Under the default strategy, an evaluation of a
    plain field that reaches its rules calls them in evaluation order up
    to and including the first that fails, and none after it; it resolves
    exactly when every rule passes, and otherwise reports the failure of
    that first rule and no other. *)
Theorem sequential_stops_at_first_failure :
  forall (h : host) (f : Field) (s : vstate),
    answered_from_cache (fst (FieldM.getValue h f (wld s))) (self s) = false ->
    skipped h f (fst (FieldM.getValue h f (wld s))) = false ->
    let value := fst (FieldM.getValue h f (wld s)) in
    let passes := rule_passes h (customErrorMessage f) value in
    let r := FieldM.Field_whenValidate h Sample.sequential f s in
    invocations (added (wld s) (wld (snd r)))
    = flat_map (invocation value) (through_first_failure passes (evaluation_order f))
    /\ is_resolved (fst r) = forallb passes (evaluation_order f)
    /\ validationResult (self (snd r))
       = match hd_error (failures h (customErrorMessage f) value (evaluation_order f))
         with
         | Some e => Some (ErrorList [e])
         | None => None
         end.
Proof.
  intros h f s. unfold FieldM.Field_whenValidate.
  pose proof (Field_getValue_log h f (wld s)) as Hlog1.
  destruct (FieldM.getValue h f (wld s)) as [value w1] eqn:Hget.
  cbn [fst snd] in Hlog1 |- *. intros Hc Hsk. cbn zeta.
  rewrite (whenValidate_run _ _ _ _ _ _ _ _ Hget Hc Hsk).
  change FieldM._preValidate with (@ret vstate _ (Resolved tt)).
  rewrite run_rules_sequential.
  destruct (prepared_log h f value s w1 true Hlog1) as (d0 & Hl0 & Hi0).
  destruct (runSequential_rules h (customErrorMessage f) value (evaluation_order f)
              [] (wld (prepared h f value s w1 true)))
    as (d1 & Hl1 & Hi1 & Hres).
  cbn zeta in Hl1, Hi1, Hres.
  fold (Utils.runSequential
          (map (fun c => validateConstraint h (customErrorMessage f) c value)
               (evaluation_order f))) in Hl1, Hres.
  set (run := Utils.runSequential _ _) in *.
  set (s1 := {| self := _; kids := _; wld := snd run |}).
  destruct (on_settled_log f value (fst run) s1) as (d2 & Hl2 & Hi2).
  split; [|split].
  - rewrite (added_app (wld s) _ (d0 ++ d1 ++ d2)).
    + rewrite !invocations_app, Hi0, Hi1, Hi2, app_nil_r. reflexivity.
    + rewrite Hl2. subst s1. cbn [wld]. rewrite Hl1, Hl0, <- !app_assoc.
      reflexivity.
  - rewrite on_settled_verdict.
    + destruct (fst run) as [vs|x].
      * symmetry. apply failures_nil_iff. exact Hres.
      * destruct Hres as (e & _ & He). cbn [is_resolved]. symmetry.
        apply not_true_is_false. intros Hall.
        apply failures_nil_iff in Hall. rewrite Hall in He. discriminate.
    + intros r Hr. rewrite Hr in Hres. destruct Hres as (e & -> & _). reflexivity.
  - rewrite on_settled_validationResult.
    destruct (fst run) as [vs|x].
    + rewrite Hres. reflexivity.
    + destruct Hres as (e & -> & ->). reflexivity.
Qed.

Lemma sequential_stops_at_first_failure_witness :
  invocations
    (added world_init
       (wld (snd (FieldM.Field_whenValidate Sample.host_empty Sample.sequential
                    name_input (vstate_init 0)))))
  = [EvInvoke "required" [VStr ""; VStr ""]].
Proof.
  exact (proj1 (sequential_stops_at_first_failure Sample.host_empty name_input
                  (vstate_init 0) eq_refl eq_refl)).
Defined.

(** The rules of a plain field under the exhaustive strategy. *)
Lemma concurrent_run :
  forall (h : host) (f : Field) (s : vstate),
    answered_from_cache (fst (FieldM.getValue h f (wld s))) (self s) = false ->
    skipped h f (fst (FieldM.getValue h f (wld s))) = false ->
    existsb (rule_throws h (customErrorMessage f) (fst (FieldM.getValue h f (wld s))))
            (evaluation_order f) = false ->
    let value := fst (FieldM.getValue h f (wld s)) in
    let passes := rule_passes h (customErrorMessage f) value in
    let r := FieldM.Field_whenValidate h Sample.concurrent f s in
    invocations (added (wld s) (wld (snd r)))
    = flat_map (invocation value) (evaluation_order f)
    /\ is_resolved (fst r) = forallb passes (evaluation_order f)
    /\ validationResult (self (snd r))
       = match failures h (customErrorMessage f) value (evaluation_order f) with
         | [] => None
         | errors => Some (ErrorList errors)
         end.
Proof.
  intros h f s. unfold FieldM.Field_whenValidate.
  pose proof (Field_getValue_log h f (wld s)) as Hlog1.
  destruct (FieldM.getValue h f (wld s)) as [value w1] eqn:Hget.
  cbn [fst snd] in Hlog1 |- *. intros Hc Hsk Hth. cbn zeta.
  rewrite (whenValidate_run _ _ _ _ _ _ _ _ Hget Hc Hsk).
  change FieldM._preValidate with (@ret vstate _ (Resolved tt)).
  rewrite run_rules_concurrent.
  destruct (prepared_log h f value s w1 true Hlog1) as (d0 & Hl0 & Hi0).
  destruct (start_all_rules h (customErrorMessage f) value (evaluation_order f)
              Hth (wld (prepared h f value s w1 true)))
    as (ps & d1 & Hps & Hl1 & Hi1 & Hrej).
  cbn zeta in Hps, Hl1, Hi1, Hrej.
  destruct (start_all _ _) as [started w2]. cbn [fst snd] in Hps, Hl1. subst started.
  set (s1 := {| self := _; kids := _; wld := w2 |}).
  destruct (on_settled_log f value (Utils.all ps) s1) as (d2 & Hl2 & Hi2).
  assert (Hall : Utils.all ps
                 = match failures h (customErrorMessage f) value (evaluation_order f)
                   with
                   | [] => Utils.all ps
                   | errors => Rejected (ErrorList errors)
                   end
                 /\ (failures h (customErrorMessage f) value (evaluation_order f) = []
                     -> is_resolved (Utils.all ps) = true)).
  { rewrite <- Hrej. unfold Utils.all.
    destruct (flat_map _ ps); split; try reflexivity; discriminate. }
  destruct Hall as [Hall Hnil].
  split; [|split].
  - rewrite (added_app (wld s) _ (d0 ++ d1 ++ d2)).
    + rewrite !invocations_app, Hi0, Hi1, Hi2, app_nil_r. reflexivity.
    + rewrite Hl2. subst s1. cbn [wld]. rewrite Hl1, Hl0, <- !app_assoc.
      reflexivity.
  - rewrite on_settled_verdict by (intros r; apply all_rejects_with_list).
    destruct (failures h (customErrorMessage f) value (evaluation_order f))
      as [|e es] eqn:Hf.
    + rewrite (Hnil eq_refl). symmetry. apply failures_nil_iff. exact Hf.
    + rewrite Hall. cbn [is_resolved]. symmetry.
      apply not_true_is_false. intros Hp.
      apply failures_nil_iff in Hp. rewrite Hp in Hf. discriminate.
  - rewrite on_settled_validationResult.
    destruct (failures h (customErrorMessage f) value (evaluation_order f))
      as [|e es] eqn:Hf.
    + specialize (Hnil eq_refl). destruct (Utils.all ps); [reflexivity|discriminate].
    + rewrite Hall. reflexivity.
Qed.

(** X4.  Exhaustive strategy.  With [stopAtFirstError: false], an
    evaluation of a plain field that reaches its rules, none of which
    throws, calls every rule, in evaluation order, whatever the others
    answer; it resolves exactly when every rule passes, and otherwise
    keeps the failures of all the failing rules as its result. *)
Theorem concurrent_runs_every_rule :
  forall (h : host) (f : Field) (s : vstate),
    answered_from_cache (fst (FieldM.getValue h f (wld s))) (self s) = false ->
    skipped h f (fst (FieldM.getValue h f (wld s))) = false ->
    existsb (rule_throws h (customErrorMessage f) (fst (FieldM.getValue h f (wld s))))
            (evaluation_order f) = false ->
    let value := fst (FieldM.getValue h f (wld s)) in
    let passes := rule_passes h (customErrorMessage f) value in
    let r := FieldM.Field_whenValidate h Sample.concurrent f s in
    invocations (added (wld s) (wld (snd r)))
    = flat_map (invocation value) (evaluation_order f)
    /\ is_resolved (fst r) = forallb passes (evaluation_order f)
    /\ match validationResult (self (snd r)) with
       | Some (ErrorList errors) =>
           errors <> []
           /\ Permutation errors
                (failures h (customErrorMessage f) value (evaluation_order f))
       | Some _ => False
       | None => forallb passes (evaluation_order f) = true
       end.
Proof.
  intros h f s Hc Hsk Hth.
  destruct (concurrent_run h f s Hc Hsk Hth) as (H1 & H2 & H3).
  cbn zeta in *. split; [exact H1|]. split; [exact H2|].
  rewrite H3.
  destruct (failures h (customErrorMessage f) (fst (FieldM.getValue h f (wld s)))
              (evaluation_order f)) as [|e es] eqn:Hf.
  - apply failures_nil_iff. exact Hf.
  - split; [discriminate|apply Permutation_refl].
Qed.

Lemma concurrent_runs_every_rule_witness :
  invocations
    (added world_init
       (wld (snd (FieldM.Field_whenValidate Sample.host_empty Sample.concurrent
                    name_input (vstate_init 0)))))
  = [EvInvoke "required" [VStr ""; VStr ""];
     EvInvoke "minlength" [VStr ""; VStr "3"]].
Proof.
  exact (proj1 (concurrent_runs_every_rule Sample.host_empty name_input
                  (vstate_init 0) eq_refl eq_refl eq_refl)).
Defined.

(* ================================================================== *)
(** ** Empty values *)
(* ================================================================== *)

Lemma trim_start_shape (s : string) :
  (trim_start s = "" /\ all_whitespace s = true)
  \/ (exists c t, trim_start s = String c t /\ is_whitespace c = false
                  /\ all_whitespace s = false).
Proof.
  induction s as [|c s IH]; [left; split; reflexivity|].
  cbn [trim_start all_whitespace].
  destruct (is_whitespace c) eqn:Hc; cbn [andb].
  - exact IH.
  - right. exists c, s. repeat split. exact Hc.
Qed.

Lemma trim_end_cons (c : ascii) (t : string) :
  is_whitespace c = false -> trim_end (String c t) <> "".
Proof.
  intros Hc. cbn [trim_end]. destruct (trim_end t); [rewrite Hc|]; discriminate.
Qed.

(** A string trims to nothing exactly when it is made of whitespace. *)
Lemma trim_empty (s : string) : (trim s =? "") = all_whitespace s.
Proof.
  unfold trim.
  destruct (trim_start_shape s) as [[-> ->]|(c & t & -> & Hc & ->)];
    [reflexivity|].
  apply String.eqb_neq. apply trim_end_cons. exact Hc.
Qed.

Lemma empty_VStr (s : string) : Utils.empty (VStr s) = all_whitespace s.
Proof.
  unfold Utils.empty, Utils.size, Utils.size_truthy. cbn [toString].
  rewrite <- trim_empty.
  destruct (trim s); reflexivity.
Qed.

Lemma all_whitespace_comma (a b : string) :
  all_whitespace (a ++ "," ++ b) = false.
Proof.
  induction a as [|c a IH]; [reflexivity|].
  cbn [append all_whitespace]. cbn [append] in IH. rewrite IH.
  apply andb_false_r.
Qed.

(** The text of an array of two elements or more has a comma. *)
Lemma toString_array_comma (r : nat) (x y : jsval) (l : list jsval) :
  exists a b, toString (VArr r (x :: y :: l)) = (a ++ "," ++ b)%string.
Proof.
  exists (match x with VUndefined | VNull => "" | _ => toString x end).
  destruct x, y; eexists; cbn [toString join_comma]; reflexivity.
Qed.

Lemma empty_array_of_several (r : nat) (x y : jsval) (l : list jsval) :
  Utils.empty (VArr r (x :: y :: l)) = false.
Proof.
  destruct (toString_array_comma r x y l) as (a & b & H).
  unfold Utils.empty. rewrite H.
  change (Utils.empty (VStr (a ++ "," ++ b)) = false).
  rewrite empty_VStr. apply all_whitespace_comma.
Qed.

Lemma mapM_getValue_length (h : host) (fs : list Field) (w : world) :
  List.length (fst (mapM (fun f => FieldM.getValue h f) fs w)) = List.length fs.
Proof.
  revert w. induction fs as [|f fs IH]; intros w; [reflexivity|].
  cbn [mapM]. unfold bind, ret.
  destruct (FieldM.getValue h f w) as [v w1].
  specialize (IH w1).
  destruct (mapM _ fs w1) as [vs w2]. cbn [fst] in IH |- *.
  cbn [List.length]. rewrite IH. reflexivity.
Qed.

(** X5.  The value of a group of two inputs or more that are neither
    checkboxes nor radio buttons is never empty for [Utils.empty], even
    when every input is blank; the value of a group around a single text
    input is empty exactly when that input is blank. *)
Theorem group_value_emptiness :
  forall (h : host) (g : GroupField) (w : world),
    multipleType g = None ->
    (2 <= List.length (fields g) ->
     Utils.empty (fst (GroupFieldM.getValue h g w)) = false)
    /\ (forall f s,
           fields g = [f] -> dom_val h (__id__ f) = DomString s ->
           Utils.empty (fst (GroupFieldM.getValue h g w)) = all_whitespace s).
Proof.
  intros h g w Hty. unfold GroupFieldM.getValue. rewrite Hty. split.
  - intros Hlen. unfold bind, ret, fresh.
    pose proof (mapM_getValue_length h (fields g) w) as Hl.
    destruct (mapM _ (fields g) w) as [vs w1]. cbn [fst] in Hl |- *.
    destruct vs as [|x [|y l]]; cbn [List.length] in Hl; try lia.
    apply empty_array_of_several.
  - intros f s Hf Hd. rewrite Hf. cbn [mapM]. unfold FieldM.getValue.
    rewrite Hd. unfold bind, ret, fresh, jq_val. cbn [fst].
    rewrite <- empty_VStr. reflexivity.
Qed.

Lemma group_value_emptiness_witness :
  Utils.empty (fst (GroupFieldM.getValue Sample.host_empty name_pair world_init))
  = false
  /\ Utils.empty (fst (GroupFieldM.getValue Sample.host_empty contact_group world_init))
     = true.
Proof.
  split.
  - apply (proj1 (group_value_emptiness Sample.host_empty name_pair world_init
                    eq_refl)).
    cbn. lia.
  - exact (proj2 (group_value_emptiness Sample.host_empty contact_group world_init
                    eq_refl) phone_input "" eq_refl eq_refl).
Defined.

(* ================================================================== *)
(** ** Serialized values *)
(* ================================================================== *)

Lemma string_forall_app (p : ascii -> bool) (a b : string) :
  string_forall p (a ++ b) = string_forall p a && string_forall p b.
Proof.
  induction a as [|c a IH]; [reflexivity|].
  cbn [append string_forall]. rewrite IH. apply andb_assoc.
Qed.

Lemma append_nonempty_r (a b : string) : b <> "" -> (a ++ b)%string <> "".
Proof. destruct a; [trivial|discriminate]. Qed.

Lemma trim_end_app (a b : string) :
  trim_end b <> "" -> trim_end (a ++ b) = (a ++ trim_end b)%string.
Proof.
  intros Hb. induction a as [|c a IH]; [reflexivity|].
  cbn [append trim_end]. rewrite IH.
  destruct (a ++ trim_end b)%string eqn:E; [|reflexivity].
  exfalso. apply (append_nonempty_r a (trim_end b) Hb). exact E.
Qed.

Lemma trim_start_length (s : string) :
  String.length (trim_start s) <= String.length s.
Proof.
  induction s as [|c s IH]; [reflexivity|].
  cbn [trim_start]. destruct (is_whitespace c); cbn [String.length]; lia.
Qed.

Lemma trim_end_length (s : string) :
  String.length (trim_end s) <= String.length s.
Proof.
  induction s as [|c s IH]; [reflexivity|].
  cbn [trim_end]. destruct (trim_end s) eqn:E.
  - destruct (is_whitespace c); cbn [String.length]; lia.
  - cbn [String.length] in *. lia.
Qed.

Lemma trim_start_fixed (s : string) :
  String.length (trim_start s) = String.length s -> trim_start s = s.
Proof.
  destruct s as [|c s]; [reflexivity|].
  cbn [trim_start]. destruct (is_whitespace c); [|reflexivity].
  intros H. pose proof (trim_start_length s). cbn [String.length] in H. lia.
Qed.

(** A string that [trim] leaves unchanged has no whitespace at either
    end. *)
Lemma trim_fixed (s : string) :
  trim s = s -> trim_start s = s /\ trim_end s = s.
Proof.
  intros H. unfold trim in H.
  assert (Hs : trim_start s = s).
  { apply trim_start_fixed.
    pose proof (trim_start_length s). pose proof (trim_end_length (trim_start s)).
    rewrite H in H1. lia. }
  rewrite Hs in H. split; assumption.
Qed.

Lemma trim_start_app (a b : string) :
  a <> "" -> trim_start a = a -> trim_start (a ++ b) = (a ++ b)%string.
Proof.
  intros Hne H.
  destruct (trim_start_shape a) as [[E _]|(c & t & E & Hc & _)];
    rewrite H in E; [contradiction|].
  subst a. cbn [append trim_start]. rewrite Hc. reflexivity.
Qed.

Lemma plain_item_spec (s : string) :
  plain_item s = true ->
  s <> "" /\ trim s = s
  /\ includes ","%char s = false
  /\ string_forall (fun c => negb (is_line_terminator c)) s = true.
Proof.
  unfold plain_item. intros H.
  apply andb_true_iff in H as [H H3]. apply andb_true_iff in H as [H1 H2].
  apply negb_true_iff, String.eqb_neq in H1. apply String.eqb_eq in H2.
  repeat split; try assumption.
  - clear H1 H2. induction s as [|c s IH]; [reflexivity|].
    cbn [string_forall includes] in *.
    apply andb_true_iff in H3 as [Hc H3]. apply andb_true_iff in Hc as [Hc _].
    apply negb_true_iff in Hc. rewrite Hc, (IH H3). reflexivity.
  - clear H1 H2. induction s as [|c s IH]; [reflexivity|].
    cbn [string_forall] in *.
    apply andb_true_iff in H3 as [Hc H3]. apply andb_true_iff in Hc as [_ Hc].
    rewrite Hc, (IH H3). reflexivity.
Qed.

Lemma toString_array_of_strings (r : nat) (l : list string) :
  toString (VArr r (map VStr l)) = join_comma l.
Proof.
  cbn [toString]. f_equal.
  induction l as [|x l IH]; [reflexivity|].
  cbn [map]. rewrite IH. reflexivity.
Qed.

Lemma before_closing_bracket_app (m : string) :
  before_closing_bracket (m ++ "]") = Some m.
Proof.
  induction m as [|c m IH]; [reflexivity|].
  cbn [append]. cbn [append] in IH.
  change (before_closing_bracket (String c (m ++ "]")))
    with (match (m ++ "]")%string with
          | EmptyString => if Ascii.eqb c "]"%char then Some EmptyString else None
          | String _ _ =>
              match before_closing_bracket (m ++ "]") with
              | Some middle => Some (String c middle)
              | None => None
              end
          end).
  rewrite IH. destruct m; reflexivity.
Qed.

Lemma split_no_separator (sep : ascii) (s : string) :
  includes sep s = false -> split sep s = [s].
Proof.
  induction s as [|c s IH]; [reflexivity|].
  cbn [includes split]. intros H. apply orb_false_iff in H as [Hc H].
  rewrite Hc, (IH H). reflexivity.
Qed.

Lemma split_app (sep : ascii) (a b : string) :
  includes sep a = false ->
  split sep (a ++ String sep b) = a :: split sep b.
Proof.
  induction a as [|c a IH]; intros H.
  - cbn [append split]. rewrite Ascii.eqb_refl. reflexivity.
  - cbn [includes] in H. apply orb_false_iff in H as [Hc H].
    cbn [append split]. rewrite Hc, (IH H). reflexivity.
Qed.

(** Joining with commas and splitting at the commas. *)
Lemma split_join_comma (x : string) (l : list string) :
  Forall (fun s => includes ","%char s = false) (x :: l) ->
  split ","%char (join_comma (x :: l)) = x :: l.
Proof.
  revert x. induction l as [|y l IH]; intros x H.
  - inversion H; subst. cbn [join_comma]. apply split_no_separator. assumption.
  - inversion H; subst.
    change (join_comma (x :: y :: l)) with (x ++ String ","%char (join_comma (y :: l)))%string.
    rewrite split_app by assumption. rewrite IH by assumption. reflexivity.
Qed.

Lemma join_comma_trimmed (x : string) (l : list string) :
  Forall (fun s => s <> "" /\ trim s = s) (x :: l) ->
  join_comma (x :: l) <> "" /\ trim (join_comma (x :: l)) = join_comma (x :: l).
Proof.
  intros H.
  assert (Hstart : trim_start (join_comma (x :: l)) = join_comma (x :: l)
                   /\ join_comma (x :: l) <> "").
  { inversion H as [|? ? [Hne Ht] _]; subst.
    destruct (trim_fixed x Ht) as [Hs _].
    destruct l as [|y l]; [split; assumption|].
    change (join_comma (x :: y :: l)) with (x ++ "," ++ join_comma (y :: l))%string.
    split; [apply trim_start_app; assumption|].
    destruct x; [contradiction|discriminate]. }
  assert (Hend : trim_end (join_comma (x :: l)) = join_comma (x :: l)).
  { clear Hstart. revert x H. induction l as [|y l IH]; intros x H.
    - inversion H as [|? ? [_ Ht] _]; subst. apply (trim_fixed x Ht).
    - inversion H as [|? ? _ H']; subst.
      change (join_comma (x :: y :: l))
        with (x ++ String ","%char (join_comma (y :: l)))%string.
      change (x ++ String ","%char (join_comma (y :: l)))%string
        with (x ++ ("," ++ join_comma (y :: l)))%string.
      assert (Hj : join_comma (y :: l) <> "").
      { inversion H' as [|? ? [Hne _] _]; subst.
        destruct l; [assumption|].
        change (join_comma (y :: s :: l)) with (y ++ "," ++ join_comma (s :: l))%string.
        destruct y; [contradiction|discriminate]. }
      specialize (IH y H').
      rewrite trim_end_app.
      + rewrite trim_end_app by (rewrite IH; exact Hj). rewrite IH. reflexivity.
      + rewrite trim_end_app by (rewrite IH; exact Hj). rewrite IH. discriminate. }
  destruct Hstart as [Hs Hne]. split; [exact Hne|].
  unfold trim. rewrite Hs. exact Hend.
Qed.

Lemma join_comma_forall (p : ascii -> bool) (l : list string) :
  p ","%char = true ->
  Forall (fun s => string_forall p s = true) l ->
  string_forall p (join_comma l) = true.
Proof.
  intros Hp H. induction H as [|x l Hx Hl IH]; [reflexivity|].
  destruct l as [|y l]; [exact Hx|].
  change (join_comma (x :: y :: l)) with (x ++ String ","%char (join_comma (y :: l)))%string.
  rewrite string_forall_app. cbn [string_forall]. rewrite Hx, Hp, IH. reflexivity.
Qed.

Lemma items_of_join_comma (l : list string) :
  forallb plain_item l = true -> items_of (join_comma l) = l.
Proof.
  intros H. unfold items_of.
  assert (HF : Forall (fun s => plain_item s = true) l).
  { apply Forall_forall. apply forallb_forall. exact H. }
  destruct l as [|x l]; [reflexivity|].
  rewrite split_join_comma.
  - clear H. induction HF as [|y l' Hy _ IH]; [reflexivity|].
    destruct (plain_item_spec y Hy) as (Hne & Ht & _).
    cbn [map filter]. rewrite Ht.
    apply String.eqb_neq in Hne. rewrite Hne. cbn [negb]. rewrite IH. reflexivity.
  - eapply Forall_impl; [|exact HF]. intros s Hs. apply (plain_item_spec s Hs).
Qed.

(** X6.  Round trip.  An array of items that are not empty, have no
    whitespace at either end and hold neither a comma nor a line break
    is serialized to a text that [Utils.deserialize] parses back into an
    array of the same items, in the same order. *)
Theorem deserialize_serialize :
  forall (r : nat) (l : list string) (w : world),
    forallb plain_item l = true ->
    exists text,
      serialize (VArr r (map VStr l)) = VStr text
      /\ fst (deserialize (Some text) w) = VArr (w_next w) (map VStr l).
Proof.
  intros r l w H. eexists. split; [reflexivity|].
  rewrite toString_array_of_strings.
  assert (HF : Forall (fun s => plain_item s = true) l).
  { apply Forall_forall. apply forallb_forall. exact H. }
  set (m := join_comma l).
  assert (Hm : trim m = m
               /\ string_forall (fun c => negb (is_line_terminator c)) m = true).
  { subst m. split.
    - destruct l as [|x l']; [reflexivity|]. apply join_comma_trimmed.
      eapply Forall_impl; [|exact HF]. intros s Hs.
      destruct (plain_item_spec s Hs) as (? & ? & _). split; assumption.
    - apply join_comma_forall; [reflexivity|].
      eapply Forall_impl; [|exact HF]. intros s Hs. apply (plain_item_spec s Hs). }
  destruct Hm as [Htrim Hlines].
  assert (Etrim : trim ("[" ++ m ++ "]") = ("[" ++ m ++ "]")%string).
  { unfold trim.
    change ("[" ++ m ++ "]")%string with (String "["%char (m ++ "]")).
    change (trim_start (String "["%char (m ++ "]")))
      with (String "["%char (m ++ "]")).
    change (String "["%char (m ++ "]")) with (String "["%char m ++ "]")%string.
    rewrite trim_end_app by discriminate. reflexivity. }
  unfold deserialize. rewrite Etrim.
  cbn [append String.eqb includes Ascii.eqb orb array_match].
  cbn -[trim items_of string_forall before_closing_bracket append].
  rewrite before_closing_bracket_app, Htrim, Hlines.
  unfold bind, ret, fresh. cbn [fst]. subst m. rewrite (items_of_join_comma l H).
  reflexivity.
Qed.

Lemma deserialize_serialize_witness :
  exists text,
    serialize (VArr 7 (map VStr ["min"; "max"])) = VStr text
    /\ fst (deserialize (Some text) world_init) = VArr 1 (map VStr ["min"; "max"]).
Proof.
  exact (deserialize_serialize 7 ["min"; "max"] world_init eq_refl).
Defined.

(* ================================================================== *)
(** ** The required rule *)
(* ================================================================== *)

Lemma deserialize_not_false (value : option string) (w : world) :
  strict_eq (VBool false) (fst (deserialize value w)) = false.
Proof.
  unfold deserialize. destruct value as [v|]; [|reflexivity].
  destruct (trim v =? ""); [reflexivity|].
  destruct (includes "["%char (trim v)); [|reflexivity].
  destruct (array_match (trim v)); reflexivity.
Qed.

Lemma required_fails_on_empty (h : host) (Messages : list (string * jsval))
    (cem value : jsval) (c : Constraint) :
  c_validator c = new_StandardValidator Messages "required" (c_requirements c) ->
  Utils.empty value = true ->
  rule_passes h cem value c = false.
Proof.
  intros Hv He. unfold rule_passes, rule_failure, validateConstraint. rewrite Hv.
  unfold new_StandardValidator. cbn [assoc standardValidators String.eqb Ascii.eqb].
  cbn -[Utils.empty js_or getErrorMessage lookup_prop Utils.formatMessage call_args].
  unfold Validator_validate, apply_validateFn. cbn [validateFn].
  unfold_st. cbn [fst snd].
  unfold required_validate.
  assert (Harg : nth 0 (call_args value (c_requirements c)) VUndefined = value).
  { unfold call_args. destruct (c_requirements c); reflexivity. }
  rewrite Harg, He. reflexivity.
Qed.

(** X7.  The value of a [required] attribute cannot switch the rule
    off: whatever the text of the attribute ([required="false"]
    included), the field counts as required, so that a blank value is not
    skipped as optional and, under the default strategy, an evaluation
    that reaches the rules settles invalid. *)
Theorem required_cannot_be_switched_off :
  forall (h : host) (Messages : list (string * jsval)) (f : Field) (c : Constraint)
         (attribute : option string) (w : world) (s : vstate),
    assoc "required" (constraints f) = Some c ->
    c_requirements c = fst (deserialize attribute w) ->
    c_validator c = new_StandardValidator Messages "required" (c_requirements c) ->
    FieldM._isRequired f = true
    /\ (answered_from_cache (fst (FieldM.getValue h f (wld s))) (self s) = false ->
        FieldM.is_checkbox_or_radio (element_type f) = false ->
        should_value h f = true ->
        dom_visible h (__id__ f) = true ->
        Utils.empty (fst (FieldM.getValue h f (wld s))) = true ->
        is_resolved (fst (FieldM.Field_whenValidate h Sample.sequential f s)) = false).
Proof.
  intros h Messages f c attribute w s Hc Hreq Hv.
  assert (Hr : FieldM._isRequired f = true).
  { unfold FieldM._isRequired. rewrite Hc, Hreq, deserialize_not_false. reflexivity. }
  split; [exact Hr|].
  intros Hcache Hck Hsv Hvis Hempty.
  assert (Hsk : skipped h f (fst (FieldM.getValue h f (wld s))) = false).
  { unfold skipped. rewrite Hck, Hsv, Hvis, Hr.
    apply assoc_In in Hc. destruct (constraints f); [contradiction|].
    cbn. apply andb_false_r. }
  rewrite (sequential_verdict h f s Hcache Hsk).
  apply not_true_is_false. intros Hall.
  rewrite forallb_forall in Hall.
  assert (Hin : In c (evaluation_order f)).
  { unfold evaluation_order.
    apply (Permutation_in _ (sort_by_priority_perm _)).
    apply in_map_iff. exists ("required", c). split; [reflexivity|].
    apply assoc_In. exact Hc. }
  specialize (Hall c Hin).
  rewrite (required_fails_on_empty h Messages _ _ c Hv Hempty) in Hall.
  discriminate.
Qed.

Lemma required_cannot_be_switched_off_witness :
  FieldM._isRequired optional_looking_input = true
  /\ is_resolved (fst (FieldM.Field_whenValidate Sample.host_empty Sample.sequential
                         optional_looking_input (vstate_init 0))) = false.
Proof.
  destruct (required_cannot_be_switched_off Sample.host_empty MessagesDefaults
              optional_looking_input
              (Sample.standard "required" (VStr "false"))
              (Some "false") world_init (vstate_init 0)
              eq_refl eq_refl eq_refl) as [H1 H2].
  split; [exact H1|].
  exact (H2 eq_refl eq_refl eq_refl eq_refl eq_refl).
Defined.

(* ================================================================== *)
(** ** Conditions that look like selectors *)
(* ================================================================== *)

(** X8.  A condition written as a name made of a letter followed by
    letters, digits, underscores or dashes is read as a selector, never
    as the name of a global function or as an expression: its value is
    what the page answers for the selector and, when no element matches,
    it is false and a warning is logged, whatever the global scope
    holds under that name. *)
Theorem name_shaped_condition_is_a_selector :
  forall (h : host) (c : ascii) (rest : string) (w : world),
    is_letter c = true ->
    string_forall is_word_or_dash rest = true ->
    (forall h', dom_query h' (String c rest) = dom_query h (String c rest) ->
                FieldM.evaluateConditionValue h' (Some (CondString (String c rest))) w
                = FieldM.evaluateConditionValue h (Some (CondString (String c rest))) w)
    /\ (dom_query h (String c rest) = None ->
        FieldM.evaluateConditionValue h (Some (CondString (String c rest))) w
        = (false,
           {| w_next := w_next w;
              w_log := w_log w ++ [EvWarn "Error evaluating validate-if condition"] |})).
Proof.
  intros h c rest w Hc Hrest.
  assert (Hsel : Utils.isSelector (VStr (String c rest)) = true).
  { unfold Utils.isSelector, selector_regex. rewrite Hc, Hrest.
    cbn [String.eqb negb andb]. apply orb_true_r. }
  unfold FieldM.evaluateConditionValue. rewrite Hsel. split.
  - intros h' ->. reflexivity.
  - intros ->. reflexivity.
Qed.

Lemma name_shaped_condition_is_a_selector_witness :
  window_function host_shouldValidateField "shouldValidateField" = Some (Normal true)
  /\ fst (FieldM.evaluateConditionValue host_shouldValidateField
            (Some (CondString "shouldValidateField")) world_init) = false.
Proof.
  split; [reflexivity|].
  rewrite (proj2 (name_shaped_condition_is_a_selector host_shouldValidateField
                    "s"%char "houldValidateField" world_init eq_refl eq_refl)
                 eq_refl).
  reflexivity.
Defined.

(* ================================================================== *)
(** ** Remote validators: missing URL, answer of the server *)
(* ================================================================== *)

(** X9.  A remote validator for which no URL can be resolved (none in
    its spec, no string requirement, no [url] in the requirement) lets
    every value through: the promise resolves, no request is sent and an
    error is written to the console. *)
Theorem remote_without_url_passes :
  forall (h : host) (v : Validator) (r : Remote) (value requirements cem : jsval)
         (w : world),
    validateFn v = FnRemote r ->
    truthy (resolvedUrl r (nth 1 (call_args value requirements) VUndefined)) = false ->
    Validator_validate h v value requirements cem w
    = (Normal (Resolved (VBool false)),
       {| w_next := w_next w;
          w_log := w_log w
                   ++ [EvInvoke (name v) (call_args value requirements);
                       EvConsoleError
                         "RemoteValidator: no URL resolved from spec or requirement"] |}).
Proof.
  intros h v r value requirements cem w Hfn Hurl.
  unfold Validator_validate. rewrite Hfn.
  unfold apply_validateFn, Remote_validateFn. rewrite Hurl.
  unfold_st. cbn [negb fst snd w_log w_next]. rewrite <- app_assoc. reflexivity.
Qed.

Lemma remote_without_url_passes_witness :
  fst (Validator_validate Sample.host_empty
         (new_RemoteValidator MessagesDefaults "coupon" coupon_spec)
         (VStr "SPRING") (VObj 7 []) VUndefined world_init)
  = Normal (Resolved (VBool false)).
Proof.
  rewrite (remote_without_url_passes Sample.host_empty
             (new_RemoteValidator MessagesDefaults "coupon" coupon_spec)
             {| url := VUndefined; method := "POST"; dataKey := "code";
                isValidFn := defaultIsValidFn |}
             (VStr "SPRING") (VObj 7 []) VUndefined world_init eq_refl eq_refl).
  reflexivity.
Defined.

Lemma reject_with_text (v : Validator) (m : string) (requirements : jsval) :
  _reject v (VStr m) requirements
  = Rejected (ValidationError (name v)
                (Utils.formatMessage (if m =? "" then message v else VStr m)
                   requirements)).
Proof.
  unfold _reject, js_or. cbn [get_prop truthy].
  destruct (m =? ""); reflexivity.
Qed.

(** X10.  When the server answers and [isValidFn] finds the answer
    invalid, the rule fails with a [ValidationError] whose message is the
    [errorMessage] of the answer when it is a non-empty string, and the
    message of the validator otherwise, with the first placeholder filled
    by the requirement; when [isValidFn] finds it valid, the promise
    resolves with the [successMessage] of the answer. *)
Theorem remote_answer_decides :
  forall (h : host) (v : Validator) (r : Remote) (value requirements cem : jsval)
         (w : world) (data : jsval) (textStatus : string) (status : Z) (valid : bool),
    let args := call_args value requirements in
    validateFn v = FnRemote r ->
    truthy (resolvedUrl r (nth 1 args VUndefined)) = true ->
    ajax h (resolvedUrl r (nth 1 args VUndefined)) (method r)
      (remote_data r (nth 0 args VUndefined) (extra (nth 1 args VUndefined)))
    = AjaxDone data textStatus status ->
    isValidFn r data textStatus status = Normal valid ->
    (valid = true ->
     exists o,
       fst (Validator_validate h v value requirements cem w)
       = Normal (Resolved (VObj o [("successMessage", get_prop data "successMessage")])))
    /\ (valid = false ->
        (forall m, get_prop data "errorMessage" = VStr m -> m <> "" ->
                   fst (Validator_validate h v value requirements cem w)
                   = Normal (Rejected
                               (ValidationError (name v)
                                  (Utils.formatMessage (VStr m) requirements))))
        /\ (truthy (get_prop data "errorMessage") = false ->
            forall m, message v = VStr m ->
                      fst (Validator_validate h v value requirements cem w)
                      = Normal (Rejected
                                  (ValidationError (name v)
                                     (Utils.formatMessage (VStr m) requirements))))).
Proof.
  intros h v r value requirements cem w data textStatus status valid args
         Hfn Hurl Hajax Hvalid.
  subst args.
  unfold Validator_validate. rewrite Hfn.
  unfold apply_validateFn, Remote_validateFn. rewrite Hurl.
  unfold_st. cbn [negb fst snd w_log w_next].
  rewrite Hajax, Hvalid. split.
  - intros ->. cbn [fst snd]. eexists. reflexivity.
  - intros ->. cbn [fst snd reason_view]. split.
    + intros m Hm Hne. rewrite Hm. unfold js_or at 1. cbn [truthy].
      apply String.eqb_neq in Hne. rewrite Hne. cbn [negb].
      rewrite reject_with_text, Hne. reflexivity.
    + intros Hfalsy m Hm. unfold js_or at 1. rewrite Hfalsy, Hm.
      rewrite reject_with_text, Hm. destruct (m =? ""); reflexivity.
Qed.

Lemma remote_answer_decides_witness :
  fst (Validator_validate
         (host_server_answers
            (VObj 5 [("ok", VBool false); ("errorMessage", VStr "Already in use.")]))
         (new_RemoteValidator MessagesDefaults "unique" unique_spec)
         (VStr "a@b.com") (VStr "") VUndefined world_init)
  = Normal (Rejected (ValidationError "unique" (VStr "Already in use."))).
Proof.
  destruct (remote_answer_decides
              (host_server_answers
                 (VObj 5 [("ok", VBool false); ("errorMessage", VStr "Already in use.")]))
              (new_RemoteValidator MessagesDefaults "unique" unique_spec)
              {| url := VStr "/unique"; method := "POST"; dataKey := "value";
                 isValidFn := fun data _ _ => Normal (truthy (get_prop data "ok")) |}
              (VStr "a@b.com") (VStr "") VUndefined world_init
              (VObj 5 [("ok", VBool false); ("errorMessage", VStr "Already in use.")])
              "success" 200%Z false eq_refl eq_refl eq_refl eq_refl) as [_ H].
  destruct (H eq_refl) as [H1 _].
  rewrite (H1 "Already in use." eq_refl ltac:(discriminate)).
  reflexivity.
Defined.

(* ================================================================== *)
(** ** Construction: the merge of two attributes *)
(* ================================================================== *)

Lemma assoc_existsb {A : Type} (k : string) (l : list (string * A)) :
  existsb (String.eqb k) (map fst l) = true <-> In k (map fst l).
Proof.
  rewrite existsb_exists. split.
  - intros (z & Hin & Hz). apply String.eqb_eq in Hz. subst. exact Hin.
  - intros H. exists k. split; [exact H|apply String.eqb_refl].
Qed.

Lemma existsb_eqb_In (k : string) (l : list string) :
  existsb (String.eqb k) l = true <-> In k l.
Proof.
  rewrite existsb_exists. split.
  - intros (z & Hin & Hz). apply String.eqb_eq in Hz. subst. exact Hin.
  - intros H. exists k. split; [exact H|apply String.eqb_refl].
Qed.

Lemma lookup_prop_In (k : string) (v : jsval) (l : list (string * jsval)) :
  NoDup (map fst l) -> In (k, v) l -> lookup_prop k l = v.
Proof.
  induction l as [|[k' v'] l IH]; intros Hnd Hin; [contradiction|].
  cbn [map fst] in Hnd. inversion Hnd as [|? ? Hnot Hnd']; subst.
  cbn [lookup_prop]. destruct Hin as [E|Hin].
  - injection E as -> ->. rewrite String.eqb_refl. reflexivity.
  - destruct (k' =? k) eqn:Ek.
    + apply String.eqb_eq in Ek. subst. exfalso. apply Hnot.
      apply in_map_iff. exists (k, v). split; [reflexivity|exact Hin].
    + apply IH; assumption.
Qed.

Lemma assoc_None_not_In {A : Type} (k : string) (l : list (string * A)) :
  assoc k l = None -> ~ In k (map fst l).
Proof.
  induction l as [|[k' v] l IH]; intros H; [intros []|].
  cbn [assoc] in H. destruct (String.eqb_spec k' k) as [->|Hne]; [discriminate|].
  cbn [map fst]. intros [E|Hin]; [contradiction|]. exact (IH H Hin).
Qed.

(** What [addConstraint] changes: the rule of that name, and possibly
    the message of the validator of that name in the registry. *)
Lemma addConstraint_shape (Messages : list (string * jsval))
    (lib : string -> jsval -> completion bool) (b b' : binding) (nm : string)
    (requirements : jsval) (w : world) :
  fst (Build.addConstraint Messages lib b nm requirements w) = Normal b' ->
  exists c,
    b_constraints b' = set_prop nm c (b_constraints b)
    /\ c_name c = nm
    /\ c_requirements c = requirements
    /\ b_domOptions b' = b_domOptions b
    /\ b_usedKeys b' = b_usedKeys b.
Proof.
  unfold Build.addConstraint. unfold bind at 1.
  destruct (Build.Constraint_ Messages lib (b_customValidators b) nm requirements w)
    as [[c|e] w1] eqn:Ec; [|discriminate].
  assert (Hc : c_name c = nm /\ c_requirements c = requirements).
  { unfold Build.Constraint_ in Ec.
    destruct (assoc nm (b_customValidators b)).
    - injection Ec as <- _. split; reflexivity.
    - destruct (ConstraintM.isStandardConstraint nm requirements).
      + unfold bind in Ec.
        destruct (Build.StandardValidator Messages lib nm requirements w)
          as [[v|e] w2]; [|discriminate].
        injection Ec as <- _. split; reflexivity.
      + unfold bind, emit, ret in Ec. injection Ec as <- _. split; reflexivity. }
  destruct Hc as [Hn Hr].
  destruct (lookup_prop (nm ++ "Message") (b_domOptions b)) as [| |bb|text|r l|r p];
    unfold ret; cbn [fst];
    try (intros H; injection H as <-; exists c; repeat split; assumption).
  - destruct (text =? "").
    + intros H; injection H as <-; exists c; repeat split; assumption.
    + destruct (c_validator c) as [v|]; [|discriminate].
      intros H; injection H as <-. eexists. split; [reflexivity|].
      repeat split; assumption.
  - destruct l; [|discriminate].
    intros H; injection H as <-; exists c; repeat split; assumption.
Qed.

Section DualMerge.

Variable Messages : list (string * jsval).
Variable lib : string -> jsval -> completion bool.
Variables x y d : string.
Variable attributes : list (string * jsval).

Hypothesis Hx : assoc x dualValidators = Some (y, d).
Hypothesis Hy : assoc y dualValidators = Some (x, d).
Hypothesis Htable :
  forall n a' d', assoc n dualValidators = Some (a', d') ->
                  d' <> x /\ d' <> y /\ (a' = y -> n = x) /\ (a' = x -> n = y)
                  /\ (d' = d -> n = x \/ n = y).
Hypothesis Hvalid :
  forall reg n req, n = x \/ n = y \/ n = d ->
                    ConstraintM.isValidConstraint reg n req = true.
Hypothesis Hkeys :
  forall w, deserialize (assoc d dual) w
            = (VArr (w_next w) [VStr x; VStr y],
               {| w_next := S (w_next w); w_log := w_log w |}).
Hypothesis Hxy : x <> y.
Hypothesis Hinx : In x (map fst attributes).
Hypothesis Hiny : In y (map fst attributes).
Hypothesis Hnodup : NoDup (map fst attributes).

(** What the loop of [_bindConstraints] keeps true of the two
    attributes and of the rule that merges them. *)
Definition merge_invariant (rest : list (string * jsval)) (b : binding) : Prop :=
  assoc x (b_constraints b) = None
  /\ assoc y (b_constraints b) = None
  /\ (In y (b_usedKeys b) -> ~ In x (map fst rest))
  /\ (In x (b_usedKeys b) -> ~ In y (map fst rest))
  /\ (~ In x (map fst rest) \/ ~ In y (map fst rest) ->
      assoc d (b_constraints b) <> None)
  /\ (assoc d attributes = None ->
      forall c, assoc d (b_constraints b) = Some c ->
                exists r, c_requirements c
                          = VArr r [lookup_prop x attributes; lookup_prop y attributes]).

Lemma merge_step (rest : list (string * jsval)) (entry : string * jsval)
    (b b' : binding) (w : world) :
  (forall e, In e (entry :: rest) -> In e attributes) ->
  NoDup (map fst (entry :: rest)) ->
  merge_invariant (entry :: rest) b ->
  fst (Build.bind_entry Messages lib attributes b entry w) = Normal b' ->
  merge_invariant rest b'.
Proof.
  intros Hsub Hnd (I1 & I2 & I3 & I4 & I5 & I6) Hstep.
  destruct entry as [n req]. cbn [map fst] in *.
  inversion Hnd as [|? ? Hn Hnd']; subst.
  assert (Hreq : lookup_prop n attributes = req).
  { apply lookup_prop_In; [exact Hnodup|]. apply Hsub. left. reflexivity. }
  assert (Hpremise :
            n <> x -> n <> y ->
            ~ In x (map fst rest) \/ ~ In y (map fst rest) ->
            ~ In x (n :: map fst rest) \/ ~ In y (n :: map fst rest)).
  { intros Hnx Hny [H|H]; [left|right]; intros [E|E]; congruence. }
  unfold Build.bind_entry in Hstep. unfold merge_invariant.
  destruct (existsb (String.eqb n) (b_usedKeys b)) eqn:Eused.
  - (* the entry was merged before *)
    cbn [fst ret] in Hstep. injection Hstep as <-.
    apply existsb_eqb_In in Eused.
    repeat split; try assumption.
    + intros H Hin. apply (I3 H). right. exact Hin.
    + intros H Hin. apply (I4 H). right. exact Hin.
    + intros Hp. apply I5.
      destruct (String.eqb_spec n x) as [->|Hnx].
      { right. apply I4. exact Eused. }
      destruct (String.eqb_spec n y) as [->|Hny].
      { left. apply I3. exact Eused. }
      apply Hpremise; assumption.
  - destruct (ConstraintM.isValidConstraint (b_customValidators b) n req) eqn:Evalid.
    + destruct (Build.isDualConstraint (b_usedKeys b) n attributes)
        as [[a' d']|] eqn:Edual.
      * (* the entry is merged with its companion *)
        unfold Build.isDualConstraint in Edual.
        destruct (assoc n dualValidators) as [[a0 d0]|] eqn:En; [|discriminate].
        destruct (existsb (String.eqb a0) (map fst attributes)
                  && negb (existsb (String.eqb a0) (b_usedKeys b))); [|discriminate].
        injection Edual as -> ->.
        destruct (Htable n a' d' En) as (T1 & T2 & T3 & T4 & T5).
        unfold bind at 1 in Hstep.
        destruct (deserialize (assoc d' dual) w) as [keys w1] eqn:Ekeys.
        destruct keys as [| | | |rk keys|]; try discriminate.
        unfold bind at 1, fresh at 1 in Hstep.
        destruct (ConstraintM.isValidConstraint (b_customValidators b) d' _) eqn:Ev2.
        -- unfold bind at 1 in Hstep.
           destruct (Build.addConstraint Messages lib b d' _ _) as [[b1|e] w2] eqn:Eadd;
             [|discriminate].
           cbn [fst ret] in Hstep. injection Hstep as <-.
           destruct (addConstraint_shape Messages lib b b1 d' _ _
                       ltac:(rewrite Eadd; reflexivity))
             as (c & Hcs & Hcn & Hcr & _ & Hused).
           cbn [b_constraints b_usedKeys]. rewrite Hcs, Hused.
           repeat split.
           ++ rewrite assoc_set_prop.
              destruct (String.eqb_spec d' x); [contradiction|exact I1].
           ++ rewrite assoc_set_prop.
              destruct (String.eqb_spec d' y); [contradiction|exact I2].
           ++ intros [E|H] Hin.
              ** specialize (T3 E). subst n. contradiction.
              ** apply (I3 H). right. exact Hin.
           ++ intros [E|H] Hin.
              ** specialize (T4 E). subst n. contradiction.
              ** apply (I4 H). right. exact Hin.
           ++ intros Hp. rewrite assoc_set_prop.
              destruct (String.eqb_spec d' d) as [_|Hd]; [discriminate|].
              apply I5.
              destruct (String.eqb_spec n x) as [->|Hnx].
              { rewrite Hx in En. injection En as _ E. congruence. }
              destruct (String.eqb_spec n y) as [->|Hny].
              { rewrite Hy in En. injection En as _ E. congruence. }
              apply Hpremise; assumption.
           ++ intros Hd c0. rewrite assoc_set_prop.
              destruct (String.eqb_spec d' d) as [->|Hdd].
              ** intros E. injection E as <-. rewrite Hcr.
                 rewrite Hkeys in Ekeys. injection Ekeys as <- <- <-.
                 eexists. cbn [map].
                 destruct (T5 eq_refl) as [-> | ->].
                 --- rewrite Hx in En. injection En as <-.
                     rewrite (proj2 (String.eqb_neq x y) Hxy), !String.eqb_refl.
                     rewrite Hreq. reflexivity.
                 --- rewrite Hy in En. injection En as <-.
                     rewrite (proj2 (String.eqb_neq y x) (not_eq_sym Hxy)),
                       !String.eqb_refl.
                     rewrite Hreq. reflexivity.
              ** apply I6. exact Hd.
        -- cbn [fst ret] in Hstep. injection Hstep as <-.
           assert (Hnxy : n <> x /\ n <> y).
           { split; intros ->.
             - rewrite Hx in En. injection En as _ <-.
               rewrite Hvalid in Ev2 by auto. discriminate.
             - rewrite Hy in En. injection En as _ <-.
               rewrite Hvalid in Ev2 by auto. discriminate. }
           destruct Hnxy as [Hnx Hny].
           repeat split; try assumption.
           ++ intros H Hin. apply (I3 H). right. exact Hin.
           ++ intros H Hin. apply (I4 H). right. exact Hin.
           ++ intros Hp. apply I5. apply Hpremise; assumption.
      * (* the entry makes a rule of its own *)
        assert (Hnxy : n <> x /\ n <> y).
        { unfold Build.isDualConstraint in Edual.
          split; intros ->.
          - rewrite Hx in Edual.
            rewrite (proj2 (assoc_existsb y attributes) Hiny) in Edual.
            destruct (existsb (String.eqb y) (b_usedKeys b)) eqn:Eu; [|discriminate].
            apply existsb_eqb_In in Eu. apply (I3 Eu). left. reflexivity.
          - rewrite Hy in Edual.
            rewrite (proj2 (assoc_existsb x attributes) Hinx) in Edual.
            destruct (existsb (String.eqb x) (b_usedKeys b)) eqn:Eu; [|discriminate].
            apply existsb_eqb_In in Eu. apply (I4 Eu). left. reflexivity. }
        destruct Hnxy as [Hnx Hny].
        destruct (addConstraint_shape Messages lib b b' n req w Hstep)
          as (c & Hcs & Hcn & Hcr & _ & Hused).
        rewrite Hcs, Hused.
        repeat split.
        -- rewrite assoc_set_prop.
           destruct (String.eqb_spec n x); [contradiction|exact I1].
        -- rewrite assoc_set_prop.
           destruct (String.eqb_spec n y); [contradiction|exact I2].
        -- intros H Hin. apply (I3 H). right. exact Hin.
        -- intros H Hin. apply (I4 H). right. exact Hin.
        -- intros Hp. rewrite assoc_set_prop.
           destruct (String.eqb_spec n d); [discriminate|].
           apply I5. apply Hpremise; assumption.
        -- intros Hd c0. rewrite assoc_set_prop.
           destruct (String.eqb_spec n d) as [->|Hnd0].
           ++ exfalso. apply (assoc_None_not_In d attributes Hd).
              apply in_map_iff. exists (d, req). split; [reflexivity|].
              apply Hsub. left. reflexivity.
           ++ apply I6. exact Hd.
    + (* the entry is an option of the field *)
      cbn [fst ret] in Hstep. injection Hstep as <-.
      assert (Hnxy : n <> x /\ n <> y).
      { split; intros ->; rewrite Hvalid in Evalid by auto; discriminate. }
      destruct Hnxy as [Hnx Hny].
      cbn [b_constraints b_usedKeys].
      repeat split; try assumption.
      * intros H Hin. apply (I3 H). right. exact Hin.
      * intros H Hin. apply (I4 H). right. exact Hin.
      * intros Hp. apply I5. apply Hpremise; assumption.
Qed.

Lemma merge_loop (rest : list (string * jsval)) :
  forall (b b' : binding) (w : world),
    (forall e, In e rest -> In e attributes) ->
    NoDup (map fst rest) ->
    merge_invariant rest b ->
    fst (Build.bind_entries Messages lib attributes rest b w) = Normal b' ->
    merge_invariant [] b'.
Proof.
  induction rest as [|entry rest IH]; intros b b' w Hsub Hnd Hinv Hrun.
  - cbn in Hrun. injection Hrun as <-. exact Hinv.
  - cbn [Build.bind_entries] in Hrun. unfold bind at 1 in Hrun.
    destruct (Build.bind_entry Messages lib attributes b entry w) as [[b1|e] w1] eqn:E;
      [|discriminate].
    apply (IH b1 b' w1).
    + intros e He. apply Hsub. right. exact He.
    + cbn [map] in Hnd. inversion Hnd; assumption.
    + apply (merge_step rest entry b b1 w Hsub Hnd Hinv). rewrite E. reflexivity.
    + exact Hrun.
Qed.

Lemma merge_result (customValidators : list (string * Validator)) (b : binding)
    (w : world) :
  fst (Build._bindConstraints Messages lib attributes customValidators w) = Normal b ->
  merge_invariant [] b.
Proof.
  unfold Build._bindConstraints. apply merge_loop.
  - auto.
  - exact Hnodup.
  - unfold merge_invariant. cbn [b_constraints b_usedKeys assoc].
    repeat split; try (intros []; fail); try discriminate.
    intros [H|H]; contradiction.
Qed.

End DualMerge.

Lemma dualValidators_table :
  dualValidators
  = [ ("min", ("max", "range")); ("max", ("min", "range"));
      ("minlength", ("maxlength", "length")); ("maxlength", ("minlength", "length"));
      ("mincheck", ("maxcheck", "check")); ("maxcheck", ("mincheck", "check")) ].
Proof. reflexivity. Qed.

(** X11.  Merge of two attributes.  When a field declares the two
    attributes of a pair ([min] and [max], [minlength] and [maxlength],
    [mincheck] and [maxcheck]), in either order, and its construction
    completes, the field has the rule that merges them ([range],
    [length], [check]) and neither of the two single rules; unless the
    merged rule is also declared as an attribute of its own, its
    requirement is the array of the two values, lower bound first. *)
Theorem dual_attributes_are_merged :
  forall (Messages : list (string * jsval))
         (lib : string -> jsval -> completion bool)
         (attributes : list (string * jsval))
         (customValidators : list (string * Validator))
         (w : world) (b : binding) (d x y : string),
    fst (deserialize (assoc d dual) world_init) = VArr 1 [VStr x; VStr y] ->
    NoDup (map fst attributes) ->
    In x (map fst attributes) ->
    In y (map fst attributes) ->
    fst (Build._bindConstraints Messages lib attributes customValidators w) = Normal b ->
    assoc x (b_constraints b) = None
    /\ assoc y (b_constraints b) = None
    /\ exists c,
         assoc d (b_constraints b) = Some c
         /\ (assoc d attributes = None ->
             exists r, c_requirements c
                       = VArr r [lookup_prop x attributes; lookup_prop y attributes]).
Proof.
  intros Messages lib attributes customValidators w b d x y Hd Hnd Hinx Hiny Hrun.
  assert (Hinv : merge_invariant x y d attributes [] b).
  { destruct (assoc d dual) as [text|] eqn:Et; [|discriminate].
    apply assoc_In in Et. cbn [dual In] in Et.
    destruct Et as [E|[E|[E|[]]]]; injection E as <- <-;
      vm_compute in Hd; injection Hd as <- <-;
      (eapply (merge_result Messages lib _ _ _ attributes);
       [reflexivity
       |reflexivity
       |intros n a' d' H; apply assoc_In in H; rewrite dualValidators_table in H;
        cbn [In] in H;
        repeat (destruct H as [H|H]; [injection H as <- <- <-;
                                      repeat split; try discriminate; auto|]);
        destruct H
       |intros reg n req H; unfold ConstraintM.isValidConstraint;
        destruct (assoc n reg); [reflexivity|];
        destruct H as [-> | [-> | ->]]; reflexivity
       |intros w0; reflexivity
       |discriminate
       |exact Hinx
       |exact Hiny
       |exact Hnd
       |exact Hrun]). }
  destruct Hinv as (I1 & I2 & _ & _ & I5 & I6).
  split; [exact I1|]. split; [exact I2|].
  destruct (assoc d (b_constraints b)) as [c|] eqn:Ec.
  - exists c. split; [reflexivity|]. intros Hnone. exact (I6 Hnone c eq_refl).
  - exfalso. apply I5; [|reflexivity]. left. intros [].
Qed.

Lemma dual_attributes_are_merged_witness :
  exists b c,
    fst (Build._bindConstraints MessagesDefaults (fun _ _ => Normal false)
           [("max", VStr "5"); ("min", VStr "1")] [] world_init) = Normal b
    /\ assoc "min" (b_constraints b) = None
    /\ assoc "max" (b_constraints b) = None
    /\ assoc "range" (b_constraints b) = Some c
    /\ exists r, c_requirements c = VArr r [VStr "1"; VStr "5"].
Proof.
  eexists.
  destruct (dual_attributes_are_merged MessagesDefaults (fun _ _ => Normal false)
              [("max", VStr "5"); ("min", VStr "1")] [] world_init _
              "range" "min" "max" eq_refl
              ltac:(repeat constructor; simpl; intuition discriminate)
              ltac:(simpl; auto) ltac:(simpl; auto) eq_refl)
    as (H1 & H2 & c & H3 & H4).
  exists c. split; [reflexivity|]. split; [exact H1|]. split; [exact H2|].
  split; [exact H3|]. exact (H4 eq_refl).
Defined.

(* ================================================================== *)
(** ** Construction: the check of the requirement *)
(* ================================================================== *)

Lemma deserialize_isStringOrArray (value : option string) (w : world) :
  isStringOrArray (fst (deserialize value w)) = true.
Proof.
  unfold deserialize. destruct value as [v|]; [|reflexivity].
  destruct (trim v =? ""); [reflexivity|].
  destruct (includes "["%char (trim v)); [|reflexivity].
  destruct (array_match (trim v)); reflexivity.
Qed.

(** The constructor of a built-in rule that declares a
    [requirementType]: the validator of the table when the requirement
    fits, an exception otherwise. *)
Lemma StandardValidator_checked (Messages : list (string * jsval))
    (lib : string -> jsval -> completion bool) (nm type : string)
    (requirements : jsval) (w : world) :
  assoc nm requirementType = Some type ->
  exists v,
    new_StandardValidator Messages nm requirements = Some v
    /\ throws (fst (Build.StandardValidator Messages lib nm requirements w))
       = match Build._validateRequirementType lib requirements
                 (fst (deserialize (Some type) w)) with
         | Normal true => false
         | _ => true
         end
    /\ (throws (fst (Build.StandardValidator Messages lib nm requirements w)) = false ->
        fst (Build.StandardValidator Messages lib nm requirements w) = Normal v).
Proof.
  intros Ht. unfold Build.StandardValidator. rewrite Ht.
  assert (Hv : exists v, new_StandardValidator Messages nm requirements = Some v).
  { apply assoc_In in Ht. cbn [requirementType In] in Ht.
    repeat (destruct Ht as [Ht|Ht]; [injection Ht as <- <-; eexists; reflexivity|]).
    destruct Ht. }
  destruct Hv as [v Hv]. exists v. rewrite Hv. split; [reflexivity|].
  unfold bind.
  pose proof (deserialize_isStringOrArray (Some type) w) as Hs.
  destruct (deserialize (Some type) w) as [t w1]. cbn [fst] in Hs |- *.
  rewrite Hs.
  destruct (Build._validateRequirementType lib requirements t) as [[|]|e];
    split; try reflexivity; discriminate.
Qed.

Lemma some_tester_integer (lib : string -> jsval -> completion bool) (r : jsval) :
  Build.some_tester lib (map trim (split "|"%char "integer")) r
  = Normal (integer_regex (toString r)).
Proof.
  assert (H : Build.some_tester lib (map trim (split "|"%char "integer")) r
              = if integer_regex (toString r) then Normal true else Normal false)
    by reflexivity.
  rewrite H. destruct (integer_regex (toString r)); reflexivity.
Qed.

Lemma some_tester_number (lib : string -> jsval -> completion bool) (type : string)
    (r : jsval) :
  type = "number" \/ type = "number|selector" ->
  Build.some_tester lib (map trim (split "|"%char type)) r = Normal true.
Proof. intros [-> | ->]; reflexivity. Qed.

Lemma every_requirement_one (lib : string -> jsval -> completion bool)
    (r : jsval) (type : string) (b : bool) :
  Build.some_tester lib (map trim (split "|"%char type)) r = Normal b ->
  Build.every_requirement lib [r] [VStr type] = Normal b.
Proof.
  intros H. cbn [Build.every_requirement]. rewrite H. destruct b; reflexivity.
Qed.

Lemma validateRequirementType_scalar (lib : string -> jsval -> completion bool)
    (type s : string) (w : world) :
  type = "integer" \/ type = "number" \/ type = "number|selector" ->
  Build._validateRequirementType lib (VStr s) (fst (deserialize (Some type) w))
  = Normal (if type =? "integer" then integer_regex s else negb (s =? "")).
Proof.
  intros H.
  assert (Hd : fst (deserialize (Some type) w) = VStr type).
  { destruct H as [-> | [-> | ->]]; reflexivity. }
  assert (Ht : truthy (VStr type) = true).
  { destruct H as [-> | [-> | ->]]; reflexivity. }
  rewrite Hd. unfold Build._validateRequirementType. rewrite Ht.
  unfold toArray. rewrite Ht. cbn [negb truthy].
  destruct (String.eqb_spec s "") as [->|E].
  - destruct H as [-> | [-> | ->]]; reflexivity.
  - cbn [negb List.length Nat.eqb].
    destruct H as [-> | [-> | ->]].
    + rewrite (every_requirement_one lib (VStr s) "integer" _
                 (some_tester_integer lib (VStr s))).
      reflexivity.
    + rewrite (every_requirement_one lib (VStr s) "number" true
                 (some_tester_number lib _ _ (or_introl eq_refl))).
      reflexivity.
    + rewrite (every_requirement_one lib (VStr s) "number|selector" true
                 (some_tester_number lib _ _ (or_intror eq_refl))).
      reflexivity.
Qed.

Lemma validateRequirementType_pair (lib : string -> jsval -> completion bool)
    (r : nat) (l : list jsval) (w : world) :
  Build._validateRequirementType lib (VArr r l)
    (fst (deserialize (Some "[integer,integer]") w))
  = match l with
    | [x; y] => Normal (integer_regex (toString x) && integer_regex (toString y))
    | _ => Normal false
    end.
Proof.
  assert (Hd : fst (deserialize (Some "[integer,integer]") w)
               = VArr (w_next w) [VStr "integer"; VStr "integer"]) by reflexivity.
  rewrite Hd. unfold Build._validateRequirementType, toArray. cbn [truthy negb].
  destruct l as [|x [|y [|z l]]]; try reflexivity.
  cbn [List.length Nat.eqb negb Build.every_requirement].
  rewrite !some_tester_integer.
  destruct (integer_regex (toString x)); [|reflexivity].
  destruct (integer_regex (toString y)); reflexivity.
Qed.

(** X12.  The constructor of a built-in rule checks the requirement
    against the rule's [requirementType] and throws when it does not fit:
    a rule that asks for an integer ([minlength], [maxlength], [mincheck],
    [maxcheck], [minrequired]) accepts exactly an optional minus sign
    followed by digits; a rule that asks for a number, or for a number or
    a selector ([min], [max], [equalto], [gt], ...), accepts every text
    but the empty one; a rule that asks for two integers ([length],
    [check]) accepts exactly an array of two such texts. *)
Theorem requirement_is_checked_at_construction :
  forall (Messages : list (string * jsval))
         (lib : string -> jsval -> completion bool)
         (nm type : string) (w : world),
    assoc nm requirementType = Some type ->
    (type = "integer" ->
     forall s, throws (fst (Build.StandardValidator Messages lib nm (VStr s) w))
               = negb (integer_regex s))
    /\ (type = "number" \/ type = "number|selector" ->
        forall s, throws (fst (Build.StandardValidator Messages lib nm (VStr s) w))
                  = (s =? ""))
    /\ (type = "[integer,integer]" ->
        forall r l, throws (fst (Build.StandardValidator Messages lib nm (VArr r l) w))
                    = match l with
                      | [x; y] => negb (integer_regex (toString x)
                                        && integer_regex (toString y))
                      | _ => true
                      end).
Proof.
  intros Messages lib nm type w Ht. split; [|split].
  - intros -> s.
    destruct (StandardValidator_checked Messages lib nm _ (VStr s) w Ht)
      as (v & _ & -> & _).
    rewrite validateRequirementType_scalar by auto.
    cbn [String.eqb Ascii.eqb]. destruct (integer_regex s); reflexivity.
  - intros Hty s.
    destruct (StandardValidator_checked Messages lib nm _ (VStr s) w Ht)
      as (v & _ & -> & _).
    rewrite validateRequirementType_scalar by auto.
    destruct Hty as [-> | ->]; cbn [String.eqb Ascii.eqb];
      destruct (s =? ""); reflexivity.
  - intros -> r l.
    destruct (StandardValidator_checked Messages lib nm _ (VArr r l) w Ht)
      as (v & _ & -> & _).
    rewrite (validateRequirementType_pair lib r l w).
    destruct l as [|x [|y [|z l]]]; try reflexivity.
Qed.

Lemma requirement_is_checked_at_construction_witness :
  throws (fst (Build.StandardValidator MessagesDefaults (fun _ _ => Normal false)
                 "minlength" (VStr "three") world_init)) = true
  /\ throws (fst (Build.StandardValidator MessagesDefaults (fun _ _ => Normal false)
                    "minlength" (VStr "3") world_init)) = false.
Proof.
  destruct (requirement_is_checked_at_construction MessagesDefaults
              (fun _ _ => Normal false) "minlength" "integer" world_init eq_refl)
    as [H _].
  split; rewrite (H eq_refl); reflexivity.
Defined.

(* ================================================================== *)
(** ** Construction: message overrides *)
(* ================================================================== *)




Lemma lookup_prop_absent (k : string) (l : list (string * jsval)) :
  ~ In k (map fst l) -> lookup_prop k l = VUndefined.
Proof.
  induction l as [|[k' v] l IH]; intros H; [reflexivity|].
  cbn [map fst] in H. cbn [lookup_prop].
  destruct (String.eqb_spec k' k) as [->|Hne].
  - exfalso. apply H. left. reflexivity.
  - apply IH. intros Hin. apply H. right. exact Hin.
Qed.

Lemma set_prop_keys {A : Type} (k k' : string) (v : A) (l : list (string * A)) :
  In k (map fst (set_prop k' v l)) -> k = k' \/ In k (map fst l).
Proof.
  induction l as [|[k0 v0] l IH]; cbn [set_prop map fst].
  - intros [E|[]]. left. symmetry. exact E.
  - destruct (String.eqb_spec k0 k').
    + cbn [map fst]. intros [E|H]; [left; symmetry; exact E|right; right; exact H].
    + cbn [map fst]. intros [E|H]; [right; left; exact E|].
      destruct (IH H) as [E|H']; [left; exact E|right; right; exact H'].
Qed.

Lemma addConstraint_registry (Messages : list (string * jsval))
    (lib : string -> jsval -> completion bool) (b b' : binding) (nm : string)
    (requirements : jsval) (w : world) :
  fst (Build.addConstraint Messages lib b nm requirements w) = Normal b' ->
  forall k, k <> nm ->
            assoc k (b_customValidators b') = assoc k (b_customValidators b).
Proof.
  unfold Build.addConstraint. unfold bind at 1.
  destruct (Build.Constraint_ Messages lib (b_customValidators b) nm requirements w)
    as [[c|e] w1]; [|discriminate].
  destruct (lookup_prop (nm ++ "Message") (b_domOptions b)) as [| |bb|text|r l|r p];
    unfold ret; cbn [fst];
    try (intros H k _; injection H as <-; reflexivity).
  - destruct (text =? "").
    + intros H k _; injection H as <-; reflexivity.
    + destruct (c_validator c) as [v|]; [|discriminate].
      intros H k Hk; injection H as <-. cbn [b_customValidators].
      destruct (assoc nm (b_customValidators b)); [|reflexivity].
      rewrite assoc_set_prop.
      destruct (String.eqb_spec nm k); [congruence|reflexivity].
  - destruct l; [|discriminate].
    intros H k _; injection H as <-; reflexivity.
Qed.

(** Without an override among the options read so far, [addConstraint]
    stores the rule as [new Constraint] builds it. *)
Lemma addConstraint_plain (Messages : list (string * jsval))
    (lib : string -> jsval -> completion bool) (b b' : binding) (nm : string)
    (requirements : jsval) (w : world) :
  ~ In (nm ++ "Message")%string (map fst (b_domOptions b)) ->
  ConstraintM.isValidConstraint (b_customValidators b) nm requirements = true ->
  fst (Build.addConstraint Messages lib b nm requirements w) = Normal b' ->
  assoc nm (b_constraints b')
  = Some (fst (ConstraintM.new_Constraint Messages (b_customValidators b) nm
                 requirements w)).
Proof.
  intros Hno Hvalid. unfold Build.addConstraint. unfold bind at 1.
  rewrite (lookup_prop_absent _ _ Hno).
  unfold ConstraintM.new_Constraint, ConstraintM._buildValidator.
  unfold ConstraintM.isValidConstraint in Hvalid.
  unfold Build.Constraint_.
  destruct (assoc nm (b_customValidators b)) as [v|].
  - unfold ret, bind. cbn [fst]. intros H. injection H as <-.
    cbn [b_constraints]. rewrite assoc_set_prop, String.eqb_refl. reflexivity.
  - rewrite Hvalid. unfold bind at 1. unfold Build.StandardValidator.
    destruct (new_StandardValidator Messages nm requirements) as [v|];
      [|discriminate].
    unfold bind at 1.
    destruct (deserialize (assoc nm requirementType) w) as [t w1].
    destruct (isStringOrArray t);
      [destruct (Build._validateRequirementType lib requirements t) as [[|]|e]|];
      unfold ret, bind; cbn [fst]; try discriminate;
      intros H; injection H as <-; cbn [b_constraints];
      rewrite assoc_set_prop, String.eqb_refl; reflexivity.
Qed.

Lemma dualValidators_names (n a' d' : string) :
  assoc n dualValidators = Some (a', d') ->
  assoc a' dualValidators <> None /\ assoc d' dual <> None.
Proof.
  intros H. apply assoc_In in H. rewrite dualValidators_table in H.
  cbn [In] in H.
  repeat (destruct H as [H|H]; [injection H as <- <- <-; split; discriminate|]).
  destruct H.
Qed.

Section Override.

Variable Messages : list (string * jsval).
Variable lib : string -> jsval -> completion bool.
Variable attributes : list (string * jsval).
Variable nm : string.

Hypothesis Hnodual : assoc nm dualValidators = None.
Hypothesis Hnomerge : assoc nm dual = None.

(** What binding another attribute leaves as it is. *)
Lemma bind_entry_other (b b' : binding) (n : string) (r : jsval) (w : world) :
  n <> nm ->
  fst (Build.bind_entry Messages lib attributes b (n, r) w) = Normal b' ->
  assoc nm (b_constraints b') = assoc nm (b_constraints b)
  /\ assoc nm (b_customValidators b') = assoc nm (b_customValidators b)
  /\ (In nm (b_usedKeys b') -> In nm (b_usedKeys b))
  /\ (forall k, In k (map fst (b_domOptions b')) ->
                k = n \/ In k (map fst (b_domOptions b))).
Proof.
  intros Hn Hstep. unfold Build.bind_entry in Hstep.
  destruct (existsb (String.eqb n) (b_usedKeys b)).
  { cbn [fst ret] in Hstep. injection Hstep as <-. repeat split; auto. }
  destruct (ConstraintM.isValidConstraint (b_customValidators b) n r).
  - destruct (Build.isDualConstraint (b_usedKeys b) n attributes)
      as [[a' d']|] eqn:Edual.
    + unfold Build.isDualConstraint in Edual.
      destruct (assoc n dualValidators) as [[a0 d0]|] eqn:En; [|discriminate].
      destruct (existsb (String.eqb a0) (map fst attributes)
                && negb (existsb (String.eqb a0) (b_usedKeys b))); [|discriminate].
      injection Edual as -> ->.
      destruct (dualValidators_names n a' d' En) as [Ha Hd].
      assert (Hd' : d' <> nm) by (intros ->; contradiction).
      assert (Ha' : a' <> nm) by (intros ->; contradiction).
      unfold bind at 1 in Hstep.
      destruct (deserialize (assoc d' dual) w) as [keys w1].
      destruct keys as [| | | |rk keys|]; try discriminate.
      unfold bind at 1, fresh at 1 in Hstep.
      destruct (ConstraintM.isValidConstraint (b_customValidators b) d' _).
      * unfold bind at 1 in Hstep.
        destruct (Build.addConstraint Messages lib b d' _ _) as [[b1|e] w2] eqn:Eadd;
          [|discriminate].
        cbn [fst ret] in Hstep. injection Hstep as <-.
        destruct (addConstraint_shape Messages lib b b1 d' _ _
                    ltac:(rewrite Eadd; reflexivity))
          as (c & Hcs & _ & _ & Hdom & Hused).
        pose proof (addConstraint_registry Messages lib b b1 d' _ _
                      ltac:(rewrite Eadd; reflexivity) nm (not_eq_sym Hd')) as Hreg.
        cbn [b_constraints b_usedKeys b_customValidators b_domOptions].
        rewrite Hcs, Hused, Hdom, assoc_set_prop.
        destruct (String.eqb_spec d' nm); [contradiction|].
        repeat split; auto.
        intros [E|H]; [contradiction|exact H].
      * cbn [fst ret] in Hstep. injection Hstep as <-. repeat split; auto.
    + destruct (addConstraint_shape Messages lib b b' n r w Hstep)
        as (c & Hcs & _ & _ & Hdom & Hused).
      pose proof (addConstraint_registry Messages lib b b' n r w Hstep nm
                    (not_eq_sym Hn)) as Hreg.
      rewrite Hcs, Hused, Hdom, assoc_set_prop.
      destruct (String.eqb_spec n nm); [contradiction|].
      repeat split; auto.
  - cbn [fst ret] in Hstep. injection Hstep as <-.
    cbn [b_constraints b_usedKeys b_customValidators b_domOptions].
    repeat split; auto.
    intros k Hk. apply set_prop_keys in Hk. exact Hk.
Qed.

Lemma bind_entries_other (entries : list (string * jsval)) :
  forall (b b' : binding) (w : world),
    ~ In nm (map fst entries) ->
    fst (Build.bind_entries Messages lib attributes entries b w) = Normal b' ->
    assoc nm (b_constraints b') = assoc nm (b_constraints b)
    /\ assoc nm (b_customValidators b') = assoc nm (b_customValidators b)
    /\ (In nm (b_usedKeys b') -> In nm (b_usedKeys b))
    /\ (forall k, In k (map fst (b_domOptions b')) ->
                  In k (map fst entries) \/ In k (map fst (b_domOptions b))).
Proof.
  induction entries as [|[n r] entries IH]; intros b b' w Hnot Hrun.
  - cbn in Hrun. injection Hrun as <-. repeat split; auto.
  - cbn [Build.bind_entries] in Hrun. unfold bind at 1 in Hrun.
    destruct (Build.bind_entry Messages lib attributes b (n, r) w) as [[b1|e] w1] eqn:E;
      [|discriminate].
    cbn [map fst] in Hnot.
    destruct (bind_entry_other b b1 n r w) as (H1 & H2 & H3 & H4).
    { intros ->. apply Hnot. left. reflexivity. }
    { rewrite E. reflexivity. }
    destruct (IH b1 b' w1) as (J1 & J2 & J3 & J4).
    { intros H. apply Hnot. right. exact H. }
    { exact Hrun. }
    rewrite J1, J2, H1, H2. repeat split; auto.
    intros k Hk. cbn [map fst]. destruct (J4 k Hk) as [Hin|Hin].
    + left. right. exact Hin.
    + destruct (H4 k Hin) as [->|Hin']; [left; left; reflexivity|right; exact Hin'].
Qed.

End Override.
Lemma new_Constraint_fst (Messages : list (string * jsval))
    (reg reg' : list (string * Validator)) (nm : string) (req : jsval) (w w' : world) :
  assoc nm reg' = assoc nm reg ->
  fst (ConstraintM.new_Constraint Messages reg' nm req w')
  = fst (ConstraintM.new_Constraint Messages reg nm req w).
Proof.
  intros H. unfold ConstraintM.new_Constraint, ConstraintM._buildValidator.
  rewrite H. destruct (assoc nm reg); [reflexivity|].
  destruct (ConstraintM.isStandardConstraint nm req); reflexivity.
Qed.

(** X14.  An override takes effect only when it is read before its
    rule.  The entries of the attributes are bound in order, and the
    message [<rule>Message] is looked up among the options bound so far:
    when no entry before the rule carries it, the rule is stored as
    [new Constraint] builds it, with the message of its validator, even
    if an entry after the rule declares an override.  (The rule is one
    that is not merged with, or out of, other attributes.) *)
Theorem message_override_must_precede_its_rule :
  forall (Messages : list (string * jsval))
         (lib : string -> jsval -> completion bool)
         (pre post : list (string * jsval)) (nm : string) (req : jsval)
         (customValidators : list (string * Validator)) (w : world) (b : binding),
    NoDup (map fst (pre ++ (nm, req) :: post)) ->
    ~ In (nm ++ "Message")%string (map fst pre) ->
    assoc nm dualValidators = None ->
    assoc nm dual = None ->
    ConstraintM.isValidConstraint customValidators nm req = true ->
    fst (Build._bindConstraints Messages lib (pre ++ (nm, req) :: post)
           customValidators w) = Normal b ->
    assoc nm (b_constraints b)
    = Some (fst (ConstraintM.new_Constraint Messages customValidators nm req
                   world_init)).
Proof.
  intros Messages lib pre post nm req customValidators w b
         Hnd Hno Hnodual Hnomerge Hvalid Hrun.
  set (attributes := pre ++ (nm, req) :: post) in *.
  assert (Hpre : ~ In nm (map fst pre) /\ ~ In nm (map fst post)).
  { subst attributes. rewrite map_app in Hnd. cbn [map fst] in Hnd.
    apply NoDup_remove_2 in Hnd. split; intros H; apply Hnd; apply in_or_app; auto. }
  destruct Hpre as [Hpre Hpost].
  unfold Build._bindConstraints in Hrun.
  assert (Hsplit :
    forall entries1 entries2 b0 w0,
      fst (Build.bind_entries Messages lib attributes (entries1 ++ entries2) b0 w0)
      = Normal b ->
      exists b1 w1,
        fst (Build.bind_entries Messages lib attributes entries1 b0 w0) = Normal b1
        /\ snd (Build.bind_entries Messages lib attributes entries1 b0 w0) = w1
        /\ fst (Build.bind_entries Messages lib attributes entries2 b1 w1) = Normal b).
  { induction entries1 as [|e1 entries1 IH]; intros entries2 b0 w0 H.
    - exists b0, w0. repeat split. exact H.
    - cbn [app Build.bind_entries] in H |- *. unfold bind at 1 in H.
      unfold bind at 1. unfold bind at 1.
      destruct (Build.bind_entry Messages lib attributes b0 e1 w0) as [[b1|e] w1];
        [|discriminate].
      exact (IH entries2 b1 w1 H). }
  subst attributes.
  destruct (Hsplit pre ((nm, req) :: post) _ _ Hrun) as (b1 & w1 & Hrun1 & _ & Hrun2).
  destruct (bind_entries_other Messages lib _ nm Hnodual Hnomerge pre _ b1 w Hpre Hrun1)
    as (_ & Hreg & Hused & Hdom).
  cbn [b_customValidators b_usedKeys b_domOptions map] in Hreg, Hused, Hdom.
  cbn [Build.bind_entries] in Hrun2. unfold bind at 1 in Hrun2.
  destruct (Build.bind_entry Messages lib _ b1 (nm, req) w1) as [[b2|e] w2] eqn:Estep;
    [|discriminate].
  destruct (bind_entries_other Messages lib _ nm Hnodual Hnomerge post b2 b w2
              Hpost Hrun2) as (Hcs & _).
  rewrite Hcs.
  assert (Hvalid1 : ConstraintM.isValidConstraint (b_customValidators b1) nm req = true).
  { unfold ConstraintM.isValidConstraint in *. rewrite Hreg. exact Hvalid. }
  unfold Build.bind_entry in Estep.
  destruct (existsb (String.eqb nm) (b_usedKeys b1)) eqn:Eu.
  { apply existsb_eqb_In in Eu. destruct (Hused Eu). }
  rewrite Hvalid1 in Estep.
  unfold Build.isDualConstraint in Estep. rewrite Hnodual in Estep.
  rewrite (addConstraint_plain Messages lib b1 b2 nm req w1).
  - f_equal. apply new_Constraint_fst. exact Hreg.
  - intros Hin. destruct (Hdom _ Hin) as [H|[]]. exact (Hno H).
  - exact Hvalid1.
  - rewrite Estep. reflexivity.
Qed.

Lemma message_override_must_precede_its_rule_witness :
  exists b,
    fst (Build._bindConstraints MessagesDefaults (fun _ _ => Normal false)
           [("required", VStr ""); ("requiredMessage", VStr "Tell us your name.")]
           [] world_init) = Normal b
    /\ option_map (fun c => option_map message (c_validator c))
         (assoc "required" (b_constraints b))
       = Some (Some (VStr "This value is required.")).
Proof.
  eexists. split; [reflexivity|].
  rewrite (message_override_must_precede_its_rule MessagesDefaults
             (fun _ _ => Normal false) []
             [("requiredMessage", VStr "Tell us your name.")]
             "required" (VStr "") [] world_init _
             ltac:(repeat constructor; simpl; intuition discriminate)
             ltac:(simpl; tauto) eq_refl eq_refl eq_refl eq_refl).
  reflexivity.
Defined.

(* ================================================================== *)
(** ** The flags of a field *)
(* ================================================================== *)

Lemma runSequential_rejects_nonempty {S A : Type}
    (items : list (ST S (completion (promise A))))
    (results : list A) (errors : list reason) (s : S) (r : reason) :
  fst (Utils.runSequential_next items results errors s) = Rejected r ->
  exists e es, r = ErrorList (e :: es).
Proof.
  revert results errors s. induction items as [|it items IH]; intros results errors s.
  - cbn. destruct errors as [|e es]; cbn; [discriminate|].
    intros H. injection H as <-. eauto.
  - cbn [Utils.runSequential_next]. unfold bind.
    destruct (it s) as [[[v|e]|e] s1].
    + apply IH.
    + cbn. intros H. injection H as <-.
      destruct errors; cbn; eauto.
    + cbn. intros H. injection H as <-.
      destruct errors; cbn; eauto.
Qed.

Lemma all_rejects_nonempty {A : Type} (ps : list (promise A)) (r : reason) :
  Utils.all ps = Rejected r -> exists e es, r = ErrorList (e :: es).
Proof.
  unfold Utils.all. destruct (flat_map _ ps) as [|e es]; [discriminate|].
  intros H. injection H as <-. eauto.
Qed.

Lemma on_settled_flags (f : Field) (value : jsval) (p : promise (list jsval))
    (s : vstate) :
  (forall r, p = Rejected r -> exists e es, r = ErrorList (e :: es)) ->
  flags_consistent (snd (FieldM.on_settled f value p s)).
Proof.
  intros Hp. unfold flags_consistent.
  unfold FieldM.on_settled, FieldM._handleUI, FieldM._trigger. unfold_st.
  destruct s as [st ks [n lg]].
  destruct p as [l|r].
  - cbn. split; [reflexivity|discriminate].
  - destruct (Hp r eq_refl) as (e & es & ->). cbn.
    split; [discriminate|]. intros _. split; [apply orb_true_r|reflexivity].
Qed.

Lemma resolveAsValid_flags (f : Field) (value : jsval) (s : vstate) :
  flags_consistent s ->
  flags_consistent (snd (FieldM.resolveAsValid f value false s)).
Proof.
  unfold flags_consistent, FieldM.resolveAsValid, FieldM._handleUI. unfold_st.
  destruct s as [st ks [n lg]]. cbn [self].
  intros [H1 H2].
  destruct (_lastValidationState st) as [[|]|]; cbn;
    (split; [reflexivity|discriminate]).
Qed.

Lemma prepared_flags (h : host) (f : Field) (value : jsval) (s : vstate)
    (w1 : world) (b : bool) :
  flags_consistent s -> flags_consistent (prepared h f value s w1 b).
Proof. unfold flags_consistent, prepared. cbn. trivial. Qed.

Lemma whenValidate_flags (h : host) (o : Options) (f : Field) (s : vstate) :
  flags_consistent s ->
  flags_consistent (snd (FieldM.Field_whenValidate h o f s)).
Proof.
  intros Hs. unfold FieldM.Field_whenValidate.
  destruct (FieldM.getValue h f (wld s)) as [value w1] eqn:Hget.
  destruct (answered_from_cache value (self s)) eqn:Hc.
  - rewrite (whenValidate_cached _ _ _ _ _ _ _ _ Hget Hc). exact Hs.
  - destruct (skipped h f value) eqn:Hsk.
    + rewrite (whenValidate_skipped _ _ _ _ _ _ _ _ Hget Hc Hsk).
      apply resolveAsValid_flags, prepared_flags, Hs.
    + rewrite (whenValidate_run _ _ _ _ _ _ _ _ Hget Hc Hsk).
      change FieldM._preValidate with (@ret vstate _ (Resolved tt)).
      pose proof (prepared_flags h f value s w1 true Hs) as Hp.
      destruct o as [[|]].
      * change {| stopAtFirstError := true |} with Sample.sequential.
        rewrite run_rules_sequential. apply on_settled_flags.
        intros r Hr. unfold Utils.runSequential in Hr.
        eapply runSequential_rejects_nonempty. exact Hr.
      * change {| stopAtFirstError := false |} with Sample.concurrent.
        rewrite run_rules_concurrent.
        destruct (start_all _ _) as [[ps|e] w2].
        -- apply on_settled_flags. intros r. apply all_rejects_nonempty.
        -- exact Hp.
Qed.

(** X15.  Whatever the pages a plain field is evaluated on, the
    strategy, and the resets in between, its flags stay consistent: when
    it shows as valid its cached state is valid, and when its cached
    state is invalid it shows as invalid and has recorded a first
    failure. *)
Theorem flags_stay_consistent :
  forall (f : Field) (s : vstate), reachable f s -> flags_consistent s.
Proof.
  intros f s H. induction H as [w|h o s _ IH|s _ IH].
  - split; discriminate.
  - apply whenValidate_flags. exact IH.
  - split; discriminate.
Qed.

Lemma flags_stay_consistent_witness :
  _lastValidationState (self nickname_after_failure) = Some false
  /\ _failedOnce (self nickname_after_failure) = true
  /\ _isValid (self nickname_after_failure) = false.
Proof.
  split; [reflexivity|].
  apply (flags_stay_consistent nickname nickname_after_failure).
  - exact (reach_evaluated nickname (Sample.host_typed "ab") Sample.sequential _
             (reach_built nickname world_init)).
  - reflexivity.
Defined.

(* ================================================================== *)
(** ** The registry of validators *)
(* ================================================================== *)




(* ================================================================== *)
(** ** Messages with several placeholders *)
(* ================================================================== *)

Lemma string_app_assoc (a b c : string) :
  ((a ++ b) ++ c)%string = (a ++ b ++ c)%string.
Proof.
  induction a as [|x a IH]; [reflexivity|]. cbn [append]. rewrite IH. reflexivity.
Qed.

Lemma is_inert_spec (s : string) :
  string_forall is_inert s = true ->
  find_pct_s s = None
  /\ (forall b', s <> (b' ++ "%")%string)
  /\ string_forall (fun c => negb (Ascii.eqb c "$"%char)) s = true.
Proof.
  intros H. split; [|split].
  - induction s as [|c s IH]; [reflexivity|].
    cbn [string_forall] in H. apply andb_true_iff in H as [Hc H].
    destruct s as [|d s]; [reflexivity|].
    rewrite find_pct_s_unfold, (IH H).
    unfold is_inert in Hc. apply andb_true_iff in Hc as [Hc _].
    apply negb_true_iff in Hc. rewrite Hc. reflexivity.
  - induction s as [|c s IH]; intros b' E.
    + destruct b'; discriminate.
    + cbn [string_forall] in H. apply andb_true_iff in H as [Hc H].
      destruct b' as [|c' b'].
      * cbn in E. injection E as -> _. discriminate.
      * cbn [append] in E. injection E as _ E. exact (IH H b' E).
  - induction s as [|c s IH]; [reflexivity|].
    cbn [string_forall] in *. apply andb_true_iff in H as [Hc H].
    unfold is_inert in Hc. apply andb_true_iff in Hc as [_ Hc].
    rewrite Hc, (IH H). reflexivity.
Qed.

Lemma replace_inert (p r rest : string) :
  string_forall is_inert p = true ->
  string_forall is_inert r = true ->
  replace_pct_s (p ++ "%s" ++ rest) r = (p ++ r ++ rest)%string.
Proof.
  intros Hp Hr.
  destruct (is_inert_spec p Hp) as (H1 & H2 & _).
  destruct (is_inert_spec r Hr) as (_ & _ & H3).
  apply replace_pct_s_first; assumption.
Qed.

Lemma template_nonempty (p : string) (pieces : list string) (last : string) :
  (template (p :: pieces) last =? "") = false.
Proof.
  cbn [template]. destruct p; reflexivity.
Qed.

(** The loop of [formatMessage] over an array of texts. *)
Lemma formatMessage_fill (r : nat) (fills : list string) :
  forall (prefix : string) (pieces : list string) (last : string),
    string_forall is_inert prefix = true ->
    Forall (fun p => string_forall is_inert p = true) pieces ->
    Forall (fun x => string_forall is_inert x = true) fills ->
    List.length fills <= List.length pieces ->
    pieces <> [] ->
    (fix each (l : list jsval) (str : jsval) {struct l} : jsval :=
       match l with
       | [] => str
       | p :: l' => each l' (Utils.formatMessage str p)
       end) (map VStr fills) (VStr (prefix ++ template pieces last))
    = VStr (prefix ++ filled pieces fills last).
Proof.
  induction fills as [|x fills IH]; intros prefix pieces last Hpre Hp Hf Hlen Hne.
  - cbn [map]. destruct pieces; reflexivity.
  - destruct pieces as [|p pieces]; [contradiction|].
    inversion Hp as [|? ? Hp1 Hp2]; subst. inversion Hf as [|? ? Hx Hf2]; subst.
    cbn [map filled template].
    assert (Hstep : Utils.formatMessage (VStr (prefix ++ p ++ "%s" ++ template pieces last))
                      (VStr x)
                    = VStr ((prefix ++ p ++ x) ++ template pieces last)).
    { rewrite formatMessage_scalar.
      - f_equal.
        replace (prefix ++ p ++ "%s" ++ template pieces last)%string
          with ((prefix ++ p) ++ "%s" ++ template pieces last)%string.
        + rewrite replace_inert.
          * rewrite !string_app_assoc. reflexivity.
          * rewrite string_forall_app, Hpre, Hp1. reflexivity.
          * exact Hx.
        + rewrite !string_app_assoc. reflexivity.
      - destruct prefix; [destruct p|]; discriminate. }
    rewrite Hstep.
    destruct pieces as [|p' pieces].
    + cbn [List.length] in Hlen. destruct fills; [|cbn in Hlen; lia].
      cbn [map filled template]. rewrite !string_app_assoc. reflexivity.
    + rewrite IH.
      * rewrite !string_app_assoc. reflexivity.
      * rewrite !string_forall_app, Hpre, Hp1, Hx. reflexivity.
      * exact Hp2.
      * exact Hf2.
      * cbn [List.length] in Hlen |- *. lia.
      * discriminate.
Qed.

(** X18.  Placeholders are filled from left to right.  For a template
    whose pieces before the placeholders hold no percent and no dollar
    sign, and an array of requirements that hold none either,
    [formatMessage] replaces the first placeholders by the requirements,
    in order, and leaves the rest of the template as it is. *)
Theorem formatMessage_fills_in_order :
  forall (r : nat) (pieces fills : list string) (last : string),
    Forall (fun p => string_forall is_inert p = true) pieces ->
    Forall (fun x => string_forall is_inert x = true) fills ->
    List.length fills <= List.length pieces ->
    pieces <> [] ->
    Utils.formatMessage (VStr (template pieces last)) (VArr r (map VStr fills))
    = VStr (filled pieces fills last).
Proof.
  intros r pieces fills last Hp Hf Hlen Hne.
  destruct pieces as [|p pieces]; [contradiction|].
  unfold Utils.formatMessage. cbn [truthy]. rewrite template_nonempty. cbn [negb].
  exact (formatMessage_fill r fills "" (p :: pieces) last eq_refl Hp Hf Hlen Hne).
Qed.

Lemma formatMessage_fills_in_order_witness :
  Utils.formatMessage (VStr "This value should be between %s and %s.")
    (VArr 4 [VStr "1"; VStr "5"])
  = VStr "This value should be between 1 and 5.".
Proof.
  exact (formatMessage_fills_in_order 4
           ["This value should be between "; " and "] ["1"; "5"] "."
           ltac:(repeat constructor) ltac:(repeat constructor)
           ltac:(simpl; lia) ltac:(discriminate)).
Defined.

(* ================================================================== *)
(** ** A child tells its group *)
(* ================================================================== *)

(** The evaluation of a group one of whose children is known to be
    invalid: no rule is called, the children are left as they are, and
    the state of the group is unchanged or valid. *)
Lemma group_with_invalid_child (h : host) (o : Options) (g : GroupField)
    (s : vstate) :
  fields g <> [] ->
  has_invalid_child g s = true ->
  let r := GroupFieldM.GroupField_whenValidate h o g s in
  invocations (added (wld s) (wld (snd r))) = []
  /\ kids (snd r) = kids s
  /\ (_lastValidationState (self (snd r)) = _lastValidationState (self s)
      \/ _lastValidationState (self (snd r)) = Some true).
Proof.
  intros Hf Hinv. cbn zeta. unfold GroupFieldM.GroupField_whenValidate.
  pose proof (GroupField_getValue_log h g (wld s)) as Hlog.
  destruct (GroupFieldM.getValue h g (wld s)) as [value w1] eqn:Hget.
  cbn [snd] in Hlog.
  destruct (answered_from_cache value (self s)) eqn:Hc.
  - rewrite (whenValidate_cached _ _ _ _ _ _ _ _ Hget Hc). cbn [snd wld self kids].
    split; [|split; [reflexivity|left; reflexivity]].
    rewrite (added_app (wld s) w1 []); [reflexivity|].
    rewrite app_nil_r. exact Hlog.
  - destruct (skipped h (base g) value) eqn:Hsk.
    + rewrite (whenValidate_skipped _ _ _ _ _ _ _ _ Hget Hc Hsk).
      set (b := negb (FieldM.is_checkbox_or_radio (element_type (base g)))).
      destruct (resolveAsValid_spec (base g) value (prepared h (base g) value s w1 b))
        as (_ & Hst & _ & Hk & d & Hd & Hi & _).
      destruct (prepared_log h (base g) value s w1 b Hlog) as (d0 & Hd0 & Hi0).
      split; [|split; [exact Hk|right; exact Hst]].
      rewrite (added_app (wld s) _ (d0 ++ d)).
      * rewrite invocations_app, Hi0, Hi. reflexivity.
      * rewrite Hd, Hd0, app_assoc. reflexivity.
    + rewrite (whenValidate_run _ _ _ _ _ _ _ _ Hget Hc Hsk).
      rewrite run_rules_after_hook.
      rewrite preValidate_known_invalid; [|exact Hf|].
      * destruct (prepared_log h (base g) value s w1 true Hlog) as (d0 & Hd0 & Hi0).
        cbn [snd].
        split; [|split; [reflexivity|left; reflexivity]].
        rewrite (added_app (wld s) _ d0); [exact Hi0|exact Hd0].
      * rewrite (has_invalid_child_kids g s); [exact Hinv|reflexivity].
Qed.

Lemma queueValidateFromChild_eq (h : host) (o : Options) (g : GroupField)
    (s : vstate) :
  GroupNotifyM.queueValidateFromChild h o g s
  = match _lastValidationState (self s) with
    | Some false =>
        if has_invalid_child g s
        then (tt, {| self := _neutralizeUI (self s); kids := kids s; wld := wld s |})
        else (tt, snd (GroupFieldM.GroupField_whenValidate h o g s))
    | _ => (tt, snd (GroupFieldM.GroupField_whenValidate h o g s))
    end.
Proof.
  unfold GroupNotifyM.queueValidateFromChild, has_invalid_child.
  unfold bind, get_self, ret, modify_self.
  destruct (_lastValidationState (self s)) as [[|]|];
    try destruct (existsb _ _);
    try destruct (GroupFieldM.GroupField_whenValidate h o g s); reflexivity.
Qed.

(** X19.  When a child tells its group that it was evaluated while
    some child of the group is known to be invalid, the group is never
    left in the invalid state: if it was invalid its state and its
    display are cleared, and otherwise its evaluation stops at the gate.
    No rule of the group is called and the children are left as they
    are. *)
Theorem notified_group_is_not_left_invalid :
  forall (h : host) (o : Options) (g : GroupField) (s : vstate),
    fields g <> [] ->
    has_invalid_child g s = true ->
    let s' := snd (GroupNotifyM.queueValidateFromChild h o g s) in
    _lastValidationState (self s') <> Some false
    /\ (_lastValidationState (self s) = Some false ->
        self s' = _neutralizeUI (self s) /\ wld s' = wld s)
    /\ invocations (added (wld s) (wld s')) = []
    /\ kids s' = kids s.
Proof.
  intros h o g s Hf Hinv. cbn zeta.
  rewrite queueValidateFromChild_eq, Hinv.
  destruct (group_with_invalid_child h o g s Hf Hinv) as (H1 & H2 & H3).
  cbn zeta in *.
  destruct (_lastValidationState (self s)) as [[|]|] eqn:Est; cbn [snd].
  - split; [|split; [discriminate|split; assumption]].
    destruct H3 as [-> | ->]; discriminate.
  - cbn [self wld kids _neutralizeUI _lastValidationState].
    split; [discriminate|]. split; [intros _; split; reflexivity|].
    split; [|reflexivity].
    rewrite (added_app (wld s) (wld s) []); [reflexivity|].
    rewrite app_nil_r. reflexivity.
  - split; [|split; [discriminate|split; assumption]].
    destruct H3 as [-> | ->]; discriminate.
Qed.

Lemma notified_group_is_not_left_invalid_witness :
  invocations
    (added (wld names_after_first_failed)
       (wld (snd (GroupNotifyM.queueValidateFromChild host_last_typed
                    Sample.sequential name_pair names_after_first_failed)))) = []
  /\ kids (snd (GroupNotifyM.queueValidateFromChild host_last_typed
                  Sample.sequential name_pair names_after_first_failed))
     = kids names_after_first_failed.
Proof.
  exact (proj2 (proj2 (notified_group_is_not_left_invalid host_last_typed
                         Sample.sequential name_pair names_after_first_failed
                         ltac:(discriminate) eq_refl))).
Defined.

(* ================================================================== *)
(** ** Fields that are never validated *)
(* ================================================================== *)

Lemma never_validated_skipped (h : host) (f : Field) (value : jsval) :
  never_validated f = true -> skipped h f value = true.
Proof.
  unfold never_validated, skipped. intros H.
  apply orb_true_iff in H as [-> | ->]; [reflexivity|].
  rewrite !orb_true_r. reflexivity.
Qed.

Lemma never_validated_step (h : host) (o : Options) (f : Field) (s : vstate) :
  never_validated f = true ->
  _lastValidationState (self s) <> Some false ->
  is_resolved (fst (FieldM.Field_whenValidate h o f s)) = true
  /\ invocations (added (wld s) (wld (snd (FieldM.Field_whenValidate h o f s)))) = []
  /\ _lastValidationState (self (snd (FieldM.Field_whenValidate h o f s)))
     <> Some false.
Proof.
  intros Hn Hs. unfold FieldM.Field_whenValidate.
  pose proof (Field_getValue_log h f (wld s)) as Hlog.
  destruct (FieldM.getValue h f (wld s)) as [value w1] eqn:Hget. cbn [snd] in Hlog.
  destruct (answered_from_cache value (self s)) eqn:Hc.
  - rewrite (whenValidate_cached _ _ _ _ _ _ _ _ Hget Hc). cbn [fst snd self wld].
    unfold answered_from_cache in Hc. apply andb_true_iff in Hc as [_ Hc].
    destruct (_lastValidationState (self s)) as [[|]|]; try discriminate;
      try contradiction.
    split; [reflexivity|]. split; [|discriminate].
    rewrite (added_app (wld s) w1 []); [reflexivity|].
    rewrite app_nil_r. exact Hlog.
  - rewrite (whenValidate_skipped _ _ _ _ _ _ _ _ Hget Hc
               (never_validated_skipped h f value Hn)).
    set (b := negb (FieldM.is_checkbox_or_radio (element_type f))).
    destruct (resolveAsValid_spec f value (prepared h f value s w1 b))
      as (Hr & Hst & _ & _ & d & Hd & Hi & _).
    destruct (prepared_log h f value s w1 b Hlog) as (d0 & Hd0 & Hi0).
    rewrite Hr, Hst. split; [reflexivity|]. split; [|discriminate].
    rewrite (added_app (wld s) _ (d0 ++ d)).
    + rewrite invocations_app, Hi0, Hi. reflexivity.
    + rewrite Hd, Hd0, app_assoc. reflexivity.
Qed.

Lemma never_validated_state (f : Field) (s : vstate) :
  never_validated f = true ->
  reachable f s -> _lastValidationState (self s) <> Some false.
Proof.
  intros Hn H. induction H as [w|h o s _ IH|s _ IH].
  - discriminate.
  - apply (never_validated_step h o f s Hn IH).
  - discriminate.
Qed.

(** X20.  A checkbox or a radio button that is a field of its own
    (outside a group), and a field without rules, are never validated:
    whatever the page and the strategy, every evaluation resolves, and
    no rule is called, not even [required]. *)
Theorem lone_choice_is_never_validated :
  forall (h : host) (o : Options) (f : Field) (s : vstate),
    never_validated f = true ->
    reachable f s ->
    is_resolved (fst (FieldM.Field_whenValidate h o f s)) = true
    /\ invocations (added (wld s) (wld (snd (FieldM.Field_whenValidate h o f s)))) = [].
Proof.
  intros h o f s Hn Hr.
  destruct (never_validated_step h o f s Hn (never_validated_state f s Hn Hr))
    as (H1 & H2 & _).
  split; assumption.
Qed.

Lemma lone_choice_is_never_validated_witness :
  is_resolved (fst (FieldM.Field_whenValidate Sample.host_empty Sample.sequential
                      terms_checkbox (vstate_init 0))) = true
  /\ invocations
       (added world_init
          (wld (snd (FieldM.Field_whenValidate Sample.host_empty Sample.sequential
                       terms_checkbox (vstate_init 0))))) = [].
Proof.
  exact (lone_choice_is_never_validated Sample.host_empty Sample.sequential
           terms_checkbox (vstate_init 0) eq_refl
           (reach_built terms_checkbox world_init)).
Defined.

(* ================================================================== *)
(** ** Predicates that answer with a promise *)
(* ================================================================== *)

(** X21.  The verdict of a predicate that answers with a promise (or
    any thenable) is the way the promise settles, not its value: when it
    resolves, the rule passes and resolves with the same value, even if
    that value is [false]; when it is rejected with a text, the rule
    fails with a [ValidationError] whose message is that text, or the
    message of the validator if the text is empty, formatted with the
    requirement. *)
Theorem thenable_verdict_is_its_settlement :
  forall (h : host) (v : Validator) (p : list jsval -> fn_outcome)
         (value requirements cem : jsval) (w : world),
    validateFn v = FnPredicate p ->
    (forall x,
        p (call_args value requirements) = FnThenable (Resolved x) ->
        fst (Validator_validate h v value requirements cem w) = Normal (Resolved x))
    /\ (forall text,
           p (call_args value requirements) = FnThenable (Rejected (RawReason (VStr text))) ->
           fst (Validator_validate h v value requirements cem w)
           = Normal (Rejected
                       (ValidationError (name v)
                          (Utils.formatMessage
                             (if text =? "" then message v else VStr text)
                             requirements)))).
Proof.
  intros h v p value requirements cem w Hfn.
  unfold Validator_validate, apply_validateFn. rewrite Hfn. unfold_st.
  cbn [fst snd]. split.
  - intros x ->. reflexivity.
  - intros text ->. cbn [fst reason_view]. rewrite reject_with_text. reflexivity.
Qed.

Lemma thenable_verdict_is_its_settlement_witness :
  fst (Validator_validate Sample.host_empty free (VStr "x") (VStr "") VUndefined
         world_init)
  = Normal (Resolved (VBool false)).
Proof.
  exact (proj1 (thenable_verdict_is_its_settlement Sample.host_empty free
                  (fun _ => FnThenable (Resolved (VBool false)))
                  (VStr "x") (VStr "") VUndefined world_init eq_refl)
           (VBool false) eq_refl).
Defined.

(* ================================================================== *)
(** ** The gate of a group: what lets the rules of the group run *)
(* ================================================================== *)

Lemma list_update_length {A : Type} (i : nat) (x : A) (l : list A) :
  List.length (list_update i x l) = List.length l.
Proof.
  revert i. induction l as [|y l IH]; intros i; [destruct i; reflexivity|].
  destruct i; cbn [list_update List.length]; [reflexivity|]. rewrite IH. reflexivity.
Qed.

Lemma nth_list_update_eq {A : Type} (i : nat) (x d : A) (l : list A) :
  i < List.length l -> nth i (list_update i x l) d = x.
Proof.
  revert i. induction l as [|y l IH]; intros i Hi; cbn [List.length] in Hi; [lia|].
  destruct i; cbn [list_update nth]; [reflexivity|]. apply IH. lia.
Qed.

Lemma nth_list_update_neq {A : Type} (i j : nat) (x d : A) (l : list A) :
  i <> j -> nth j (list_update i x l) d = nth j l d.
Proof.
  revert i j. induction l as [|y l IH]; intros i j Hij; [destruct i; reflexivity|].
  destruct i, j; cbn [list_update nth]; try reflexivity; try congruence.
  apply IH. congruence.
Qed.

(** A plain field that resolves is left in the valid state, under
    either strategy. *)
Lemma Field_resolved_state (h : host) (o : Options) (f : Field) (s : vstate) :
  is_resolved (fst (FieldM.Field_whenValidate h o f s)) = true ->
  _lastValidationState (self (snd (FieldM.Field_whenValidate h o f s))) = Some true.
Proof.
  unfold FieldM.Field_whenValidate.
  destruct (FieldM.getValue h f (wld s)) as [value w1] eqn:Hget.
  destruct (answered_from_cache value (self s)) eqn:Hc.
  - rewrite (whenValidate_cached _ _ _ _ _ _ _ _ Hget Hc). cbn [fst snd self].
    destruct (_lastValidationState (self s)) as [[|]|]; try discriminate. reflexivity.
  - destruct (skipped h f value) eqn:Hsk.
    + rewrite (whenValidate_skipped _ _ _ _ _ _ _ _ Hget Hc Hsk). intros _.
      apply resolveAsValid_spec.
    + rewrite (whenValidate_run _ _ _ _ _ _ _ _ Hget Hc Hsk).
      change FieldM._preValidate with (@ret vstate _ (Resolved tt)).
      destruct o as [[|]].
      * change {| stopAtFirstError := true |} with Sample.sequential.
        rewrite run_rules_sequential.
        destruct (Utils.runSequential _ _) as [[vs|r] w2] eqn:Hrun; cbn [fst snd].
        -- intros _. apply on_settled_resolved.
        -- rewrite on_settled_rejected; [discriminate|].
           unfold Utils.runSequential in Hrun.
           eapply runSequential_rejects_with_list. rewrite Hrun. reflexivity.
      * change {| stopAtFirstError := false |} with Sample.concurrent.
        rewrite run_rules_concurrent.
        destruct (start_all _ _) as [[ps|e] w2]; [|discriminate].
        destruct (Utils.all ps) as [vs|r] eqn:Hall.
        -- intros _. apply on_settled_resolved.
        -- rewrite on_settled_rejected; [discriminate|].
           eapply all_rejects_with_list. exact Hall.
Qed.

Lemma all_cons_is_resolved {A : Type} (p : promise A) (ps : list (promise A)) :
  is_resolved (Utils.all (p :: ps)) = is_resolved p && is_resolved (Utils.all ps).
Proof.
  destruct p as [v|e].
  - rewrite all_cons_resolved. destruct (Utils.all ps); reflexivity.
  - rewrite all_cons_rejected. reflexivity.
Qed.

(** Starting the evaluations of some children of a group: each is run
    on its own object, and those that resolve are left valid. *)
Lemma children_started (h : host) (o : Options) (needs : list (nat * Field)) :
  NoDup (map fst needs) ->
  forall s : vstate,
    (forall c, In c needs -> fst c < List.length (kids s)) ->
    exists ps,
      fst (start_all (map (GroupFieldM.child_whenValidate h o) needs) s) = Normal ps
      /\ self (snd (start_all (map (GroupFieldM.child_whenValidate h o) needs) s))
         = self s
      /\ List.length (kids (snd (start_all (map (GroupFieldM.child_whenValidate h o)
                                               needs) s)))
         = List.length (kids s)
      /\ (forall i, ~ In i (map fst needs) ->
                    nth i (kids (snd (start_all (map (GroupFieldM.child_whenValidate h o)
                                                     needs) s))) fstate_init
                    = nth i (kids s) fstate_init)
      /\ (is_resolved (Utils.all ps) = true ->
          forall c, In c needs ->
                    _lastValidationState
                      (nth (fst c)
                         (kids (snd (start_all (map (GroupFieldM.child_whenValidate h o)
                                                   needs) s))) fstate_init)
                    = Some true).
Proof.
  induction needs as [|c needs IH]; intros Hnd s Hlt.
  - exists []. cbn. repeat split; auto. intros _ c [].
  - cbn [map] in Hnd. inversion Hnd as [|? ? Hnot Hnd']; subst.
    pose proof (Field_resolved_state h o (snd c)
                  {| self := nth (fst c) (kids s) fstate_init; kids := [];
                     wld := wld s |}) as Hres.
    destruct (FieldM.Field_whenValidate h o (snd c)
                {| self := nth (fst c) (kids s) fstate_init; kids := [];
                   wld := wld s |}) as [p sc] eqn:Ef.
    cbn [fst snd] in Hres.
    set (s1 := {| self := self s;
                  kids := list_update (fst c) (self sc) (kids s);
                  wld := wld sc |}).
    assert (Ec : GroupFieldM.child_whenValidate h o c s = (Normal p, s1)).
    { unfold GroupFieldM.child_whenValidate, bind, on_child, ret.
      rewrite Ef. reflexivity. }
    destruct (IH Hnd' s1) as (ps & Hps & Hself & Hlen & Hsame & Hvalid).
    { intros c' Hc'. cbn [s1 kids]. rewrite list_update_length.
      apply Hlt. right. exact Hc'. }
    destruct (start_all (map (GroupFieldM.child_whenValidate h o) needs) s1)
      as [r2 s2] eqn:Es.
    cbn [fst snd] in Hps, Hself, Hlen, Hsame, Hvalid. subst r2.
    assert (E : start_all (map (GroupFieldM.child_whenValidate h o) (c :: needs)) s
                = (Normal (p :: ps), s2)).
    { cbn [map start_all]. unfold bind, ret. rewrite Ec, Es. reflexivity. }
    rewrite E. cbn [fst snd].
    exists (p :: ps). split; [reflexivity|]. split; [exact Hself|].
    split; [rewrite Hlen; apply list_update_length|]. split.
    + intros i Hi. rewrite Hsame.
      * cbn [s1 kids]. apply nth_list_update_neq. intros E'. apply Hi. left. exact E'.
      * intros Hin. apply Hi. right. exact Hin.
    + rewrite all_cons_is_resolved. intros Hall.
      apply andb_true_iff in Hall as [Hp Hall].
      intros c' [<-|Hc'].
      * rewrite (Hsame (fst c) Hnot). cbn [s1 kids].
        rewrite nth_list_update_eq by (apply Hlt; left; reflexivity).
        apply Hres. exact Hp.
      * apply Hvalid; assumption.
Qed.

(** The filter of [_preValidate]: it reads the page and keeps, in
    order, the children it was asked about; a child it leaves out has
    been evaluated before. *)
Lemma filterM_needsValidation (h : host) (l : list (nat * Field)) :
  forall s : vstate,
    self (snd (filterM (GroupFieldM.needsValidation h) l s)) = self s
    /\ kids (snd (filterM (GroupFieldM.needsValidation h) l s)) = kids s
    /\ (forall i, In i (map fst (fst (filterM (GroupFieldM.needsValidation h) l s)))
                  -> In i (map fst l))
    /\ (NoDup (map fst l) ->
        NoDup (map fst (fst (filterM (GroupFieldM.needsValidation h) l s))))
    /\ (forall c, In c l ->
                  ~ In (fst c)
                       (map fst (fst (filterM (GroupFieldM.needsValidation h) l s))) ->
                  _lastValidationState (GroupFieldM.child_state s (fst c)) <> None).
Proof.
  induction l as [|c l IH]; intros s.
  - cbn. repeat split; auto.
  - assert (Hn : self (snd (GroupFieldM.needsValidation h c s)) = self s
                 /\ kids (snd (GroupFieldM.needsValidation h c s)) = kids s
                 /\ (fst (GroupFieldM.needsValidation h c s) = false ->
                     _lastValidationState (GroupFieldM.child_state s (fst c)) <> None)).
    { unfold GroupFieldM.needsValidation.
      destruct (_lastValidationState (GroupFieldM.child_state s (fst c)));
        [|repeat split; discriminate].
      unfold bind, ret, liftW.
      destruct (FieldM.getValue h (snd c) (wld s)). cbn.
      repeat split. discriminate. }
    destruct (GroupFieldM.needsValidation h c s) as [keep s1] eqn:En.
    cbn [fst snd] in Hn. destruct Hn as (Hs1 & Hk1 & Hkeep).
    specialize (IH s1).
    destruct (filterM (GroupFieldM.needsValidation h) l s1) as [kept s2] eqn:Ef.
    cbn [fst snd] in IH. destruct IH as (I1 & I2 & I3 & I4 & I5).
    assert (E : filterM (GroupFieldM.needsValidation h) (c :: l) s
                = (if keep then c :: kept else kept, s2)).
    { cbn [filterM]. unfold bind, ret. rewrite En, Ef. reflexivity. }
    rewrite E. cbn [fst snd].
    assert (Hcs : forall c' : nat * Field, GroupFieldM.child_state s1 (fst c')
                             = GroupFieldM.child_state s (fst c')).
    { intros c'. unfold GroupFieldM.child_state. rewrite Hk1. reflexivity. }
    split; [congruence|]. split; [congruence|]. split; [|split].
    + intros i Hi. cbn [map]. destruct keep; cbn [map] in Hi.
      * destruct Hi as [E'|Hi]; [left; exact E'|right; apply I3; exact Hi].
      * right. apply I3. exact Hi.
    + intros Hnd. cbn [map] in Hnd. inversion Hnd as [|? ? Hnot Hnd']; subst.
      destruct keep; [|apply I4; exact Hnd'].
      cbn [map]. constructor; [|apply I4; exact Hnd'].
      intros Hin. apply Hnot. apply I3. exact Hin.
    + intros c' [<-|Hc'] Hnotin.
      * destruct keep; [exfalso; apply Hnotin; left; reflexivity|].
        apply Hkeep. reflexivity.
      * rewrite <- Hcs. apply I5; [exact Hc'|].
        intros Hin. apply Hnotin. destruct keep; [right|]; exact Hin.
Qed.

Lemma indexed_fst (g : GroupField) :
  map fst (GroupFieldM.indexed g) = seq 0 (List.length (fields g)).
Proof.
  unfold GroupFieldM.indexed.
  generalize 0. induction (fields g) as [|f fs IH]; intros n; [reflexivity|].
  cbn [List.length seq combine map fst]. rewrite IH. reflexivity.
Qed.

Lemma indexed_bound (g : GroupField) (c : nat * Field) :
  In c (GroupFieldM.indexed g) -> fst c < List.length (fields g).
Proof.
  intros Hc. apply (in_map fst) in Hc. rewrite indexed_fst in Hc.
  apply in_seq in Hc. lia.
Qed.

(** The rules of the group itself leave the children alone. *)
Lemma run_rules_own_kids (h : host) (o : Options) (f : Field)
    (value : jsval) (s : vstate) :
  kids (snd (run_rules h o f (ret (Resolved tt)) value s)) = kids s.
Proof.
  unfold run_rules, bind at 1, ret at 1.
  unfold bind at 1.
  pose proof (liftW_self (FieldM._buildValidationsFor h o f value) s) as [_ Hs].
  destruct (liftW (FieldM._buildValidationsFor h o f value) s) as [[v|e] s1];
    cbn [snd] in Hs; [|cbn; now rewrite Hs].
  unfold FieldM._finalizeValidationResult, bind at 1.
  pose proof (liftW_self (FieldM.run_validations o v) s1) as [_ Hs1].
  destruct (liftW (FieldM.run_validations o v) s1) as [[vs|r] s2];
    cbn [snd] in Hs1; unfold FieldM.on_settled.
  - unfold FieldM._handleUI, FieldM._trigger. unfold_st. cbn.
    destruct (wld s2). cbn. now rewrite Hs1, Hs.
  - destruct (instanceof_Error r).
    + unfold FieldM._trigger. unfold_st. cbn. destruct (wld s2). cbn.
      now rewrite Hs1, Hs.
    + unfold FieldM._handleUI, FieldM._trigger. unfold_st. cbn.
      destruct (wld s2). cbn. now rewrite Hs1, Hs.
Qed.

(** The gate of a group: when [_preValidate] resolves, every child is
    in the valid state afterwards. *)
Lemma preValidate_resolved (h : host) (o : Options) (g : GroupField) (s : vstate) :
  fields g <> [] ->
  List.length (kids s) = List.length (fields g) ->
  is_resolved (fst (GroupFieldM._preValidate h o g s)) = true ->
  all_children_valid g (snd (GroupFieldM._preValidate h o g s)) = true.
Proof.
  intros Hf Hlen.
  destruct (GroupFieldM._preValidate h o g s) as [p s'] eqn:E. cbn [fst snd].
  unfold GroupFieldM._preValidate in E.
  assert (Hb : forall c, In c (GroupFieldM.indexed g) -> fst c < List.length (kids s)).
  { intros c Hc. rewrite Hlen. apply indexed_bound. exact Hc. }
  destruct (fields g) as [|f0 fs] eqn:Efs; [contradiction|].
  destruct (existsb _ (GroupFieldM.indexed g)) eqn:Hex;
    [injection E as <- <-; discriminate|].
  assert (Hnd : NoDup (map fst (GroupFieldM.indexed g)))
    by (rewrite indexed_fst; apply seq_NoDup).
  destruct (filterM_needsValidation h (GroupFieldM.indexed g) s)
    as (F1 & F2 & F3 & F4 & F5).
  unfold bind at 1 in E.
  destruct (filterM (GroupFieldM.needsValidation h) (GroupFieldM.indexed g) s)
    as [needs s1] eqn:Efl.
  cbn [fst snd] in F1, F2, F3, F4, F5.
  assert (Hold : forall c, In c (GroupFieldM.indexed g) ->
                           ~ In (fst c) (map fst needs) ->
                           _lastValidationState (nth (fst c) (kids s) fstate_init)
                           = Some true).
  { intros c Hc Hn. specialize (F5 c Hc Hn).
    assert (Hnf : _lastValidationState (GroupFieldM.child_state s (fst c))
                  <> Some false).
    { intros E'. apply Bool.not_true_iff_false in Hex. apply Hex.
      apply existsb_exists. exists c. split; [exact Hc|]. rewrite E'. reflexivity. }
    unfold GroupFieldM.child_state in F5, Hnf.
    destruct (_lastValidationState (nth (fst c) (kids s) fstate_init)) as [[|]|];
      [reflexivity|contradiction|contradiction]. }
  destruct needs as [|n0 needs'].
  - cbv beta zeta in E. unfold all_children_valid.
    destruct (forallb _ (GroupFieldM.indexed g)) eqn:Hall;
      injection E as <- <-; [|discriminate].
    intros _. exact Hall.
  - set (needs := n0 :: needs') in *.
    assert (Hb1 : forall c, In c needs -> fst c < List.length (kids s1)).
    { intros c Hc. rewrite F2.
      assert (Hi : In (fst c) (map fst (GroupFieldM.indexed g)))
        by (apply F3; apply in_map; exact Hc).
      rewrite indexed_fst in Hi. apply in_seq in Hi. rewrite Hlen, <- Efs. lia. }
    destruct (children_started h o needs (F4 Hnd) s1 Hb1)
      as (ps & Hps & _ & _ & Hsame & Hvalid).
    assert (Hgoal : is_resolved (Utils.all ps) = true ->
                    all_children_valid g
                      (snd (start_all (map (GroupFieldM.child_whenValidate h o) needs) s1))
                    = true).
    { intros Hres. unfold all_children_valid. apply forallb_forall. intros c Hc.
      cbv beta. unfold GroupFieldM.child_state.
      destruct (in_dec Nat.eq_dec (fst c) (map fst needs)) as [Hin|Hnin].
      - apply in_map_iff in Hin as (c' & Ec' & Hc').
        rewrite <- Ec'. rewrite (Hvalid Hres c' Hc'). reflexivity.
      - rewrite (Hsame _ Hnin), F2, (Hold c Hc Hnin). reflexivity. }
    unfold bind at 1 in E.
    destruct (stopAtFirstError o).
    + pose proof (strategies_agree _ _
                    (Forall2_same_pass_refl
                       (map (GroupFieldM.child_whenValidate h o) needs)) [] s1) as Hag.
      rewrite Hps in Hag. destruct Hag as [Hag1 Hag2].
      unfold Utils.runSequential in E.
      destruct (Utils.runSequential_next _ [] [] s1) as [[vs|r] s2] eqn:Eseq.
      * cbn [fst is_resolved] in Hag1. symmetry in Hag1.
        specialize (Hag2 Hag1). injection Hag2 as _ Hs2. subst s2.
        injection E as <- <-.
        intros _. apply Hgoal. exact Hag1.
      * destruct (instanceof_Error r); injection E as <- <-; discriminate.
    + unfold bind at 1 in E.
      destruct (start_all (map (GroupFieldM.child_whenValidate h o) needs) s1)
        as [st s2] eqn:Est.
      cbn [fst snd] in Hps, Hgoal. subst st.
      unfold ret at 1 in E.
      destruct (Utils.all ps) as [vs|r] eqn:Eall.
      * injection E as <- <-. intros _. apply Hgoal. reflexivity.
      * destruct (instanceof_Error r); injection E as <- <-; discriminate.
Qed.

(* ================================================================== *)
(** ** A group that resolves *)
(* ================================================================== *)

(** X22.  A group whose evaluation reaches the pre-validation hook (it
    is not answered from the cache and no early test of [whenValidate]
    settles it) and resolves has all its children in the valid state
    afterwards, under either strategy: the children never evaluated, or
    whose value changed, were evaluated and resolved, and the others
    were valid already.  The state holds one entry per child. *)
Theorem resolved_group_has_valid_children :
  forall (h : host) (o : Options) (g : GroupField) (s : vstate),
    fields g <> [] ->
    List.length (kids s) = List.length (fields g) ->
    answered_from_cache (fst (GroupFieldM.getValue h g (wld s))) (self s) = false ->
    skipped h (base g) (fst (GroupFieldM.getValue h g (wld s))) = false ->
    is_resolved (fst (GroupFieldM.GroupField_whenValidate h o g s)) = true ->
    all_children_valid g (snd (GroupFieldM.GroupField_whenValidate h o g s)) = true.
Proof.
  intros h o g s Hf Hlen Hc Hsk.
  unfold GroupFieldM.GroupField_whenValidate.
  destruct (GroupFieldM.getValue h g (wld s)) as [value w1] eqn:Hget.
  cbn [fst] in Hc, Hsk.
  rewrite (whenValidate_run _ _ _ _ _ _ _ _ Hget Hc Hsk).
  rewrite run_rules_after_hook.
  pose proof (preValidate_resolved h o g (prepared h (base g) value s w1 true)
                Hf Hlen) as Hgate.
  destruct (GroupFieldM._preValidate h o g (prepared h (base g) value s w1 true))
    as [[u|r] s1]; cbn [fst snd is_resolved] in Hgate |- *; [|discriminate].
  intros _. specialize (Hgate eq_refl).
  unfold all_children_valid, GroupFieldM.child_state in Hgate |- *.
  rewrite run_rules_own_kids. exact Hgate.
Qed.

Lemma resolved_group_has_valid_children_witness :
  all_children_valid name_pair
    (snd (GroupFieldM.GroupField_whenValidate host_both_typed Sample.concurrent
            name_pair (vstate_init 2))) = true.
Proof.
  apply (resolved_group_has_valid_children host_both_typed Sample.concurrent
           name_pair (vstate_init 2)).
  - discriminate.
  - reflexivity.
  - vm_compute. reflexivity.
  - vm_compute. reflexivity.
  - vm_compute. reflexivity.
Defined.

(* ================================================================== *)
(** ** Tables of messages *)
(* ================================================================== *)

Lemma lookup_prop_set_prop (k k' : string) (v : jsval) (l : list (string * jsval)) :
  lookup_prop k (set_prop k' v l) = if k' =? k then v else lookup_prop k l.
Proof.
  induction l as [|[k0 v0] l IH]; cbn [set_prop lookup_prop].
  - destruct (k' =? k); reflexivity.
  - destruct (String.eqb_spec k0 k') as [->|Hne]; cbn [lookup_prop].
    + destruct (k' =? k); reflexivity.
    + rewrite IH. destruct (String.eqb_spec k0 k) as [->|Hne'].
      * destruct (String.eqb_spec k' k) as [->|_]; [contradiction|reflexivity].
      * reflexivity.
Qed.

Lemma lookup_prop_assign_all_other (k : string) (sp tp : list (string * jsval)) :
  ~ In k (map fst sp) -> lookup_prop k (assign_all sp tp) = lookup_prop k tp.
Proof.
  unfold assign_all. revert tp.
  induction sp as [|[k1 v1] sp IH]; intros tp Hn; [reflexivity|].
  cbn [fold_left fst snd]. cbn [map fst] in Hn.
  rewrite IH by (intros H; apply Hn; right; exact H).
  rewrite lookup_prop_set_prop.
  destruct (String.eqb_spec k1 k) as [->|_]; [|reflexivity].
  exfalso. apply Hn. left. reflexivity.
Qed.

Lemma lookup_prop_assign_all (k : string) (sp tp : list (string * jsval)) :
  NoDup (map fst sp) -> In k (map fst sp) ->
  lookup_prop k (assign_all sp tp) = lookup_prop k sp.
Proof.
  unfold assign_all. revert tp.
  induction sp as [|[k1 v1] sp IH]; intros tp Hnd Hin; [contradiction|].
  cbn [map fst] in Hnd, Hin. inversion Hnd as [|? ? Hnot Hnd']; subst.
  cbn [fold_left fst snd lookup_prop].
  destruct (String.eqb_spec k1 k) as [->|Hne].
  - fold (assign_all sp (set_prop k v1 tp)).
    rewrite lookup_prop_assign_all_other by exact Hnot.
    rewrite lookup_prop_set_prop, String.eqb_refl. reflexivity.
  - destruct Hin as [E|Hin]; [contradiction|]. apply IH; assumption.
Qed.

Lemma lookup_prop_keys (k : string) (l : list (string * jsval)) :
  lookup_prop k l <> VUndefined -> In k (map fst l).
Proof.
  intros H. destruct (in_dec string_dec k (map fst l)) as [Hin|Hn]; [exact Hin|].
  exfalso. apply H. apply lookup_prop_absent. exact Hn.
Qed.


(** Texts are assigned, whatever the flag. *)
Lemma extend_props_group (rec : jsval -> jsval -> ST world (option jsval))
    (deep : bool) (sp tp : list (string * jsval)) (w : world) :
  is_group sp = true ->
  ExtendM.extend_props rec deep sp tp w = (Some (assign_all sp tp), w).
Proof.
  unfold assign_all, is_group. revert tp.
  induction sp as [|[k v] sp IH]; intros tp Hg; [reflexivity|].
  cbn [forallb snd] in Hg. apply andb_true_iff in Hg as [Hv Hg].
  destruct v; try discriminate.
  cbn [ExtendM.extend_props fold_left fst snd].
  unfold bind, ExtendM.extend_key, ret.
  cbn [typeof_object andb]. rewrite andb_false_r. cbn [andb].
  apply IH. exact Hg.
Qed.

Lemma is_group_set_prop (k : string) (v : jsval) (l : list (string * jsval)) :
  is_text v = true -> is_group l = true -> is_group (set_prop k v l) = true.
Proof.
  intros Hv. unfold is_group.
  induction l as [|[k0 v0] l IH]; cbn [set_prop forallb snd]; intros Hl.
  - rewrite Hv. reflexivity.
  - apply andb_true_iff in Hl as [H0 Hl].
    destruct (k0 =? k); cbn [forallb snd].
    + rewrite Hv, Hl. reflexivity.
    + rewrite H0, (IH Hl). reflexivity.
Qed.

Lemma is_group_assign_all (sp tp : list (string * jsval)) :
  is_group sp = true -> is_group tp = true -> is_group (assign_all sp tp) = true.
Proof.
  unfold assign_all. revert tp.
  induction sp as [|[k v] sp IH]; intros tp Hs Ht; [exact Ht|].
  unfold is_group in Hs. cbn [forallb snd] in Hs.
  apply andb_true_iff in Hs as [Hv Hs].
  cbn [fold_left fst snd]. apply IH; [exact Hs|].
  apply is_group_set_prop; assumption.
Qed.

Lemma is_message_table_set_prop (k : string) (v : jsval) (l : list (string * jsval)) :
  is_entry v = true -> is_message_table l = true ->
  is_message_table (set_prop k v l) = true.
Proof.
  intros Hv. unfold is_message_table.
  change (fun kv : string * jsval =>
            match snd kv with
            | VStr _ => true
            | VObj _ group => forallb (fun kv' => is_text (snd kv')) group
            | _ => false
            end) with (fun kv : string * jsval => is_entry (snd kv)).
  induction l as [|[k0 v0] l IH]; cbn [set_prop forallb snd]; intros Hl.
  - rewrite Hv. reflexivity.
  - apply andb_true_iff in Hl as [H0 Hl].
    destruct (k0 =? k); cbn [forallb snd].
    + rewrite Hv, Hl. reflexivity.
    + rewrite H0, (IH Hl). reflexivity.
Qed.

Lemma is_message_table_lookup (k : string) (l : list (string * jsval)) :
  is_message_table l = true ->
  lookup_prop k l = VUndefined \/ is_entry (lookup_prop k l) = true.
Proof.
  unfold is_message_table.
  induction l as [|[k0 v0] l IH]; cbn [forallb snd lookup_prop]; intros Hl.
  - left. reflexivity.
  - apply andb_true_iff in Hl as [H0 Hl].
    destruct (k0 =? k); [right; exact H0|apply IH; exact Hl].
Qed.

(** One key of the deep merge of a table into a table. *)
Lemma extend_key_tables (key : string) (val : jsval)
    (tp : list (string * jsval)) (w : world) :
  is_entry val = true -> is_message_table tp = true ->
  exists (tp' : list (string * jsval)) (w' : world),
    ExtendM.extend_key (ExtendM.extend_into true) true key val tp w = (Some tp', w')
    /\ is_message_table tp' = true
    /\ (forall k, k <> key -> lookup_prop k tp' = lookup_prop k tp)
    /\ match val with
       | VObj _ group =>
           exists r0, lookup_prop key tp'
                      = VObj r0 (assign_all group (group_of (lookup_prop key tp)))
       | _ => lookup_prop key tp' = val
       end.
Proof.
  intros Hv Ht. destruct val as [| | |s|r0 elems|g group]; try discriminate.
  - exists (set_prop key (VStr s) tp), w. unfold ExtendM.extend_key.
    cbn [typeof_object andb]. rewrite andb_false_r. cbn [andb].
    split; [reflexivity|]. split; [apply is_message_table_set_prop; [reflexivity|exact Ht]|].
    split.
    + intros k Hk. rewrite lookup_prop_set_prop.
      destruct (String.eqb_spec key k) as [->|_]; [contradiction|reflexivity].
    + rewrite lookup_prop_set_prop, String.eqb_refl. reflexivity.
  - cbn [is_entry] in Hv. unfold ExtendM.extend_key.
    cbn [truthy typeof_object isArray negb andb].
    assert (Hfin : forall (r1 : nat) (p1 : list (string * jsval)) (w1 : world),
               is_group p1 = true ->
               exists tp' w',
                 (merged <- ExtendM.extend_into true (VObj r1 p1) (VObj g group) ;;
                  match merged with
                  | Some inner' => ret (Some (set_prop key inner' tp))
                  | None => ret None
                  end) w1 = (Some tp', w')
                 /\ is_message_table tp' = true
                 /\ (forall k, k <> key -> lookup_prop k tp' = lookup_prop k tp)
                 /\ lookup_prop key tp' = VObj r1 (assign_all group p1)).
    { intros r1 p1 w1 Hp1.
      exists (set_prop key (VObj r1 (assign_all group p1)) tp), w1.
      unfold bind at 1. cbn [ExtendM.extend_into]. unfold bind at 1.
      rewrite (extend_props_group _ true group p1 w1 Hv). unfold ret.
      cbn [option_map]. split; [reflexivity|].
      split; [apply is_message_table_set_prop;
              [cbn [is_entry]; apply is_group_assign_all; assumption|exact Ht]|].
      split.
      - intros k Hk. rewrite lookup_prop_set_prop.
        destruct (String.eqb_spec key k) as [->|_]; [contradiction|reflexivity].
      - rewrite lookup_prop_set_prop, String.eqb_refl. reflexivity. }
    unfold bind at 1.
    destruct (is_message_table_lookup key tp Ht) as [Hc|Hc].
    + rewrite Hc. cbn [truthy typeof_object negb orb group_of].
      unfold bind at 1, fresh at 1, ret at 1.
      destruct (Hfin (w_next w) [] {| w_next := S (w_next w); w_log := w_log w |}
                  eq_refl) as (tp' & w' & E & H1 & H2 & H3).
      exists tp', w'. split; [exact E|]. split; [exact H1|]. split; [exact H2|].
      exists (w_next w). exact H3.
    + destruct (lookup_prop key tp) as [| | |s|r1 e1|r1 p1] eqn:Ecur; try discriminate.
      * cbn [typeof_object negb orb group_of]. rewrite orb_true_r.
        unfold bind at 1, fresh at 1, ret at 1.
        destruct (Hfin (w_next w) [] {| w_next := S (w_next w); w_log := w_log w |}
                    eq_refl) as (tp' & w' & E & H1 & H2 & H3).
        exists tp', w'. split; [exact E|]. split; [exact H1|]. split; [exact H2|].
        exists (w_next w). exact H3.
      * cbn [truthy typeof_object negb orb group_of]. unfold ret at 1.
        destruct (Hfin r1 p1 w Hc) as (tp' & w' & E & H1 & H2 & H3).
        exists tp', w'. split; [exact E|]. split; [exact H1|]. split; [exact H2|].
        exists r1. exact H3.
Qed.

(** The deep merge of a table of messages into a table of messages. *)
Lemma extend_props_tables (sp : list (string * jsval)) :
  is_message_table sp = true ->
  forall (tp : list (string * jsval)) (w : world),
    is_message_table tp = true ->
    exists (tp' : list (string * jsval)) (w' : world),
      ExtendM.extend_props (ExtendM.extend_into true) true sp tp w = (Some tp', w')
      /\ is_message_table tp' = true
      /\ (forall k, ~ In k (map fst sp) -> lookup_prop k tp' = lookup_prop k tp)
      /\ (NoDup (map fst sp) ->
          forall k, In k (map fst sp) ->
            match lookup_prop k sp with
            | VObj _ group =>
                exists r0, lookup_prop k tp'
                           = VObj r0 (assign_all group (group_of (lookup_prop k tp)))
            | v => lookup_prop k tp' = v
            end).
Proof.
  induction sp as [|[key val] sp IH]; intros Hs tp w Ht.
  - exists tp, w. split; [reflexivity|]. split; [exact Ht|].
    split; [reflexivity|]. intros _ k [].
  - assert (Hs' : is_entry val = true /\ is_message_table sp = true).
    { unfold is_message_table in Hs. cbn [forallb snd] in Hs.
      apply andb_true_iff in Hs as [Hv Hs]. split; [|exact Hs].
      destruct val; try discriminate; [reflexivity|exact Hv]. }
    destruct Hs' as [Hv Hsp].
    destruct (extend_key_tables key val tp w Hv Ht)
      as (tp1 & w1 & E1 & Ht1 & Hother & Hkey).
    destruct (IH Hsp tp1 w1 Ht1) as (tp' & w' & E & Ht' & Hout & Hin).
    exists tp', w'.
    split.
    { cbn [ExtendM.extend_props]. unfold bind at 1. rewrite E1. exact E. }
    split; [exact Ht'|]. split.
    + intros k Hk. cbn [map fst] in Hk.
      rewrite Hout by (intros H; apply Hk; right; exact H).
      apply Hother. intros ->. apply Hk. left. reflexivity.
    + intros Hnd k Hk. cbn [map fst] in Hnd, Hk.
      inversion Hnd as [|? ? Hnot Hnd']; subst.
      cbn [lookup_prop]. destruct (String.eqb_spec key k) as [->|Hne].
      * rewrite (Hout k Hnot). destruct val; exact Hkey.
      * destruct Hk as [E'|Hk]; [contradiction|].
        specialize (Hin Hnd' k Hk).
        rewrite (Hother k (not_eq_sym Hne)) in Hin. exact Hin.
Qed.

(* ================================================================== *)
(** ** Overriding messages *)
(* ================================================================== *)



(** X24.  The table of messages is built by a deep merge of the
    configuration into the defaults: a text of the configuration
    replaces the entry under its key, a key the configuration does not
    have keeps its entry, and a group of the configuration is merged
    into the group of the same key, whose other members keep their
    text.  (Both are tables of messages: texts and groups of texts,
    under distinct keys.) *)
Theorem configured_messages_are_merged_deep :
  forall (r : nat) (M : list (string * jsval)) (r' : nat)
         (config : list (string * jsval)) (w : world),
    NoDup (map fst config) ->
    is_message_table M = true ->
    is_message_table config = true ->
    exists M' w',
      Messages_at_load (VObj r M) (VObj r' config) w = (Some (VObj r M'), w')
      /\ (forall k, ~ In k (map fst config) -> lookup_prop k M' = lookup_prop k M)
      /\ (forall k text, lookup_prop k config = VStr text ->
                         lookup_prop k M' = VStr text)
      /\ (forall k g group member,
             lookup_prop k config = VObj g group ->
             ~ In member (map fst group) ->
             get_prop (lookup_prop k M') member = get_prop (lookup_prop k M) member)
      /\ (forall k g group member,
             lookup_prop k config = VObj g group ->
             NoDup (map fst group) ->
             In member (map fst group) ->
             get_prop (lookup_prop k M') member = lookup_prop member group).
Proof.
  intros r M r' config w Hnd HM Hc.
  destruct (extend_props_tables config Hc M w HM) as (M' & w' & E & _ & Hout & Hin).
  exists M', w'. split.
  { unfold Messages_at_load, ExtendM._extends.
    cbn [existsb ExtendM.is_true orb filter ExtendM.is_source ExtendM.extend_all].
    unfold bind at 1. cbn [ExtendM.extend_into]. unfold bind at 1.
    rewrite E. reflexivity. }
  split; [exact Hout|]. split; [|split].
  - intros k text Hk.
    assert (Hkin : In k (map fst config))
      by (apply lookup_prop_keys; rewrite Hk; discriminate).
    specialize (Hin Hnd k Hkin). rewrite Hk in Hin. exact Hin.
  - intros k g group member Hk Hm.
    assert (Hkin : In k (map fst config))
      by (apply lookup_prop_keys; rewrite Hk; discriminate).
    specialize (Hin Hnd k Hkin). rewrite Hk in Hin. destruct Hin as [r0 Hin].
    rewrite Hin. cbn [get_prop].
    rewrite lookup_prop_assign_all_other by exact Hm.
    destruct (lookup_prop k M); reflexivity.
  - intros k g group member Hk Hg Hm.
    assert (Hkin : In k (map fst config))
      by (apply lookup_prop_keys; rewrite Hk; discriminate).
    specialize (Hin Hnd k Hkin). rewrite Hk in Hin. destruct Hin as [r0 Hin].
    rewrite Hin. cbn [get_prop].
    apply lookup_prop_assign_all; assumption.
Qed.

Lemma configured_messages_are_merged_deep_witness :
  getErrorMessage
    (table_of (fst (Messages_at_load (VObj 0 MessagesDefaults) email_override
                      world_init)))
    "type" VUndefined (VStr "url")
  = VStr "This value should be a valid url."
  /\ getErrorMessage
       (table_of (fst (Messages_at_load (VObj 0 MessagesDefaults) email_override
                         world_init)))
       "type" VUndefined (VStr "email")
     = VStr "Not an email address.".
Proof.
  destruct (configured_messages_are_merged_deep 0 MessagesDefaults 2
              [("type", VObj 1 [("email", VStr "Not an email address.")])]
              world_init ltac:(repeat constructor; simpl; tauto) eq_refl eq_refl)
    as (M' & w' & E & Hout & _ & Hkeep & Hnew).
  change (VObj 2 [("type", VObj 1 [("email", VStr "Not an email address.")])])
    with email_override in E.
  rewrite E. cbn [fst table_of].
  pose proof (Hkeep "type" 1 [("email", VStr "Not an email address.")] "url"
                eq_refl ltac:(simpl; intros [H|[]]; discriminate)) as Hurl.
  pose proof (Hnew "type" 1 [("email", VStr "Not an email address.")] "email"
                eq_refl ltac:(repeat constructor; simpl; tauto)
                ltac:(left; reflexivity)) as Hemail.
  assert (Hty : exists g group, lookup_prop "type" M' = VObj g group).
  { destruct (lookup_prop "type" M') as [| | | | |g group] eqn:Ety;
      try (cbn in Hemail; discriminate).
    exists g, group. reflexivity. }
  destruct Hty as (g & group & Hty).
  unfold getErrorMessage. rewrite Hty in *. cbn [typeof_object].
  rewrite Hurl, Hemail. split; reflexivity.
Defined.

(* ================================================================== *)
(** ** A form that was reset *)
(* ================================================================== *)

Lemma mapM_member_reset (ms : list member) (w : world) :
  mapM member_reset ms w
  = (map (fun m => {| m_entity := m_entity m; m_self := fstate_reset;
                      m_kids := m_kids m |}) ms, w).
Proof.
  induction ms as [|m ms IH]; [reflexivity|].
  cbn [mapM map]. unfold bind at 1.
  assert (E : member_reset m w
              = ({| m_entity := m_entity m; m_self := fstate_reset;
                    m_kids := m_kids m |}, w)) by reflexivity.
  rewrite E. unfold bind at 1. rewrite IH. reflexivity.
Qed.

(** A group that was reset while one of its children is known to be
    invalid rejects with itself as soon as its evaluation reaches the
    gate. *)
Lemma reset_group_rejects (h : host) (o : Options) (g : GroupField)
    (ks : list fstate) (w : world) :
  fields g <> [] ->
  has_invalid_child g {| self := fstate_reset; kids := ks; wld := w |} = true ->
  skipped h (base g) (fst (GroupFieldM.getValue h g w)) = false ->
  fst (GroupFieldM.GroupField_whenValidate h o g
         {| self := fstate_reset; kids := ks; wld := w |})
  = Rejected (FieldReason (__id__ (base g))).
Proof.
  intros Hf Hinv Hsk. unfold GroupFieldM.GroupField_whenValidate.
  destruct (GroupFieldM.getValue h g w) as [value w1] eqn:Hget. cbn [fst] in Hsk.
  assert (Hc : answered_from_cache value
                 (self {| self := fstate_reset; kids := ks; wld := w |}) = false).
  { unfold answered_from_cache. cbn [self fstate_reset _lastValidationState].
    apply andb_false_r. }
  rewrite (whenValidate_run h o (base g) _ _
             {| self := fstate_reset; kids := ks; wld := w |} value w1 Hget Hc Hsk).
  rewrite run_rules_after_hook.
  rewrite preValidate_known_invalid; [reflexivity|exact Hf|].
  rewrite <- Hinv. apply has_invalid_child_kids. reflexivity.
Qed.

(** One rejected entry rejects the form. *)
Lemma mapM_member_rejected (h : host) (o : Options) (m : member) (ms : list member) :
  In m ms ->
  (forall w, is_resolved (fst (fst (FormM.member_whenValidate h o m w))) = false) ->
  forall w,
    is_resolved
      (Utils.all (map fst (fst (mapM (FormM.member_whenValidate h o) ms w)))) = false.
Proof.
  intros Hin Hm. induction ms as [|m0 ms IH]; intros w; [contradiction|].
  destruct (FormM.member_whenValidate h o m0 w) as [[p m'] w1] eqn:Em.
  destruct (mapM (FormM.member_whenValidate h o) ms w1) as [rs w2] eqn:Ers.
  assert (E : mapM (FormM.member_whenValidate h o) (m0 :: ms) w
              = ((p, m') :: rs, w2)).
  { cbn [mapM]. unfold bind, ret. rewrite Em, Ers. reflexivity. }
  rewrite E. cbn [fst map]. rewrite all_cons_is_resolved.
  destruct Hin as [->|Hin].
  - specialize (Hm w). rewrite Em in Hm. cbn [fst] in Hm. rewrite Hm. reflexivity.
  - specialize (IH Hin w1). rewrite Ers in IH. cbn [fst] in IH. rewrite IH.
    apply andb_false_r.
Qed.

(** X25.  [Form.reset()] resets the entries of the form and leaves the
    children of its groups as they are.  So a group one of whose
    children is known to be invalid is still held back after the reset:
    whatever the page holds by then, if the evaluation of the group
    reaches the gate (no early test of [whenValidate] settles it), the
    group rejects and the next evaluation of the form fails. *)
Theorem form_reset_leaves_children :
  forall (h : host) (o : Options) (form : FormM.Form) (m : member)
         (g : GroupField) (w : world),
    In m (FormM.fields form) ->
    m_entity m = Group g ->
    fields g <> [] ->
    has_invalid_child g {| self := m_self m; kids := m_kids m; wld := w |} = true ->
    (forall w', skipped h (base g) (fst (GroupFieldM.getValue h g w')) = false) ->
    map m_kids (FormM.fields (fst (Form_reset form w))) = map m_kids (FormM.fields form)
    /\ map m_self (FormM.fields (fst (Form_reset form w)))
       = map (fun _ => fstate_reset) (FormM.fields form)
    /\ forall w',
        is_resolved (fst (fst (FormM.whenValidate h o (fst (Form_reset form w)) w')))
        = false.
Proof.
  intros h o form m g w Hin He Hf Hinv Hsk.
  assert (E : Form_reset form w
              = ({| FormM.element := FormM.element form;
                    FormM.fields :=
                      map (fun m => {| m_entity := m_entity m; m_self := fstate_reset;
                                       m_kids := m_kids m |}) (FormM.fields form) |}, w)).
  { unfold Form_reset, bind. rewrite mapM_member_reset. reflexivity. }
  rewrite E. cbn [fst FormM.fields].
  split; [rewrite map_map; reflexivity|].
  split; [rewrite map_map; reflexivity|].
  intros w'. rewrite Form_whenValidate_fst. cbn [fst FormM.fields].
  apply (mapM_member_rejected h o
           {| m_entity := m_entity m; m_self := fstate_reset; m_kids := m_kids m |}).
  - apply (in_map (fun m => {| m_entity := m_entity m; m_self := fstate_reset;
                               m_kids := m_kids m |})). exact Hin.
  - intros w1. unfold FormM.member_whenValidate. cbn [m_entity m_self m_kids].
    rewrite He.
    pose proof (reset_group_rejects h o g (m_kids m) w1 Hf) as Hrej.
    destruct (GroupFieldM.GroupField_whenValidate h o g
                {| self := fstate_reset; kids := m_kids m; wld := w1 |}) as [p s'].
    cbn [fst] in Hrej |- *. rewrite Hrej; [reflexivity| |apply Hsk].
    rewrite <- Hinv. apply has_invalid_child_kids. reflexivity.
Qed.

Lemma form_reset_leaves_children_witness :
  is_resolved
    (fst (fst (FormM.whenValidate host_both_typed Sample.sequential
                 (fst (Form_reset names_form world_init)) world_init)))
  = false.
Proof.
  apply (form_reset_leaves_children host_both_typed Sample.sequential names_form
           {| m_entity := Group name_pair;
              m_self := self names_after_first_failed;
              m_kids := kids names_after_first_failed |}
           name_pair world_init).
  - left. reflexivity.
  - reflexivity.
  - discriminate.
  - vm_compute. reflexivity.
  - intros w'. reflexivity.
Defined.

(* ================================================================== *)
(** ** An event on a child *)
(* ================================================================== *)

Lemma eventTypeMatches_discrete (event : option string) :
  eventTypeMatches event "change blur"
  = match event with
    | Some type => (type =? "change") || (type =? "blur")
    | None => false
    end.
Proof.
  destruct event as [type|]; [|reflexivity].
  unfold eventTypeMatches.
  change (split_ws (trim "change blur")) with ["change"; "blur"].
  cbn [existsb]. rewrite orb_false_r.
  destruct (String.eqb_spec type "") as [->|_]; [reflexivity|].
  reflexivity.
Qed.

(** X26.  When an event on a child of a group has been handled, the
    group was told exactly when the evaluation of the child settled as
    valid or invalid (not with an exception) and either the cached state
    of the child changed or the event is a [change] or a [blur].  If the
    group was not told, it and the other children are as the evaluation
    of the child left them: typing in a child that stays invalid never
    re-evaluates the group.  If it was told and the child is invalid,
    the group is not left in the invalid state and none of its rules was
    called. *)
Theorem child_event_reaches_group :
  forall (h : host) (o : Options) (g : GroupField) (c : nat * Field)
         (event : option string) (s : vstate),
    fields g <> [] ->
    In c (GroupFieldM.indexed g) ->
    let run := on_child (fst c) (FieldM.Field_whenValidate h o (snd c)) s in
    let now := _lastValidationState (GroupFieldM.child_state (snd run) (fst c)) in
    let told :=
      group_is_told event (_lastValidationState (GroupFieldM.child_state s (fst c)))
        (fst run) now in
    let r := ChildEventM._silentValidate h o g c event s in
    (told = false -> snd r = snd run)
    /\ (told = true ->
        snd r = snd (GroupNotifyM.queueValidateFromChild h o g (snd run)))
    /\ (told = true -> now = Some false ->
        _lastValidationState (self (snd r)) <> Some false
        /\ kids (snd r) = kids (snd run)
        /\ invocations (added (wld (snd run)) (wld (snd r))) = []).
Proof.
  intros h o g c event s Hf Hc. cbn zeta.
  unfold ChildEventM._silentValidate.
  destruct (on_child (fst c) (FieldM.Field_whenValidate h o (snd c)) s)
    as [p s1] eqn:Erun.
  cbn [fst snd].
  assert (Hnotify :
            forall x : completion unit,
              snd ((ChildEventM.notifyParentIfNeeded h o g c event
                      (_lastValidationState (GroupFieldM.child_state s (fst c))) ;;;
                    ret x) s1)
              = if state_changed
                     (_lastValidationState (GroupFieldM.child_state s (fst c)))
                     (_lastValidationState (GroupFieldM.child_state s1 (fst c)))
                   || match event with
                      | Some type => (type =? "change") || (type =? "blur")
                      | None => false
                      end
                then snd (GroupNotifyM.queueValidateFromChild h o g s1)
                else s1).
  { intros x. unfold bind, ChildEventM.notifyParentIfNeeded, ret.
    rewrite eventTypeMatches_discrete.
    destruct (state_changed _ _ || _); [|reflexivity].
    destruct (GroupNotifyM.queueValidateFromChild h o g s1). reflexivity. }
  assert (Hinvalid :
            _lastValidationState (GroupFieldM.child_state s1 (fst c)) = Some false ->
            has_invalid_child g s1 = true).
  { intros Hst. unfold has_invalid_child. apply existsb_exists.
    exists c. split; [exact Hc|]. rewrite Hst. reflexivity. }
  assert (Htold : forall x : completion unit,
             let told :=
               state_changed
                 (_lastValidationState (GroupFieldM.child_state s (fst c)))
                 (_lastValidationState (GroupFieldM.child_state s1 (fst c)))
               || match event with
                  | Some type => (type =? "change") || (type =? "blur")
                  | None => false
                  end in
             let s2 := snd ((ChildEventM.notifyParentIfNeeded h o g c event
                               (_lastValidationState
                                  (GroupFieldM.child_state s (fst c))) ;;;
                             ret x) s1) in
             (told = false -> s2 = s1)
             /\ (told = true -> s2 = snd (GroupNotifyM.queueValidateFromChild h o g s1))
             /\ (told = true ->
                 _lastValidationState (GroupFieldM.child_state s1 (fst c)) = Some false ->
                 _lastValidationState (self s2) <> Some false
                 /\ kids s2 = kids s1
                 /\ invocations (added (wld s1) (wld s2)) = [])).
  { intros x. cbn zeta. rewrite (Hnotify x).
    destruct (state_changed _ _ || _).
    - split; [discriminate|]. split; [reflexivity|]. intros _ Hst.
      specialize (Hinvalid Hst).
      rewrite queueValidateFromChild_eq, Hinvalid.
      destruct (group_with_invalid_child h o g s1 Hf Hinvalid) as (H1 & H2 & H3).
      cbn zeta in H1, H2, H3.
      destruct (_lastValidationState (self s1)) as [[|]|] eqn:Est; cbn [snd].
      + split; [|split; assumption].
        destruct H3 as [-> | ->]; discriminate.
      + cbn [self wld kids _neutralizeUI _lastValidationState].
        split; [discriminate|]. split; [reflexivity|].
        rewrite (added_app (wld s1) (wld s1) []); [reflexivity|].
        rewrite app_nil_r. reflexivity.
      + split; [|split; assumption].
        destruct H3 as [-> | ->]; discriminate.
    - split; [reflexivity|]. split; discriminate. }
  destruct p as [v|reason].
  - cbn [group_is_told]. exact (Htold (Normal tt)).
  - destruct reason as [a m|m|v|id|errs]; cbn [group_is_told instanceof_Error snd];
      try (split; [reflexivity|split; discriminate]).
    exact (Htold (Normal tt)).
Qed.

Lemma child_event_reaches_group_witness :
  kids (snd (ChildEventM._silentValidate host_last_typed Sample.sequential name_pair
               (0, Sample.text_input "first"
                     [("required", Sample.standard "required" (VStr ""))])
               (Some "input") (vstate_init 2)))
  = kids names_after_first_failed
  /\ invocations
       (added (wld names_after_first_failed)
          (wld (snd (ChildEventM._silentValidate host_last_typed Sample.sequential
                       name_pair
                       (0, Sample.text_input "first"
                             [("required", Sample.standard "required" (VStr ""))])
                       (Some "input") (vstate_init 2)))))
     = [].
Proof.
  destruct (child_event_reaches_group host_last_typed Sample.sequential name_pair
              (0, Sample.text_input "first"
                    [("required", Sample.standard "required" (VStr ""))])
              (Some "input") (vstate_init 2)
              ltac:(discriminate) ltac:(left; reflexivity)) as (_ & _ & H).
  exact (proj2 (H eq_refl eq_refl)).
Defined.

(* ================================================================== *)
(** ** The order of the attributes *)
(* ================================================================== *)

Lemma set_prop_new {A : Type} (k : string) (v : A) (l : list (string * A)) :
  ~ In k (map fst l) -> set_prop k v l = l ++ [(k, v)].
Proof.
  induction l as [|[k0 v0] l IH]; intros Hn; [reflexivity|].
  cbn [set_prop map fst] in *.
  destruct (String.eqb_spec k0 k) as [->|_].
  - exfalso. apply Hn. left. reflexivity.
  - cbn [app]. rewrite IH; [reflexivity|]. intros H. apply Hn. right. exact H.
Qed.

(** Over attributes of the namespace with distinct keys, the loop of
    [_getAttr] appends one entry for each attribute it visits. *)
Lemma getAttr_loop_entries (namespace : string) (attributes : list attribute) :
  forall (attr : list (string * jsval)) (w : world),
    forallb (AttrM.in_namespace namespace) attributes = true ->
    NoDup (map fst attr ++ map (AttrM.key_of namespace) attributes) ->
    exists entries,
      fst (AttrM.getAttr_loop namespace attributes attr w) = attr ++ entries
      /\ Forall2 (entry_of namespace) attributes entries.
Proof.
  induction attributes as [|a attributes IH]; intros attr w Hns Hnd.
  - exists []. split; [cbn; now rewrite app_nil_r|constructor].
  - cbn [forallb] in Hns. apply andb_true_iff in Hns as [Ha Hns].
    unfold AttrM.in_namespace in Ha. apply andb_true_iff in Ha as [Hspec Hpre].
    cbn [map] in Hnd.
    assert (Hfresh : ~ In (AttrM.key_of namespace a) (map fst attr)).
    { intros Hin. apply NoDup_remove_2 in Hnd. apply Hnd.
      apply in_or_app. left. exact Hin. }
    destruct (deserialize (Some (attr_value a)) w) as [v w1] eqn:Ed.
    assert (Estep : AttrM.getAttr_step namespace attr a w
                    = (attr ++ [(AttrM.key_of namespace a, v)], w1)).
    { unfold AttrM.getAttr_step. rewrite Hspec, Hpre.
      unfold bind, ret. rewrite Ed. fold (AttrM.key_of namespace a).
      rewrite set_prop_new by exact Hfresh. reflexivity. }
    destruct (IH (attr ++ [(AttrM.key_of namespace a, v)]) w1 Hns)
      as (entries & E & Hall).
    { rewrite map_app. cbn [map fst]. rewrite <- app_assoc. cbn [app].
      exact Hnd. }
    exists ((AttrM.key_of namespace a, v) :: entries). split.
    + cbn [AttrM.getAttr_loop]. unfold bind at 1. rewrite Estep.
      rewrite E, <- app_assoc. reflexivity.
    + constructor; [|exact Hall]. split; [reflexivity|].
      exists w. rewrite Ed. reflexivity.
Qed.

Lemma entry_of_keys (namespace : string) (attributes : list attribute)
    (entries : list (string * jsval)) :
  Forall2 (entry_of namespace) attributes entries ->
  map fst entries = map (AttrM.key_of namespace) attributes.
Proof.
  induction 1 as [|a e attributes entries [Hk _] _ IH]; [reflexivity|].
  cbn [map]. rewrite Hk, IH. reflexivity.
Qed.

Lemma bind_entries_app (Messages : list (string * jsval))
    (lib : string -> jsval -> completion bool) (attributes : list (string * jsval))
    (entries1 entries2 : list (string * jsval)) :
  forall (b0 b : binding) (w0 : world),
    fst (Build.bind_entries Messages lib attributes (entries1 ++ entries2) b0 w0)
    = Normal b ->
    exists b1 w1,
      fst (Build.bind_entries Messages lib attributes entries1 b0 w0) = Normal b1
      /\ fst (Build.bind_entries Messages lib attributes entries2 b1 w1) = Normal b.
Proof.
  induction entries1 as [|e1 entries1 IH]; intros b0 b w0 H.
  - exists b0, w0. split; [reflexivity|exact H].
  - cbn [app Build.bind_entries] in H |- *. unfold bind at 1 in H.
    unfold bind at 1.
    destruct (Build.bind_entry Messages lib attributes b0 e1 w0) as [[b1|e] w1];
      [|discriminate].
    exact (IH b1 b w1 H).
Qed.

(** A rule none of whose earlier entries is its override is stored as
    [new Constraint] builds it. *)
Lemma rule_bound_as_built (Messages : list (string * jsval))
    (lib : string -> jsval -> completion bool)
    (pre post : list (string * jsval)) (nm : string) (req : jsval)
    (customValidators : list (string * Validator)) (w : world) (b : binding) :
  NoDup (map fst (pre ++ (nm, req) :: post)) ->
  ~ In (nm ++ "Message")%string (map fst pre) ->
  assoc nm dualValidators = None ->
  assoc nm dual = None ->
  ConstraintM.isValidConstraint customValidators nm req = true ->
  fst (Build._bindConstraints Messages lib (pre ++ (nm, req) :: post)
         customValidators w) = Normal b ->
  assoc nm (b_constraints b)
  = Some (fst (ConstraintM.new_Constraint Messages customValidators nm req world_init)).
Proof.
  intros Hnd Hno Hnodual Hnomerge Hvalid Hrun.
  assert (Hpre : ~ In nm (map fst pre) /\ ~ In nm (map fst post)).
  { rewrite map_app in Hnd. cbn [map fst] in Hnd.
    apply NoDup_remove_2 in Hnd. split; intros H; apply Hnd; apply in_or_app; auto. }
  destruct Hpre as [Hpre Hpost].
  unfold Build._bindConstraints in Hrun.
  destruct (bind_entries_app Messages lib _ pre ((nm, req) :: post) _ _ _ Hrun)
    as (b1 & w1 & Hrun1 & Hrun2).
  destruct (bind_entries_other Messages lib _ nm Hnodual Hnomerge pre _ b1 w Hpre Hrun1)
    as (_ & Hreg & Hused & Hdom).
  cbn [b_customValidators b_usedKeys b_domOptions map] in Hreg, Hused, Hdom.
  cbn [Build.bind_entries] in Hrun2. unfold bind at 1 in Hrun2.
  destruct (Build.bind_entry Messages lib _ b1 (nm, req) w1) as [[b2|e] w2] eqn:Estep;
    [|discriminate].
  destruct (bind_entries_other Messages lib _ nm Hnodual Hnomerge post b2 b w2
              Hpost Hrun2) as (Hcs & _).
  rewrite Hcs.
  assert (Hvalid1 : ConstraintM.isValidConstraint (b_customValidators b1) nm req = true).
  { unfold ConstraintM.isValidConstraint in *. rewrite Hreg. exact Hvalid. }
  unfold Build.bind_entry in Estep.
  destruct (existsb (String.eqb nm) (b_usedKeys b1)) eqn:Eu.
  { apply existsb_eqb_In in Eu. destruct (Hused Eu). }
  rewrite Hvalid1 in Estep.
  unfold Build.isDualConstraint in Estep. rewrite Hnodual in Estep.
  rewrite (addConstraint_plain Messages lib b1 b2 nm req w1).
  - f_equal. apply new_Constraint_fst. exact Hreg.
  - intros Hin. destruct (Hdom _ Hin) as [H|[]]. exact (Hno H).
  - exact Hvalid1.
  - rewrite Estep. reflexivity.
Qed.

(** X27.  The attributes of an element are read from the last to the
    first, and bound in that order.  So the override of a message
    ([<rule>-message]) takes effect only when it is written after its
    rule in the element: when no attribute after the rule is its
    override, the rule is stored as [new Constraint] builds it, with the
    message of its validator, even if an attribute before the rule
    declares one.  (The attributes are those of the namespace, with
    distinct keys; the rule is not merged with, or out of, others.) *)
Theorem override_written_before_its_rule_is_ignored :
  forall (Messages : list (string * jsval))
         (lib : string -> jsval -> completion bool) (namespace : string)
         (before after : list attribute) (rule : attribute)
         (customValidators : list (string * Validator)) (w : world) (b : binding),
    let nm := AttrM.key_of namespace rule in
    forallb (AttrM.in_namespace namespace) (before ++ rule :: after) = true ->
    NoDup (map (AttrM.key_of namespace) (before ++ rule :: after)) ->
    ~ In (nm ++ "Message")%string (map (AttrM.key_of namespace) after) ->
    assoc nm dualValidators = None ->
    assoc nm dual = None ->
    (forall w', ConstraintM.isValidConstraint customValidators nm
                  (fst (deserialize (Some (attr_value rule)) w')) = true) ->
    fst (bind_element Messages lib namespace (before ++ rule :: after)
           customValidators w) = Normal b ->
    exists w',
      assoc nm (b_constraints b)
      = Some (fst (ConstraintM.new_Constraint Messages customValidators nm
                     (fst (deserialize (Some (attr_value rule)) w')) world_init)).
Proof.
  intros Messages lib namespace before after rule customValidators w b nm
         Hns Hnd Hno Hnodual Hnomerge Hvalid Hrun.
  unfold bind_element, bind, AttrM._getAttr in Hrun.
  assert (Hns' : forallb (AttrM.in_namespace namespace)
                   (rev (before ++ rule :: after)) = true).
  { apply forallb_forall. intros a Ha. apply in_rev in Ha.
    exact (proj1 (forallb_forall _ _) Hns a Ha). }
  assert (Hnd' : NoDup (map fst (@nil (string * jsval))
                        ++ map (AttrM.key_of namespace) (rev (before ++ rule :: after)))).
  { cbn [map app]. rewrite map_rev. apply NoDup_rev. exact Hnd. }
  destruct (getAttr_loop_entries namespace (rev (before ++ rule :: after)) [] w
              Hns' Hnd') as (entries & E & Hall).
  destruct (AttrM.getAttr_loop namespace (rev (before ++ rule :: after)) [] w)
    as [attr w1].
  cbn [fst app] in E. subst attr.
  rewrite rev_app_distr in Hall. cbn [rev] in Hall. rewrite <- app_assoc in Hall.
  cbn [app] in Hall.
  apply Forall2_app_inv_l in Hall as (pre & rest & Hpre & Hrest & ->).
  inversion Hrest as [|a e l post [Hk [w' Hv]] Hpost]; subst.
  destruct e as [k req]. cbn [fst snd] in Hk, Hv. subst k req.
  fold nm in Hrun |- *.
  exists w'.
  assert (Hkeys : map fst (pre ++ (nm, fst (deserialize (Some (attr_value rule)) w'))
                                  :: post)
                  = rev (map (AttrM.key_of namespace) (before ++ rule :: after))).
  { rewrite map_app. cbn [map fst].
    rewrite (entry_of_keys _ _ _ Hpre), (entry_of_keys _ _ _ Hpost).
    rewrite !map_rev, map_app. cbn [map]. rewrite rev_app_distr. cbn [rev].
    rewrite <- app_assoc. reflexivity. }
  apply (rule_bound_as_built Messages lib pre post nm _ customValidators w1 b).
  - rewrite Hkeys. apply NoDup_rev. exact Hnd.
  - rewrite (entry_of_keys _ _ _ Hpre), map_rev. intros Hin. apply in_rev in Hin.
    exact (Hno Hin).
  - exact Hnodual.
  - exact Hnomerge.
  - apply Hvalid.
  - exact Hrun.
Qed.

Lemma override_written_before_its_rule_is_ignored_witness :
  exists b,
    fst (bind_element MessagesDefaults (fun _ _ => Normal false) "data-fiddo-"
           message_first [] world_init) = Normal b
    /\ option_map (fun c => option_map message (c_validator c))
         (assoc "required" (b_constraints b))
       = Some (Some (VStr "This value is required.")).
Proof.
  eexists. split; [reflexivity|].
  destruct (override_written_before_its_rule_is_ignored MessagesDefaults
              (fun _ _ => Normal false) "data-fiddo-"
              [ {| attr_name := "data-fiddo-required-message";
                   attr_value := "Tell us your name."; attr_specified := true |} ]
              []
              {| attr_name := "data-fiddo-required";
                 attr_value := ""; attr_specified := true |}
              [] world_init _
              eq_refl
              ltac:(repeat constructor; simpl; intuition discriminate)
              ltac:(simpl; tauto) eq_refl eq_refl
              ltac:(intros w'; reflexivity) eq_refl) as [w' H].
  change (AttrM.key_of "data-fiddo-"
            {| attr_name := "data-fiddo-required";
               attr_value := ""; attr_specified := true |}) with "required" in H.
  rewrite H. reflexivity.
Defined.

(* ================================================================== *)
(** ** Submitting a form *)
(* ================================================================== *)

Lemma all_is_resolved {A : Type} (ps : list (promise A)) :
  is_resolved (Utils.all ps) = forallb is_resolved ps.
Proof.
  induction ps as [|p ps IH]; [reflexivity|].
  rewrite all_cons_is_resolved, IH. reflexivity.
Qed.

Lemma forallb_map_fst {A B : Type} (f : A -> bool) (l : list (A * B)) :
  forallb f (map fst l) = forallb (fun x => f (fst x)) l.
Proof.
  induction l as [|x l IH]; [reflexivity|]. cbn [map forallb]. rewrite IH. reflexivity.
Qed.

(** What [Form.whenValidate] leaves: the settlement, the form and the
    trace, which ends with [form:validated] or with [form:error]. *)
Lemma Form_whenValidate_eq (h : host) (o : Options) (form : FormM.Form) (w : world) :
  let settled :=
    mapM (FormM.member_whenValidate h o) (FormM.fields form)
         (snd (FormM._trigger form "validate" w)) in
  let form' := {| FormM.element := FormM.element form;
                  FormM.fields := map snd (fst settled) |} in
  FormM.whenValidate h o form w
  = ((Utils.all (map fst (fst settled)), form'),
     {| w_next := w_next (snd settled);
        w_log := w_log (snd settled)
                 ++ [EvTrigger (FormM.element form)
                       (if is_resolved (Utils.all (map fst (fst settled)))
                        then "form:validated" else "form:error")] |}).
Proof.
  cbn zeta. unfold FormM.whenValidate. unfold bind at 1.
  destruct (FormM._trigger form "validate" w) as [[] w0]. cbn [snd].
  unfold bind at 1.
  destruct (mapM _ (FormM.fields form) w0) as [rs w1]. cbn [fst snd].
  destruct (Utils.all (map fst rs)); reflexivity.
Qed.

(** X28.  The handler of [submit].  An event flagged [valid_submit] is
    left alone.  Otherwise the form is evaluated, and the submit is let
    through exactly when every entry of the form resolves: the trace of
    the evaluation, which ends with [form:validated], is followed by
    [form:success], [form:submit] and the event [submit] itself.  When
    an entry is rejected no [submit] is triggered, and [form:error] is
    triggered twice in a row, once by [whenValidate] and once by the
    handler. *)
Theorem submit_is_let_through_when_valid :
  forall (h : host) (o : Options) (form : FormM.Form) (w : world),
    let el := FormM.element form in
    let settled :=
      fst (mapM (FormM.member_whenValidate h o) (FormM.fields form)
             (snd (FormM._trigger form "validate" w))) in
    let valid := forallb (fun x => is_resolved (fst x)) settled in
    let evaluated := snd (FormM.whenValidate h o form w) in
    let r := SubmitM.submit_handler h o form false w in
    SubmitM.submit_handler h o form true w = ((Normal None, form), w)
    /\ FormM.fields (snd (fst r)) = map snd settled
    /\ (valid = true ->
        ends_with (w_log evaluated) (EvTrigger el "form:validated")
        /\ w_log (snd r)
           = w_log evaluated
             ++ [EvTrigger el "form:success"; EvTrigger el "form:submit";
                 EvTrigger el "submit"])
    /\ (valid = false ->
        ends_with (w_log evaluated) (EvTrigger el "form:error")
        /\ w_log (snd r) = w_log evaluated ++ [EvTrigger el "form:error"]).
Proof.
  intros h o form w. cbn zeta.
  split; [reflexivity|].
  unfold SubmitM.submit_handler, bind. cbv beta iota.
  pose proof (Form_whenValidate_eq h o form w) as E. cbn zeta in E.
  rewrite E. cbn [fst snd w_log].
  rewrite all_is_resolved, forallb_map_fst.
  destruct (mapM (FormM.member_whenValidate h o) (FormM.fields form)
              (snd (FormM._trigger form "validate" w))) as [settled w1].
  cbn [fst snd].
  pose proof (all_is_resolved (map fst settled)) as Hall.
  rewrite forallb_map_fst in Hall.
  destruct (Utils.all (map fst settled)) as [vs|x]; cbn [is_resolved] in Hall;
    rewrite <- Hall.
  - split; [reflexivity|]. split; [|discriminate]. intros _.
    split; [eexists; reflexivity|].
    unfold bind, FormM._trigger, SubmitM._submit, emit, ret.
    cbn [fst snd w_log w_next FormM.element]. rewrite <- !app_assoc. reflexivity.
  - split; [reflexivity|]. split; [discriminate|]. intros _.
    split; [eexists; reflexivity|].
    unfold bind, FormM._trigger, emit, ret.
    cbn [fst snd w_log w_next FormM.element]. reflexivity.
Qed.

Lemma member_whenValidate_entity (h : host) (o : Options) (m : member) (w : world) :
  m_entity (snd (fst (FormM.member_whenValidate h o m w))) = m_entity m.
Proof.
  unfold FormM.member_whenValidate.
  destruct (match m_entity m with
            | PlainField f => FieldM.Field_whenValidate h o f
            | Group g => GroupFieldM.GroupField_whenValidate h o g
            end {| self := m_self m; kids := m_kids m; wld := w |}) as [p s'].
  reflexivity.
Qed.

Lemma mapM_member_entities (h : host) (o : Options) (ms : list member) :
  forall w,
    map m_entity (map snd (fst (mapM (FormM.member_whenValidate h o) ms w)))
    = map m_entity ms.
Proof.
  induction ms as [|m ms IH]; intros w; [reflexivity|].
  pose proof (member_whenValidate_entity h o m w) as Hm.
  destruct (FormM.member_whenValidate h o m w) as [[p m'] w1] eqn:Em.
  specialize (IH w1).
  destruct (mapM (FormM.member_whenValidate h o) ms w1) as [rs w2] eqn:Ers.
  assert (E : mapM (FormM.member_whenValidate h o) (m :: ms) w = ((p, m') :: rs, w2)).
  { cbn [mapM]. unfold bind, ret. rewrite Em, Ers. reflexivity. }
  rewrite E. cbn [fst snd map] in *. rewrite Hm, IH. reflexivity.
Qed.

Lemma find_middle {A : Type} (f : A -> bool) (l1 l2 : list A) (x : A) :
  (forall y, In y l1 -> f y = false) -> f x = true ->
  find f (l1 ++ x :: l2) = Some x.
Proof.
  intros H1 Hx. induction l1 as [|y l1 IH]; cbn [app find].
  - rewrite Hx. reflexivity.
  - rewrite (H1 y (or_introl eq_refl)). apply IH.
    intros z Hz. apply H1. right. exact Hz.
Qed.

(** The reasons [Utils.all] collects start with the reason of the
    first promise that is rejected. *)
Lemma all_first_rejected {A : Type} (pre post : list (promise A)) (e : reason) :
  forallb is_resolved pre = true ->
  exists errors, Utils.all (pre ++ Rejected e :: post) = Rejected (ErrorList (e :: errors)).
Proof.
  intros Hpre. induction pre as [|p pre IH]; cbn [app].
  - rewrite all_cons_rejected. eexists. reflexivity.
  - cbn [forallb] in Hpre. apply andb_true_iff in Hpre as [Hp Hpre].
    destruct p as [v|e']; [|discriminate].
    destruct (IH Hpre) as [errors E].
    rewrite all_cons_resolved, E. eexists. reflexivity.
Qed.

(** X29.  A submit that fails puts the focus on the first entry of the
    form, in the order of the form, whose evaluation is rejected: on its
    element when it is a plain field, and when it is a group with
    children on the first child that is not marked valid, or on the
    first child if all are.  When that entry is rejected with an
    exception instead of itself, [focus] throws.  (The entries of the
    form have distinct identifiers.) *)
Theorem failed_submit_focuses_first_failed_entry :
  forall (h : host) (o : Options) (form : FormM.Form) (w : world)
         (pre post : list (promise jsval * member)) (e : reason) (m' : member),
    NoDup (map (fun m => entity_id (m_entity m)) (FormM.fields form)) ->
    fst (mapM (FormM.member_whenValidate h o) (FormM.fields form)
           (snd (FormM._trigger form "validate" w)))
    = pre ++ (Rejected e, m') :: post ->
    forallb (fun x => is_resolved (fst x)) pre = true ->
    (e = FieldReason (entity_id (m_entity m')) ->
     fst (fst (SubmitM.submit_handler h o form false w))
     = Normal (SubmitM.focus_target m'))
    /\ ((forall id, e <> FieldReason id) ->
        throws (fst (fst (SubmitM.submit_handler h o form false w))) = true).
Proof.
  intros h o form w pre post e m' Hnd Hsettled Hpre.
  pose proof (mapM_member_entities h o (FormM.fields form)
                (snd (FormM._trigger form "validate" w))) as Hent.
  unfold SubmitM.submit_handler, bind. cbv beta iota.
  pose proof (Form_whenValidate_eq h o form w) as E. cbn zeta in E.
  rewrite E. cbn [fst snd].
  destruct (mapM (FormM.member_whenValidate h o) (FormM.fields form)
              (snd (FormM._trigger form "validate" w))) as [settled w1].
  cbn [fst snd] in Hsettled, Hent |- *. subst settled.
  rewrite map_app in *. cbn [map fst snd] in *.
  destruct (all_first_rejected (map fst pre) (map fst post) e) as [errors Hall].
  { rewrite forallb_map_fst. exact Hpre. }
  rewrite Hall. unfold FormM._trigger, emit, ret. cbn [fst snd].
  split.
  - intros ->. unfold SubmitM.focus. cbn [FormM.fields].
    rewrite map_app. cbn [map snd].
    rewrite find_middle; [reflexivity| |apply String.eqb_refl].
    intros y Hy. apply String.eqb_neq. intros Heq.
    assert (Hids : map (fun m => entity_id (m_entity m)) (FormM.fields form)
                   = map entity_id
                       (map m_entity (map snd pre ++ m' :: map snd post))).
    { rewrite Hent, map_map. reflexivity. }
    rewrite Hids, !map_app in Hnd. cbn [map] in Hnd.
    apply NoDup_remove_2 in Hnd. apply Hnd. apply in_or_app. left.
    rewrite <- Heq. apply in_map. apply in_map. exact Hy.
  - intros Hne. unfold SubmitM.focus.
    destruct e as [a msg|msg|v|id|errs]; try reflexivity.
    exfalso. exact (Hne id eq_refl).
Qed.

Lemma failed_submit_focuses_first_failed_entry_witness :
  fst (fst (SubmitM.submit_handler Sample.host_empty Sample.sequential signup_form
              false world_init))
  = Normal (Some "name").
Proof.
  assert (Hs : exists post e m',
             fst (mapM (FormM.member_whenValidate Sample.host_empty Sample.sequential)
                    (FormM.fields signup_form)
                    (snd (FormM._trigger signup_form "validate" world_init)))
             = [] ++ (Rejected e, m') :: post
             /\ e = FieldReason (entity_id (m_entity m'))
             /\ SubmitM.focus_target m' = Some "name").
  { vm_compute. eexists _, _, _. split; [reflexivity|]. split; reflexivity. }
  destruct Hs as (post & e & m' & Hs & He & Ht).
  rewrite <- Ht.
  apply (proj1 (failed_submit_focuses_first_failed_entry Sample.host_empty
                  Sample.sequential signup_form world_init [] post e m'
                  ltac:(repeat constructor; simpl; intuition discriminate)
                  Hs eq_refl) He).
Defined.

(* ================================================================== *)
(** ** Identifiers *)
(* ================================================================== *)

Lemma string_app_empty_r (s : string) : (s ++ "")%string = s.
Proof. induction s as [|c s IH]; [reflexivity|]. cbn [append]. rewrite IH. reflexivity. Qed.

Lemma exec_all_run (a : string) :
  string_forall (fun c => negb (is_bracket c)) a = true ->
  forall run rest,
    IdM.exec_all false run (a ++ rest) = IdM.exec_all false (run ++ a) rest.
Proof.
  induction a as [|c a IH]; intros Ha run rest.
  - cbn [append]. rewrite string_app_empty_r. reflexivity.
  - cbn [string_forall] in Ha. apply andb_true_iff in Ha as [Hc Ha].
    unfold is_bracket in Hc. apply negb_true_iff, orb_false_iff in Hc as [Ho Hcl].
    cbn [append IdM.exec_all]. rewrite Ho, Hcl.
    rewrite (IH Ha). rewrite string_app_assoc. reflexivity.
Qed.

Lemma exec_all_inside (k : string) :
  string_forall (fun c => negb (is_bracket c) && negb (is_line_terminator c)) k = true ->
  forall run rest,
    IdM.exec_all true run (k ++ String "]" rest)
    = (run ++ k)%string :: IdM.exec_all false "" rest.
Proof.
  induction k as [|c k IH]; intros Hk run rest.
  - cbn [append IdM.exec_all]. cbn. rewrite string_app_empty_r. reflexivity.
  - cbn [string_forall] in Hk. apply andb_true_iff in Hk as [Hc Hk].
    apply andb_true_iff in Hc as [Hc _].
    unfold is_bracket in Hc. apply negb_true_iff, orb_false_iff in Hc as [_ Hcl].
    cbn [append IdM.exec_all]. rewrite Hcl.
    rewrite (IH Hk). rewrite string_app_assoc. reflexivity.
Qed.

Lemma closes_key (k rest : string) :
  string_forall (fun c => negb (is_bracket c) && negb (is_line_terminator c)) k = true ->
  IdM.closes (k ++ String "]" rest) = true.
Proof.
  induction k as [|c k IH]; intros Hk; [reflexivity|].
  cbn [string_forall] in Hk. apply andb_true_iff in Hk as [Hc Hk].
  apply andb_true_iff in Hc as [Hc Hlt].
  unfold is_bracket in Hc. apply negb_true_iff, orb_false_iff in Hc as [_ Hcl].
  apply negb_true_iff in Hlt.
  cbn [append IdM.closes]. rewrite Hcl, Hlt. apply IH. exact Hk.
Qed.

Lemma is_key_spec (k : string) :
  is_key k = true ->
  string_forall (fun c => negb (is_bracket c) && negb (is_line_terminator c)) k = true
  /\ trim k <> "".
Proof.
  unfold is_key. intros H. apply andb_true_iff in H as [H1 H2].
  split; [exact H1|]. apply negb_true_iff, String.eqb_neq in H2. exact H2.
Qed.

(** The matches over [[k1][k2]...], after a run that is not empty. *)
Lemma exec_all_bracketed (keys : list string) :
  forallb is_key keys = true ->
  forall run,
    IdM.exec_all false run (bracketed keys) = IdM.flush run ++ keys.
Proof.
  induction keys as [|k keys IH]; intros Hk run.
  - cbn. rewrite app_nil_r. reflexivity.
  - cbn [forallb] in Hk. apply andb_true_iff in Hk as [Hk Hks].
    destruct (is_key_spec k Hk) as [Hplain _].
    cbn [bracketed]. cbn [append IdM.exec_all]. cbn [Ascii.eqb Bool.eqb andb].
    rewrite (closes_key k (bracketed keys) Hplain).
    rewrite (exec_all_inside k Hplain "" (bracketed keys)).
    rewrite (IH Hks ""). reflexivity.
Qed.

Lemma includes_app_r (c : ascii) (a b : string) :
  includes c b = true -> includes c (a ++ b) = true.
Proof.
  intros Hb. induction a as [|x a IH]; [exact Hb|].
  cbn [append includes]. rewrite IH. apply orb_true_r.
Qed.

Lemma filter_nonblank_keys (keys : list string) :
  forallb is_key keys = true ->
  filter (fun part => negb (part =? "")) (map trim keys) = map trim keys.
Proof.
  induction keys as [|k keys IH]; intros Hk; [reflexivity|].
  cbn [forallb] in Hk. apply andb_true_iff in Hk as [Hk Hks].
  destruct (is_key_spec k Hk) as [_ Hne].
  cbn [map filter]. apply String.eqb_neq in Hne. rewrite Hne. cbn [negb].
  rewrite (IH Hks). reflexivity.
Qed.

Lemma join_with_nonempty (sep : string) (l : list string) :
  l <> [] -> Forall (fun s => s <> "") l -> join_with sep l <> "".
Proof.
  intros Hl Hall. destruct l as [|x l]; [contradiction|].
  inversion Hall as [|? ? Hx _]; subst.
  cbn [join_with]. destruct l; [exact Hx|].
  destruct x; [contradiction|discriminate].
Qed.

(** X30.  The identifier of an element without [id] whose name is
    [root[k1]...[kn]] is [k1_..._kn], the keys trimmed: the root is
    dropped, so elements whose names differ by their root alone get the
    same identifier; no counter is used.  An element with an [id] is
    identified by it.  (The root and the keys hold no bracket and are
    not blank, the keys hold no line break, and there is a key.) *)
Theorem bracketed_name_loses_its_root :
  forall (root : string) (keys : list string) (e : IdM.element)
         (globalIds : list (string * nat)),
    is_root root = true ->
    forallb is_key keys = true ->
    keys <> [] ->
    IdM.el_name e = Some (root ++ bracketed keys)%string ->
    IdM.parseInputName (IdM.el_name e) = join_with "_" (map trim keys)
    /\ (IdM.el_id e = "" ->
        IdM.getElementId e globalIds = (join_with "_" (map trim keys), globalIds))
    /\ (IdM.el_id e <> "" ->
        IdM.getElementId e globalIds = (IdM.el_id e, globalIds)).
Proof.
  intros root keys e globalIds Hroot Hkeys Hne Hname.
  unfold is_root in Hroot. apply andb_true_iff in Hroot as [Hplain Hblank].
  apply negb_true_iff in Hblank.
  assert (Hparse : IdM.parseInputName (IdM.el_name e) = join_with "_" (map trim keys)).
  { rewrite Hname. unfold IdM.parseInputName.
    destruct keys as [|k keys]; [contradiction|].
    assert (Hnonempty : (root ++ bracketed (k :: keys) =? "") = false).
    { apply String.eqb_neq. apply append_nonempty_r. discriminate. }
    rewrite Hnonempty.
    rewrite (includes_app_r "["%char root (bracketed (k :: keys))) by reflexivity.
    cbn [negb].
    rewrite (exec_all_run root Hplain "" (bracketed (k :: keys))).
    cbn [append]. rewrite (exec_all_bracketed (k :: keys) Hkeys root).
    assert (Hr : root <> "") by (intros ->; discriminate).
    unfold IdM.flush. apply String.eqb_neq in Hr. rewrite Hr.
    cbn [app]. rewrite map_cons. cbn [filter]. rewrite Hblank. cbn [negb].
    rewrite (filter_nonblank_keys (k :: keys) Hkeys). cbn [map]. reflexivity. }
  split; [exact Hparse|]. split.
  - intros Hid. unfold IdM.getElementId. rewrite Hid, Hparse. cbn [String.eqb negb].
    assert (Hj : join_with "_" (map trim keys) <> "").
    { apply join_with_nonempty.
      - destruct keys; [contradiction|discriminate].
      - apply Forall_forall. intros s Hs. apply in_map_iff in Hs as (k & <- & Hk).
        apply (is_key_spec k). exact (proj1 (forallb_forall _ _) Hkeys k Hk). }
    apply String.eqb_neq in Hj. rewrite Hj. reflexivity.
  - intros Hid. unfold IdM.getElementId. apply String.eqb_neq in Hid.
    rewrite Hid. reflexivity.
Qed.

Lemma bracketed_name_loses_its_root_witness :
  IdM.parseInputName (Some "user[info][email]") = "info_email"
  /\ IdM.parseInputName (Some "admin[info][email]") = "info_email".
Proof.
  split.
  - exact (proj1 (bracketed_name_loses_its_root "user" ["info"; "email"]
                    {| IdM.el_id := ""; IdM.el_name := Some "user[info][email]";
                       IdM.el_tagName := "INPUT" |} []
                    eq_refl eq_refl ltac:(discriminate) eq_refl)).
  - exact (proj1 (bracketed_name_loses_its_root "admin" ["info"; "email"]
                    {| IdM.el_id := ""; IdM.el_name := Some "admin[info][email]";
                       IdM.el_tagName := "INPUT" |} []
                    eq_refl eq_refl ltac:(discriminate) eq_refl)).
Defined.

(* ================================================================== *)
(** ** The message of a rule that fails *)
(* ================================================================== *)




(* ------------------------------------------------------------------ *)
(** ** Evaluations that overlap *)

(** Cutting an evaluation where its rules wait for an answer loses
    nothing: started and finished in one go, it is [whenValidate]. *)
Lemma start_then_finish (h : host) (o : Options) (f : Field)
    (getValue : ST world jsval) (pre : ST vstate (promise unit)) (s : vstate) :
  bind (PendingM.whenValidate_start h o f getValue pre)
       (PendingM.whenValidate_finish f) s
  = FieldM.whenValidate h o f getValue pre s.
Proof.
  unfold PendingM.whenValidate_start, FieldM.whenValidate,
    FieldM._finalizeValidationResult, bind, liftW, get_self, modify_self, ret.
  cbv beta iota.
  destruct (getValue (wld s)) as [value w1].
  cbn [self kids wld].
  destruct (Utils.areEquals value (_lastValidatedValue (self s)) && _) eqn:Hc.
  - destruct (_lastValidationState (self s)) as [[|]|]; reflexivity.
  - cbv beta iota; cbn [self kids wld].
    destruct (Utils.cloneValue value w1) as [cloned w2].
    cbv beta iota; cbn [self kids wld].
    assert (Hskip : forall s0,
      (let (a, s') := (let (a1, s'1) := FieldM.resolveAsValid f value false s0 in
                       (Settled a1, s'1)) in
       PendingM.whenValidate_finish f a s')
      = FieldM.resolveAsValid f value false s0).
    { intros s0. destruct (FieldM.resolveAsValid f value false s0). reflexivity. }
    destruct (FieldM.is_checkbox_or_radio (element_type f)); [apply Hskip|].
    cbv beta iota; cbn [self kids wld].
    destruct (FieldM.shouldValidate h f w2) as [should w3].
    cbv beta iota; cbn [self kids wld].
    destruct (negb should); [apply Hskip|].
    destruct (negb (Utils.size_truthy _)); [apply Hskip|].
    destruct (negb (dom_visible h (__id__ f))); [apply Hskip|].
    destruct (Utils.empty value && negb (FieldM._isRequired f)); [apply Hskip|].
    cbv beta iota; cbn [self kids wld].
    destruct (pre _) as [[u|r] s3]; [|reflexivity].
    cbv beta iota; cbn [self kids wld].
    destruct (FieldM._buildValidationsFor h o f value (wld s3)) as [[v|e] w4];
      [|reflexivity].
    cbv beta iota; cbn [self kids wld].
    destruct (FieldM.run_validations o v w4) as [answers w5].
    reflexivity.
Qed.

(** C9, at the failing input: the user name, which carries a rule
    checked on the server and no [required] rule, is evaluated on
    ["a@b.com"]; while the request is out, the input is blanked to two
    spaces and evaluated again, which settles valid through the skip of
    empty optional fields and remembers the blank value; then the
    server rejects the first request, and the callbacks of the first
    evaluation write the invalid state next to the blank value.  From
    then on every evaluation of the blank, optional field is answered
    from the cache and rejects, calling nothing. *)
Theorem late_answer_rejects_blank_optional_field :
  FieldM._isRequired username = false
  /\ Utils.empty (VStr "  ") = true
  /\ fst username_requested
     = Waiting (VStr "a@b.com")
         (Rejected (ErrorList [ValidationError "emailAvailable" (VStr "Not Found")]))
  /\ fst username_blanked = Resolved (VStr "  ")
  /\ _lastValidationState (self (snd username_blanked)) = Some true
  /\ fst username_answered = Rejected (FieldReason "username")
  /\ _lastValidatedValue (self (snd username_answered)) = VStr "  "
  /\ _lastValidationState (self (snd username_answered)) = Some false
  /\ (forall o : Options,
         let r := FieldM.Field_whenValidate (Sample.host_typed "  ") o username
                    (snd username_answered) in
         fst r = Rejected (FieldReason "username")
         /\ self (snd r) = self (snd username_answered)
         /\ added (wld (snd username_answered)) (wld (snd r)) = []).
Proof.
  repeat split; try (vm_compute; reflexivity);
    destruct o as [[|]]; vm_compute; reflexivity.
Qed.
